(** * Ray autoscaler v2: reconciler and resource-demand scheduler

    A shallow embedding of
      - [python/ray/autoscaler/v2/instance_manager/reconciler.py]
      - [python/ray/autoscaler/v2/scheduler.py]
    and the properties of the specification checked against it.

    Conventions of the embedding.
      - Python [int] is [Z]; the resource quantities (Python floats holding
        resource amounts) are the canonical rationals [Qc], so that [==] is
        Leibniz equality and the arithmetic is exact.
      - A [Dict[str, float]] or [Dict[str, str]] whose iteration order is
        immaterial is a [gmap]; a dict whose insertion order is observable
        (node type configs, per-type buckets, update batches) is an
        association list handled with [dict_get] and [dict_set].
      - Scheduling nodes are mutable Python objects that the scheduler shares
        between lists ([[node] * k]) and copies with [copy.deepcopy]; they
        live in a heap and lists hold references.
      - Exceptions are the [Err] results of a state and error monad. *)

From Stdlib Require Import ZArith QArith Qcanon Ascii String List Sorting.Sorted
  Permutation Lia.
From stdpp Require Import base decidable option numbers list gmap strings fin_maps.

Set Default Proof Using "Type".
Local Open Scope Z_scope.

(* ===================================================================== *)
(** * Part I: the embedding *)
(* ===================================================================== *)

(** ** Python helpers *)

(** [d.get(k)] and [d[k] = v] on an insertion-ordered dict. *)
Fixpoint dict_get {K V} `{EqDecision K} (d : list (K * V)) (k : K) : option V :=
  match d with
  | [] => None
  | (k', v) :: d' => if decide (k' = k) then Some v else dict_get d' k
  end.

Fixpoint dict_set {K V} `{EqDecision K} (d : list (K * V)) (k : K) (v : V)
  : list (K * V) :=
  match d with
  | [] => [(k, v)]
  | (k', v') :: d' =>
      if decide (k' = k) then (k, v) :: d' else (k', v') :: dict_set d' k v
  end.

Definition dict_keys {K V} (d : list (K * V)) : list K := map fst d.
Definition dict_values {K V} (d : list (K * V)) : list V := map snd d.

(** [list.sort(key=...)] and [sorted(...)]: a stable sort.  [lt a b] is the
    comparison [key(a) < key(b)].  An element is inserted in front of the
    first element that is not smaller than it, and the list is consumed from
    the right, so equal keys keep their original order. *)
Fixpoint sort_insert {A} (lt : A → A → bool) (x : A) (l : list A) : list A :=
  match l with
  | [] => [x]
  | y :: l' => if lt y x then y :: sort_insert lt x l' else x :: y :: l'
  end.

Definition py_sort {A} (lt : A → A → bool) (l : list A) : list A :=
  foldr (sort_insert lt) [] l.

(** [sorted(..., reverse=True)]: descending, and still stable. *)
Definition py_sort_reverse {A} (lt : A → A → bool) (l : list A) : list A :=
  py_sort (λ a b, lt b a) l.

(** Slices [l[:k]] and [l[k:]] for an [int] k; a negative k counts from the
    end of the list. *)
Definition slice_index {A} (l : list A) (k : Z) : nat :=
  if decide (k < 0) then Z.to_nat (Z.max 0 (Z.of_nat (length l) + k))
  else Z.to_nat k.

Definition slice_to {A} (l : list A) (k : Z) : list A := take (slice_index l k) l.
Definition slice_from {A} (l : list A) (k : Z) : list A := drop (slice_index l k) l.

(** [l.pop(idx)] for an index within range: the list without that element. *)
Definition list_pop {A} (l : list A) (idx : nat) : list A :=
  take idx l ++ drop (S idx) l.

(** Lexicographic [<] on lists of integers (Python list comparison). *)
Fixpoint list_Z_ltb (a b : list Z) : bool :=
  match a, b with
  | [], [] => false
  | [], _ :: _ => true
  | _ :: _, [] => false
  | x :: a', y :: b' =>
      if decide (x = y) then list_Z_ltb a' b' else bool_decide (x < y)
  end.

Definition string_ltb (a b : string) : bool :=
  match String.compare a b with Lt => true | _ => false end.

(** Truthiness of a [str]. *)
Definition str_truthy (s : string) : bool :=
  match s with EmptyString => false | _ => true end.

(** ** Data model shared by the reconciler and the scheduler *)

Definition NodeType := string.
Definition CloudInstanceId := string.

(** [autoscaler_pb2.NodeStatus]. *)
Inductive NodeStatus :=
| NS_UNSPECIFIED | NS_RUNNING | NS_DEAD | NS_IDLE | NS_DRAINING.

(** [instance_manager_pb2.Instance.InstanceStatus], the statuses of the
    instance state machine. *)
Inductive InstanceStatus :=
| QUEUED | REQUESTED | ALLOCATED | RAY_INSTALLING | RAY_RUNNING | RAY_STOPPING
| RAY_STOPPED | TERMINATING | TERMINATED | ALLOCATION_FAILED
| RAY_INSTALL_FAILED | TERMINATION_FAILED.

Global Instance NodeStatus_eq_dec : EqDecision NodeStatus.
Proof. solve_decision. Defined.
Global Instance InstanceStatus_eq_dec : EqDecision InstanceStatus.
Proof. solve_decision. Defined.

(** [autoscaler_pb2.NodeState]: a ray node as reported by the cluster. *)
Record NodeState := {
  ns_node_id : string;                       (* bytes *)
  ns_instance_id : string;                   (* the cloud instance id *)
  ray_node_type_name : NodeType;
  ns_total_resources : gmap string Qc;
  ns_available_resources : gmap string Qc;
  dynamic_labels : gmap string string;
  ns_idle_duration_ms : Z;
  ns_status : NodeStatus
}.

(** [instance_manager_pb2.Instance]. Unset string fields are empty. *)
Record IMInstance := {
  instance_id : string;
  instance_type : NodeType;
  im_status : InstanceStatus;
  cloud_instance_id : CloudInstanceId;
  launch_request_id : string;
  im_launch_config_hash : string;
  status_history : list (InstanceStatus * Z)
}.

Record CloudInstance := {
  ci_cloud_instance_id : CloudInstanceId;
  ci_node_type : NodeType;
  ci_request_id : string
}.

(** [CloudInstanceProviderError] and its two subclasses. *)
Inductive CloudInstanceProviderError :=
| LaunchNodeError (request_id : string) (node_type : NodeType) (details : string)
| TerminateNodeError (cloud_id : CloudInstanceId) (request_id : string)
    (details : string).

Record LaunchError := {
  le_request_id : string;
  le_node_type : NodeType;
  le_details : string
}.

Record RayInstallError := {
  rie_im_instance_id : string;
  rie_details : string
}.

(** [instance_manager_pb2.InstanceUpdateEvent]. *)
Record IMInstanceUpdateEvent := {
  ev_instance_id : string;
  new_instance_status : InstanceStatus;
  ev_cloud_instance_id : CloudInstanceId;
  ev_details : string
}.

Global Instance IMInstanceUpdateEvent_eq_dec : EqDecision IMInstanceUpdateEvent.
Proof. solve_decision. Defined.
Global Instance CloudInstance_eq_dec : EqDecision CloudInstance.
Proof. solve_decision. Defined.

(** ** Exceptions *)

(** The Python exceptions that the modelled code can raise.  [OutOfFuel] is
    not one of them: it marks the exhaustion of the fuel that bounds the two
    [while] loops of the bin-packer in this embedding, and is not raised on a
    context with well-formed node type configs (lemma [try_schedule_fuel]
    below). *)
Inductive exn :=
| AssertionError | KeyError | ValueError | UnicodeDecodeError | OutOfFuel.

Inductive result (A : Type) :=
| Ok (a : A)
| Err (e : exn).
Arguments Ok {A} a.
Arguments Err {A} e.

Global Instance exn_eq_dec : EqDecision exn.
Proof. solve_decision. Defined.

Definition is_ok {A} (r : result A) : bool :=
  match r with Ok _ => true | Err _ => false end.

(** [bytes.decode("utf-8")].  A Python [bytes] is a [string] of 8-bit
    characters and a Python [str] is the [string] of its UTF-8 encoding, so
    decoding returns the bytes when they are well-formed UTF-8 and raises
    [UnicodeDecodeError] otherwise. *)
Definition byte_in (lo hi b : Z) : bool := (lo <=? b) && (b <=? hi).
Definition utf8_cont (b : Z) : bool := byte_in 128 191 b.

Definition utf8_lead3 (b0 b1 : Z) : bool :=
  ((b0 =? 224) && byte_in 160 191 b1)
  || (byte_in 225 236 b0 && utf8_cont b1)
  || ((b0 =? 237) && byte_in 128 159 b1)
  || (byte_in 238 239 b0 && utf8_cont b1).

Definition utf8_lead4 (b0 b1 : Z) : bool :=
  ((b0 =? 240) && byte_in 144 191 b1)
  || (byte_in 241 243 b0 && utf8_cont b1)
  || ((b0 =? 244) && byte_in 128 143 b1).

Fixpoint utf8_ok (l : list Z) : bool :=
  match l with
  | [] => true
  | b0 :: r0 =>
      if b0 <? 128 then utf8_ok r0
      else
        match r0 with
        | [] => false
        | b1 :: r1 =>
            if byte_in 194 223 b0 then utf8_cont b1 && utf8_ok r1
            else
              match r1 with
              | [] => false
              | b2 :: r2 =>
                  if utf8_lead3 b0 b1 then utf8_cont b2 && utf8_ok r2
                  else
                    match r2 with
                    | [] => false
                    | b3 :: r3 =>
                        utf8_lead4 b0 b1 && utf8_cont b2 && utf8_cont b3
                        && utf8_ok r3
                    end
              end
        end
  end.

Fixpoint bytes_of_string (s : string) : list Z :=
  match s with
  | EmptyString => []
  | String c s' => Z.of_N (N_of_ascii c) :: bytes_of_string s'
  end.

Definition decode_utf8 (b : string) : result string :=
  if utf8_ok (bytes_of_string b) then Ok b else Err UnicodeDecodeError.

(** ** The instance manager *)

(** Modelled from the spec: [InstanceUtil] of [instance_manager/common.py]
    is not part of the sources.  The arrows of the instance state machine
    of the data model are the legal transitions. *)
Definition transitions (s : InstanceStatus) : list InstanceStatus :=
  match s with
  | QUEUED => [REQUESTED]
  | REQUESTED => [ALLOCATED; ALLOCATION_FAILED]
  | ALLOCATED => [RAY_INSTALLING]
  | RAY_INSTALLING => [RAY_RUNNING; RAY_INSTALL_FAILED]
  | RAY_RUNNING => [RAY_STOPPING]
  | RAY_STOPPING => [RAY_STOPPED]
  | RAY_STOPPED => [TERMINATING]
  | TERMINATING => [TERMINATED; TERMINATION_FAILED]
  | TERMINATED | ALLOCATION_FAILED | RAY_INSTALL_FAILED | TERMINATION_FAILED => []
  end.

Fixpoint reach (fuel : nat) (s : InstanceStatus) : list InstanceStatus :=
  match fuel with
  | O => []
  | S fuel' =>
      let next := transitions s in
      next ++ flat_map (reach fuel') next
  end.

(** Modelled from the spec: [InstanceUtil.get_reachable_statuses], the set of
    statuses downstream of a status in the state machine. *)
Definition get_reachable_statuses (s : InstanceStatus) : list InstanceStatus :=
  reach 12 s.

(** Modelled from the spec: [InstanceUtil.is_ray_running_reachable], true when
    the status can still reach RAY_RUNNING. *)
Definition is_ray_running_reachable (s : InstanceStatus) : bool :=
  bool_decide (RAY_RUNNING ∈ get_reachable_statuses s).

(** Modelled from the spec: [InstanceUtil.get_status_transition_times_ns], the
    timestamps at which the history of the instance entered the status. *)
Definition get_status_transition_times_ns (i : IMInstance) (s : InstanceStatus)
  : list Z :=
  map snd (filter (λ p, fst p = s) (status_history i)).

Record IMState := {
  im_instances : list IMInstance;
  im_version : Z
}.

Inductive StatusCode := OK | VERSION_MISMATCH | ILLEGAL_TRANSITION.

Global Instance StatusCode_eq_dec : EqDecision StatusCode.
Proof. solve_decision. Defined.

Definition find_instance (l : list IMInstance) (id : string) : option IMInstance :=
  List.find (λ i, bool_decide (instance_id i = id)) l.

(** Modelled from the spec: an event of an update is legal when it names a
    known instance and follows an arrow of the state machine. *)
Definition event_legal (l : list IMInstance) (ev : IMInstanceUpdateEvent) : bool :=
  match find_instance l (ev_instance_id ev) with
  | Some i => bool_decide (new_instance_status ev ∈ transitions (im_status i))
  | None => false
  end.

Definition apply_event (now : Z) (ev : IMInstanceUpdateEvent) (i : IMInstance)
  : IMInstance :=
  if bool_decide (instance_id i = ev_instance_id ev) then
    {| instance_id := instance_id i;
       instance_type := instance_type i;
       im_status := new_instance_status ev;
       cloud_instance_id :=
         if str_truthy (ev_cloud_instance_id ev) then ev_cloud_instance_id ev
         else cloud_instance_id i;
       launch_request_id := launch_request_id i;
       im_launch_config_hash := im_launch_config_hash i;
       status_history := status_history i ++ [(new_instance_status ev, now)] |}
  else i.

(** Modelled from the spec: [InstanceManager.update_instance_manager_state]
    of [instance_manager/instance_manager.py], which is not part of the
    sources.  The update succeeds iff the expected version is the current one
    and every event is a legal transition; the batch is all-or-nothing and a
    success increments the version.  [now] is the time the instance manager
    stamps on the transitions. *)
Definition update_instance_manager_state (now : Z) (st : IMState)
    (expected_version : Z) (updates : list IMInstanceUpdateEvent)
  : StatusCode * IMState :=
  if negb (bool_decide (expected_version = im_version st)) then
    (VERSION_MISMATCH, st)
  else if negb (forallb (event_legal (im_instances st)) updates) then
    (ILLEGAL_TRANSITION, st)
  else
    (OK,
     {| im_instances :=
          foldl (λ l ev, map (apply_event now ev) l) (im_instances st) updates;
        im_version := im_version st + 1 |}).

(** ** The reconciler ([reconciler.py]) *)

(** [Reconciler._get_im_instances]. *)
Definition _get_im_instances (st : IMState) : list IMInstance * Z :=
  (im_instances st, im_version st).

(** [Reconciler._update_instance_manager]: nothing is sent for an empty batch,
    and a reply other than OK fails the assertion.  The result carries the
    events that were submitted. *)
Definition _update_instance_manager (now : Z) (st : IMState)
    (updates : list (string * IMInstanceUpdateEvent)) (version : Z)
  : result (IMState * list IMInstanceUpdateEvent) :=
  match updates with
  | [] => Ok (st, [])
  | _ =>
      let '(code, st') :=
        update_instance_manager_state now st version (dict_values updates) in
      if bool_decide (code = OK) then Ok (st', dict_values updates)
      else Err AssertionError
  end.

(** [l.pop()]: the last element and the list without it. *)
Definition list_pop_last {A} (l : list A) : option (A * list A) :=
  match reverse l with
  | [] => None
  | x :: r => Some (x, reverse r)
  end.

(** [Reconciler._try_or_fail_allocation].  The dict of unassigned cloud
    instances is mutated by [pop], so the function returns it. *)
Definition _try_or_fail_allocation (im_instance : IMInstance)
    (unassigned_cloud_instances_by_type : list (NodeType * list CloudInstance))
    (launch_errors : list (string * LaunchError))
  : option IMInstanceUpdateEvent * list (NodeType * list CloudInstance) :=
  let bucket :=
    default [] (dict_get unassigned_cloud_instances_by_type
                  (instance_type im_instance)) in
  match list_pop_last bucket with
  | Some (unassigned_cloud_instance, rest) =>
      (Some {| ev_instance_id := instance_id im_instance;
               new_instance_status := ALLOCATED;
               ev_cloud_instance_id := ci_cloud_instance_id unassigned_cloud_instance;
               ev_details := EmptyString |},
       dict_set unassigned_cloud_instances_by_type (instance_type im_instance) rest)
  | None =>
      match dict_get launch_errors (launch_request_id im_instance) with
      | Some launch_error =>
          if bool_decide (le_node_type launch_error = instance_type im_instance)
          then
            (Some {| ev_instance_id := instance_id im_instance;
                     new_instance_status := ALLOCATION_FAILED;
                     ev_cloud_instance_id := EmptyString;
                     ev_details := le_details launch_error |},
             unassigned_cloud_instances_by_type)
          else (None, unassigned_cloud_instances_by_type)
      | None => (None, unassigned_cloud_instances_by_type)
      end
  end.

(** The dict comprehension over the errors that are [LaunchNodeError]s. *)
Definition launch_errors_of (cloud_provider_errors : list CloudInstanceProviderError)
  : list (string * LaunchError) :=
  foldl (λ d e,
           match e with
           | LaunchNodeError rid nt det =>
               dict_set d rid
                 {| le_request_id := rid; le_node_type := nt; le_details := det |}
           | TerminateNodeError _ _ _ => d
           end) [] cloud_provider_errors.

(** The cloud instances bound to no instance, bucketed by node type. *)
Definition unassigned_by_type (im_instances : list IMInstance)
    (non_terminated_cloud_instances : list (CloudInstanceId * CloudInstance))
  : list (NodeType * list CloudInstance) :=
  let assigned_cloud_instance_ids := map cloud_instance_id im_instances in
  foldl (λ d p,
           if bool_decide (fst p ∈ assigned_cloud_instance_ids) then d
           else
             dict_set d (ci_node_type (snd p))
               (default [] (dict_get d (ci_node_type (snd p))) ++ [snd p]))
        [] non_terminated_cloud_instances.

Definition requested_time_ltb (a b : IMInstance) : bool :=
  list_Z_ltb (get_status_transition_times_ns a REQUESTED)
             (get_status_transition_times_ns b REQUESTED).

(** The instances carrying a launch request id, by increasing request time. *)
Definition instances_with_launch_requests (im_instances : list IMInstance)
  : list IMInstance :=
  py_sort requested_time_ltb
    (filter (λ i, str_truthy (launch_request_id i) = true) im_instances).

(** The loop of [_handle_cloud_instance_allocation] over the sorted
    instances. *)
Fixpoint allocation_loop (instances : list IMInstance)
    (unassigned : list (NodeType * list CloudInstance))
    (launch_errors : list (string * LaunchError))
    (updates : list (string * IMInstanceUpdateEvent))
  : list (string * IMInstanceUpdateEvent) :=
  match instances with
  | [] => updates
  | instance :: rest =>
      let '(update_event, unassigned') :=
        _try_or_fail_allocation instance unassigned launch_errors in
      match update_event with
      | None => allocation_loop rest unassigned' launch_errors updates
      | Some ev =>
          allocation_loop rest unassigned' launch_errors
            (dict_set updates (instance_id instance) ev)
      end
  end.

Definition allocation_updates (im_instances : list IMInstance)
    (non_terminated_cloud_instances : list (CloudInstanceId * CloudInstance))
    (cloud_provider_errors : list CloudInstanceProviderError)
  : list (string * IMInstanceUpdateEvent) :=
  allocation_loop (instances_with_launch_requests im_instances)
    (unassigned_by_type im_instances non_terminated_cloud_instances)
    (launch_errors_of cloud_provider_errors) [].

(** [Reconciler._handle_cloud_instance_allocation]. *)
Definition _handle_cloud_instance_allocation (now : Z) (st : IMState)
    (non_terminated_cloud_instances : list (CloudInstanceId * CloudInstance))
    (cloud_provider_errors : list CloudInstanceProviderError)
  : result (IMState * list IMInstanceUpdateEvent) :=
  let '(im_instances, version) := _get_im_instances st in
  _update_instance_manager now st
    (allocation_updates im_instances non_terminated_cloud_instances
       cloud_provider_errors)
    version.

(** [Reconciler._handle_cloud_instance_terminated]: the body is [pass]. *)
Definition _handle_cloud_instance_terminated (now : Z) (st : IMState)
    (non_terminated_cloud_instances : list (CloudInstanceId * CloudInstance))
    (cloud_provider_errors : list CloudInstanceProviderError)
  : result (IMState * list IMInstanceUpdateEvent) :=
  Ok (st, []).

(** [Reconciler._handle_ray_install_failed]. *)
Definition install_failed_updates (instances : list IMInstance)
    (ray_install_errors : list RayInstallError)
  : list (string * IMInstanceUpdateEvent) :=
  let instances_with_ray_installing :=
    foldl (λ d i,
             if bool_decide (im_status i = RAY_INSTALLING)
             then dict_set d (instance_id i) i else d) [] instances in
  let install_errors :=
    foldl (λ d e, dict_set d (rie_im_instance_id e) e) [] ray_install_errors in
  foldl (λ updates p,
           match dict_get install_errors (fst p) with
           | Some install_error =>
               dict_set updates (fst p)
                 {| ev_instance_id := fst p;
                    new_instance_status := RAY_INSTALL_FAILED;
                    ev_cloud_instance_id := EmptyString;
                    ev_details := rie_details install_error |}
           | None => updates
           end) [] instances_with_ray_installing.

Definition _handle_ray_install_failed (now : Z) (st : IMState)
    (ray_install_errors : list RayInstallError)
  : result (IMState * list IMInstanceUpdateEvent) :=
  let '(instances, version) := _get_im_instances st in
  _update_instance_manager now st
    (install_failed_updates instances ray_install_errors) version.

(** [Reconciler._reconciled_im_status_from_ray_status]. *)
Definition _reconciled_im_status_from_ray_status (ray_status : NodeStatus)
    (cur_im_status : InstanceStatus) : option InstanceStatus :=
  let reconciled :=
    match ray_status with
    | NS_RUNNING | NS_IDLE => Some RAY_RUNNING
    | NS_DEAD => Some RAY_STOPPED
    | NS_DRAINING => Some RAY_STOPPING
    | NS_UNSPECIFIED => None
    end in
  match reconciled with
  | None => None
  | Some reconciled_im_status =>
      if bool_decide (cur_im_status = reconciled_im_status)
         || bool_decide (cur_im_status ∈ get_reachable_statuses reconciled_im_status)
      then Some cur_im_status
      else Some reconciled_im_status
  end.

(** [NodeStatus.Name]. *)
Definition NodeStatus_Name (s : NodeStatus) : string :=
  match s with
  | NS_UNSPECIFIED => "UNSPECIFIED"
  | NS_RUNNING => "RUNNING"
  | NS_DEAD => "DEAD"
  | NS_IDLE => "IDLE"
  | NS_DRAINING => "DRAINING"
  end.

(** The first loop of [_handle_ray_status_transition]: the ray nodes indexed
    by cloud instance id.  The warning logged for a node without an instance
    id decodes its node id. *)
Fixpoint ray_nodes_by_cloud_instance_id (ray_nodes : list NodeState)
    (d : list (CloudInstanceId * NodeState))
  : result (list (CloudInstanceId * NodeState)) :=
  match ray_nodes with
  | [] => Ok d
  | n :: rest =>
      if str_truthy (ns_instance_id n) then
        ray_nodes_by_cloud_instance_id rest (dict_set d (ns_instance_id n) n)
      else
        match decode_utf8 (ns_node_id n) with
        | Ok _ => ray_nodes_by_cloud_instance_id rest d
        | Err e => Err e
        end
  end.

(** The second loop of [_handle_ray_status_transition]. *)
Fixpoint ray_status_loop (nodes : list (CloudInstanceId * NodeState))
    (im_instances_by_cloud_instance_id : list (CloudInstanceId * IMInstance))
    (updates : list (string * IMInstanceUpdateEvent))
  : result (list (string * IMInstanceUpdateEvent)) :=
  match nodes with
  | [] => Ok updates
  | (cloud_instance_id, ray_node) :: rest =>
      match dict_get im_instances_by_cloud_instance_id cloud_instance_id with
      | None =>
          match decode_utf8 (ns_node_id ray_node) with
          | Ok _ => ray_status_loop rest im_instances_by_cloud_instance_id updates
          | Err e => Err e
          end
      | Some im_instance =>
          match _reconciled_im_status_from_ray_status (ns_status ray_node)
                  (im_status im_instance) with
          | None => ray_status_loop rest im_instances_by_cloud_instance_id updates
          | Some reconciled_im_status =>
              if bool_decide (reconciled_im_status = im_status im_instance) then
                ray_status_loop rest im_instances_by_cloud_instance_id updates
              else
                match decode_utf8 (ns_node_id ray_node) with
                | Err e => Err e
                | Ok node_id =>
                    ray_status_loop rest im_instances_by_cloud_instance_id
                      (dict_set updates (instance_id im_instance)
                         {| ev_instance_id := instance_id im_instance;
                            new_instance_status := reconciled_im_status;
                            ev_cloud_instance_id := EmptyString;
                            ev_details :=
                              ("Reconciled from ray node status "
                               ++ NodeStatus_Name (ns_status ray_node)
                               ++ " for ray node " ++ node_id)%string |})
                end
          end
      end
  end.

Definition ray_status_updates (instances : list IMInstance)
    (ray_nodes : list NodeState)
  : result (list (string * IMInstanceUpdateEvent)) :=
  let im_instances_by_cloud_instance_id :=
    foldl (λ d i,
             if str_truthy (cloud_instance_id i)
             then dict_set d (cloud_instance_id i) i else d) [] instances in
  match ray_nodes_by_cloud_instance_id ray_nodes [] with
  | Err e => Err e
  | Ok nodes => ray_status_loop nodes im_instances_by_cloud_instance_id []
  end.

(** [Reconciler._handle_ray_status_transition]. *)
Definition _handle_ray_status_transition (now : Z) (st : IMState)
    (ray_nodes : list NodeState)
  : result (IMState * list IMInstanceUpdateEvent) :=
  let '(instances, version) := _get_im_instances st in
  match ray_status_updates instances ray_nodes with
  | Err e => Err e
  | Ok updates => _update_instance_manager now st updates version
  end.

(** [Reconciler.sync_from]: the four passes in order.  The result is the
    state of the instance manager and the update events submitted to it. *)
Definition sync_from (now : Z) (instance_manager : IMState)
    (ray_nodes : list NodeState)
    (non_terminated_cloud_instances : list (CloudInstanceId * CloudInstance))
    (cloud_provider_errors : list CloudInstanceProviderError)
    (ray_install_errors : list RayInstallError)
  : result (IMState * list IMInstanceUpdateEvent) :=
  match _handle_cloud_instance_allocation now instance_manager
          non_terminated_cloud_instances cloud_provider_errors with
  | Err e => Err e
  | Ok (st1, ev1) =>
  match _handle_cloud_instance_terminated now st1
          non_terminated_cloud_instances cloud_provider_errors with
  | Err e => Err e
  | Ok (st2, ev2) =>
  match _handle_ray_status_transition now st2 ray_nodes with
  | Err e => Err e
  | Ok (st3, ev3) =>
  match _handle_ray_install_failed now st3 ray_install_errors with
  | Err e => Err e
  | Ok (st4, ev4) => Ok (st4, ev1 ++ ev2 ++ ev3 ++ ev4)
  end end end end.

(** ** The allocation pass in the words of the specification

    For an instance in the processing order: an unassigned cloud instance of
    its type is popped and the instance goes to ALLOCATED, bound to it;
    otherwise a launch error indexed by its launch request id whose node type
    matches sends it to ALLOCATION_FAILED; otherwise it is left untouched. *)
Definition pool_of (d : list (NodeType * list CloudInstance)) (t : NodeType)
  : list CloudInstance :=
  default [] (dict_get d t).

Inductive alloc_rule (launch_errors : list (string * LaunchError))
    (i : IMInstance) (pool pool' : list (NodeType * list CloudInstance))
  : option IMInstanceUpdateEvent → Prop :=
| alloc_allocated c l1 l2 :
    pool_of pool (instance_type i) = l1 ++ c :: l2 →
    pool_of pool' (instance_type i) = l1 ++ l2 →
    (∀ t, t ≠ instance_type i → pool_of pool' t = pool_of pool t) →
    alloc_rule launch_errors i pool pool'
      (Some {| ev_instance_id := instance_id i;
               new_instance_status := ALLOCATED;
               ev_cloud_instance_id := ci_cloud_instance_id c;
               ev_details := EmptyString |})
| alloc_failed e :
    pool_of pool (instance_type i) = [] →
    pool' = pool →
    dict_get launch_errors (launch_request_id i) = Some e →
    le_node_type e = instance_type i →
    alloc_rule launch_errors i pool pool'
      (Some {| ev_instance_id := instance_id i;
               new_instance_status := ALLOCATION_FAILED;
               ev_cloud_instance_id := EmptyString;
               ev_details := le_details e |})
| alloc_untouched :
    pool_of pool (instance_type i) = [] →
    pool' = pool →
    (∀ e, dict_get launch_errors (launch_request_id i) = Some e →
          le_node_type e ≠ instance_type i) →
    alloc_rule launch_errors i pool pool' None.

(** A run of the rule over the instances in order; the events are recorded
    in the update batch under the instance ids. *)
Inductive alloc_run (launch_errors : list (string * LaunchError))
  : list IMInstance → list (NodeType * list CloudInstance) →
    list (string * IMInstanceUpdateEvent) →
    list (string * IMInstanceUpdateEvent) → Prop :=
| alloc_run_nil pool updates :
    alloc_run launch_errors [] pool updates updates
| alloc_run_cons i rest pool pool' ev updates updates' :
    alloc_rule launch_errors i pool pool' ev →
    alloc_run launch_errors rest pool'
      (match ev with
       | Some e => dict_set updates (instance_id i) e
       | None => updates
       end) updates' →
    alloc_run launch_errors (i :: rest) pool updates updates'.

(** The cloud instances that the events of a batch bind to instances. *)
Definition allocated_cloud_ids (updates : list (string * IMInstanceUpdateEvent))
  : list CloudInstanceId :=
  map ev_cloud_instance_id
      (filter (λ ev, new_instance_status ev = ALLOCATED) (dict_values updates)).

(** Ascending order of the REQUESTED transition times. *)
Definition requested_time_le (a b : IMInstance) : Prop :=
  requested_time_ltb b a = false.

(** ** Sample reconciler inputs *)

Definition mk_instance (id : string) (type : NodeType) (st : InstanceStatus)
    (cloud_id request_id : string) (history : list (InstanceStatus * Z))
  : IMInstance :=
  {| instance_id := id; instance_type := type; im_status := st;
     cloud_instance_id := cloud_id; launch_request_id := request_id;
     im_launch_config_hash := EmptyString; status_history := history |}.

Definition mk_cloud (id : CloudInstanceId) (type : NodeType) : CloudInstance :=
  {| ci_cloud_instance_id := id; ci_node_type := type;
     ci_request_id := EmptyString |}.

(** A ray node of type t1 without resources, as the cluster reports it on a
    cloud instance. *)
Definition mk_ray_node (node_id : string) (cloud_id : CloudInstanceId)
    (st : NodeStatus) : NodeState :=
  {| ns_node_id := node_id; ns_instance_id := cloud_id;
     ray_node_type_name := "t1"; ns_total_resources := ∅;
     ns_available_resources := ∅; dynamic_labels := ∅;
     ns_idle_duration_ms := 0%Z; ns_status := st |}.

(** An allocated instance whose cloud instance has disappeared, and a
    terminating instance for which the provider reported a failure. *)
Definition im_gone : IMState :=
  {| im_instances :=
       [ mk_instance "i-1" "t1" ALLOCATED "c-1" "r-1"
           [(QUEUED, 1); (REQUESTED, 2); (ALLOCATED, 3)];
         mk_instance "i-2" "t1" TERMINATING "c-2" "r-2"
           [(QUEUED, 1); (REQUESTED, 2); (ALLOCATED, 3); (RAY_INSTALLING, 4);
            (RAY_RUNNING, 5); (RAY_STOPPING, 6); (RAY_STOPPED, 7);
            (TERMINATING, 8)] ];
     im_version := 7 |}.

Definition cloud_gone : list (CloudInstanceId * CloudInstance) :=
  [("c-2", mk_cloud "c-2" "t1")].

Definition errors_gone : list CloudInstanceProviderError :=
  [TerminateNodeError "c-2" "term-1" "cannot terminate"].

(** A requested instance and two unassigned cloud instances of its type. *)
Definition im_requested : IMState :=
  {| im_instances :=
       [ mk_instance "i-1" "t1" REQUESTED EmptyString "r-1"
           [(QUEUED, 1); (REQUESTED, 2)] ];
     im_version := 3 |}.

Definition cloud_two : list (CloudInstanceId * CloudInstance) :=
  [("c-1", mk_cloud "c-1" "t1"); ("c-2", mk_cloud "c-2" "t1")].

(* --------------------------------------------------------------------- *)
(** ** The scheduler ([scheduler.py]): data *)
(* --------------------------------------------------------------------- *)

Local Open Scope Qc_scope.

(** [autoscaler_pb2]: a placement constraint holds an optional anti-affinity
    and an optional affinity, each a label name and value. *)
Record LabelConstraint := {
  label_name : string;
  label_value : string
}.

Record PlacementConstraint := {
  anti_affinity : option LabelConstraint;
  affinity : option LabelConstraint
}.

Record ResourceRequest := {
  resources_bundle : gmap string Qc;
  placement_constraints : list PlacementConstraint
}.

Record ResourceRequestByCount := {
  request : ResourceRequest;
  count : Z
}.

Record GangResourceRequest := {
  requests : list ResourceRequest
}.

Record ClusterResourceConstraint := {
  min_bundles : list ResourceRequestByCount
}.

Global Instance LabelConstraint_eq_dec : EqDecision LabelConstraint.
Proof. solve_decision. Defined.
Global Instance PlacementConstraint_eq_dec : EqDecision PlacementConstraint.
Proof. solve_decision. Defined.
Global Instance ResourceRequest_eq_dec : EqDecision ResourceRequest.
Proof. solve_decision. Defined.

(** [instance_manager_pb2.TerminationRequest.Cause], the causes the scheduler
    uses. *)
Inductive Cause := MAX_NUM_NODES | MAX_NUM_NODE_PER_TYPE | IDLE | OUTDATED.

Global Instance Cause_eq_dec : EqDecision Cause.
Proof. solve_decision. Defined.

(** [instance_manager_pb2.TerminationRequest].  The id is
    [str(time.time_ns())]: it is kept as the integer that was read. *)
Record TerminationRequest := {
  tr_id : Z;
  tr_instance_id : string;
  tr_ray_node_id : string;
  cause : Cause;
  tr_max_num_nodes : option Z;
  tr_max_num_nodes_per_type : option Z;
  tr_idle_duration_ms : option Z
}.

(** [instance_manager_pb2.LaunchRequest]. *)
Record LaunchRequest := {
  lr_instance_type : NodeType;
  lr_count : Z;
  lr_id : Z;
  request_ts_ms : Z
}.

(** [instance_manager/config.py: NodeTypeConfig]. *)
Record NodeTypeConfig := {
  name : NodeType;
  resources : gmap string Qc;
  config_labels : gmap string string;
  min_worker_nodes : Z;
  max_worker_nodes : Z;
  config_launch_config_hash : string
}.

(** [schema.py: AutoscalerInstance]. *)
Record AutoscalerInstance := {
  im_instance : option IMInstance;
  ray_node : option NodeState;
  ai_cloud_instance_id : option CloudInstanceId
}.

Record SchedulingRequest := {
  node_type_configs : list (NodeType * NodeTypeConfig);
  max_num_nodes : option Z;
  idle_timeout_s : option Z;
  resource_requests : list ResourceRequestByCount;
  gang_resource_requests : list GangResourceRequest;
  cluster_resource_constraints : list ClusterResourceConstraint;
  current_instances : list AutoscalerInstance
}.

Record SchedulingReply := {
  to_launch : list LaunchRequest;
  to_terminate : list TerminationRequest;
  infeasible_resource_requests : list ResourceRequestByCount;
  infeasible_gang_resource_requests : list GangResourceRequest;
  infeasible_cluster_resource_constraints : list ClusterResourceConstraint
}.

Inductive SchedulingNodeStatus := TO_LAUNCH | PENDING | RUNNING | TO_TERMINATE.

Global Instance SchedulingNodeStatus_eq_dec : EqDecision SchedulingNodeStatus.
Proof. solve_decision. Defined.

Record SchedulingNode := {
  node_type : NodeType;
  sched_constraints : list ResourceRequest;
  sched_requests : list ResourceRequest;
  total_resources : gmap string Qc;
  available_resources : gmap string Qc;
  available_resources_for_constraints : gmap string Qc;
  labels : gmap string string;
  status : SchedulingNodeStatus;
  launch_reason : option string;
  termination_request : option TerminationRequest;
  im_instance_id : option string;
  ray_node_id : option string;
  idle_duration_ms : Z;
  launch_config_hash : option string
}.

Global Instance SchedulingNode_inhabited : Inhabited SchedulingNode :=
  populate {| node_type := EmptyString; sched_constraints := [];
              sched_requests := []; total_resources := ∅;
              available_resources := ∅;
              available_resources_for_constraints := ∅; labels := ∅;
              status := TO_LAUNCH; launch_reason := None;
              termination_request := None; im_instance_id := None;
              ray_node_id := None; idle_duration_ms := 0%Z;
              launch_config_hash := None |}.

(** Field assignments on a node. *)
Definition set_termination (n : SchedulingNode) (tr : TerminationRequest)
  : SchedulingNode :=
  {| node_type := node_type n; sched_constraints := sched_constraints n;
     sched_requests := sched_requests n; total_resources := total_resources n;
     available_resources := available_resources n;
     available_resources_for_constraints := available_resources_for_constraints n;
     labels := labels n; status := TO_TERMINATE; launch_reason := launch_reason n;
     termination_request := Some tr; im_instance_id := im_instance_id n;
     ray_node_id := ray_node_id n; idle_duration_ms := idle_duration_ms n;
     launch_config_hash := launch_config_hash n |}.

Definition set_labels (n : SchedulingNode) (l : gmap string string)
  : SchedulingNode :=
  {| node_type := node_type n; sched_constraints := sched_constraints n;
     sched_requests := sched_requests n; total_resources := total_resources n;
     available_resources := available_resources n;
     available_resources_for_constraints := available_resources_for_constraints n;
     labels := l; status := status n; launch_reason := launch_reason n;
     termination_request := termination_request n;
     im_instance_id := im_instance_id n; ray_node_id := ray_node_id n;
     idle_duration_ms := idle_duration_ms n;
     launch_config_hash := launch_config_hash n |}.

(** The effect of committing a request: the chosen resource pool is replaced
    and the request is appended to the matching committed list. *)
Definition commit_request (n : SchedulingNode) (is_constraint : bool)
    (pool : gmap string Qc) (r : ResourceRequest) : SchedulingNode :=
  {| node_type := node_type n;
     sched_constraints :=
       if is_constraint then sched_constraints n ++ [r] else sched_constraints n;
     sched_requests :=
       if is_constraint then sched_requests n else sched_requests n ++ [r];
     total_resources := total_resources n;
     available_resources :=
       if is_constraint then available_resources n else pool;
     available_resources_for_constraints :=
       if is_constraint then pool else available_resources_for_constraints n;
     labels := labels n; status := status n; launch_reason := launch_reason n;
     termination_request := termination_request n;
     im_instance_id := im_instance_id n; ray_node_id := ray_node_id n;
     idle_duration_ms := idle_duration_ms n;
     launch_config_hash := launch_config_hash n |}.

(** [SchedulingNode.from_node_config]. *)
Definition from_node_config (node_config : NodeTypeConfig)
    (st : SchedulingNodeStatus) (im_id : option string) : SchedulingNode :=
  {| node_type := name node_config; sched_constraints := [];
     sched_requests := []; total_resources := resources node_config;
     available_resources := resources node_config;
     available_resources_for_constraints := resources node_config;
     labels := config_labels node_config; status := st; launch_reason := None;
     termination_request := None; im_instance_id := im_id; ray_node_id := None;
     idle_duration_ms := 0%Z; launch_config_hash := None |}.

(** ** The scheduler: the methods of a node *)

(** [UtilizationScore]: a 4-tuple compared lexicographically. *)
Definition UtilizationScore : Type := bool * Z * Qc * Qc.

Definition bool_ltb (a b : bool) : bool := negb a && b.

Definition score_ltb (a b : UtilizationScore) : bool :=
  let '(a1, a2, a3, a4) := a in
  let '(b1, b2, b3, b4) := b in
  if negb (bool_decide (a1 = b1)) then bool_ltb a1 b1
  else if negb (bool_decide (a2 = b2)) then bool_decide (a2 < b2)%Z
  else if negb (bool_decide (a3 = b3)) then bool_decide (a3 < b3)
  else bool_decide (a4 < b4).

Definition Qc_sum (l : list Qc) : Qc := foldr Qcplus 0 l.

Definition Qc_min_list (l : list Qc) : Qc :=
  match l with
  | [] => 0
  | x :: l' => foldl (λ m y, if bool_decide (y < m) then y else m) x l'
  end.

(** The loop of [_compute_score] over the total resources: the utilisation
    of every resource with a total other than zero that is among the
    available resources; a utilisation outside [0, 1] fails the assertion. *)
Fixpoint util_by_resources (totals : list (string * Qc))
    (available : gmap string Qc) : result (list Qc) :=
  match totals with
  | [] => Ok []
  | (k, v) :: rest =>
      if bool_decide (v = 0) then util_by_resources rest available
      else
        match available !! k with
        | None => util_by_resources rest available
        | Some a =>
            let util := (v - a) / v in
            if bool_decide (0 ≤ util) && bool_decide (util ≤ 1) then
              match util_by_resources rest available with
              | Ok us => Ok (util :: us)
              | Err e => Err e
              end
            else Err AssertionError
        end
  end.

(** [SchedulingNode._compute_score]; the flag is the module constant
    [AUTOSCALER_CONSERVE_GPU_NODES]. *)
Definition _compute_score (conserve_gpu_nodes : bool) (n : SchedulingNode)
  : result UtilizationScore :=
  let num_matching_resource_types :=
    Z.of_nat
      (length
         (flat_map
            (λ req, filter (λ k, is_Some (total_resources n !! k))
                      (map fst (map_to_list (resources_bundle req))))
            (sched_requests n))) in
  match util_by_resources (map_to_list (total_resources n))
          (available_resources n) with
  | Err e => Err e
  | Ok utils =>
      let gpu_ok :=
        if conserve_gpu_nodes then
          let is_gpu_node :=
            bool_decide (0 < default 0 (total_resources n !! "GPU"%string)) in
          let any_gpu_requests :=
            existsb (λ r, bool_decide (is_Some (resources_bundle r !! "GPU"%string)))
                    (sched_requests n) in
          negb (is_gpu_node && negb any_gpu_requests)
        else true in
      Ok (gpu_ok, num_matching_resource_types,
          match utils with [] => 0 | _ => Qc_min_list utils end,
          match utils with
          | [] => 0
          | _ => Qc_sum utils / Qc_of_Z (Z.of_nat (length utils))
          end)
  end.

(** [SchedulingNode._add_label]. *)
Definition _add_label (n : SchedulingNode) (lname lvalue : string)
  : result SchedulingNode :=
  match labels n !! lname with
  | None => Ok (set_labels n (<[lname := lvalue]> (labels n)))
  | Some v =>
      if bool_decide (v = lvalue)
      then Ok (set_labels n (<[lname := lvalue]> (labels n)))
      else Err AssertionError
  end.

(** The first loop of [_try_schedule_one]: an anti-affinity constraint whose
    label is on the node with the same value rejects the request. *)
Definition anti_affinity_rejects (n : SchedulingNode) (r : ResourceRequest)
  : bool :=
  existsb (λ c,
             match anti_affinity c with
             | Some a =>
                 bool_decide (labels n !! label_name a = Some (label_value a))
             | None => false
             end) (placement_constraints r).

(** The second loop: every quantity of the bundle is available. *)
Definition resources_fit (pool : gmap string Qc) (r : ResourceRequest) : bool :=
  forallb (λ kv, negb (bool_decide (default 0 (pool !! kv.1) < kv.2)))
          (map_to_list (resources_bundle r)).

(** The third loop: [available_resources_dict[k] -= v], which raises
    [KeyError] for a resource that the dict does not hold. *)
Fixpoint subtract_bundle (pool : gmap string Qc) (items : list (string * Qc))
  : result (gmap string Qc) :=
  match items with
  | [] => Ok pool
  | (k, v) :: rest =>
      match pool !! k with
      | Some a => subtract_bundle (<[k := a - v]> pool) rest
      | None => Err KeyError
      end
  end.

(** The last loop: the labels of the affinity and anti-affinity constraints
    are imprinted on the node. *)
Fixpoint add_constraint_labels (n : SchedulingNode)
    (cs : list PlacementConstraint) : result SchedulingNode :=
  match cs with
  | [] => Ok n
  | c :: rest =>
      let after_affinity :=
        match affinity c with
        | Some a => _add_label n (label_name a) (label_value a)
        | None => Ok n
        end in
      match after_affinity with
      | Err e => Err e
      | Ok n1 =>
          let after_anti :=
            match anti_affinity c with
            | Some a => _add_label n1 (label_name a) (label_value a)
            | None => Ok n1
            end in
          match after_anti with
          | Err e => Err e
          | Ok n2 => add_constraint_labels n2 rest
          end
      end
  end.

(** [SchedulingNode._try_schedule_one]: the node after the call and the
    returned boolean. *)
Definition _try_schedule_one (n : SchedulingNode) (r : ResourceRequest)
    (is_constraint : bool) : result (SchedulingNode * bool) :=
  if anti_affinity_rejects n r then Ok (n, false)
  else
    let available_resources_dict :=
      if is_constraint then available_resources_for_constraints n
      else available_resources n in
    if negb (resources_fit available_resources_dict r) then Ok (n, false)
    else
      match subtract_bundle available_resources_dict
              (map_to_list (resources_bundle r)) with
      | Err e => Err e
      | Ok pool =>
          match add_constraint_labels (commit_request n is_constraint pool r)
                  (placement_constraints r) with
          | Err e => Err e
          | Ok n' => Ok (n', true)
          end
      end.

(** The loop of [SchedulingNode.try_schedule]. *)
Fixpoint try_schedule_loop (n : SchedulingNode) (rs : list ResourceRequest)
    (is_constraint : bool) : result (SchedulingNode * list ResourceRequest) :=
  match rs with
  | [] => Ok (n, [])
  | r :: rest =>
      match _try_schedule_one n r is_constraint with
      | Err e => Err e
      | Ok (n1, scheduled) =>
          match try_schedule_loop n1 rest is_constraint with
          | Err e => Err e
          | Ok (n2, unschedulable) =>
              Ok (n2, if scheduled then unschedulable else r :: unschedulable)
          end
      end
  end.

(** [SchedulingNode.try_schedule]. *)
Definition try_schedule (conserve_gpu_nodes : bool) (n : SchedulingNode)
    (rs : list ResourceRequest) (is_constraint : bool)
  : result (SchedulingNode * list ResourceRequest * UtilizationScore) :=
  match try_schedule_loop n rs is_constraint with
  | Err e => Err e
  | Ok (n', unschedulable_requests) =>
      match _compute_score conserve_gpu_nodes n' with
      | Err e => Err e
      | Ok score => Ok (n', unschedulable_requests, score)
      end
  end.

(* --------------------------------------------------------------------- *)
(** ** The scheduler: state, errors and the heap of nodes *)
(* --------------------------------------------------------------------- *)

Local Close Scope Qc_scope.

(** The state a call of [schedule] runs in: the heap of scheduling node
    objects, the clock ([clock k] is what the k-th call of [time.time_ns]
    returns), the number of clock reads so far and the module constant
    [AUTOSCALER_CONSERVE_GPU_NODES]. *)
Record state := {
  heap : list SchedulingNode;
  clock : nat → Z;
  reads : nat;
  AUTOSCALER_CONSERVE_GPU_NODES : bool
}.

(** A reference to a node object: its index in the heap. *)
Abbreviation ref := nat (only parsing).

Definition M (A : Type) : Type := state → result (A * state).

Definition ret {A} (a : A) : M A := λ s, Ok (a, s).

Definition bind {A B} (m : M A) (f : A → M B) : M B :=
  λ s, match m s with
       | Ok (a, s') => f a s'
       | Err e => Err e
       end.

Definition raise {A} (e : exn) : M A := λ _, Err e.

Global Instance M_ret : MRet M := @ret.
Global Instance M_bind : MBind M := λ A B f m, bind m f.

Definition lift {A} (r : result A) : M A :=
  λ s, match r with Ok a => Ok (a, s) | Err e => Err e end.

Definition assert (b : bool) : M unit :=
  if b then ret tt else raise AssertionError.

Definition set_heap (s : state) (h : list SchedulingNode) : state :=
  {| heap := h; clock := clock s; reads := reads s;
     AUTOSCALER_CONSERVE_GPU_NODES := AUTOSCALER_CONSERVE_GPU_NODES s |}.

(** A new object. *)
Definition alloc (n : SchedulingNode) : M ref :=
  λ s, Ok (length (heap s), set_heap s (heap s ++ [n])).

(** Reading and writing the object behind a reference. *)
Definition load (r : ref) : M SchedulingNode :=
  λ s, Ok (heap s !!! r, s).

Definition store (r : ref) (n : SchedulingNode) : M unit :=
  λ s, Ok (tt, set_heap s (<[r := n]> (heap s))).

Definition load_all (l : list ref) : M (list SchedulingNode) :=
  λ s, Ok (map (λ r, heap s !!! r) l, s).

Definition get_conserve_gpu_nodes : M bool :=
  λ s, Ok (AUTOSCALER_CONSERVE_GPU_NODES s, s).

(** [time.time_ns()]. *)
Definition time_ns : M Z :=
  λ s, Ok (clock s (reads s),
           {| heap := heap s; clock := clock s; reads := S (reads s);
              AUTOSCALER_CONSERVE_GPU_NODES := AUTOSCALER_CONSERVE_GPU_NODES s |}).

Fixpoint mapM {A B} (f : A → M B) (l : list A) : M (list B) :=
  match l with
  | [] => ret []
  | x :: l' => y ← f x; ys ← mapM f l'; ret (y :: ys)
  end.

Fixpoint foldM {A B} (f : B → A → M B) (b : B) (l : list A) : M B :=
  match l with
  | [] => ret b
  | x :: l' => b' ← f b x; foldM f b' l'
  end.

(** [copy.deepcopy] of a list of nodes: every distinct object is copied once
    and the copy is used wherever the object occurs, so the copies share
    exactly as the originals do. *)
Fixpoint deepcopy_loop (h : list SchedulingNode) (memo : list (ref * ref))
    (l : list ref) : list SchedulingNode * list ref :=
  match l with
  | [] => (h, [])
  | r :: l' =>
      match dict_get memo r with
      | Some r' =>
          let '(h', out) := deepcopy_loop h memo l' in (h', r' :: out)
      | None =>
          let r' := length h in
          let '(h', out) :=
            deepcopy_loop (h ++ [h !!! r]) (dict_set memo r r') l' in
          (h', r' :: out)
      end
  end.

Definition deepcopy (l : list ref) : M (list ref) :=
  λ s, let '(h', out) := deepcopy_loop (heap s) [] l in Ok (out, set_heap s h').

(** ** The scheduler: [ScheduleContext] *)

Record ScheduleContext := {
  _node_type_configs : list (NodeType * NodeTypeConfig);
  _max_num_nodes : option Z;
  _idle_timeout_s : option Z;
  _nodes : list ref;
  _node_type_available : list (NodeType * Z)
}.

(** [d[k] += v] on a [defaultdict(int)]. *)
Definition dict_add (d : list (NodeType * Z)) (k : NodeType) (v : Z)
  : list (NodeType * Z) :=
  dict_set d k (default 0%Z (dict_get d k) + v)%Z.

(** [ScheduleContext._compute_available_node_types]. *)
Definition _compute_available_node_types (nodes : list SchedulingNode)
    (configs : list (NodeType * NodeTypeConfig)) : list (NodeType * Z) :=
  let node_type_existing :=
    foldl (λ d n, dict_add d (node_type n) 1) [] nodes in
  foldl (λ d kc,
           dict_set d kc.1
             (max_worker_nodes kc.2
              - default 0%Z (dict_get node_type_existing kc.1))%Z)
        [] configs.

(** [ScheduleContext.__init__]. *)
Definition new_context (nodes : list ref)
    (configs : list (NodeType * NodeTypeConfig))
    (max_nodes idle_timeout : option Z) : M ScheduleContext :=
  vs ← load_all nodes;
  ret {| _node_type_configs := configs; _max_num_nodes := max_nodes;
         _idle_timeout_s := idle_timeout; _nodes := nodes;
         _node_type_available := _compute_available_node_types vs configs |}.

(** [ScheduleContext.update]. *)
Definition update (ctx : ScheduleContext) (new_nodes : list ref)
  : M ScheduleContext :=
  new_context new_nodes (_node_type_configs ctx) (_max_num_nodes ctx)
    (_idle_timeout_s ctx).

(** [ScheduleContext.get_nodes]. *)
Definition get_nodes (ctx : ScheduleContext) : M (list ref) :=
  deepcopy (_nodes ctx).

Definition get_node_type_available (ctx : ScheduleContext)
  : list (NodeType * Z) :=
  _node_type_available ctx.

(** [ScheduleContext.get_cluster_shape]. *)
Definition get_cluster_shape (ctx : ScheduleContext) : M (list (NodeType * Z)) :=
  vs ← load_all (_nodes ctx);
  ret (foldl (λ d n,
                if bool_decide (status n = TO_TERMINATE) then d
                else dict_add d (node_type n) 1) [] vs).

(** The requests are built from the clock: [id=str(time.time_ns())]. *)
Definition term_request (n : SchedulingNode) (t : Z) (c : Cause)
    (max_nodes max_nodes_per_type idle_ms : option Z) : TerminationRequest :=
  {| tr_id := t;
     tr_instance_id := default EmptyString (im_instance_id n);
     tr_ray_node_id := default EmptyString (ray_node_id n);
     cause := c; tr_max_num_nodes := max_nodes;
     tr_max_num_nodes_per_type := max_nodes_per_type;
     tr_idle_duration_ms := idle_ms |}.

Definition make_termination_request (n : SchedulingNode) (c : Cause)
    (max_nodes max_nodes_per_type idle_ms : option Z) : M TerminationRequest :=
  t ← time_ns;
  mret (term_request n t c max_nodes max_nodes_per_type idle_ms).

Definition make_launch_request (type : NodeType) (n : Z) : M LaunchRequest :=
  t1 ← time_ns;
  t2 ← time_ns;
  ret {| lr_instance_type := type; lr_count := n; lr_id := t1;
         request_ts_ms := (t2 / 1000)%Z |}.

(** [ScheduleContext.get_launch_requests]. *)
Definition get_launch_requests (ctx : ScheduleContext) : M (list LaunchRequest) :=
  vs ← load_all (_nodes ctx);
  let launch_by_type :=
    foldl (λ d n,
             if bool_decide (status n = TO_LAUNCH)
             then dict_add d (node_type n) 1 else d) [] vs in
  mapM (λ tc, make_launch_request tc.1 tc.2) launch_by_type.

(** [ScheduleContext.get_terminate_requests]. *)
Definition get_terminate_requests (ctx : ScheduleContext)
  : M (list TerminationRequest) :=
  vs ← load_all (_nodes ctx);
  ret (omap termination_request vs).

(* --------------------------------------------------------------------- *)
(** ** The scheduler: the phases of [ResourceDemandScheduler.schedule] *)
(* --------------------------------------------------------------------- *)

(** The node that [ScheduleContext.from_schedule_request] builds for an
    instance with a ray node. *)
Definition running_node_of (instance : AutoscalerInstance) (rn : NodeState)
    (node_id : string) : SchedulingNode :=
  {| node_type := ray_node_type_name rn; sched_constraints := [];
     sched_requests := []; total_resources := ns_total_resources rn;
     available_resources := ns_available_resources rn;
     available_resources_for_constraints := ns_total_resources rn;
     labels := dynamic_labels rn; status := RUNNING;
     launch_reason := None; termination_request := None;
     im_instance_id := instance_id <$> im_instance instance;
     ray_node_id := Some node_id;
     idle_duration_ms := ns_idle_duration_ms rn;
     launch_config_hash := im_launch_config_hash <$> im_instance instance |}.

(** [ScheduleContext.from_schedule_request]. *)
Definition node_of_instance (configs : list (NodeType * NodeTypeConfig))
    (nodes : list ref) (instance : AutoscalerInstance) : M (list ref) :=
  match ray_node instance with
  | Some rn =>
      node_id ← lift (decode_utf8 (ns_node_id rn));
      r ← alloc (running_node_of instance rn node_id);
      ret (nodes ++ [r])
  | None =>
      match im_instance instance with
      | Some im =>
          if is_ray_running_reachable (im_status im) then
            match dict_get configs (instance_type im) with
            | None => ret nodes
            | Some node_config =>
                r ← alloc (from_node_config node_config PENDING
                             (Some (instance_id im)));
                ret (nodes ++ [r])
            end
          else ret nodes
      | None => ret nodes
      end
  end.

Definition from_schedule_request (req : SchedulingRequest) : M ScheduleContext :=
  nodes ← foldM (node_of_instance (node_type_configs req)) []
            (current_instances req);
  new_context nodes (node_type_configs req) (max_num_nodes req)
    (idle_timeout_s req).

(** The condition of [_terminate_outdated_nodes]: the node type has no config
    any more, or the config declares a launch config hash that differs from
    the one of the node. *)
Definition is_outdated (configs : list (NodeType * NodeTypeConfig))
    (n : SchedulingNode) : bool :=
  match dict_get configs (node_type n) with
  | None => true
  | Some node_type_config =>
      str_truthy (config_launch_config_hash node_type_config)
      && negb (bool_decide (Some (config_launch_config_hash node_type_config)
                            = launch_config_hash n))
  end.

(** [ResourceDemandScheduler._terminate_outdated_nodes]. *)
Definition _terminate_outdated_nodes (ctx : ScheduleContext) : M ScheduleContext :=
  nodes ← get_nodes ctx;
  mapM (λ r,
          n ← load r;
          if bool_decide (status n = RUNNING)
             && is_outdated (_node_type_configs ctx) n
          then
            tr ← make_termination_request n OUTDATED None None None;
            store r (set_termination n tr)
          else ret tt) nodes;;
  update ctx nodes.

(** [ResourceDemandScheduler._enforce_min_workers_per_type].  The new nodes of
    a type are one object repeated: [[node] * (min_count - cur_count)]. *)
Definition _enforce_min_workers_per_type (ctx : ScheduleContext)
  : M ScheduleContext :=
  count_by_node_type ← get_cluster_shape ctx;
  new_nodes ←
    foldM (λ new_nodes (kc : NodeType * NodeTypeConfig),
             let cur_count := default 0%Z (dict_get count_by_node_type kc.1) in
             let min_count := min_worker_nodes kc.2 in
             if bool_decide (cur_count < min_count)%Z then
               r ← alloc (from_node_config kc.2 TO_LAUNCH None);
               ret (new_nodes ++ replicate (Z.to_nat (min_count - cur_count)) r)
             else ret new_nodes)
          [] (_node_type_configs ctx);
  existing ← get_nodes ctx;
  update ctx (new_nodes ++ existing).

(** [ResourceDemandScheduler._sort_nodes_for_termination]. *)
Definition _sort_nodes_for_termination (n : SchedulingNode) : bool * Z * Qc :=
  let running_ray := bool_decide (status n = RUNNING) in
  let idle_dur := (-1 * idle_duration_ms n)%Z in
  let utils_per_resources :=
    omap (λ kv : string * Qc,
            if bool_decide (kv.2 ≤ 0)%Qc then None
            else Some ((kv.2 - default 0%Qc (available_resources n !! kv.1))
                       / kv.2)%Qc)
         (map_to_list (total_resources n)) in
  let avg_util :=
    match utils_per_resources with
    | [] => 0%Qc
    | _ => (Qc_sum utils_per_resources
            / Qc_of_Z (Z.of_nat (length utils_per_resources)))%Qc
    end in
  (running_ray, idle_dur, avg_util).

Definition termination_key_ltb (a b : bool * Z * Qc) : bool :=
  let '(a1, a2, a3) := a in
  let '(b1, b2, b3) := b in
  if negb (bool_decide (a1 = b1)) then bool_ltb a1 b1
  else if negb (bool_decide (a2 = b2)) then bool_decide (a2 < b2)%Z
  else bool_decide (a3 < b3)%Qc.

(** [nodes.sort(key=ResourceDemandScheduler._sort_nodes_for_termination)]. *)
Definition sort_for_termination (h : list SchedulingNode) (nodes : list ref)
  : list ref :=
  py_sort (λ a b, termination_key_ltb (_sort_nodes_for_termination (h !!! a))
                                      (_sort_nodes_for_termination (h !!! b)))
          nodes.

Definition with_max_num_nodes (tr : TerminationRequest) (m : option Z)
  : TerminationRequest :=
  {| tr_id := tr_id tr; tr_instance_id := tr_instance_id tr;
     tr_ray_node_id := tr_ray_node_id tr; cause := cause tr;
     tr_max_num_nodes := m;
     tr_max_num_nodes_per_type := tr_max_num_nodes_per_type tr;
     tr_idle_duration_ms := tr_idle_duration_ms tr |}.

Definition with_max_num_nodes_per_type (tr : TerminationRequest) (m : option Z)
  : TerminationRequest :=
  {| tr_id := tr_id tr; tr_instance_id := tr_instance_id tr;
     tr_ray_node_id := tr_ray_node_id tr; cause := cause tr;
     tr_max_num_nodes := tr_max_num_nodes tr;
     tr_max_num_nodes_per_type := m;
     tr_idle_duration_ms := tr_idle_duration_ms tr |}.

(** The body of the marking loop of [_select_nodes_to_terminate]. *)
Definition mark_for_termination (c : Cause) (max_nodes max_nodes_per_type : option Z)
    (r : ref) : M unit :=
  n ← load r;
  tr ← make_termination_request n c None None None;
  match c with
  | MAX_NUM_NODES => store r (set_termination n (with_max_num_nodes tr max_nodes))
  | MAX_NUM_NODE_PER_TYPE =>
      store r (set_termination n
                 (with_max_num_nodes_per_type tr max_nodes_per_type))
  | _ => store r (set_termination n tr);; raise ValueError
  end.

(** [ResourceDemandScheduler._select_nodes_to_terminate]. *)
Definition _select_nodes_to_terminate (nodes : list ref) (num_to_terminate : Z)
    (c : Cause) (max_nodes max_nodes_per_type : option Z)
  : M (list ref * list ref) :=
  sorted ← (λ s, Ok (sort_for_termination (heap s) nodes, s));
  let terminated_nodes := slice_to sorted num_to_terminate in
  let remained_nodes := slice_from sorted num_to_terminate in
  assert (bool_decide (c ∈ [MAX_NUM_NODES; MAX_NUM_NODE_PER_TYPE]));;
  mapM (mark_for_termination c max_nodes max_nodes_per_type) terminated_nodes;;
  ret (terminated_nodes, remained_nodes).

(** The partition of the nodes of [_enforce_max_workers_per_type] and
    [_enforce_max_workers_global] by status. *)
Definition terminating_of (h : list SchedulingNode) (nodes : list ref) : list ref :=
  filter (λ r, status (h !!! r) = TO_TERMINATE) nodes.

Definition non_terminating_of (h : list SchedulingNode) (nodes : list ref)
  : list ref :=
  filter (λ r, status (h !!! r) ≠ TO_TERMINATE) nodes.

Definition non_terminating_by_type (h : list SchedulingNode) (nodes : list ref)
  : list (NodeType * list ref) :=
  foldl (λ d r,
           dict_set d (node_type (h !!! r))
             (default [] (dict_get d (node_type (h !!! r))) ++ [r]))
        [] (non_terminating_of h nodes).

(** The body of the loop of [_enforce_max_workers_per_type] over the types. *)
Definition enforce_max_of_type (configs : list (NodeType * NodeTypeConfig))
    (acc : list (NodeType * list ref) * list ref) (type : NodeType)
  : M (list (NodeType * list ref) * list ref) :=
  let non_terminate_nodes_of_type := default [] (dict_get acc.1 type) in
  let num_max_nodes_per_type :=
    match dict_get configs type with
    | Some node_config => max_worker_nodes node_config
    | None => 0%Z
    end in
  let num_extra_nodes :=
    (Z.of_nat (length non_terminate_nodes_of_type) - num_max_nodes_per_type)%Z in
  if bool_decide (num_extra_nodes ≤ 0)%Z then ret acc
  else
    '(to_terminate, remained_nodes) ←
      _select_nodes_to_terminate non_terminate_nodes_of_type num_extra_nodes
        MAX_NUM_NODE_PER_TYPE None (Some num_max_nodes_per_type);
    ret (dict_set acc.1 type remained_nodes, acc.2 ++ to_terminate).

(** [ResourceDemandScheduler._enforce_max_workers_per_type]. *)
Definition _enforce_max_workers_per_type (ctx : ScheduleContext)
  : M ScheduleContext :=
  all_nodes ← get_nodes ctx;
  parts ← (λ s, Ok ((non_terminating_by_type (heap s) all_nodes,
                     terminating_of (heap s) all_nodes), s));
  '(by_type, terminating_nodes) ←
    foldM (enforce_max_of_type (_node_type_configs ctx)) parts (dict_keys parts.1);
  let non_terminating_nodes := concat (dict_values by_type) in
  assert (bool_decide (length all_nodes
                       = length (terminating_nodes ++ non_terminating_nodes)));;
  update ctx (terminating_nodes ++ non_terminating_nodes).

(** [ResourceDemandScheduler._enforce_max_workers_global]. *)
Definition _enforce_max_workers_global (ctx : ScheduleContext)
  : M ScheduleContext :=
  all_nodes ← get_nodes ctx;
  parts ← (λ s, Ok ((terminating_of (heap s) all_nodes,
                     non_terminating_of (heap s) all_nodes), s));
  let num_max_nodes := _max_num_nodes ctx in
  let num_to_terminate :=
    match num_max_nodes with
    | Some m =>
        if bool_decide (m = 0%Z) then 0%Z
        else Z.max (Z.of_nat (length parts.2) - m) 0
    | None => 0%Z
    end in
  if bool_decide (num_to_terminate ≤ 0)%Z then ret ctx
  else
    '(to_terminate_nodes, non_terminating_nodes) ←
      _select_nodes_to_terminate parts.2 num_to_terminate MAX_NUM_NODES
        num_max_nodes None;
    let terminating_nodes := parts.1 ++ to_terminate_nodes in
    assert (bool_decide (length all_nodes
                         = length (terminating_nodes ++ non_terminating_nodes)));;
    update ctx (terminating_nodes ++ non_terminating_nodes).

(** *** The bin-packer *)

(** Modelled from the spec: [ResourceRequestUtil.ungroup_by_count] of
    [utils.py] is not part of the sources; bundles with counts are flattened
    into one request per unit of the count. *)
Definition ungroup_by_count (l : list ResourceRequestByCount)
  : list ResourceRequest :=
  flat_map (λ rc, replicate (Z.to_nat (count rc)) (request rc)) l.

(** Modelled from the spec: [ResourceRequestUtil.group_by_count], the inverse
    grouping of equal requests, in the order of their first occurrence. *)
Definition group_by_count (l : list ResourceRequest)
  : list ResourceRequestByCount :=
  map (λ p, {| request := p.1; count := p.2 |})
      (foldl (λ d r, dict_set d r (default 0%Z (dict_get d r) + 1)%Z) [] l).

Definition first_affinity (r : ResourceRequest) : option LabelConstraint :=
  head (omap affinity (placement_constraints r)).

Definition fuse_requests (a b : ResourceRequest) : ResourceRequest :=
  {| resources_bundle :=
       union_with (λ x y, Some (x + y)%Qc) (resources_bundle a)
                  (resources_bundle b);
     placement_constraints :=
       list_union (placement_constraints a) (placement_constraints b) |}.

(** Modelled from the spec: [ResourceRequestUtil.combine_requests_with_affinity]
    is not part of the sources; the member requests whose AFFINITY constraint
    has the same label name and value are fused, which sums their bundles and
    unites their constraints. *)
Definition combine_requests_with_affinity (rs : list ResourceRequest)
  : list ResourceRequest :=
  let plain := filter (λ r, first_affinity r = None) rs in
  let fused :=
    foldl (λ d r,
             match first_affinity r with
             | None => d
             | Some a =>
                 dict_set d (label_name a, label_value a)
                   match dict_get d (label_name a, label_value a) with
                   | Some acc => fuse_requests acc r
                   | None => r
                   end
             end) [] rs in
  plain ++ dict_values fused.

(** The key of [_sort_resource_request] and Python's order on it. *)
Definition item_ltb (a b : string * Qc) : bool :=
  if negb (bool_decide (a.1 = b.1)) then string_ltb a.1 b.1
  else bool_decide (a.2 < b.2)%Qc.

Fixpoint items_ltb (a b : list (string * Qc)) : bool :=
  match a, b with
  | [], [] => false
  | [], _ :: _ => true
  | _ :: _, [] => false
  | x :: a', y :: b' =>
      if bool_decide (x = y) then items_ltb a' b' else item_ltb x y
  end.

Definition _sort_resource_request (req : ResourceRequest)
  : Z * Z * Qc * list (string * Qc) :=
  (Z.of_nat (length (placement_constraints req)),
   Z.of_nat (length (map_to_list (resources_bundle req))),
   Qc_sum (map snd (map_to_list (resources_bundle req))),
   py_sort item_ltb (map_to_list (resources_bundle req))).

Definition request_key_ltb (a b : Z * Z * Qc * list (string * Qc)) : bool :=
  let '(a1, a2, a3, a4) := a in
  let '(b1, b2, b3, b4) := b in
  if negb (bool_decide (a1 = b1)) then bool_decide (a1 < b1)%Z
  else if negb (bool_decide (a2 = b2)) then bool_decide (a2 < b2)%Z
  else if negb (bool_decide (a3 = b3)) then bool_decide (a3 < b3)%Qc
  else items_ltb a4 b4.

Definition sort_requests (rs : list ResourceRequest) : list ResourceRequest :=
  py_sort_reverse
    (λ a b, request_key_ltb (_sort_resource_request a) (_sort_resource_request b))
    rs.

(** The [ScheduleResult] of [_sched_best_node]. *)
Record ScheduleResult := {
  sr_node : ref;
  infeasible_requests : list ResourceRequest;
  idx : nat;
  score : UtilizationScore
}.

(** The loop of [_sched_best_node] over [enumerate(nodes_copy)]. *)
Fixpoint try_nodes (i : nat) (nodes_copy : list ref)
    (rs : list ResourceRequest) (is_constraint : bool)
    (results : list ScheduleResult) : M (list ScheduleResult) :=
  match nodes_copy with
  | [] => ret results
  | r :: rest =>
      n ← load r;
      conserve ← get_conserve_gpu_nodes;
      '(n', remaining, sc) ← lift (try_schedule conserve n rs is_constraint);
      store r n';;
      if bool_decide (length remaining = length rs) then
        try_nodes (S i) rest rs is_constraint results
      else
        try_nodes (S i) rest rs is_constraint
          (results ++ [ {| sr_node := r; infeasible_requests := remaining;
                           idx := i; score := sc |} ])
  end.

(** [ResourceDemandScheduler._sched_best_node]. *)
Definition _sched_best_node (rs : list ResourceRequest) (nodes : list ref)
    (is_constraint : bool)
  : M (option ref * list ResourceRequest * list ref) :=
  nodes_copy ← deepcopy nodes;
  results ← try_nodes 0 nodes_copy rs is_constraint [];
  match py_sort_reverse (λ a b, score_ltb (score a) (score b)) results with
  | [] => ret (None, rs, nodes)
  | best_result :: _ =>
      ret (Some (sr_node best_result), infeasible_requests best_result,
           list_pop nodes (idx best_result))
  end.

(** The first [while] loop of [_try_schedule], over the existing nodes. *)
Fixpoint sched_existing_loop (fuel : nat) (rs : list ResourceRequest)
    (existing_nodes target_nodes : list ref) (is_constraint : bool)
  : M (list ResourceRequest * list ref * list ref) :=
  if bool_decide (0 < length rs)%nat && bool_decide (0 < length existing_nodes)%nat
  then
    match fuel with
    | O => raise OutOfFuel
    | S fuel' =>
        '(best_node, rs', existing_nodes') ←
          _sched_best_node rs existing_nodes is_constraint;
        match best_node with
        | None => ret (rs', existing_nodes', target_nodes)
        | Some b =>
            sched_existing_loop fuel' rs' existing_nodes' (target_nodes ++ [b])
              is_constraint
        end
    end
  else ret (rs, existing_nodes, target_nodes).

(** A new node for the pool: [from_node_config(configs[node_type], TO_LAUNCH)]. *)
Definition new_pool_node (configs : list (NodeType * NodeTypeConfig))
    (type : NodeType) : M ref :=
  match dict_get configs type with
  | None => raise KeyError
  | Some node_config => alloc (from_node_config node_config TO_LAUNCH None)
  end.

(** The second [while] loop of [_try_schedule], over the pool of new nodes. *)
Fixpoint sched_new_loop (fuel : nat) (configs : list (NodeType * NodeTypeConfig))
    (max_nodes : option Z) (rs : list ResourceRequest)
    (node_pools target_nodes : list ref) (node_type_available : list (NodeType * Z))
    (is_constraint : bool) : M (list ref * list ResourceRequest) :=
  if bool_decide (0 < length rs)%nat && bool_decide (0 < length node_pools)%nat
  then
    if match max_nodes with
       | Some m => bool_decide (m ≤ Z.of_nat (length target_nodes))%Z
       | None => false
       end
    then ret (target_nodes, rs)
    else
      match fuel with
      | O => raise OutOfFuel
      | S fuel' =>
          '(best_node, rs', node_pools') ←
            _sched_best_node rs node_pools is_constraint;
          match best_node with
          | None => ret (target_nodes, rs')
          | Some b =>
              n ← load b;
              let node_type_available' :=
                dict_add node_type_available (node_type n) (-1) in
              node_pools'' ←
                (if bool_decide
                      (0 < default 0 (dict_get node_type_available' (node_type n)))%Z
                 then r ← new_pool_node configs (node_type n);
                      ret (node_pools' ++ [r])
                 else ret node_pools');
              sched_new_loop fuel' configs max_nodes rs' node_pools''
                (target_nodes ++ [b]) node_type_available' is_constraint
          end
      end
  else ret (target_nodes, rs).

(** The fuel of the second loop: the nodes that may still be launched plus
    the nodes in the pool bound its iterations. *)
Definition new_loop_fuel (node_type_available : list (NodeType * Z))
    (node_pools : list ref) : nat :=
  (foldr (λ kv acc, Z.to_nat kv.2 + acc) 0 node_type_available
   + length node_pools)%nat.

(** [ResourceDemandScheduler._try_schedule]. *)
Definition _try_schedule (ctx : ScheduleContext)
    (requests_to_sched : list ResourceRequest) (is_constraint : bool)
  : M (list ref * list ResourceRequest) :=
  let rs := sort_requests requests_to_sched in
  existing_nodes ← get_nodes ctx;
  let node_type_available := get_node_type_available ctx in
  '(rs1, existing_nodes1, target_nodes1) ←
    sched_existing_loop (length existing_nodes) rs existing_nodes []
      is_constraint;
  let target_nodes2 := target_nodes1 ++ existing_nodes1 in
  node_pools ←
    foldM (λ pools (kv : NodeType * Z),
             if bool_decide (0 < kv.2)%Z then
               r ← new_pool_node (_node_type_configs ctx) kv.1;
               ret (pools ++ [r])
             else ret pools) [] node_type_available;
  sched_new_loop (new_loop_fuel node_type_available node_pools)
    (_node_type_configs ctx) (_max_num_nodes ctx) rs1 node_pools target_nodes2
    node_type_available is_constraint.

(** [ResourceDemandScheduler._enforce_resource_constraints]. *)
Definition _enforce_resource_constraints (ctx : ScheduleContext)
    (constraints : list ClusterResourceConstraint)
  : M (ScheduleContext * list ClusterResourceConstraint) :=
  assert (bool_decide (length constraints ≤ 1)%nat);;
  match constraints with
  | [] => ret (ctx, [])
  | constraint :: _ =>
      let rs := ungroup_by_count (min_bundles constraint) in
      '(scheduled_nodes, infeasible) ← _try_schedule ctx rs true;
      match infeasible with
      | _ :: _ => ret (ctx, [constraint])
      | [] => ctx' ← update ctx scheduled_nodes; ret (ctx', [])
      end
  end.

(** [ResourceDemandScheduler._sched_resource_requests]. *)
Definition _sched_resource_requests (ctx : ScheduleContext)
    (requests_by_count : list ResourceRequestByCount)
  : M (ScheduleContext * list ResourceRequest) :=
  let rs := ungroup_by_count requests_by_count in
  '(nodes, infeasible) ← _try_schedule ctx rs false;
  ctx' ← update ctx nodes;
  ret (ctx', infeasible).

(** The key of [_sort_gang_resource_requests]. *)
Definition _sort_gang_resource_requests (req : GangResourceRequest) : Z * Z :=
  (Z.of_nat (length (flat_map placement_constraints (requests req))),
   Z.of_nat (length (requests req))).

Definition gang_key_ltb (a b : Z * Z) : bool :=
  if negb (bool_decide (a.1 = b.1)) then bool_decide (a.1 < b.1)%Z
  else bool_decide (a.2 < b.2)%Z.

(** [ResourceDemandScheduler._sched_gang_resource_requests]. *)
Definition _sched_gang_resource_requests (ctx : ScheduleContext)
    (gang_requests : list GangResourceRequest)
  : M (ScheduleContext * list GangResourceRequest) :=
  foldM (λ (acc : ScheduleContext * list GangResourceRequest) gang_req,
           let rs := combine_requests_with_affinity (requests gang_req) in
           '(nodes, infeasible) ← _try_schedule acc.1 rs false;
           match infeasible with
           | _ :: _ => ret (acc.1, acc.2 ++ [gang_req])
           | [] => ctx' ← update acc.1 nodes; ret (ctx', acc.2)
           end)
        (ctx, [])
        (py_sort_reverse
           (λ a b, gang_key_ltb (_sort_gang_resource_requests a)
                                (_sort_gang_resource_requests b))
           gang_requests).

(** The test of [_enforce_idle_termination] on a node: it is running, the
    idle timeout is set, the node has been idle for longer than the timeout
    and no cluster constraint is committed on it. *)
Definition idle_terminated (idle_timeout : option Z) (n : SchedulingNode) : bool :=
  bool_decide (status n = RUNNING)
  && match idle_timeout with
     | None => false
     | Some t =>
         negb (bool_decide (idle_duration_ms n ≤ t * 1000)%Z)
         && negb (bool_decide (0 < length (sched_constraints n))%nat)
     end.

(** [ResourceDemandScheduler._enforce_idle_termination]. *)
Definition _enforce_idle_termination (ctx : ScheduleContext) : M ScheduleContext :=
  nodes ← get_nodes ctx;
  mapM (λ r,
          n ← load r;
          if idle_terminated (_idle_timeout_s ctx) n then
            tr ← make_termination_request n IDLE None None
                   (Some (idle_duration_ms n));
            store r (set_termination n tr)
          else ret tt) nodes;;
  update ctx nodes.

(** [ResourceDemandScheduler.schedule], with the context it ends in. *)
Definition schedule_ctx (req : SchedulingRequest)
  : M (SchedulingReply * ScheduleContext) :=
  ctx ← from_schedule_request req;
  ctx ← _terminate_outdated_nodes ctx;
  ctx ← _enforce_min_workers_per_type ctx;
  ctx ← _enforce_max_workers_per_type ctx;
  ctx ← _enforce_max_workers_global ctx;
  '(ctx, infeasible_constraints) ←
    _enforce_resource_constraints ctx (cluster_resource_constraints req);
  '(ctx, infeasible_gang_requests) ←
    _sched_gang_resource_requests ctx (gang_resource_requests req);
  '(ctx, infeasible_requests) ←
    _sched_resource_requests ctx (resource_requests req);
  ctx ← _enforce_idle_termination ctx;
  launches ← get_launch_requests ctx;
  terminations ← get_terminate_requests ctx;
  ret ({| to_launch := launches; to_terminate := terminations;
          infeasible_resource_requests := group_by_count infeasible_requests;
          infeasible_gang_resource_requests := infeasible_gang_requests;
          infeasible_cluster_resource_constraints := infeasible_constraints |},
       ctx).

Definition initial_state (time : nat → Z) (conserve_gpu_nodes : bool) : state :=
  {| heap := []; clock := time; reads := 0;
     AUTOSCALER_CONSERVE_GPU_NODES := conserve_gpu_nodes |}.

(** A call of [schedule]: the reply, or the exception raised. *)
Definition schedule (time : nat → Z) (conserve_gpu_nodes : bool)
    (req : SchedulingRequest) : result SchedulingReply :=
  match schedule_ctx req (initial_state time conserve_gpu_nodes) with
  | Ok ((reply, _), _) => Ok reply
  | Err e => Err e
  end.

(** The scheduling nodes of the context a call of [schedule] ends with. *)
Definition schedule_nodes (time : nat → Z) (conserve_gpu_nodes : bool)
    (req : SchedulingRequest) : result (list SchedulingNode) :=
  match schedule_ctx req (initial_state time conserve_gpu_nodes) with
  | Ok ((_, ctx), s) => Ok (map (λ r, heap s !!! r) (_nodes ctx))
  | Err e => Err e
  end.

(* --------------------------------------------------------------------- *)
(** ** Notions used in the statements about the scheduler *)
(* --------------------------------------------------------------------- *)

(** The nodes behind a list of references. *)
Abbreviation vals h l := (map (λ r : ref, h !!! r) l) (only parsing).

(** The references of a list point into the heap. *)
Definition valid (h : list SchedulingNode) (l : list ref) : Prop :=
  Forall (λ r, (r < length h)%nat) l.

(** The memo of a deep copy maps the objects met so far to their copies. *)
Definition memo_ok (h0 h : list SchedulingNode) (memo : list (ref * ref)) : Prop :=
  ∀ r r', dict_get memo r = Some r' →
          (length h0 ≤ r' < length h)%nat ∧ h !!! r' = h0 !!! r.

(** A context points into the heap and its table of launchable nodes is the
    one computed from its nodes. *)
Definition ctx_ok (ctx : ScheduleContext) (s : state) : Prop :=
  valid (heap s) (_nodes ctx)
  ∧ _node_type_available ctx
    = _compute_available_node_types (vals (heap s) (_nodes ctx))
        (_node_type_configs ctx).

(** The context with another list of nodes, as [update] leaves it. *)
Definition updated (ctx : ScheduleContext) (h : list SchedulingNode)
    (l : list ref) : ScheduleContext :=
  {| _node_type_configs := _node_type_configs ctx;
     _max_num_nodes := _max_num_nodes ctx;
     _idle_timeout_s := _idle_timeout_s ctx;
     _nodes := l;
     _node_type_available :=
       _compute_available_node_types (vals h l) (_node_type_configs ctx) |}.

(** The clock and the module constant of two states agree; the later state
    has read the clock at least as often. *)
Definition same_env (s s' : state) : Prop :=
  clock s' = clock s
  ∧ AUTOSCALER_CONSERVE_GPU_NODES s' = AUTOSCALER_CONSERVE_GPU_NODES s
  ∧ (reads s ≤ reads s')%nat.

(** What a marking loop does to a node: a node that passes the test is
    marked TO_TERMINATE with a request of the given cause, built from the
    node; any other node is left as it is. *)
Definition marked_by (test : SchedulingNode → bool) (c : Cause)
    (idle : SchedulingNode → option Z) (n n' : SchedulingNode) : Prop :=
  if test n then
    ∃ t, n' = set_termination n (term_request n t c None None (idle n))
  else n' = n.

(** ** Sample scheduler inputs *)

(** A running node of type [type], with one CPU in total. *)
Definition running_node (type : NodeType) (id : string) (idle_ms : Z)
    (available : Qc) (hash : string) : SchedulingNode :=
  {| node_type := type; sched_constraints := []; sched_requests := [];
     total_resources := {[ "CPU"%string := Qc_of_Z 1 ]};
     available_resources := {[ "CPU"%string := available ]};
     available_resources_for_constraints := {[ "CPU"%string := Qc_of_Z 1 ]};
     labels := ∅; status := RUNNING; launch_reason := None;
     termination_request := None; im_instance_id := Some id;
     ray_node_id := Some id; idle_duration_ms := idle_ms;
     launch_config_hash := Some hash |}.

Definition cpu_config (type : NodeType) (min_nodes max_nodes : Z) (hash : string)
  : NodeType * NodeTypeConfig :=
  (type,
   {| name := type; resources := {[ "CPU"%string := Qc_of_Z 1 ]};
      config_labels := ∅; min_worker_nodes := min_nodes;
      max_worker_nodes := max_nodes; config_launch_config_hash := hash |}).

(** A heap with three running nodes of type [t1]: busy, idle for 5 seconds
    and idle for exactly 1 second; and a context over them with an idle
    timeout of 1 second. *)
Definition sample_state : state :=
  {| heap := [ running_node "t1" "n0" 0 0%Qc "h1";
               running_node "t1" "n1" 5000 (Qc_of_Z 1) "h1";
               running_node "t1" "n2" 1000 (Qc_of_Z 1) "h1" ];
     clock := λ k, (1000 + Z.of_nat k)%Z; reads := 0;
     AUTOSCALER_CONSERVE_GPU_NODES := true |}.

Definition sample_ctx : ScheduleContext :=
  updated {| _node_type_configs := [cpu_config "t1" 0 5 "h1"];
             _max_num_nodes := None; _idle_timeout_s := Some 1%Z;
             _nodes := []; _node_type_available := [] |}
          (heap sample_state) [0; 1; 2]%nat.

(** The termination request that [_select_nodes_to_terminate] builds for a
    node. *)
Definition select_request (c : Cause) (max_nodes max_nodes_per_type : option Z)
    (n : SchedulingNode) (t : Z) : TerminationRequest :=
  match c with
  | MAX_NUM_NODES =>
      with_max_num_nodes (term_request n t c None None None) max_nodes
  | MAX_NUM_NODE_PER_TYPE =>
      with_max_num_nodes_per_type (term_request n t c None None None)
        max_nodes_per_type
  | _ => term_request n t c None None None
  end.

Definition selected (c : Cause) (max_nodes max_nodes_per_type : option Z)
    (n n' : SchedulingNode) : Prop :=
  ∃ t, n' = set_termination n (select_request c max_nodes max_nodes_per_type n t).

(** Ascending order of the termination keys of the nodes behind two
    references. *)
Definition termination_key_le (h : list SchedulingNode) (a b : ref) : Prop :=
  termination_key_ltb (_sort_nodes_for_termination (h !!! b))
                      (_sort_nodes_for_termination (h !!! a)) = false.

Definition result_map {A B} (f : A → B) (r : result A) : result B :=
  match r with Ok a => Ok (f a) | Err e => Err e end.

Definition empty_request (configs : list (NodeType * NodeTypeConfig))
    (instances : list AutoscalerInstance) (idle_timeout : option Z)
  : SchedulingRequest :=
  {| node_type_configs := configs; max_num_nodes := None;
     idle_timeout_s := idle_timeout; resource_requests := [];
     gang_resource_requests := []; cluster_resource_constraints := [];
     current_instances := instances |}.

Definition running_instance (type : NodeType) (id : string) (idle_ms : Z)
    (hash : string) : AutoscalerInstance :=
  {| im_instance :=
       Some {| instance_id := id; instance_type := type; im_status := RAY_RUNNING;
               cloud_instance_id := id; launch_request_id := "r-1";
               im_launch_config_hash := hash; status_history := [] |};
     ray_node :=
       Some {| ns_node_id := id; ns_instance_id := id;
               ray_node_type_name := type;
               ns_total_resources := {[ "CPU"%string := Qc_of_Z 1 ]};
               ns_available_resources := {[ "CPU"%string := Qc_of_Z 1 ]};
               dynamic_labels := ∅; ns_idle_duration_ms := idle_ms;
               ns_status := NS_IDLE |};
     ai_cloud_instance_id := Some id |}.

(** One node type with a minimum of one worker, and its only node idle for
    ten seconds under an idle timeout of one second. *)
Definition request_idle_min : SchedulingRequest :=
  empty_request [cpu_config "t1" 1 5 "h1"]
    [running_instance "t1" "i-1" 10000 "h1"] (Some 1%Z).

(** Two running nodes of a type with a maximum of one worker. *)
Definition request_over_max : SchedulingRequest :=
  empty_request [cpu_config "t1" 0 1 "h1"]
    [running_instance "t1" "i-1" 0 "h1"; running_instance "t1" "i-2" 5 "h1"]
    None.

(** A running node of type t1 when the only node type config is the one of
    t2. *)
Definition request_outdated : SchedulingRequest :=
  empty_request [cpu_config "t2" 0 5 "h1"]
    [running_instance "t1" "i-1" 0 "h1"] None.

(** An empty cluster and one node type with a minimum of one worker. *)
Definition request_min_one : SchedulingRequest :=
  empty_request [cpu_config "t1" 1 5 "h1"] [] None.

Definition cpu_request (constraints : list PlacementConstraint) : ResourceRequest :=
  {| resources_bundle := {[ "CPU"%string := Qc_of_Z 1 ]};
     placement_constraints := constraints |}.

(** A request for a quantity of zero of a resource that the sample nodes do
    not have. *)
Definition zero_gpu_request : ResourceRequest :=
  {| resources_bundle := {[ "GPU"%string := Qc_of_Z 0 ]};
     placement_constraints := [] |}.

Definition one_cpu_constraint : ClusterResourceConstraint :=
  {| min_bundles := [ {| request := cpu_request []; count := 1 |} ] |}.

(** Two cluster resource constraints. *)
Definition request_two_constraints : SchedulingRequest :=
  {| node_type_configs := [cpu_config "t1" 0 5 "h1"]; max_num_nodes := None;
     idle_timeout_s := None; resource_requests := [];
     gang_resource_requests := [];
     cluster_resource_constraints := [one_cpu_constraint; one_cpu_constraint];
     current_instances := [] |}.

Definition affinity_to (k v : string) : PlacementConstraint :=
  {| anti_affinity := None;
     affinity := Some {| label_name := k; label_value := v |} |}.

(** Two requests with affinity to different values of one label, and a node
    type whose label has yet another use: both fit on one node. *)
Definition request_label_clash : SchedulingRequest :=
  {| node_type_configs :=
       [("t2"%string,
         {| name := "t2"; resources := {[ "CPU"%string := Qc_of_Z 2 ]};
            config_labels := ∅; min_worker_nodes := 0; max_worker_nodes := 5;
            config_launch_config_hash := "h1" |})];
     max_num_nodes := None; idle_timeout_s := None;
     resource_requests :=
       [ {| request := cpu_request [affinity_to "zone" "a"]; count := 1 |};
         {| request := cpu_request [affinity_to "zone" "b"]; count := 1 |} ];
     gang_resource_requests := []; cluster_resource_constraints := [];
     current_instances := [] |}.

(** The clock of a call that starts at time [t0]. *)
Definition clock_from (t0 : Z) : nat → Z := λ k, (t0 + Z.of_nat k)%Z.

(** The non-terminating nodes of a type. *)
Definition count_type (N : NodeType) (nodes : list SchedulingNode) : nat :=
  length (filter (λ n, status n ≠ TO_TERMINATE ∧ node_type n = N) nodes).

(** The non-terminating nodes, of any type. *)
Definition count_live (nodes : list SchedulingNode) : nat :=
  length (filter (λ n, status n ≠ TO_TERMINATE) nodes).

(** The nodes to launch of a type. *)
Definition count_launch (N : NodeType) (nodes : list SchedulingNode) : nat :=
  length (filter (λ n, status n = TO_LAUNCH ∧ node_type n = N) nodes).

(** The fields of a node that the bin-packer never assigns. *)
Definition Meta : Type :=
  NodeType * SchedulingNodeStatus * option TerminationRequest * option string
  * option string * Z * option string.

Definition meta (n : SchedulingNode) : Meta :=
  (node_type n, status n, termination_request n, im_instance_id n,
   ray_node_id n, idle_duration_ms n, launch_config_hash n).

Definition meta_type (m : Meta) : NodeType := m.1.1.1.1.1.1.
Definition meta_status (m : Meta) : SchedulingNodeStatus := m.1.1.1.1.1.2.
Definition meta_request (m : Meta) : option TerminationRequest := m.1.1.1.1.2.

(** The later heap holds the objects of the earlier one, unchanged. *)
Definition extends (h h' : list SchedulingNode) : Prop :=
  (length h ≤ length h')%nat ∧ ∀ r, (r < length h)%nat → h' !!! r = h !!! r.

(** What the phases that only terminate nodes do to a node: nothing, or a
    node that was not terminating is marked. *)
Definition marks (n n' : SchedulingNode) : Prop :=
  n' = n ∨ (status n ≠ TO_TERMINATE ∧ ∃ tr, n' = set_termination n tr).

(** The nodes [new] are the nodes [old], in some order, each possibly
    marked. *)
Definition marked_of (old new : list SchedulingNode) : Prop :=
  ∃ vs, new ≡ₚ vs ∧ Forall2 marks old vs.

(** The maximum number of workers of a node type; a type without a config
    may have none. *)
Definition max_workers_of (configs : list (NodeType * NodeTypeConfig))
    (N : NodeType) : Z :=
  match dict_get configs N with
  | Some c => max_worker_nodes c
  | None => 0
  end.

(** The node type configs are a dict (no key twice) from the names of the
    node types to their configs, with maxima that are not negative. *)
Definition wf_configs (configs : list (NodeType * NodeTypeConfig)) : Prop :=
  NoDup (dict_keys configs)
  ∧ Forall (λ kc, name kc.2 = kc.1 ∧ 0 ≤ max_worker_nodes kc.2) configs.

Definition wf_configsb (configs : list (NodeType * NodeTypeConfig)) : bool :=
  bool_decide (NoDup (dict_keys configs))
  && forallb (λ kc, bool_decide (name kc.2 = kc.1)
                    && bool_decide (0 ≤ max_worker_nodes kc.2)) configs.

(** Every node type has at most its maximum of non-terminating nodes. *)
Definition bounded (configs : list (NodeType * NodeTypeConfig))
    (nodes : list SchedulingNode) : Prop :=
  ∀ N, Z.of_nat (count_type N nodes) ≤ max_workers_of configs N.

(** The number of nodes of a type, whatever their status. *)
Definition count_all (N : NodeType) (nodes : list SchedulingNode) : nat :=
  length (filter (λ n, node_type n = N) nodes).

(** The untouched fields of the nodes behind a list of references. *)
Definition metas (h : list SchedulingNode) (l : list ref) : list Meta :=
  map (λ r, meta (h !!! r)) l.

(** The untouched fields of a new node to launch of a type. *)
Definition launch_meta (k : NodeType) : Meta :=
  (k, TO_LAUNCH, None, None, None, 0, None).

Definition avail_of (avail : list (NodeType * Z)) (k : NodeType) : Z :=
  default 0 (dict_get avail k).

(** The pool of the second loop of [_try_schedule]: new nodes to launch, of
    pairwise different types, each of a type that may still be launched. *)
Definition pool_ok (avail : list (NodeType * Z)) (h : list SchedulingNode)
    (pools : list ref) : Prop :=
  NoDup (map (λ r, node_type (h !!! r)) pools)
  ∧ Forall (λ r, (r < length h)%nat
                 ∧ meta (h !!! r) = launch_meta (node_type (h !!! r))
                 ∧ 1 ≤ avail_of avail (node_type (h !!! r))) pools.

Definition count_key (k : NodeType) (l : list NodeType) : nat :=
  length (filter (λ x, x = k) l).

Definition same_settings (ctx ctx' : ScheduleContext) : Prop :=
  _node_type_configs ctx' = _node_type_configs ctx
  ∧ _max_num_nodes ctx' = _max_num_nodes ctx
  ∧ _idle_timeout_s ctx' = _idle_timeout_s ctx.

(** What every phase after the enforcement of the per-type maxima keeps: the
    context stays well-formed with its settings, the per-type bound is
    preserved, and a node that is terminating stays in the context as it
    is. *)
Definition keeps (ctx : ScheduleContext) (s : state) (ctx' : ScheduleContext)
    (s' : state) : Prop :=
  ctx_ok ctx' s' ∧ same_settings ctx ctx' ∧ same_env s s'
  ∧ (bounded (_node_type_configs ctx) (vals (heap s) (_nodes ctx)) →
     bounded (_node_type_configs ctx) (vals (heap s') (_nodes ctx')))
  ∧ (∀ m, meta_status m = TO_TERMINATE →
          m ∈ metas (heap s) (_nodes ctx) → m ∈ metas (heap s') (_nodes ctx')).

(** What every phase after the first keeps, whatever the node type configs
    are: the context stays well-formed with its settings and a node that is
    terminating stays in the context as it is. *)
Definition carries (ctx : ScheduleContext) (s : state) (ctx' : ScheduleContext)
    (s' : state) : Prop :=
  ctx_ok ctx' s' ∧ same_settings ctx ctx' ∧ same_env s s'
  ∧ (∀ m, meta_status m = TO_TERMINATE →
          m ∈ metas (heap s) (_nodes ctx) → m ∈ metas (heap s') (_nodes ctx')).

Definition count_meta (N : NodeType) (ms : list Meta) : nat :=
  length (filter (λ m, meta_status m ≠ TO_TERMINATE ∧ meta_type m = N) ms).

(** The buckets of [_enforce_max_workers_per_type]: every bucket holds
    non-terminating nodes of its type. *)
Definition typed_buckets (h : list SchedulingNode)
    (D : list (NodeType * list ref)) : Prop :=
  Forall (λ kl, Forall (λ r, (r < length h)%nat
                             ∧ node_type (h !!! r) = kl.1
                             ∧ status (h !!! r) ≠ TO_TERMINATE) kl.2) D.

(** The heap [h'] is the heap [h] with some nodes marked. *)
Definition heap_marks (h h' : list SchedulingNode) : Prop :=
  length h' = length h ∧ ∀ r, marks (h !!! r) (h' !!! r).

(** The values of a dict of lists, concatenated, without the first bucket
    of a key. *)
Fixpoint dict_rest {V} (d : list (NodeType * list V)) (K : NodeType) : list V :=
  match d with
  | [] => []
  | (k, v) :: d' =>
      if decide (k = K) then concat (dict_values d') else v ++ dict_rest d' K
  end.

(* --------------------------------------------------------------------- *)
(** ** Requests that [schedule] serves without raising *)
(* --------------------------------------------------------------------- *)

(** A resource of a node with a total other than zero: what is available of
    it lies between zero and the total. *)
Definition resource_ok (available : gmap string Qc) (k : string) (v : Qc) : Prop :=
  v ≠ 0%Qc →
  match available !! k with
  | Some a => (0 ≤ a)%Qc ∧ (a ≤ v)%Qc
  | None => True
  end.

Global Instance resource_ok_dec available k v : Decision (resource_ok available k v).
Proof. unfold resource_ok. destruct (available !! k); apply _. Defined.

Definition resources_ok (total available : gmap string Qc) : Prop :=
  map_Forall (resource_ok available) total.

(** A label agrees with [L]: if [L] gives the label name a value, it is the
    value of the label. *)
Definition label_ok (L : gmap string string) (k v : string) : Prop :=
  match L !! k with
  | Some w => v = w
  | None => True
  end.

Global Instance label_ok_dec L k v : Decision (label_ok L k v).
Proof. unfold label_ok. destruct (L !! k); apply _. Defined.

Definition labels_ok (L labels : gmap string string) : Prop :=
  map_Forall (label_ok L) labels.

(** The label of an affinity or anti-affinity constraint is one of [L]. *)
Definition constraint_label_ok (L : gmap string string)
    (a : option LabelConstraint) : Prop :=
  match a with
  | Some a => L !! label_name a = Some (label_value a)
  | None => True
  end.

Global Instance constraint_label_ok_dec L a : Decision (constraint_label_ok L a).
Proof. unfold constraint_label_ok. destruct a; apply _. Defined.

Definition constraint_ok (L : gmap string string) (c : PlacementConstraint)
  : Prop :=
  constraint_label_ok L (affinity c) ∧ constraint_label_ok L (anti_affinity c).

(** A resource request asks for positive quantities and its constraints use
    the labels of [L]. *)
Definition request_ok (L : gmap string string) (r : ResourceRequest) : Prop :=
  map_Forall (λ _ v, 0 < v)%Qc (resources_bundle r)
  ∧ Forall (constraint_ok L) (placement_constraints r).

Definition node_ok (L : gmap string string) (n : SchedulingNode) : Prop :=
  resources_ok (total_resources n) (available_resources n)
  ∧ labels_ok L (labels n).

(** A node type offers no negative quantity. *)
Definition config_ok (L : gmap string string) (c : NodeTypeConfig) : Prop :=
  map_Forall (λ _ v, 0 ≤ v)%Qc (resources c) ∧ labels_ok L (config_labels c).

(** The ray node of an instance has an id that is valid UTF-8 and sane
    resources. *)
Definition instance_ok (L : gmap string string) (i : AutoscalerInstance) : Prop :=
  match ray_node i with
  | Some rn =>
      is_ok (decode_utf8 (ns_node_id rn)) = true
      ∧ resources_ok (ns_total_resources rn) (ns_available_resources rn)
      ∧ labels_ok L (dynamic_labels rn)
  | None => True
  end.

Global Instance instance_ok_dec L i : Decision (instance_ok L i).
Proof. unfold instance_ok. destruct (ray_node i); apply _. Defined.

(** The requests that [schedule] serves: well-formed node type configs
    without negative quantities, sane ray nodes, at most one cluster resource
    constraint, positive quantities in every bundle, and labels such that
    one label name has one value ([L]) in the constraints and on the
    nodes. *)
Definition served (L : gmap string string) (req : SchedulingRequest) : Prop :=
  wf_configs (node_type_configs req)
  ∧ Forall (λ kc, config_ok L kc.2) (node_type_configs req)
  ∧ Forall (instance_ok L) (current_instances req)
  ∧ (length (cluster_resource_constraints req) ≤ 1)%nat
  ∧ Forall (λ c, Forall (λ rc, request_ok L (request rc)) (min_bundles c))
           (cluster_resource_constraints req)
  ∧ Forall (λ g, Forall (request_ok L) (requests g)) (gang_resource_requests req)
  ∧ Forall (λ rc, request_ok L (request rc)) (resource_requests req).

Global Instance served_dec L req : Decision (served L req).
Proof. unfold served, wf_configs, request_ok, config_ok, constraint_ok. apply _. Defined.

(** A running node, a cluster resource constraint, a gang and two requests
    with affinity to the zone [a]. *)
Definition request_served : SchedulingRequest :=
  {| node_type_configs := [cpu_config "t1" 0 5 "h1"]; max_num_nodes := None;
     idle_timeout_s := Some 1;
     resource_requests :=
       [ {| request := cpu_request [affinity_to "zone" "a"]; count := 2 |} ];
     gang_resource_requests := [ {| requests := [cpu_request []; cpu_request []] |} ];
     cluster_resource_constraints := [one_cpu_constraint];
     current_instances := [running_instance "t1" "i-1" 0 "h1"] |}.

(** A ray node whose id is the single byte 0xFF, which is not UTF-8. *)
Definition request_bad_id : SchedulingRequest :=
  empty_request [cpu_config "t1" 0 5 "h1"]
    [running_instance "t1" (String (ascii_of_nat 255) EmptyString) 0 "h1"] None.


(* ===================================================================== *)
(** * Part II: properties *)
(* ===================================================================== *)

(** ** The Python helpers *)

Section sorting.
Context {A : Type} (lt : A → A → bool).

Lemma sort_insert_perm x l : sort_insert lt x l ≡ₚ x :: l.
Proof.
  induction l as [|y l IH]; simpl; [done|].
  destruct (lt y x); [|done].
  rewrite IH. apply Permutation_swap.
Qed.

Lemma py_sort_perm l : py_sort lt l ≡ₚ l.
Proof.
  induction l as [|x l IH]; simpl; [done|].
  unfold py_sort in *. simpl. rewrite sort_insert_perm. by rewrite IH.
Qed.

Lemma py_sort_length l : length (py_sort lt l) = length l.
Proof. by rewrite py_sort_perm. Qed.

(** With an asymmetric comparison the result is in ascending order: no
    element is greater than its successor. *)
Hypothesis lt_asym : ∀ a b, lt a b = true → lt b a = false.

Lemma sort_insert_sorted x l :
  Sorted (λ a b, lt b a = false) l →
  Sorted (λ a b, lt b a = false) (sort_insert lt x l).
Proof using Type*.
  induction 1 as [|y l Hs IH Hhd]; simpl.
  - repeat constructor.
  - destruct (lt y x) eqn:Hyx.
    + constructor; [done|].
      destruct Hhd as [|z l' Hz]; simpl.
      * constructor. by apply lt_asym.
      * destruct (lt z x); constructor; [done|by apply lt_asym].
    + constructor; [by constructor|by constructor].
Qed.

Lemma py_sort_sorted l : Sorted (λ a b, lt b a = false) (py_sort lt l).
Proof using Type*.
  induction l as [|x l IH]; [constructor|].
  by apply sort_insert_sorted.
Qed.
End sorting.

Lemma list_Z_ltb_asym a b : list_Z_ltb a b = true → list_Z_ltb b a = false.
Proof.
  revert b. induction a as [|x a IH]; intros [|y b]; simpl; try done.
  repeat case_decide; subst; try done; [by apply IH|].
  intros ?%bool_decide_eq_true. apply bool_decide_eq_false. lia.
Qed.

Section dicts.
Context {K V : Type} `{EqDecision K}.
Implicit Types (d : list (K * V)) (k : K) (v : V).

Lemma dict_get_set_eq d k v : dict_get (dict_set d k v) k = Some v.
Proof.
  induction d as [|[k' v'] d IH]; simpl.
  - by rewrite decide_True.
  - destruct (decide (k' = k)) as [->|Hne]; simpl.
    + by rewrite decide_True.
    + by rewrite decide_False.
Qed.

Lemma dict_get_set_ne d k k' v :
  k ≠ k' → dict_get (dict_set d k v) k' = dict_get d k'.
Proof.
  intros Hne. induction d as [|[k0 v0] d IH]; simpl.
  - by rewrite decide_False.
  - destruct (decide (k0 = k)) as [->|Hne0]; simpl.
    + by rewrite !decide_False.
    + destruct (decide (k0 = k')); [done|apply IH].
Qed.

Lemma dict_keys_set d k v :
  dict_keys (dict_set d k v)
  = if bool_decide (k ∈ dict_keys d) then dict_keys d else dict_keys d ++ [k].
Proof.
  induction d as [|[k0 v0] d IH]; simpl; [done|].
  destruct (decide (k0 = k)) as [->|Hne]; simpl.
  - rewrite bool_decide_eq_true_2; [done|left].
  - rewrite IH. unfold dict_keys; simpl.
    destruct (bool_decide (k ∈ map fst d)) eqn:Hin.
    + rewrite bool_decide_eq_true_2; [done|].
      right. by apply bool_decide_eq_true in Hin.
    + rewrite bool_decide_eq_false_2; [done|].
      apply bool_decide_eq_false in Hin.
      rewrite elem_of_cons. naive_solver.
Qed.

Lemma dict_get_Some_elem d k v : dict_get d k = Some v → (k, v) ∈ d.
Proof.
  induction d as [|[k0 v0] d IH]; simpl; [done|].
  destruct (decide (k0 = k)) as [->|Hne].
  - intros [= ->]. left.
  - intros ?. right. by apply IH.
Qed.

Lemma dict_get_None d k : dict_get d k = None ↔ k ∉ dict_keys d.
Proof.
  induction d as [|[k0 v0] d IH]; simpl.
  - split; [intros _; apply not_elem_of_nil|done].
  - unfold dict_keys in *; simpl. rewrite not_elem_of_cons.
    destruct (decide (k0 = k)) as [->|Hne]; [naive_solver|].
    rewrite IH. naive_solver.
Qed.
End dicts.


(** ** The reconciler *)

Lemma list_pop_last_Some {A} (l : list A) x r :
  list_pop_last l = Some (x, r) → l = r ++ [x].
Proof.
  unfold list_pop_last. destruct (reverse l) as [|y r'] eqn:Hrev; [done|].
  intros [= -> <-].
  rewrite <-(reverse_involutive l), Hrev. by rewrite reverse_cons.
Qed.

Lemma list_pop_last_None {A} (l : list A) : list_pop_last l = None → l = [].
Proof.
  unfold list_pop_last. destruct (reverse l) as [|y r'] eqn:Hrev; [|done].
  intros _. rewrite <-(reverse_involutive l), Hrev. done.
Qed.

(** One call of [_try_or_fail_allocation] follows the rule of the
    specification. *)
Lemma try_or_fail_allocation_rule i pool errs :
  alloc_rule errs i pool (_try_or_fail_allocation i pool errs).2
    (_try_or_fail_allocation i pool errs).1.
Proof.
  unfold _try_or_fail_allocation.
  destruct (list_pop_last _) as [[c rest]|] eqn:Hpop; simpl.
  - apply list_pop_last_Some in Hpop.
    apply (alloc_allocated _ _ _ _ c rest []).
    + done.
    + unfold pool_of. by rewrite dict_get_set_eq, app_nil_r.
    + intros t Ht. unfold pool_of. by rewrite dict_get_set_ne.
  - apply list_pop_last_None in Hpop.
    destruct (dict_get errs _) as [e|] eqn:Herr; simpl.
    + case_bool_decide as Hty; simpl.
      * by apply alloc_failed.
      * apply alloc_untouched; [done..|]. intros e' ?. by simplify_eq.
    + apply alloc_untouched; [done..|]. intros e' ?. congruence.
Qed.

Lemma allocation_loop_run errs insts pool updates :
  alloc_run errs insts pool updates (allocation_loop insts pool errs updates).
Proof.
  revert pool updates. induction insts as [|i rest IH]; intros pool updates.
  - constructor.
  - simpl. pose proof (try_or_fail_allocation_rule i pool errs) as Hrule.
    destruct (_try_or_fail_allocation i pool errs) as [ev pool'] eqn:Hstep.
    simpl in Hrule.
    eapply alloc_run_cons; [exact Hrule|].
    destruct ev; apply IH.
Qed.

Lemma unassigned_fold_elem assigned nt d t c :
  c ∈ pool_of
        (foldl (λ d (p : CloudInstanceId * CloudInstance),
                  if bool_decide (p.1 ∈ assigned) then d
                  else dict_set d (ci_node_type p.2)
                         (default [] (dict_get d (ci_node_type p.2)) ++ [p.2]))
               d nt) t
  ↔ c ∈ pool_of d t
    ∨ ∃ id, (id, c) ∈ nt ∧ (id ∉ (assigned : list CloudInstanceId))
            ∧ ci_node_type c = t.
Proof.
  revert d. induction nt as [|[id0 c0] nt IH]; intros d; simpl.
  - split; [auto|]. intros [?|(id & Hin & _)]; [done|]. by apply elem_of_nil in Hin.
  - rewrite IH. clear IH. case_bool_decide as Hin; simpl.
    + split.
      * intros [?|(id & ? & ? & ?)]; [by left|right].
        exists id. split_and!; [by right|done..].
      * intros [?|(id & [Heq|?]%elem_of_cons & ? & ?)]; [by left| |right; eauto].
        by simplify_eq.
    + unfold pool_of at 1.
      destruct (decide (ci_node_type c0 = t)) as [<-|Hne].
      * rewrite dict_get_set_eq. simpl. fold (pool_of d (ci_node_type c0)).
        rewrite elem_of_app, list_elem_of_singleton. split.
        -- intros [[?| ->]|(id & ? & ? & ?)].
           ++ by left.
           ++ right. exists id0. split_and!; [left|done..].
           ++ right. exists id. split_and!; [by right|done..].
        -- intros [?|(id & [Heq|?]%elem_of_cons & ? & ?)].
           ++ left. by left.
           ++ simplify_eq. left. by right.
           ++ right. eauto.
      * rewrite dict_get_set_ne by done. fold (pool_of d t). split.
        -- intros [?|(id & ? & ? & ?)]; [by left|right].
           exists id. split_and!; [by right|done..].
        -- intros [?|(id & [Heq|?]%elem_of_cons & ? & ?)]; [by left| |right; eauto].
           by simplify_eq.
Qed.

Lemma launch_errors_fold_elem errs d rid e :
  dict_get
    (foldl (λ d e,
              match e with
              | LaunchNodeError rid nt det =>
                  dict_set d rid
                    {| le_request_id := rid; le_node_type := nt; le_details := det |}
              | TerminateNodeError _ _ _ => d
              end) d errs) rid = Some e →
  dict_get d rid = Some e
  ∨ LaunchNodeError rid (le_node_type e) (le_details e) ∈ errs.
Proof.
  revert d. induction errs as [|[rid0 nt0 det0|? ? ?] errs IH]; intros d; simpl.
  - auto.
  - intros [Hd|Hin]%IH; [|right; by right].
    destruct (decide (rid0 = rid)) as [->|Hne].
    + rewrite dict_get_set_eq in Hd. simplify_eq. right. left.
    + rewrite dict_get_set_ne in Hd by done. by left.
  - intros [Hd|Hin]%IH; [by left|right; by right].
Qed.


(** C2. The cloud-termination pass of [sync_from] does nothing: an instance
    bound to a cloud instance that is no longer reported stays ALLOCATED, and
    a TERMINATING instance with a [TerminateNodeError] stays TERMINATING; no
    event is submitted. *)
Theorem sync_from_ignores_cloud_termination :
  sync_from 100 im_gone [] cloud_gone errors_gone [] = Ok (im_gone, [])
  ∧ map (λ i, (instance_id i, im_status i, cloud_instance_id i))
        (im_instances im_gone)
    = [("i-1"%string, ALLOCATED, "c-1"%string);
       ("i-2"%string, TERMINATING, "c-2"%string)]
  ∧ "c-1"%string ∉ dict_keys cloud_gone.
Proof.
  split_and!; [reflexivity|reflexivity|].
  by intros ?%(bool_decide_pack _).
Qed.

(** C5. A second [sync_from] with the same observations produces a new update
    event: after the first call bound the requested instance to one of two
    unassigned cloud instances, the allocation pass of the second call
    allocates the other one to the same instance, and the instance manager
    rejects the batch. *)
Theorem sync_from_twice_emits_again :
  ∃ st1,
    sync_from 100 im_requested [] cloud_two [] []
    = Ok (st1, [ {| ev_instance_id := "i-1"; new_instance_status := ALLOCATED;
                    ev_cloud_instance_id := "c-2"; ev_details := EmptyString |} ])
    ∧ map (λ i, (instance_id i, im_status i, cloud_instance_id i))
          (im_instances st1)
      = [("i-1"%string, ALLOCATED, "c-2"%string)]
    ∧ dict_values (allocation_updates (im_instances st1) cloud_two [])
      = [ {| ev_instance_id := "i-1"; new_instance_status := ALLOCATED;
             ev_cloud_instance_id := "c-1"; ev_details := EmptyString |} ]
    ∧ sync_from 200 st1 [] cloud_two [] [] = Err AssertionError.
Proof. eexists. split_and!; reflexivity. Qed.


(** ** The monad of the scheduler *)

Lemma bind_unfold {A B} (m : M A) (f : A → M B) s :
  (m ≫= f) s = match m s with Ok (a, s') => f a s' | Err e => Err e end.
Proof. reflexivity. Qed.

Lemma bind_ok {A B} (m : M A) (f : A → M B) s a s1 :
  m s = Ok (a, s1) → (m ≫= f) s = f a s1.
Proof. intros H. by rewrite bind_unfold, H. Qed.

Lemma bind_inv {A B} (m : M A) (f : A → M B) s b s2 :
  (m ≫= f) s = Ok (b, s2) → ∃ a s1, m s = Ok (a, s1) ∧ f a s1 = Ok (b, s2).
Proof.
  rewrite bind_unfold. destruct (m s) as [[a s1]|e]; [|done]. eauto.
Qed.

Lemma ret_unfold {A} (a : A) s : (mret a : M A) s = Ok (a, s).
Proof. reflexivity. Qed.

Lemma lift_inv {A} (r : result A) s a s' :
  lift r s = Ok (a, s') → r = Ok a ∧ s' = s.
Proof. unfold lift. destruct r; naive_solver. Qed.

Lemma assert_inv b s u s' : assert b s = Ok (u, s') → b = true ∧ s' = s.
Proof. unfold assert. destruct b; [|done]. intros [= _ <-]. done. Qed.

(** Inversion of a successful run, one bind at a time. *)
Ltac inv_bind H :=
  let a := fresh "a" in
  let s := fresh "s" in
  let H1 := fresh H in
  apply bind_inv in H as (a & s & H1 & H).

(** ** The heap *)

Lemma lookup_total_app_l_lt (h h' : list SchedulingNode) (r : ref) :
  (r < length h)%nat → (h ++ h') !!! r = h !!! r.
Proof. intros Hr. by rewrite lookup_total_app_l. Qed.

Lemma vals_app_l (h h' : list SchedulingNode) (l : list ref) :
  valid h l → vals (h ++ h') l = vals h l.
Proof.
  induction 1 as [|r l Hr _ IH]; simpl; [done|].
  by rewrite lookup_total_app_l_lt, IH.
Qed.

Lemma valid_app_heap h h' l : valid h l → valid (h ++ h') l.
Proof.
  unfold valid. intros H. eapply Forall_impl; [exact H|].
  intros r Hr. simpl in *. rewrite length_app. lia.
Qed.

Lemma valid_weaken h h' l : (length h ≤ length h')%nat → valid h l → valid h' l.
Proof.
  intros Hle. unfold valid. intros H. eapply Forall_impl; [exact H|].
  intros r Hr. simpl in *. lia.
Qed.

(** [copy.deepcopy]: the copies are new objects with the values of the
    originals, and the objects that existed are untouched. *)
Lemma deepcopy_loop_spec h0 l :
  valid h0 l →
  ∀ h memo,
    (∃ ext, h = h0 ++ ext) → memo_ok h0 h memo →
    ∃ ext',
      (deepcopy_loop h memo l).1 = h ++ ext'
      ∧ length (deepcopy_loop h memo l).2 = length l
      ∧ vals (h ++ ext') (deepcopy_loop h memo l).2 = vals h0 l
      ∧ Forall (λ r, length h0 ≤ r < length (h ++ ext'))%nat (deepcopy_loop h memo l).2.
Proof.
  induction 1 as [|r l Hr Hl IH]; intros h memo [ext ->] Hmemo; simpl.
  - exists []. by rewrite app_nil_r.
  - destruct (dict_get memo r) as [r'|] eqn:Hget.
    + destruct (IH (h0 ++ ext) memo) as (ext' & Hh & Hlen & Hv & Hfresh);
        [by eexists|done|].
      destruct (deepcopy_loop (h0 ++ ext) memo l) as [h' out] eqn:Hloop.
      simpl in *. subst h'. exists ext'. split_and!; [done|by f_equal| |].
      * f_equal; [|done].
        destruct (Hmemo _ _ Hget) as [Hran Hval].
        by rewrite lookup_total_app_l_lt by lia.
      * constructor; [|done].
        destruct (Hmemo _ _ Hget) as [Hran Hval]. rewrite length_app. lia.
    + set (r' := length (h0 ++ ext)).
      set (x := (h0 ++ ext) !!! r).
      destruct (IH ((h0 ++ ext) ++ [x]) (dict_set memo r r'))
        as (ext' & Hh & Hlen & Hv & Hfresh).
      { exists (ext ++ [x]). by rewrite app_assoc. }
      { intros r1 r1'. destruct (decide (r = r1)) as [<-|Hne].
        - rewrite dict_get_set_eq. intros [= <-]. subst r'. split.
          + rewrite !length_app. simpl. lia.
          + rewrite lookup_total_app_r by lia. rewrite Nat.sub_diag. simpl.
            subst x. by rewrite lookup_total_app_l_lt.
        - rewrite dict_get_set_ne by done. intros Hg.
          destruct (Hmemo _ _ Hg) as [Hran Hval]. split.
          + rewrite length_app. simpl. lia.
          + by rewrite lookup_total_app_l_lt by lia. }
      subst x r'.
      destruct (deepcopy_loop _ _ l) as [h' out] eqn:Hloop.
      simpl in *. subst h'. exists ([(h0 ++ ext) !!! r] ++ ext').
      rewrite !app_assoc. split_and!; [done|by f_equal| |].
      * f_equal; [|done].
        rewrite <-!app_assoc. rewrite app_assoc.
        rewrite lookup_total_app_r by lia.
        rewrite Nat.sub_diag. simpl.
        by rewrite lookup_total_app_l_lt.
      * constructor; [|done]. rewrite !length_app. simpl. lia.
Qed.

Lemma deepcopy_spec l s :
  valid (heap s) l →
  ∃ l' ext,
    deepcopy l s = Ok (l', set_heap s (heap s ++ ext))
    ∧ length l' = length l
    ∧ vals (heap s ++ ext) l' = vals (heap s) l
    ∧ Forall (λ r, length (heap s) ≤ r < length (heap s ++ ext))%nat l'.
Proof.
  intros Hv. unfold deepcopy.
  destruct (deepcopy_loop_spec (heap s) l Hv (heap s) [])
    as (ext & Hh & Hlen & Hvals & Hfresh).
  { exists []. by rewrite app_nil_r. }
  { intros r r' Hg. done. }
  destruct (deepcopy_loop (heap s) [] l) as [h' out]. simpl in *. subst h'.
  exists out, ext. done.
Qed.


(** ** The marking phases: outdated nodes and idle nodes *)

Lemma same_env_refl s : same_env s s.
Proof. by split_and!. Qed.

Lemma same_env_trans s1 s2 s3 : same_env s1 s2 → same_env s2 s3 → same_env s1 s3.
Proof. intros (?&?&?) (?&?&?). split_and!; [congruence..|lia]. Qed.

Lemma same_env_set_heap s h : same_env s (set_heap s h).
Proof. by split_and!. Qed.

Lemma update_run ctx l s : update ctx l s = Ok (updated ctx (heap s) l, s).
Proof. reflexivity. Qed.

Lemma make_termination_request_run n c mn mt idle s :
  ∃ s', make_termination_request n c mn mt idle s
        = Ok (term_request n (clock s (reads s)) c mn mt idle, s')
        ∧ heap s' = heap s ∧ same_env s s'.
Proof.
  eexists. split; [reflexivity|]. split; [done|]. split_and!; simpl; [done..|lia].
Qed.

Section mark_loop.
Context (test : SchedulingNode → bool) (c : Cause)
        (idle : SchedulingNode → option Z).
Hypothesis test_once : ∀ n tr, test n = true → test (set_termination n tr) = false.

Let body (r : ref) : M unit :=
  n ← load r;
  if test n then
    tr ← make_termination_request n c None None (idle n);
    store r (set_termination n tr)
  else mret tt.

Lemma marked_by_refl_trans n1 n2 n3 :
  marked_by test c idle n1 n2 → marked_by test c idle n2 n3 →
  marked_by test c idle n1 n3.
Proof using test_once.
  unfold marked_by. destruct (test n1) eqn:H1.
  - intros [t ->]. rewrite test_once by done. intros ->. eauto.
  - intros ->. by rewrite H1.
Qed.

Lemma mark_body_spec r s :
  (r < length (heap s))%nat →
  ∃ s', body r s = Ok (tt, s')
        ∧ length (heap s') = length (heap s) ∧ same_env s s'
        ∧ marked_by test c idle (heap s !!! r) (heap s' !!! r)
        ∧ ∀ r', r' ≠ r → heap s' !!! r' = heap s !!! r'.
Proof using Type.
  intros Hr. unfold body. rewrite bind_unfold. unfold load at 1. cbn beta iota.
  unfold marked_by. destruct (test (heap s !!! r)) eqn:Htest.
  - destruct (make_termination_request_run (heap s !!! r) c None None
                (idle (heap s !!! r)) s) as (s1 & Hrun & Hheap & Henv).
    rewrite bind_unfold, Hrun. unfold store. eexists. split; [reflexivity|].
    simpl. rewrite length_insert, Hheap. split_and!; [done|done| |].
    + rewrite list_lookup_total_insert_eq by done. eauto.
    + intros r' Hne. by rewrite list_lookup_total_insert_ne.
  - eexists. split; [reflexivity|].
    split_and!; [done|apply same_env_refl|done..].
Qed.

Lemma mark_loop_spec l s :
  valid (heap s) l →
  ∃ us s', mapM body l s = Ok (us, s')
           ∧ length (heap s') = length (heap s) ∧ same_env s s'
           ∧ ∀ r, (r ∈ l → marked_by test c idle (heap s !!! r) (heap s' !!! r))
                  ∧ (r ∉ l → heap s' !!! r = heap s !!! r).
Proof using test_once.
  intros Hv. revert s Hv. induction l as [|r l IH]; intros s Hv.
  - exists [], s. split; [done|]. split_and!; [done|apply same_env_refl|].
    intros r. split; [by intros ?%elem_of_nil|done].
  - apply Forall_cons in Hv as [Hr Hl].
    destruct (mark_body_spec r s Hr) as (s1 & Hb & Hlen1 & Henv1 & Hm1 & Hf1).
    destruct (IH s1) as (us & s2 & Hloop & Hlen2 & Henv2 & Hrest).
    { unfold valid in *. by rewrite Hlen1. }
    exists (tt :: us), s2. split.
    { simpl. rewrite bind_unfold, Hb, bind_unfold, Hloop. done. }
    split_and!; [congruence|by eapply same_env_trans|].
    intros r'. split.
    + intros Hin. destruct (decide (r' ∈ l)) as [Hinl|Hnin].
      * destruct (decide (r' = r)) as [->|Hne].
        -- eapply marked_by_refl_trans; [exact Hm1|by apply Hrest].
        -- rewrite <-(Hf1 r') by done. by apply Hrest.
      * apply elem_of_cons in Hin as [->|?]; [|done].
        destruct (Hrest r) as [_ Heq]. rewrite Heq by done. exact Hm1.
    + intros Hnin%not_elem_of_cons. destruct Hnin as [Hne Hnin].
      destruct (Hrest r') as [_ Heq]. rewrite Heq by done. by apply Hf1.
Qed.

(** A marking phase: the nodes are copied, the loop runs over the copies
    and the context is updated with them. *)
Lemma marking_phase_spec ctx s :
  valid (heap s) (_nodes ctx) →
  ∃ nodes' s',
    (nodes ← get_nodes ctx; mapM body nodes;; update ctx nodes) s
    = Ok (updated ctx (heap s') nodes', s')
    ∧ valid (heap s') nodes'
    ∧ same_env s s'
    ∧ Forall2 (marked_by test c idle) (vals (heap s) (_nodes ctx))
              (vals (heap s') nodes').
Proof using test_once.
  intros Hv. destruct (deepcopy_spec _ s Hv) as (l' & ext & Hcopy & Hlen & Hvals & Hfresh).
  set (s1 := set_heap s (heap s ++ ext)) in *.
  assert (valid (heap s1) l') as Hv1.
  { unfold valid. eapply Forall_impl; [exact Hfresh|]. simpl. intros; lia. }
  destruct (mark_loop_spec l' s1 Hv1) as (us & s2 & Hloop & Hlen2 & Henv2 & Hrel).
  exists l', s2. split_and!.
  - unfold get_nodes. rewrite bind_unfold, Hcopy, bind_unfold, Hloop.
    apply update_run.
  - unfold valid in *. by rewrite Hlen2.
  - eapply same_env_trans; [apply same_env_set_heap|exact Henv2].
  - rewrite <-Hvals. simpl.
    apply Forall2_fmap, Forall2_same_length_lookup_2; [done|].
    intros i r r1 Hi Hi1. assert (r1 = r) as -> by congruence.
    apply Hrel. by eapply list_elem_of_lookup_2.
Qed.
End mark_loop.

Lemma terminate_outdated_spec ctx s :
  valid (heap s) (_nodes ctx) →
  ∃ nodes' s',
    _terminate_outdated_nodes ctx s = Ok (updated ctx (heap s') nodes', s')
    ∧ valid (heap s') nodes'
    ∧ same_env s s'
    ∧ Forall2 (marked_by (λ n, bool_decide (status n = RUNNING)
                               && is_outdated (_node_type_configs ctx) n)
                         OUTDATED (λ _, None))
              (vals (heap s) (_nodes ctx)) (vals (heap s') nodes').
Proof.
  intros Hv.
  apply (marking_phase_spec
           (λ n, bool_decide (status n = RUNNING)
                 && is_outdated (_node_type_configs ctx) n)
           OUTDATED (λ _, None)); [|done].
  intros n tr _. simpl. done.
Qed.

Lemma enforce_idle_termination_spec ctx s :
  valid (heap s) (_nodes ctx) →
  ∃ nodes' s',
    _enforce_idle_termination ctx s = Ok (updated ctx (heap s') nodes', s')
    ∧ valid (heap s') nodes'
    ∧ same_env s s'
    ∧ Forall2 (marked_by (idle_terminated (_idle_timeout_s ctx)) IDLE
                         (λ n, Some (idle_duration_ms n)))
              (vals (heap s) (_nodes ctx)) (vals (heap s') nodes').
Proof.
  intros Hv.
  apply (marking_phase_spec (idle_terminated (_idle_timeout_s ctx)) IDLE
           (λ n, Some (idle_duration_ms n))); [|done].
  intros n tr _. unfold idle_terminated. simpl. done.
Qed.

(** C6. With an idle timeout [t] set, the idle-termination phase marks a
    RUNNING node TO_TERMINATE with cause IDLE if and only if its idle duration
    is strictly greater than [t * 1000] and it has no committed constraint; a
    node idle for exactly [t * 1000], a node holding a committed constraint
    and a node that is not RUNNING are left as they are. *)
Theorem idle_termination_iff ctx s t :
  valid (heap s) (_nodes ctx) →
  _idle_timeout_s ctx = Some t →
  ∃ ctx' s',
    _enforce_idle_termination ctx s = Ok (ctx', s')
    ∧ Forall2
        (λ n n',
           (status n = RUNNING →
            (status n' = TO_TERMINATE
             ∧ (∃ tr, termination_request n' = Some tr ∧ cause tr = IDLE))
            ↔ (t * 1000 < idle_duration_ms n ∧ sched_constraints n = []))
           ∧ (idle_duration_ms n = t * 1000 → n' = n)
           ∧ (sched_constraints n ≠ [] → n' = n)
           ∧ (status n ≠ RUNNING → n' = n))
        (vals (heap s) (_nodes ctx)) (vals (heap s') (_nodes ctx')).
Proof.
  intros Hv Ht.
  destruct (enforce_idle_termination_spec ctx s Hv)
    as (nodes' & s' & Hrun & _ & _ & Hrel).
  exists (updated ctx (heap s') nodes'), s'. split; [done|]. simpl.
  eapply Forall2_impl; [exact Hrel|]. intros n n' Hm.
  unfold marked_by, idle_terminated in Hm. rewrite Ht in Hm.
  assert (¬ (0 < length (sched_constraints n))%nat ↔ sched_constraints n = [])
    as Hlen.
  { destruct (sched_constraints n); simpl; split; (done || lia). }
  destruct (decide (status n = RUNNING)) as [Hrun'|Hrun'];
    [rewrite bool_decide_eq_true_2 in Hm by done
    |rewrite bool_decide_eq_false_2 in Hm by done; simpl in Hm; subst n';
     split_and!; done].
  destruct (decide (idle_duration_ms n ≤ t * 1000)) as [Hidle|Hidle];
    [rewrite bool_decide_eq_true_2 in Hm by done; simpl in Hm; subst n';
     split_and!; try done; intros _; split; [intros [? _]; congruence|lia]
    |rewrite bool_decide_eq_false_2 in Hm by done].
  destruct (decide (0 < length (sched_constraints n))%nat) as [Hsc|Hsc];
    [rewrite bool_decide_eq_true_2 in Hm by done; simpl in Hm; subst n';
     split_and!; try done; intros _; split; [intros [? _]; congruence|];
     intros [_ Hnil]; apply Hlen in Hnil; done
    |rewrite bool_decide_eq_false_2 in Hm by done].
  simpl in Hm. destruct Hm as [t0 ->]. split_and!.
  - intros _. split; [intros _|intros _; simpl; eauto].
    split; [lia|by apply Hlen].
  - intros ?. lia.
  - intros Hne. by apply Hlen in Hsc.
  - done.
Qed.


(** ** Selecting nodes to terminate *)

Lemma bool_ltb_asym a b : bool_ltb a b = true → bool_ltb b a = false.
Proof. by destruct a, b. Qed.

Lemma termination_key_ltb_asym a b :
  termination_key_ltb a b = true → termination_key_ltb b a = false.
Proof.
  destruct a as [[a1 a2] a3], b as [[b1 b2] b3]. unfold termination_key_ltb.
  repeat case_bool_decide; simplify_eq; simpl; try done;
    try apply bool_ltb_asym; intros _; exfalso; try lia.
  all: eapply Qclt_not_le; [eassumption|apply Qclt_le_weak; eassumption].
Qed.

Lemma selected_again c mn mt n1 n2 n3 :
  selected c mn mt n1 n2 → selected c mn mt n2 n3 → selected c mn mt n1 n3.
Proof.
  intros [t1 ->] [t2 ->]. exists t2. by destruct c.
Qed.

Lemma mark_for_termination_spec c mn mt r s :
  c ∈ [MAX_NUM_NODES; MAX_NUM_NODE_PER_TYPE] →
  (r < length (heap s))%nat →
  ∃ s', mark_for_termination c mn mt r s = Ok (tt, s')
        ∧ length (heap s') = length (heap s) ∧ same_env s s'
        ∧ selected c mn mt (heap s !!! r) (heap s' !!! r)
        ∧ ∀ r', r' ≠ r → heap s' !!! r' = heap s !!! r'.
Proof.
  intros Hc Hr. unfold mark_for_termination.
  rewrite bind_unfold. unfold load at 1. cbn beta iota.
  destruct (make_termination_request_run (heap s !!! r) c None None None s)
    as (s1 & Hrun & Hheap & Henv).
  rewrite bind_unfold, Hrun.
  assert (c = MAX_NUM_NODES ∨ c = MAX_NUM_NODE_PER_TYPE) as [-> | ->].
  { apply elem_of_cons in Hc as [?|Hc]; [by left|].
    apply list_elem_of_singleton in Hc. by right. }
  all: unfold store; eexists; (split; [reflexivity|]); simpl;
    rewrite length_insert, Hheap; split_and!; [done|done| |].
  all: try (rewrite list_lookup_total_insert_eq by done; by eexists).
  all: intros r' Hne; by rewrite list_lookup_total_insert_ne.
Qed.

Lemma mark_for_termination_loop c mn mt l s :
  c ∈ [MAX_NUM_NODES; MAX_NUM_NODE_PER_TYPE] →
  valid (heap s) l →
  ∃ us s', mapM (mark_for_termination c mn mt) l s = Ok (us, s')
           ∧ length (heap s') = length (heap s) ∧ same_env s s'
           ∧ ∀ r, (r ∈ l → selected c mn mt (heap s !!! r) (heap s' !!! r))
                  ∧ (r ∉ l → heap s' !!! r = heap s !!! r).
Proof.
  intros Hc Hv. revert s Hv. induction l as [|r l IH]; intros s Hv.
  - exists [], s. split; [done|]. split_and!; [done|apply same_env_refl|].
    intros r. split; [by intros ?%elem_of_nil|done].
  - apply Forall_cons in Hv as [Hr Hl].
    destruct (mark_for_termination_spec c mn mt r s Hc Hr)
      as (s1 & Hb & Hlen1 & Henv1 & Hm1 & Hf1).
    destruct (IH s1) as (us & s2 & Hloop & Hlen2 & Henv2 & Hrest).
    { unfold valid in *. by rewrite Hlen1. }
    exists (tt :: us), s2. split.
    { simpl. rewrite bind_unfold, Hb, bind_unfold, Hloop. done. }
    split_and!; [congruence|by eapply same_env_trans|].
    intros r'. split.
    + intros Hin. destruct (decide (r' ∈ l)) as [Hinl|Hnin].
      * destruct (decide (r' = r)) as [->|Hne].
        -- eapply selected_again; [exact Hm1|by apply Hrest].
        -- rewrite <-(Hf1 r') by done. by apply Hrest.
      * apply elem_of_cons in Hin as [->|?]; [|done].
        destruct (Hrest r) as [_ Heq]. rewrite Heq by done. exact Hm1.
    + intros Hnin%not_elem_of_cons. destruct Hnin as [Hne Hnin].
      destruct (Hrest r') as [_ Heq]. rewrite Heq by done. by apply Hf1.
Qed.

Lemma sort_for_termination_perm h l : sort_for_termination h l ≡ₚ l.
Proof. apply py_sort_perm. Qed.

Lemma sort_for_termination_sorted h l :
  Sorted (termination_key_le h) (sort_for_termination h l).
Proof.
  apply (py_sort_sorted
           (λ a b, termination_key_ltb (_sort_nodes_for_termination (h !!! a))
                                       (_sort_nodes_for_termination (h !!! b)))).
  intros a b. apply termination_key_ltb_asym.
Qed.

Lemma slice_nonneg {A} (l : list A) k :
  0 ≤ k → slice_to l k = take (Z.to_nat k) l ∧ slice_from l k = drop (Z.to_nat k) l.
Proof.
  intros Hk. unfold slice_to, slice_from, slice_index.
  by rewrite decide_False by lia.
Qed.

Lemma select_spec nodes k c mn mt s :
  valid (heap s) nodes → 0 ≤ k →
  c ∈ [MAX_NUM_NODES; MAX_NUM_NODE_PER_TYPE] →
  ∃ s',
    let sorted := sort_for_termination (heap s) nodes in
    _select_nodes_to_terminate nodes k c mn mt s
    = Ok ((take (Z.to_nat k) sorted, drop (Z.to_nat k) sorted), s')
    ∧ length (heap s') = length (heap s) ∧ same_env s s'
    ∧ ∀ r, (r ∈ take (Z.to_nat k) sorted →
            selected c mn mt (heap s !!! r) (heap s' !!! r))
           ∧ (r ∉ take (Z.to_nat k) sorted → heap s' !!! r = heap s !!! r).
Proof.
  intros Hv Hk Hc. simpl.
  set (sorted := sort_for_termination (heap s) nodes).
  assert (valid (heap s) (take (Z.to_nat k) sorted)) as Hvt.
  { unfold valid. apply Forall_take. unfold sorted.
    by rewrite sort_for_termination_perm. }
  destruct (mark_for_termination_loop c mn mt _ s Hc Hvt)
    as (us & s' & Hloop & Hlen & Henv & Hrel).
  exists s'. split; [|done].
  unfold _select_nodes_to_terminate. rewrite bind_unfold. cbn beta iota.
  fold sorted. destruct (slice_nonneg sorted k Hk) as [-> ->].
  rewrite bool_decide_eq_true_2 by done. simpl.
  rewrite bind_unfold. simpl. rewrite bind_unfold, Hloop. done.
Qed.



(** ** The bin-packer leaves the status and the type of the nodes alone *)

Lemma extends_refl h : extends h h.
Proof. by split. Qed.

Lemma extends_trans h1 h2 h3 : extends h1 h2 → extends h2 h3 → extends h1 h3.
Proof.
  intros [Hl1 H1] [Hl2 H2]. split; [lia|].
  intros r Hr. rewrite H2 by lia. by apply H1.
Qed.

Lemma extends_app h ext : extends h (h ++ ext).
Proof.
  split; [rewrite length_app; lia|]. intros r Hr. by apply lookup_total_app_l_lt.
Qed.

Lemma extends_vals h h' l : extends h h' → valid h l → vals h' l = vals h l.
Proof.
  intros [_ Hext]. induction 1 as [|r l Hr _ IH]; simpl; [done|].
  by rewrite Hext, IH.
Qed.

Lemma extends_valid h h' l : extends h h' → valid h l → valid h' l.
Proof. intros [Hlen _]. by apply valid_weaken. Qed.

Lemma add_label_meta n k v n' : _add_label n k v = Ok n' → meta n' = meta n.
Proof.
  unfold _add_label. destruct (labels n !! k); [case_bool_decide|];
    intros [= <-]; done.
Qed.

Lemma add_constraint_labels_meta cs n n' :
  add_constraint_labels n cs = Ok n' → meta n' = meta n.
Proof.
  revert n. induction cs as [|c cs IH]; intros n; simpl.
  - by intros [= <-].
  - destruct (affinity c) as [a|].
    + destruct (_add_label n _ _) as [n1|] eqn:H1; [|done].
      apply add_label_meta in H1.
      destruct (anti_affinity c) as [b|].
      * destruct (_add_label n1 _ _) as [n2|] eqn:H2; [|done].
        apply add_label_meta in H2. intros ?%IH. congruence.
      * intros ?%IH. congruence.
    + destruct (anti_affinity c) as [b|].
      * destruct (_add_label n _ _) as [n2|] eqn:H2; [|done].
        apply add_label_meta in H2. intros ?%IH. congruence.
      * apply IH.
Qed.

Lemma try_schedule_one_meta n r c n' b :
  _try_schedule_one n r c = Ok (n', b) → meta n' = meta n.
Proof.
  unfold _try_schedule_one.
  destruct (anti_affinity_rejects n r); [by intros [= <- _]|].
  destruct (negb (resources_fit _ r)); [by intros [= <- _]|].
  destruct (subtract_bundle _ _) as [pool|]; [|done].
  destruct (add_constraint_labels _ _) as [n1|] eqn:Hl; [|done].
  intros [= <- _]. by apply add_constraint_labels_meta in Hl.
Qed.

Lemma try_schedule_loop_meta rs n c n' rem :
  try_schedule_loop n rs c = Ok (n', rem) → meta n' = meta n.
Proof.
  revert n n' rem. induction rs as [|r rs IH]; intros n n' rem; simpl.
  - by intros [= <- _].
  - destruct (_try_schedule_one n r c) as [[n1 b]|] eqn:H1; [|done].
    destruct (try_schedule_loop n1 rs c) as [[n2 rem2]|] eqn:H2; [|done].
    intros [= <- _]. apply try_schedule_one_meta in H1. apply IH in H2.
    congruence.
Qed.

Lemma try_schedule_meta flag n rs c n' rem sc :
  try_schedule flag n rs c = Ok (n', rem, sc) → meta n' = meta n.
Proof.
  unfold try_schedule.
  destruct (try_schedule_loop n rs c) as [[n1 rem1]|] eqn:H1; [|done].
  destruct (_compute_score flag n1); [|done].
  intros [= <- _ _]. by eapply try_schedule_loop_meta.
Qed.

(** The loop of [_sched_best_node] over the copies: the heap keeps its size,
    the copies keep their status and type, the other objects are untouched,
    and every result names the copy at its index. *)
Lemma try_nodes_spec l : ∀ i rs c res s res' s',
  try_nodes i l rs c res s = Ok (res', s') →
  valid (heap s) l →
  length (heap s') = length (heap s) ∧ same_env s s'
  ∧ (∀ r, meta (heap s' !!! r) = meta (heap s !!! r))
  ∧ (∀ r, r ∉ l → heap s' !!! r = heap s !!! r)
  ∧ (∀ x, x ∈ res' → x ∈ res ∨ ((i ≤ idx x)%nat ∧ l !! (idx x - i)%nat = Some (sr_node x))).
Proof.
  induction l as [|r l IH]; intros i rs c res s res' s' Hrun Hv.
  - simpl in Hrun. injection Hrun as <- <-.
    split_and!; [done|apply same_env_refl|done|done|auto].
  - apply Forall_cons in Hv as [Hr Hl]. simpl in Hrun.
    rewrite bind_unfold in Hrun. unfold load at 1 in Hrun. cbn beta iota in Hrun.
    rewrite bind_unfold in Hrun. unfold get_conserve_gpu_nodes at 1 in Hrun.
    cbn beta iota in Hrun. rewrite bind_unfold in Hrun.
    destruct (lift _ s) as [[[[n' rem] sc] s1]|] eqn:Hlift; [|done].
    apply lift_inv in Hlift as [Hts ->].
    pose proof (try_schedule_meta _ _ _ _ _ _ _ Hts) as Hmeta.
    cbn beta iota in Hrun. rewrite bind_unfold in Hrun. unfold store at 1 in Hrun.
    cbn beta iota in Hrun.
    set (s1 := set_heap s (<[r:=n']> (heap s))) in *.
    assert (valid (heap s1) l) as Hl1.
    { unfold valid, s1. simpl. by rewrite length_insert. }
    assert (∀ r', meta (heap s1 !!! r') = meta (heap s !!! r')) as Hm1.
    { intros r'. unfold s1. simpl. destruct (decide (r' = r)) as [->|Hne].
      - by rewrite list_lookup_total_insert_eq.
      - by rewrite list_lookup_total_insert_ne. }
    assert (∀ r', r' ≠ r → heap s1 !!! r' = heap s !!! r') as Hf1.
    { intros r' Hne. unfold s1. simpl. by rewrite list_lookup_total_insert_ne. }
    assert (length (heap s1) = length (heap s)) as Hlen1.
    { unfold s1. simpl. by rewrite length_insert. }
    case_bool_decide as Hnone.
    + destruct (IH _ _ _ _ _ _ _ Hrun Hl1) as (Hlen & Henv & Hm & Hf & Hres).
      split_and!.
      * congruence.
      * eapply same_env_trans; [apply same_env_set_heap|exact Henv].
      * intros r'. by rewrite Hm, Hm1.
      * intros r' [Hne Hnin]%not_elem_of_cons. rewrite Hf by done. by apply Hf1.
      * intros x Hx. destruct (Hres x Hx) as [?|[Hi Hlk]]; [by left|right].
        split; [lia|]. replace (idx x - i)%nat with (S (idx x - S i)) by lia.
        done.
    + destruct (IH _ _ _ _ _ _ _ Hrun Hl1) as (Hlen & Henv & Hm & Hf & Hres).
      split_and!.
      * congruence.
      * eapply same_env_trans; [apply same_env_set_heap|exact Henv].
      * intros r'. by rewrite Hm, Hm1.
      * intros r' [Hne Hnin]%not_elem_of_cons. rewrite Hf by done. by apply Hf1.
      * intros x Hx. destruct (Hres x Hx) as [Hin|[Hi Hlk]].
        -- apply elem_of_app in Hin as [?|Hin]; [by left|right].
           apply list_elem_of_singleton in Hin as ->. simpl.
           split; [lia|]. by rewrite Nat.sub_diag.
        -- right. split; [lia|].
           replace (idx x - i)%nat with (S (idx x - S i)) by lia. done.
Qed.

Lemma vals_lookup (h : list SchedulingNode) (l : list ref) i r :
  l !! i = Some r → vals h l !! i = Some (h !!! r).
Proof. intros H. by rewrite list_lookup_fmap, H. Qed.

(** [_sched_best_node]: the objects that existed are untouched; the best
    node, if there is one, is a new object with the status and type of a node
    of the list, and that node is removed from the list. *)
Lemma sched_best_node_spec rs nodes c s best rs' nodes' s' :
  _sched_best_node rs nodes c s = Ok ((best, rs', nodes'), s') →
  valid (heap s) nodes →
  extends (heap s) (heap s') ∧ same_env s s'
  ∧ match best with
    | None => nodes' = nodes ∧ rs' = rs
    | Some b =>
        ∃ i r, nodes !! i = Some r ∧ nodes' = list_pop nodes i
               ∧ (b < length (heap s'))%nat
               ∧ meta (heap s' !!! b) = meta (heap s !!! r)
    end.
Proof.
  intros Hrun Hv. unfold _sched_best_node in Hrun.
  destruct (deepcopy_spec _ s Hv) as (l' & ext & Hcopy & Hlen & Hvals & Hfresh).
  rewrite bind_unfold, Hcopy in Hrun. cbn beta iota in Hrun.
  rewrite bind_unfold in Hrun.
  set (s1 := set_heap s (heap s ++ ext)) in *.
  destruct (try_nodes 0 l' rs c [] s1) as [[results s2]|] eqn:Htry; [|done].
  cbn beta iota in Hrun.
  assert (valid (heap s1) l') as Hv1.
  { unfold valid. eapply Forall_impl; [exact Hfresh|]. simpl. intros; lia. }
  destruct (try_nodes_spec _ _ _ _ _ _ _ _ Htry Hv1)
    as (Hlen2 & Henv2 & Hmeta & Hframe & Hres).
  assert (extends (heap s) (heap s2)) as Hext.
  { split; [rewrite Hlen2; simpl; rewrite length_app; lia|].
    intros r Hr. rewrite Hframe.
    - simpl. by apply lookup_total_app_l_lt.
    - intros Hin. eapply Forall_forall in Hfresh; [|exact Hin]. simpl in Hfresh. lia. }
  assert (same_env s s2) as Henv.
  { eapply same_env_trans; [apply same_env_set_heap|exact Henv2]. }
  destruct (py_sort_reverse _ results) as [|best_result rest] eqn:Hsort.
  - injection Hrun as <- <- <- <-. done.
  - injection Hrun as <- <- <- <-. split_and!; [done..|].
    assert (best_result ∈ results) as Hin.
    { unfold py_sort_reverse in Hsort.
      rewrite <-(py_sort_perm (λ a b, score_ltb (score b) (score a)) results).
      rewrite Hsort. left. }
    destruct (Hres _ Hin) as [Hnil|[_ Hlk]]; [by apply elem_of_nil in Hnil|].
    rewrite Nat.sub_0_r in Hlk.
    assert (idx best_result < length nodes)%nat as Hidx.
    { rewrite <-Hlen. by eapply lookup_lt_Some. }
    destruct (lookup_lt_is_Some_2 nodes _ Hidx) as [r Hr].
    exists (idx best_result), r. split_and!; [done|done| |].
    + rewrite Hlen2. eapply Forall_forall in Hfresh.
      2:{ by eapply list_elem_of_lookup_2. }
      simpl in *. lia.
    + rewrite Hmeta. f_equal.
      assert (vals (heap s1) l' !! idx best_result = Some (heap s1 !!! sr_node best_result))
        as H1 by by apply vals_lookup.
      assert (vals (heap s) nodes !! idx best_result = Some (heap s !!! r))
        as H2 by by apply vals_lookup.
      simpl in H1. rewrite Hvals in H1. simpl in H2.
      change (heap s1) with (heap s ++ ext). congruence.
Qed.

Lemma metas_app h l1 l2 : metas h (l1 ++ l2) = metas h l1 ++ metas h l2.
Proof. unfold metas. by rewrite map_app. Qed.

Lemma metas_vals h l : metas h l = map meta (vals h l).
Proof. unfold metas. by rewrite map_map. Qed.

Lemma metas_extends h h' l : extends h h' → valid h l → metas h' l = metas h l.
Proof. intros He Hv. by rewrite !metas_vals, (extends_vals h h'). Qed.

Lemma metas_perm h l l' : l ≡ₚ l' → metas h l ≡ₚ metas h l'.
Proof. intros H. unfold metas. by rewrite H. Qed.

Lemma list_pop_perm {A} (l : list A) i x :
  l !! i = Some x → l ≡ₚ x :: list_pop l i.
Proof.
  intros H. unfold list_pop.
  rewrite <-(take_drop_middle l i x H) at 1.
  by rewrite Permutation_middle.
Qed.

Lemma valid_app h l1 l2 : valid h (l1 ++ l2) ↔ valid h l1 ∧ valid h l2.
Proof. apply Forall_app. Qed.

Lemma valid_perm h l l' : l ≡ₚ l' → valid h l → valid h l'.
Proof. intros H. unfold valid. by rewrite H. Qed.

(** The first loop of [_try_schedule]: the target nodes and the nodes left
    over are the nodes it started with, as far as status and type go. *)
Lemma sched_existing_loop_spec fuel : ∀ rs existing target c s rs' existing' target' s',
  sched_existing_loop fuel rs existing target c s
  = Ok ((rs', existing', target'), s') →
  valid (heap s) (target ++ existing) →
  extends (heap s) (heap s') ∧ same_env s s'
  ∧ valid (heap s') (target' ++ existing')
  ∧ metas (heap s') (target' ++ existing') ≡ₚ metas (heap s) (target ++ existing).
Proof.
  induction fuel as [|fuel IH]; intros rs existing target c s rs' existing' target' s' Hrun Hv;
    simpl in Hrun.
  - destruct (_ && _); [done|]. injection Hrun as <- <- <- <-.
    split_and!; [apply extends_refl|apply same_env_refl|done..].
  - destruct (_ && _).
    2:{ injection Hrun as <- <- <- <-.
        split_and!; [apply extends_refl|apply same_env_refl|done..]. }
    rewrite bind_unfold in Hrun.
    destruct (_sched_best_node rs existing c s) as [[[[best rs1] existing1] s1]|] eqn:Hbest;
      [|done].
    cbn beta iota in Hrun.
    apply valid_app in Hv as [Hvt Hve].
    destruct (sched_best_node_spec _ _ _ _ _ _ _ _ Hbest Hve) as (Hext & Henv & Hb).
    destruct best as [b|].
    + destruct Hb as (i & r & Hi & -> & Hbv & Hbm).
      pose proof (list_pop_perm _ _ _ Hi) as Hperm.
      assert (valid (heap s) (list_pop existing i)) as Hvp.
      { eapply valid_perm in Hve; [|exact Hperm]. by apply Forall_cons in Hve as [_ ?]. }
      destruct (IH _ _ _ _ _ _ _ _ _ Hrun) as (Hext2 & Henv2 & Hv2 & Hm2).
      { apply valid_app. split; [apply valid_app; split|].
        - by eapply extends_valid.
        - by repeat constructor.
        - by eapply extends_valid. }
      split_and!; [by eapply extends_trans|by eapply same_env_trans|done|].
      rewrite Hm2. rewrite !metas_app.
      rewrite (metas_extends _ _ target Hext Hvt).
      rewrite (metas_extends _ _ (list_pop existing i) Hext Hvp).
      rewrite (metas_perm (heap s) _ _ Hperm). simpl. rewrite Hbm.
      rewrite <-app_assoc. simpl. done.
    + destruct Hb as [-> ->]. injection Hrun as <- <- <- <-.
      split_and!; [done|done| |].
      * apply valid_app. split; by eapply extends_valid.
      * rewrite (metas_extends (heap s)); [done|done|]. by apply valid_app.
Qed.

Lemma avail_of_add_eq avail k v :
  avail_of (dict_add avail k v) k = avail_of avail k + v.
Proof. unfold avail_of, dict_add. by rewrite dict_get_set_eq. Qed.

Lemma avail_of_add_ne avail k k' v :
  k ≠ k' → avail_of (dict_add avail k v) k' = avail_of avail k'.
Proof. intros. unfold avail_of, dict_add. by rewrite dict_get_set_ne. Qed.

Lemma wf_configs_name configs k c :
  wf_configs configs → dict_get configs k = Some c → name c = k.
Proof.
  intros [_ Hall] Hget. apply dict_get_Some_elem in Hget.
  eapply Forall_forall in Hall; [|exact Hget]. by destruct Hall.
Qed.

Lemma new_pool_node_spec configs k s r s' :
  wf_configs configs →
  new_pool_node configs k s = Ok (r, s') →
  r = length (heap s) ∧ same_env s s'
  ∧ ∃ n, heap s' = heap s ++ [n] ∧ meta n = launch_meta k
         ∧ (∃ c, dict_get configs k = Some c ∧ n = from_node_config c TO_LAUNCH None).
Proof.
  intros Hwf. unfold new_pool_node.
  destruct (dict_get configs k) as [cfg|] eqn:Hget; [|done].
  unfold alloc. intros [= <- <-]. split_and!; [done|apply same_env_set_heap|].
  eexists. split; [done|]. split; [|eauto].
  unfold meta, launch_meta. simpl. by rewrite (wf_configs_name _ _ _ Hwf Hget).
Qed.

Lemma pool_ok_extends avail h h' pools :
  extends h h' → pool_ok avail h pools → pool_ok avail h' pools.
Proof.
  intros [Hlen Hext] [Hnd Hall].
  assert (∀ r, r ∈ pools → h' !!! r = h !!! r) as Heq.
  { intros r Hin. apply Hext. eapply Forall_forall in Hall; [|exact Hin]. tauto. }
  split.
  - erewrite map_ext_in; [exact Hnd|]. intros r Hin. simpl.
    rewrite Heq; [done|]. by apply list_elem_of_In.
  - apply Forall_forall. intros r Hin.
    eapply Forall_forall in Hall; [|exact Hin]. rewrite Heq by done.
    destruct Hall as (?&?&?). split_and!; [lia|done..].
Qed.

Lemma count_key_cons k x l :
  count_key k (x :: l) = ((if decide (x = k) then 1 else 0) + count_key k l)%nat.
Proof. unfold count_key. rewrite filter_cons. by destruct (decide (x = k)). Qed.

(** The second loop of [_try_schedule]: the target nodes are the former ones
    and new nodes to launch, at most as many of a type as may be launched. *)
Lemma sched_new_loop_spec configs mx fuel :
  wf_configs configs →
  ∀ rs pools target avail c s target' rs' s',
    sched_new_loop fuel configs mx rs pools target avail c s
    = Ok ((target', rs'), s') →
    valid (heap s) target → pool_ok avail (heap s) pools →
    extends (heap s) (heap s') ∧ same_env s s' ∧ valid (heap s') target'
    ∧ ∃ added,
        metas (heap s') target' ≡ₚ metas (heap s) target ++ map launch_meta added
        ∧ ∀ k, Z.of_nat (count_key k added) ≤ Z.max 0 (avail_of avail k).
Proof.
  intros Hwf. induction fuel as [|fuel IH];
    intros rs pools target avail c s target' rs' s' Hrun Hv Hpool; simpl in Hrun.
  - destruct (_ && _).
    + destruct (match mx with Some _ => _ | None => _ end); [|done].
      injection Hrun as <- <- <-.
      split_and!; [apply extends_refl|apply same_env_refl|done|].
      exists []. simpl. rewrite app_nil_r. split; [done|]. intros; unfold count_key; simpl; lia.
    + injection Hrun as <- <- <-.
      split_and!; [apply extends_refl|apply same_env_refl|done|].
      exists []. simpl. rewrite app_nil_r. split; [done|]. intros; unfold count_key; simpl; lia.
  - assert (∀ s0, (mret (target, rs) : M _) s0 = Ok ((target', rs'), s') →
            extends (heap s0) (heap s') ∧ same_env s0 s' ∧
            (valid (heap s0) target → valid (heap s') target')
            ∧ ∃ added,
                metas (heap s') target' ≡ₚ metas (heap s0) target ++ map launch_meta added
                ∧ ∀ k, Z.of_nat (count_key k added) ≤ Z.max 0 (avail_of avail k))
      as Hret.
    { intros s0 [= <- <- <-].
      split_and!; [apply extends_refl|apply same_env_refl|done|].
      exists []. simpl. rewrite app_nil_r. split; [done|]. intros; unfold count_key; simpl; lia. }
    destruct (_ && _).
    2:{ destruct (Hret _ Hrun) as (?&?&Hv'&?). split_and!; auto. }
    destruct (match mx with Some _ => _ | None => _ end).
    { destruct (Hret _ Hrun) as (?&?&Hv'&?). split_and!; auto. }
    clear Hret. rewrite bind_unfold in Hrun.
    destruct (_sched_best_node rs pools c s) as [[[[best rs1] pools1] s1]|] eqn:Hbest;
      [|done].
    cbn beta iota in Hrun.
    assert (valid (heap s) pools) as Hvp.
    { destruct Hpool as [_ Hall]. eapply Forall_impl; [exact Hall|]. simpl. tauto. }
    destruct (sched_best_node_spec _ _ _ _ _ _ _ _ Hbest Hvp) as (Hext & Henv & Hb).
    destruct best as [b|].
    2:{ destruct Hb as [-> ->]. injection Hrun as <- <- <-.
        split_and!; [done|done|by eapply extends_valid|].
        exists []. simpl. rewrite app_nil_r.
        split; [by rewrite (metas_extends (heap s))|]. intros; unfold count_key; simpl; lia. }
    destruct Hb as (i & r & Hi & -> & Hbv & Hbm).
    rewrite bind_unfold in Hrun. unfold load at 1 in Hrun. cbn beta iota in Hrun.
    set (kb := node_type (heap s1 !!! b)) in *.
    assert (node_type (heap s !!! r) = kb) as Hkb.
    { unfold kb. unfold meta in Hbm. by simplify_eq. }
    pose proof (list_pop_perm _ _ _ Hi) as Hperm.
    destruct Hpool as [Hnd Hall].
    assert (Forall (λ r0, (r0 < length (heap s))%nat
                          ∧ meta (heap s !!! r0) = launch_meta (node_type (heap s !!! r0))
                          ∧ 1 ≤ avail_of avail (node_type (heap s !!! r0)))
                   (r :: list_pop pools i)) as Hall'.
    { by rewrite <-Hperm. }
    apply Forall_cons in Hall' as [(Hrv & Hrm & Hra) Hallp].
    assert (NoDup (map (λ r0, node_type (heap s !!! r0)) (r :: list_pop pools i)))
      as Hnd'.
    { by rewrite <-Hperm. }
    simpl in Hnd'. apply NoDup_cons in Hnd' as [Hnin Hndp]. rewrite Hkb in Hnin, Hra.
    set (avail' := dict_add avail kb (-1)) in *.
    assert (pool_ok avail' (heap s1) (list_pop pools i)) as Hpool1.
    { apply (pool_ok_extends _ (heap s)); [done|]. split; [done|].
      apply Forall_forall. intros r0 Hin.
      pose proof Hin as Hin'.
      eapply Forall_forall in Hin'; [|exact Hallp]. simpl in Hin'.
      destruct Hin' as (?&?&?). split_and!; [done..|].
      unfold avail'. rewrite avail_of_add_ne; [done|].
      intros Heq. apply Hnin. rewrite Heq.
      apply list_elem_of_fmap. by exists r0. }
    assert (meta (heap s1 !!! b) = launch_meta kb) as Hbm'.
    { rewrite Hbm, Hrm. by rewrite Hkb. }
    assert (∀ k, Z.max 0 (avail_of avail' k)
                 + (if decide (kb = k) then 1 else 0)
                 ≤ Z.max 0 (avail_of avail k)) as Hav.
    { intros k. unfold avail'. destruct (decide (kb = k)) as [<-|Hne].
      - rewrite avail_of_add_eq. lia.
      - rewrite avail_of_add_ne by done. lia. }
    rewrite bind_unfold in Hrun.
    case_bool_decide as Hrefill.
    + rewrite bind_unfold in Hrun.
      destruct (new_pool_node configs kb s1) as [[rn s2]|] eqn:Hnew; [|done].
      cbn beta iota in Hrun.
      destruct (new_pool_node_spec _ _ _ _ _ Hwf Hnew)
        as (-> & Henv2 & n & Hh2 & Hnm & _).
      assert (extends (heap s1) (heap s2)) as Hext2.
      { rewrite Hh2. apply extends_app. }
      assert (heap s2 !!! length (heap s1) = n) as Hnew_val.
      { rewrite Hh2, lookup_total_app_r by lia. by rewrite Nat.sub_diag. }
      destruct (IH _ _ _ _ _ _ _ _ _ Hrun) as (Hext3 & Henv3 & Hv3 & added & Hm3 & Hc3).
      { apply valid_app. split.
        - eapply extends_valid; [|exact Hv]. by eapply extends_trans.
        - repeat constructor. rewrite Hh2, length_app. simpl. lia. }
      { apply pool_ok_extends with (h' := heap s2) in Hpool1; [|done].
        destruct Hpool1 as [Hnd1 Hall1]. split.
        - rewrite map_app. simpl. rewrite Hnew_val.
          assert (node_type n = kb) as -> by (unfold meta, launch_meta in Hnm; by simplify_eq).
          apply NoDup_app. split_and!; [done| |apply NoDup_singleton].
          intros k Hk1 Hk2%list_elem_of_singleton. subst k.
          apply Hnin. apply list_elem_of_fmap in Hk1 as (r0 & Hr0 & Hin0).
          apply list_elem_of_fmap. exists r0. split; [|done].
          rewrite Hr0.
          eapply Forall_forall in Hallp; [|exact Hin0]. simpl in Hallp.
          destruct Hallp as (Hlt & _).
          rewrite (proj2 Hext2) by (pose proof (proj1 Hext); lia).
          by rewrite (proj2 Hext).
        - apply Forall_app. split; [done|]. repeat constructor.
          + rewrite Hh2, length_app. simpl. lia.
          + rewrite Hnew_val.
            assert (node_type n = kb) as -> by (unfold meta, launch_meta in Hnm; by simplify_eq).
            done.
          + rewrite Hnew_val.
            assert (node_type n = kb) as -> by (unfold meta, launch_meta in Hnm; by simplify_eq).
            unfold avail_of. lia. }
      split_and!.
      * eapply extends_trans; [exact Hext|]. by eapply extends_trans.
      * eapply same_env_trans; [exact Henv|]. by eapply same_env_trans.
      * done.
      * exists (kb :: added). split.
        -- rewrite Hm3, metas_app. simpl.
           rewrite (metas_extends (heap s) (heap s2)); [| by eapply extends_trans|done].
           destruct Hext2 as [_ Hext2]. rewrite Hext2 by done. rewrite Hbm'.
           rewrite <-app_assoc. simpl. done.
        -- intros k. rewrite count_key_cons. specialize (Hc3 k). specialize (Hav k).
           destruct (decide (kb = k)); lia.
    + cbn beta iota in Hrun.
      destruct (IH _ _ _ _ _ _ _ _ _ Hrun) as (Hext3 & Henv3 & Hv3 & added & Hm3 & Hc3).
      { apply valid_app. split.
        - by eapply extends_valid.
        - by repeat constructor. }
      { done. }
      split_and!.
      * by eapply extends_trans.
      * by eapply same_env_trans.
      * done.
      * exists (kb :: added). split.
        -- rewrite Hm3, metas_app. simpl.
           rewrite (metas_extends (heap s) (heap s1)) by done. rewrite Hbm'.
           rewrite <-app_assoc. simpl. done.
        -- intros k. rewrite count_key_cons. specialize (Hc3 k). specialize (Hav k).
           destruct (decide (kb = k)); lia.
Qed.

(** *** The table of the nodes that may still be launched *)

Lemma existing_count_fold N vs : ∀ d0,
  avail_of (foldl (λ d n, dict_add d (node_type n) 1) d0 vs) N
  = avail_of d0 N + Z.of_nat (count_all N vs).
Proof.
  induction vs as [|n vs IH]; intros d0; simpl.
  - unfold count_all. simpl. lia.
  - rewrite IH. unfold count_all. rewrite filter_cons.
    destruct (decide (node_type n = N)) as [<-|Hne]; simpl.
    + rewrite avail_of_add_eq. lia.
    + rewrite avail_of_add_ne by done. lia.
Qed.

Lemma dict_set_fold_get {V W} (f : NodeType * V → W) (l : list (NodeType * V)) N :
  NoDup (dict_keys l) → ∀ d0,
  dict_get (foldl (λ d kc, dict_set d kc.1 (f kc)) d0 l) N
  = match dict_get l N with
    | Some c => Some (f (N, c))
    | None => dict_get d0 N
    end.
Proof.
  induction l as [|[k c] l IH]; intros Hnd d0; simpl; [done|].
  apply NoDup_cons in Hnd as [Hnin Hnd]. rewrite IH by done.
  destruct (decide (k = N)) as [->|Hne].
  - assert (dict_get l N = None) as -> by by apply dict_get_None.
    by rewrite dict_get_set_eq.
  - destruct (dict_get l N); [done|]. by rewrite dict_get_set_ne.
Qed.

Lemma compute_available_get vs configs N :
  NoDup (dict_keys configs) →
  avail_of (_compute_available_node_types vs configs) N
  = match dict_get configs N with
    | Some c => max_worker_nodes c - Z.of_nat (count_all N vs)
    | None => 0
    end.
Proof.
  intros Hnd. unfold avail_of at 1, _compute_available_node_types.
  rewrite (dict_set_fold_get
             (λ kc, max_worker_nodes kc.2
                    - default 0 (dict_get (foldl (λ d n, dict_add d (node_type n) 1) [] vs) kc.1)))
    by done.
  destruct (dict_get configs N) as [c|]; simpl; [|done].
  fold (avail_of (foldl (λ d n, dict_add d (node_type n) 1) [] vs) N).
  rewrite existing_count_fold. unfold avail_of. simpl. lia.
Qed.

Lemma dict_set_fold_keys {V W} (f : NodeType * V → W) (l : list (NodeType * V)) :
  NoDup (dict_keys l) → ∀ d0,
  (∀ k, k ∈ dict_keys l → k ∉ dict_keys d0) →
  dict_keys (foldl (λ d kc, dict_set d kc.1 (f kc)) d0 l) = dict_keys d0 ++ dict_keys l.
Proof.
  induction l as [|[k c] l IH]; intros Hnd d0 Hdisj; simpl.
  - by rewrite app_nil_r.
  - apply NoDup_cons in Hnd as [Hnin Hnd]. rewrite IH; [|done|].
    + rewrite dict_keys_set. rewrite bool_decide_eq_false_2.
      * by rewrite <-app_assoc.
      * apply Hdisj. left.
    + intros k' Hk'. rewrite dict_keys_set. rewrite bool_decide_eq_false_2.
      * rewrite not_elem_of_app. split; [apply Hdisj; by right|].
        rewrite list_elem_of_singleton. intros ->. done.
      * apply Hdisj. left.
Qed.

Lemma compute_available_keys vs configs :
  NoDup (dict_keys configs) →
  dict_keys (_compute_available_node_types vs configs) = dict_keys configs.
Proof.
  intros Hnd. unfold _compute_available_node_types.
  rewrite dict_set_fold_keys; [done|done|]. intros k _. apply not_elem_of_nil.
Qed.

Lemma dict_get_NoDup_elem {V} (d : list (NodeType * V)) k v :
  NoDup (dict_keys d) → (k, v) ∈ d → dict_get d k = Some v.
Proof.
  induction d as [|[k0 v0] d IH]; intros Hnd Hin; [by apply elem_of_nil in Hin|].
  apply NoDup_cons in Hnd as [Hnin Hnd]. simpl.
  apply elem_of_cons in Hin as [[= <- <-]|Hin].
  - by rewrite decide_True.
  - rewrite decide_False; [by apply IH|]. intros ->. apply Hnin.
    apply list_elem_of_fmap. by exists (k, v).
Qed.

(** The pool of new nodes that [_try_schedule] starts its second loop with. *)
Lemma pool_build_spec configs avail : wf_configs configs →
  ∀ table pools s pools' s',
    foldM (λ pools (kv : NodeType * Z),
             if bool_decide (0 < kv.2)%Z then
               r ← new_pool_node configs kv.1; mret (pools ++ [r])
             else mret pools) pools table s = Ok (pools', s') →
    NoDup (map fst table) →
    (∀ kv, kv ∈ table → avail_of avail kv.1 = kv.2) →
    (∀ r, r ∈ pools → node_type (heap s !!! r) ∉ map fst table) →
    pool_ok avail (heap s) pools →
    extends (heap s) (heap s') ∧ same_env s s' ∧ pool_ok avail (heap s') pools'.
Proof.
  intros Hwf. induction table as [|[k v] table IH];
    intros pools s pools' s' Hrun Hnd Hav Hdisj Hpool; simpl in Hrun.
  - injection Hrun as <- <-. split_and!; [apply extends_refl|apply same_env_refl|done].
  - simpl in Hnd. apply NoDup_cons in Hnd as [Hnin Hnd].
    rewrite bind_unfold in Hrun. case_bool_decide as Hpos; simpl in Hrun.
    + rewrite bind_unfold in Hrun.
      destruct (new_pool_node configs k s) as [[rn s1]|] eqn:Hnew; [|done].
      cbn beta iota in Hrun. rewrite ret_unfold in Hrun.
      destruct (new_pool_node_spec _ _ _ _ _ Hwf Hnew)
        as (-> & Henv1 & n & Hh1 & Hnm & _).
      assert (extends (heap s) (heap s1)) as Hext1.
      { rewrite Hh1. apply extends_app. }
      assert (heap s1 !!! length (heap s) = n) as Hnew_val.
      { rewrite Hh1, lookup_total_app_r by lia. by rewrite Nat.sub_diag. }
      assert (node_type n = k) as Hnk
        by (unfold meta, launch_meta in Hnm; by simplify_eq).
      assert (∀ r, r ∈ pools → heap s1 !!! r = heap s !!! r) as Hold.
      { intros r Hin. apply (proj2 Hext1). destruct Hpool as [_ Hall].
        eapply Forall_forall in Hall; [|exact Hin]. tauto. }
      destruct (IH _ _ _ _ Hrun Hnd) as (Hext & Henv & Hpool').
      { intros kv Hin. apply Hav. by right. }
      { intros r [Hin|Hin]%elem_of_app.
        - rewrite Hold by done. intros Hin'. eapply Hdisj; [done|]. simpl. by right.
        - apply list_elem_of_singleton in Hin as ->. by rewrite Hnew_val, Hnk. }
      { apply pool_ok_extends with (h' := heap s1) in Hpool; [|done].
        destruct Hpool as [Hnd1 Hall1]. split.
        - rewrite map_app. simpl. rewrite Hnew_val, Hnk.
          apply NoDup_app. split_and!; [done| |apply NoDup_singleton].
          intros k' Hk1 Hk2%list_elem_of_singleton. subst k'.
          apply list_elem_of_fmap in Hk1 as (r0 & Hr0 & Hin0).
          eapply Hdisj; [exact Hin0|]. simpl.
          rewrite <-Hold by done. rewrite <-Hr0. left.
        - apply Forall_app. split; [done|]. repeat constructor.
          + rewrite Hh1, length_app. simpl. lia.
          + by rewrite Hnew_val, Hnk.
          + rewrite Hnew_val, Hnk.
            assert (avail_of avail k = v) as -> by (apply (Hav (k, v)); left).
            lia. }
      split_and!; [by eapply extends_trans|by eapply same_env_trans|done].
    + apply (IH _ _ _ _ Hrun Hnd); [|intros r Hin Hin'|done].
      * intros kv Hin. apply Hav. by right.
      * eapply Hdisj; [done|]. simpl. by right.
Qed.

(** [_try_schedule]: the nodes it returns are the nodes of the context, with
    status and type as they were, and new nodes to launch, at most as many
    of a type as the context allows. *)
Lemma try_schedule_spec ctx rs c s target rs' s' :
  _try_schedule ctx rs c s = Ok ((target, rs'), s') →
  ctx_ok ctx s → wf_configs (_node_type_configs ctx) →
  extends (heap s) (heap s') ∧ same_env s s' ∧ valid (heap s') target
  ∧ ∃ added,
      metas (heap s') target ≡ₚ metas (heap s) (_nodes ctx) ++ map launch_meta added
      ∧ ∀ k, Z.of_nat (count_key k added)
             ≤ Z.max 0 (avail_of (_node_type_available ctx) k).
Proof.
  intros Hrun [Hv Hav] Hwf. unfold _try_schedule in Hrun.
  unfold get_nodes in Hrun.
  destruct (deepcopy_spec _ s Hv) as (l' & ext & Hcopy & Hlen & Hvals & Hfresh).
  rewrite bind_unfold, Hcopy in Hrun. cbn beta iota in Hrun.
  set (s1 := set_heap s (heap s ++ ext)) in *.
  assert (valid (heap s1) l') as Hv1.
  { unfold valid. eapply Forall_impl; [exact Hfresh|]. simpl. intros; lia. }
  rewrite bind_unfold in Hrun.
  destruct (sched_existing_loop _ _ l' [] c s1) as [[[[rs1 ex1] tg1] s2]|] eqn:Hloop1;
    [|done].
  cbn beta iota in Hrun.
  destruct (sched_existing_loop_spec _ _ _ _ _ _ _ _ _ _ Hloop1)
    as (Hext2 & Henv2 & Hv2 & Hm2); [done|].
  simpl in Hm2. rewrite bind_unfold in Hrun.
  destruct (foldM _ [] (get_node_type_available ctx) s2) as [[pools s3]|] eqn:Hpools;
    [|done].
  cbn beta iota in Hrun.
  destruct Hwf as [Hnd Hall].
  assert (dict_keys (_node_type_available ctx) = dict_keys (_node_type_configs ctx))
    as Hkeys.
  { rewrite Hav. by apply compute_available_keys. }
  destruct (pool_build_spec _ (_node_type_available ctx) (conj Hnd Hall)
              _ _ _ _ _ Hpools) as (Hext3 & Henv3 & Hpool3).
  { unfold get_node_type_available. fold (dict_keys (_node_type_available ctx)).
    by rewrite Hkeys. }
  { intros [k v] Hin. unfold avail_of, get_node_type_available in *. simpl.
    rewrite (dict_get_NoDup_elem _ k v); [done| |done]. by rewrite Hkeys. }
  { intros r Hin. by apply elem_of_nil in Hin. }
  { split; [constructor|constructor]. }
  destruct (sched_new_loop_spec _ _ _ (conj Hnd Hall) _ _ _ _ _ _ _ _ _ Hrun)
    as (Hext4 & Henv4 & Hv4 & added & Hm4 & Hc4).
  { by eapply extends_valid. }
  { done. }
  split_and!.
  - eapply extends_trans; [apply extends_app|].
    eapply extends_trans; [exact Hext2|]. by eapply extends_trans.
  - eapply same_env_trans; [apply same_env_set_heap|].
    eapply same_env_trans; [exact Henv2|]. by eapply same_env_trans.
  - done.
  - exists added. split; [|done].
    rewrite Hm4. rewrite (metas_extends (heap s2) (heap s3)) by done.
    rewrite Hm2. rewrite !metas_vals. change (heap s1) with (heap s ++ ext).
    by rewrite Hvals.
Qed.


(** ** What the phases keep *)

Lemma count_type_meta N l : count_type N l = count_meta N (map meta l).
Proof.
  unfold count_type, count_meta. induction l as [|n l IH]; [done|].
  simpl. rewrite !filter_cons.
  change (meta_status (meta n)) with (status n).
  change (meta_type (meta n)) with (node_type n).
  destruct (decide (status n ≠ TO_TERMINATE ∧ node_type n = N)); simpl; by rewrite IH.
Qed.

Lemma count_meta_perm N l l' : l ≡ₚ l' → count_meta N l = count_meta N l'.
Proof. intros H. unfold count_meta. by rewrite H. Qed.

Lemma count_meta_app N l l' :
  count_meta N (l ++ l') = (count_meta N l + count_meta N l')%nat.
Proof. unfold count_meta. by rewrite filter_app, length_app. Qed.

Lemma count_meta_launch N added :
  count_meta N (map launch_meta added) = count_key N added.
Proof.
  unfold count_meta, count_key. induction added as [|k added IH]; [done|].
  simpl. rewrite !filter_cons.
  change (meta_status (launch_meta k)) with TO_LAUNCH.
  change (meta_type (launch_meta k)) with k.
  destruct (decide (k = N)) as [->|Hne].
  - rewrite decide_True by done. simpl. by rewrite IH.
  - rewrite decide_False by tauto. done.
Qed.

Lemma count_type_le_all N l : (count_type N l ≤ count_all N l)%nat.
Proof.
  unfold count_type, count_all. induction l as [|n l IH]; [done|].
  rewrite !filter_cons.
  destruct (decide (status n ≠ TO_TERMINATE ∧ node_type n = N)) as [[_ ?]|?].
  - rewrite decide_True by done. simpl. lia.
  - destruct (decide (node_type n = N)); simpl; lia.
Qed.

Lemma updated_ok ctx h l s :
  heap s = h → valid h l → ctx_ok (updated ctx h l) s.
Proof. intros <- Hv. by split. Qed.

Lemma ctx_ok_extends ctx s s' :
  extends (heap s) (heap s') → ctx_ok ctx s → ctx_ok ctx s'.
Proof.
  intros Hext [Hv Hav]. split; [by eapply extends_valid|].
  by rewrite (extends_vals (heap s) (heap s')).
Qed.

Lemma same_settings_refl ctx : same_settings ctx ctx.
Proof. by split_and!. Qed.

Lemma same_settings_updated ctx h l : same_settings ctx (updated ctx h l).
Proof. by split_and!. Qed.

Lemma keeps_extends ctx s s' :
  ctx_ok ctx s → extends (heap s) (heap s') → same_env s s' → keeps ctx s ctx s'.
Proof.
  intros Hok Hext Henv. pose proof Hok as [Hv _].
  split_and!; [by eapply ctx_ok_extends|apply same_settings_refl|done| |].
  - by rewrite (extends_vals (heap s) (heap s')).
  - intros m _. by rewrite (metas_extends (heap s) (heap s')).
Qed.

Lemma keeps_trans ctx1 s1 ctx2 s2 ctx3 s3 :
  keeps ctx1 s1 ctx2 s2 → keeps ctx2 s2 ctx3 s3 → keeps ctx1 s1 ctx3 s3.
Proof.
  intros (Hok2 & (Hc2 & Hm2 & Hi2) & Henv2 & Hb2 & Ht2)
         (Hok3 & (Hc3 & Hm3 & Hi3) & Henv3 & Hb3 & Ht3).
  split_and!; [done|split_and!; congruence|by eapply same_env_trans| |].
  - intros Hb. rewrite Hc2 in Hb3. auto.
  - auto.
Qed.

(** The context updated with the nodes that [_try_schedule] returns. *)
Lemma keeps_packed ctx s target s' added :
  ctx_ok ctx s → wf_configs (_node_type_configs ctx) →
  same_env s s' → valid (heap s') target →
  metas (heap s') target ≡ₚ metas (heap s) (_nodes ctx) ++ map launch_meta added →
  (∀ k, Z.of_nat (count_key k added) ≤ Z.max 0 (avail_of (_node_type_available ctx) k)) →
  keeps ctx s (updated ctx (heap s') target) s'.
Proof.
  intros [Hv Hav] [Hnd Hall] Henv Hvt Hm Hc.
  split_and!; [by apply updated_ok|apply same_settings_updated|done| |].
  - intros Hb N. simpl. specialize (Hb N). specialize (Hc N).
    rewrite count_type_meta in *. rewrite <-metas_vals in *.
    rewrite (count_meta_perm _ _ _ Hm), count_meta_app, count_meta_launch.
    rewrite Hav, compute_available_get in Hc by done.
    pose proof (count_type_le_all N (vals (heap s) (_nodes ctx))) as Hle.
    rewrite count_type_meta, <-metas_vals in Hle.
    unfold max_workers_of in *.
    destruct (dict_get (_node_type_configs ctx) N); lia.
  - intros m _ Hin. simpl. rewrite Hm. apply elem_of_app. by left.
Qed.

Lemma enforce_resource_constraints_keeps ctx cs s ctx' inf s' :
  _enforce_resource_constraints ctx cs s = Ok ((ctx', inf), s') →
  ctx_ok ctx s → wf_configs (_node_type_configs ctx) →
  keeps ctx s ctx' s'.
Proof.
  intros Hrun Hok Hwf. unfold _enforce_resource_constraints in Hrun.
  rewrite bind_unfold in Hrun.
  destruct (assert _ s) as [[u s0]|] eqn:Hassert; [|done].
  apply assert_inv in Hassert as [_ ->]. cbn beta iota in Hrun.
  destruct cs as [|constraint cs].
  - injection Hrun as <- _ <-.
    apply keeps_extends; [done|apply extends_refl|apply same_env_refl].
  - rewrite bind_unfold in Hrun.
    destruct (_try_schedule ctx _ true s) as [[[target inf'] s1]|] eqn:Htry; [|done].
    cbn beta iota in Hrun.
    destruct (try_schedule_spec _ _ _ _ _ _ _ Htry Hok Hwf)
      as (Hext & Henv & Hvt & added & Hm & Hc).
    destruct inf'.
    + rewrite bind_unfold, update_run in Hrun. injection Hrun as <- _ <-.
      by eapply keeps_packed.
    + injection Hrun as <- _ <-. by apply keeps_extends.
Qed.

Lemma sched_resource_requests_keeps ctx rbc s ctx' inf s' :
  _sched_resource_requests ctx rbc s = Ok ((ctx', inf), s') →
  ctx_ok ctx s → wf_configs (_node_type_configs ctx) →
  keeps ctx s ctx' s'.
Proof.
  intros Hrun Hok Hwf. unfold _sched_resource_requests in Hrun.
  rewrite bind_unfold in Hrun.
  destruct (_try_schedule ctx _ false s) as [[[target inf'] s1]|] eqn:Htry; [|done].
  cbn beta iota in Hrun.
  destruct (try_schedule_spec _ _ _ _ _ _ _ Htry Hok Hwf)
    as (Hext & Henv & Hvt & added & Hm & Hc).
  rewrite bind_unfold, update_run in Hrun. injection Hrun as <- _ <-.
  by eapply keeps_packed.
Qed.

Lemma sched_gang_loop_keeps gangs : ∀ ctx inf s ctx' inf' s',
  foldM (λ (acc : ScheduleContext * list GangResourceRequest) gang_req,
           let rs := combine_requests_with_affinity (requests gang_req) in
           '(nodes, infeasible) ← _try_schedule acc.1 rs false;
           match infeasible with
           | _ :: _ => mret (acc.1, acc.2 ++ [gang_req])
           | [] => ctx' ← update acc.1 nodes; mret (ctx', acc.2)
           end) (ctx, inf) gangs s = Ok ((ctx', inf'), s') →
  ctx_ok ctx s → wf_configs (_node_type_configs ctx) →
  keeps ctx s ctx' s'.
Proof.
  induction gangs as [|g gangs IH]; intros ctx inf s ctx' inf' s' Hrun Hok Hwf;
    simpl in Hrun.
  - injection Hrun as <- _ <-.
    apply keeps_extends; [done|apply extends_refl|apply same_env_refl].
  - rewrite bind_unfold in Hrun. rewrite bind_unfold in Hrun.
    destruct (_try_schedule ctx _ false s) as [[[target inf1] s1]|] eqn:Htry; [|done].
    cbn beta iota in Hrun.
    destruct (try_schedule_spec _ _ _ _ _ _ _ Htry Hok Hwf)
      as (Hext & Henv & Hvt & added & Hm & Hc).
    destruct inf1.
    + rewrite bind_unfold, update_run in Hrun. cbn beta iota in Hrun.
      rewrite ret_unfold in Hrun.
      assert (keeps ctx s (updated ctx (heap s1) target) s1) as Hk
        by by eapply keeps_packed.
      eapply keeps_trans; [exact Hk|].
      eapply IH; [exact Hrun|by apply updated_ok|done].
    + rewrite ret_unfold in Hrun.
      assert (keeps ctx s ctx s1) as Hk by by apply keeps_extends.
      eapply keeps_trans; [exact Hk|].
      eapply IH; [exact Hrun|by eapply ctx_ok_extends|done].
Qed.

Lemma sched_gang_resource_requests_keeps ctx gangs s ctx' inf s' :
  _sched_gang_resource_requests ctx gangs s = Ok ((ctx', inf), s') →
  ctx_ok ctx s → wf_configs (_node_type_configs ctx) →
  keeps ctx s ctx' s'.
Proof. apply sched_gang_loop_keeps. Qed.

(** *** The phases that only mark nodes *)

Lemma marks_count N old vs :
  Forall2 marks old vs → (count_type N vs ≤ count_type N old)%nat.
Proof.
  unfold count_type. induction 1 as [|n n' old vs Hm _ IH]; [done|].
  rewrite !filter_cons. destruct Hm as [->|(Hst & tr & ->)].
  - destruct (decide _); simpl; lia.
  - rewrite (decide_False (P := status (set_termination n tr) ≠ TO_TERMINATE ∧ _)).
    + destruct (decide _); simpl; lia.
    + simpl. tauto.
Qed.

Lemma marked_of_bounded configs old new :
  marked_of old new → bounded configs old → bounded configs new.
Proof.
  intros (vs & Hperm & Hm) Hb N. specialize (Hb N).
  pose proof (marks_count N _ _ Hm) as Hle.
  rewrite !count_type_meta in *. rewrite (count_meta_perm N _ (map meta vs)); [lia|].
  by rewrite Hperm.
Qed.

Lemma marked_of_terminating old new m :
  marked_of old new → meta_status m = TO_TERMINATE →
  m ∈ map meta old → m ∈ map meta new.
Proof.
  intros (vs & Hperm & Hm) Hst Hin. rewrite Hperm. clear Hperm.
  induction Hm as [|n n' old vs Hmk _ IH]; [done|].
  simpl in *. apply elem_of_cons in Hin as [->|Hin].
  - destruct Hmk as [->|(Hne & _)]; [left|]. by destruct Hne.
  - right. by apply IH.
Qed.

Lemma marked_of_keeps ctx s nodes' s' :
  valid (heap s') nodes' → same_env s s' →
  marked_of (vals (heap s) (_nodes ctx)) (vals (heap s') nodes') →
  keeps ctx s (updated ctx (heap s') nodes') s'.
Proof.
  intros Hv Henv Hm.
  split_and!; [by apply updated_ok|apply same_settings_updated|done| |].
  - simpl. by apply marked_of_bounded.
  - intros m Hst. rewrite !metas_vals. simpl. by apply marked_of_terminating.
Qed.

Lemma marked_by_marks test c idle old new :
  (∀ n, test n = true → status n ≠ TO_TERMINATE) →
  Forall2 (marked_by test c idle) old new → marked_of old new.
Proof.
  intros Htest Hm. exists new. split; [done|].
  eapply Forall2_impl; [exact Hm|]. intros n n'. unfold marked_by.
  destruct (test n) eqn:Ht; [|by left]. intros [t ->]. right. split; [auto|eauto].
Qed.

Lemma terminate_outdated_keeps ctx s ctx' s' :
  _terminate_outdated_nodes ctx s = Ok (ctx', s') →
  ctx_ok ctx s → keeps ctx s ctx' s'.
Proof.
  intros Hrun [Hv _].
  destruct (terminate_outdated_spec ctx s Hv) as (nodes' & s1 & Heq & Hv1 & Henv & Hm).
  rewrite Heq in Hrun. injection Hrun as <- <-.
  apply marked_of_keeps; [done..|].
  eapply marked_by_marks; [|exact Hm].
  intros n [Hst _]%andb_true_iff. apply bool_decide_eq_true in Hst. congruence.
Qed.

Lemma enforce_idle_termination_keeps ctx s ctx' s' :
  _enforce_idle_termination ctx s = Ok (ctx', s') →
  ctx_ok ctx s → keeps ctx s ctx' s'.
Proof.
  intros Hrun [Hv _].
  destruct (enforce_idle_termination_spec ctx s Hv)
    as (nodes' & s1 & Heq & Hv1 & Henv & Hm).
  rewrite Heq in Hrun. injection Hrun as <- <-.
  apply marked_of_keeps; [done..|].
  eapply marked_by_marks; [|exact Hm].
  intros n [Hst _]%andb_true_iff. apply bool_decide_eq_true in Hst. congruence.
Qed.

(** *** The global maximum *)

Lemma valid_subseteq h (l l' : list ref) : l ⊆ l' → valid h l' → valid h l.
Proof.
  intros Hsub Hv. apply Forall_forall. intros r Hin.
  eapply Forall_forall in Hv; [exact Hv|]. by apply Hsub.
Qed.

Lemma partition_by_status_perm h l :
  terminating_of h l ++ non_terminating_of h l ≡ₚ l.
Proof.
  unfold terminating_of, non_terminating_of.
  induction l as [|r l IH]; [done|]. rewrite !filter_cons.
  destruct (decide (status (h !!! r) = TO_TERMINATE)) as [Heq|Hne].
  - rewrite decide_False by tauto. simpl. by rewrite IH.
  - rewrite decide_True by done. rewrite <-Permutation_middle. by rewrite IH.
Qed.

Lemma selected_marks_heap c mn mt (h1 h2 : list SchedulingNode) (picked all_refs : list ref) :
  (∀ r, (r ∈ picked → selected c mn mt (h1 !!! r) (h2 !!! r))
        ∧ (r ∉ picked → h2 !!! r = h1 !!! r)) →
  (∀ r, r ∈ picked → status (h1 !!! r) ≠ TO_TERMINATE) →
  Forall2 marks (vals h1 all_refs) (vals h2 all_refs).
Proof.
  intros Hrel Hst. apply Forall2_fmap, Forall2_same_length_lookup_2; [done|].
  intros i r r' Hi Hi'. assert (r' = r) as -> by congruence.
  destruct (decide (r ∈ picked)) as [Hin|Hnin].
  - destruct (proj1 (Hrel r) Hin) as [t ->]. right. split; [by apply Hst|eauto].
  - left. by apply Hrel.
Qed.

Lemma enforce_max_global_spec ctx s :
  valid (heap s) (_nodes ctx) →
  ∃ ctx' s',
    _enforce_max_workers_global ctx s = Ok (ctx', s')
    ∧ same_env s s'
    ∧ ((ctx' = ctx ∧ extends (heap s) (heap s'))
       ∨ (∃ nodes', ctx' = updated ctx (heap s') nodes' ∧ valid (heap s') nodes'
                    ∧ marked_of (vals (heap s) (_nodes ctx)) (vals (heap s') nodes'))).
Proof.
  intros Hv. unfold _enforce_max_workers_global, get_nodes.
  destruct (deepcopy_spec _ s Hv) as (all_nodes & ext & Hcopy & Hlen & Hvals & Hfresh).
  rewrite bind_unfold, Hcopy. cbn beta iota. rewrite bind_unfold. cbn beta iota.
  set (s1 := set_heap s (heap s ++ ext)) in *. simpl.
  set (T := terminating_of (heap s ++ ext) all_nodes).
  set (NT := non_terminating_of (heap s ++ ext) all_nodes).
  set (k := match _max_num_nodes ctx with
            | Some m => if bool_decide (m = 0) then 0
                        else Z.max (Z.of_nat (length NT) - m) 0
            | None => 0
            end).
  assert (valid (heap s1) all_nodes) as Hv1.
  { unfold valid. eapply Forall_impl; [exact Hfresh|]. simpl. intros; lia. }
  case_bool_decide as Hk.
  { exists ctx, s1. split; [done|]. split; [apply same_env_set_heap|].
    left. split; [done|apply extends_app]. }
  assert (valid (heap s1) NT) as HvNT.
  { eapply valid_subseteq; [|exact Hv1]. apply list_subseteq_filter. }
  destruct (select_spec NT k MAX_NUM_NODES (_max_num_nodes ctx) None s1 HvNT)
    as (s2 & Hsel & Hlen2 & Henv2 & Hrel); [lia|left|].
  simpl in Hsel, Hrel.
  set (sorted := sort_for_termination (heap s ++ ext) NT) in *.
  rewrite bind_unfold, Hsel. cbn beta iota.
  assert (sorted ≡ₚ NT) as Hsorted by apply sort_for_termination_perm.
  assert ((T ++ take (Z.to_nat k) sorted) ++ drop (Z.to_nat k) sorted ≡ₚ all_nodes)
    as Hperm.
  { rewrite <-app_assoc, take_drop, Hsorted. apply partition_by_status_perm. }
  rewrite bind_unfold. rewrite bool_decide_eq_true_2.
  2:{ by rewrite Hperm. }
  simpl. rewrite update_run.
  eexists _, s2. split; [done|].
  split; [eapply same_env_trans; [apply same_env_set_heap|exact Henv2]|].
  right. eexists. split; [done|]. split.
  - eapply valid_perm; [symmetry; exact Hperm|].
    unfold valid in *. by rewrite Hlen2.
  - exists (vals (heap s2) all_nodes). split; [by rewrite Hperm|].
    rewrite <-Hvals. eapply selected_marks_heap; [exact Hrel|].
    intros r Hin%subseteq_take. rewrite Hsorted in Hin.
    unfold NT, non_terminating_of in Hin. by apply list_elem_of_filter in Hin as [? _].
Qed.

Lemma enforce_max_global_keeps ctx s ctx' s' :
  _enforce_max_workers_global ctx s = Ok (ctx', s') →
  ctx_ok ctx s → keeps ctx s ctx' s'.
Proof.
  intros Hrun Hok. pose proof Hok as [Hv _].
  destruct (enforce_max_global_spec ctx s Hv) as (ctx1 & s1 & Heq & Henv & Hcase).
  rewrite Heq in Hrun. injection Hrun as <- <-.
  destruct Hcase as [[-> Hext]|(nodes' & -> & Hv' & Hm)].
  - by apply keeps_extends.
  - by apply marked_of_keeps.
Qed.


(** ** The maximum of every node type *)

Lemma dict_set_concat {V} (d : list (NodeType * list V)) K l' :
  concat (dict_values (dict_set d K l')) ≡ₚ l' ++ dict_rest d K.
Proof.
  induction d as [|[k v] d IH]; simpl.
  - done.
  - destruct (decide (k = K)) as [->|Hne]; simpl; [done|].
    unfold dict_values in *. rewrite IH.
    rewrite !app_assoc. f_equiv. apply Permutation_app_comm.
Qed.

Lemma dict_get_concat {V} (d : list (NodeType * list V)) K :
  concat (dict_values d) ≡ₚ default [] (dict_get d K) ++ dict_rest d K.
Proof.
  induction d as [|[k v] d IH]; simpl.
  - done.
  - destruct (decide (k = K)) as [->|Hne]; simpl; [done|].
    unfold dict_values in *. rewrite IH.
    rewrite !app_assoc. f_equiv. apply Permutation_app_comm.
Qed.

Lemma dict_keys_set_in {K V} `{EqDecision K} (d : list (K * V)) k v :
  k ∈ dict_keys d → dict_keys (dict_set d k v) = dict_keys d.
Proof. intros Hin. by rewrite dict_keys_set, bool_decide_eq_true_2. Qed.

Lemma Forall_dict_set {K V} `{EqDecision K} (P : K * V → Prop) (d : list (K * V)) k v :
  Forall P d → P (k, v) → Forall P (dict_set d k v).
Proof.
  intros Hd Hp. induction Hd as [|[k0 v0] d Hp0 Hd IH]; simpl.
  - by repeat constructor.
  - destruct (decide (k0 = k)); constructor; auto.
Qed.

Lemma dict_get_Forall {K V} `{EqDecision K} (P : K * V → Prop) (d : list (K * V)) k v :
  Forall P d → dict_get d k = Some v → P (k, v).
Proof. intros Hd Hget%dict_get_Some_elem. by eapply Forall_forall in Hd. Qed.

Lemma NoDup_dict_set {K V} `{EqDecision K} (d : list (K * V)) k v :
  NoDup (dict_keys d) → NoDup (dict_keys (dict_set d k v)).
Proof.
  intros Hnd. rewrite dict_keys_set. case_bool_decide as Hin; [done|].
  apply NoDup_app. split_and!; [done| |apply NoDup_singleton].
  intros x Hx ->%list_elem_of_singleton. done.
Qed.

(** The buckets that the phase starts with. *)
Lemma buckets_fold h l : ∀ d,
  NoDup (dict_keys d) → typed_buckets h d →
  Forall (λ r, (r < length h)%nat ∧ status (h !!! r) ≠ TO_TERMINATE) l →
  let d' := foldl (λ d r,
                     dict_set d (node_type (h !!! r))
                       (default [] (dict_get d (node_type (h !!! r))) ++ [r])) d l in
  NoDup (dict_keys d') ∧ typed_buckets h d'
  ∧ concat (dict_values d') ≡ₚ concat (dict_values d) ++ l.
Proof.
  induction l as [|r l IH]; intros d Hnd Hty Hl; simpl.
  - by rewrite app_nil_r.
  - apply Forall_cons in Hl as [[Hr Hst] Hl].
    set (K := node_type (h !!! r)).
    set (d1 := dict_set d K (default [] (dict_get d K) ++ [r])).
    destruct (IH d1) as (Hnd' & Hty' & Hc'); [by apply NoDup_dict_set| |done|].
    { apply Forall_dict_set; [done|]. simpl. apply Forall_app. split.
      - destruct (dict_get d K) as [l0|] eqn:Hget; simpl; [|constructor].
        by apply (dict_get_Forall _ _ _ _ Hty Hget).
      - by repeat constructor. }
    split_and!; [done..|]. rewrite Hc'. unfold d1.
    rewrite dict_set_concat, (dict_get_concat d K).
    rewrite <-!app_assoc. simpl. by rewrite <-!Permutation_middle.
Qed.

Lemma non_terminating_by_type_spec h l :
  valid h l →
  NoDup (dict_keys (non_terminating_by_type h l))
  ∧ typed_buckets h (non_terminating_by_type h l)
  ∧ concat (dict_values (non_terminating_by_type h l)) ≡ₚ non_terminating_of h l.
Proof.
  intros Hv. unfold non_terminating_by_type.
  destruct (buckets_fold h (non_terminating_of h l) []) as (?&?&?);
    [constructor|constructor| |done].
  apply Forall_forall. intros r Hin.
  unfold non_terminating_of in Hin. apply list_elem_of_filter in Hin as [Hst Hin].
  eapply Forall_forall in Hv; [|exact Hin]. done.
Qed.

Lemma marks_type n n' : marks n n' → node_type n' = node_type n.
Proof. by intros [->|(_ & tr & ->)]. Qed.

Lemma marks_after_selected c mn mt n0 n1 n2 :
  status n0 ≠ TO_TERMINATE → marks n0 n1 → selected c mn mt n1 n2 → marks n0 n2.
Proof.
  intros Hst Hm [t ->]. right. split; [done|].
  destruct Hm as [->|(_ & tr & ->)]; eauto.
Qed.

Lemma heap_marks_refl h : heap_marks h h.
Proof. split; [done|]. intros r. by left. Qed.

(** The loop over the node types. *)
Lemma enforce_max_types_loop configs h1 all_nodes : ∀ ks D T s,
  NoDup ks → (∀ K, K ∈ ks → K ∈ dict_keys D) →
  NoDup (dict_keys D) → typed_buckets h1 D → heap_marks h1 (heap s) →
  Forall (λ r, (r < length h1)%nat ∧ status (heap s !!! r) = TO_TERMINATE) T →
  T ++ concat (dict_values D) ≡ₚ all_nodes →
  ∃ D' T' s',
    foldM (enforce_max_of_type configs) (D, T) ks s = Ok ((D', T'), s')
    ∧ same_env s s'
    ∧ dict_keys D' = dict_keys D ∧ typed_buckets h1 D'
    ∧ heap_marks h1 (heap s')
    ∧ Forall (λ r, (r < length h1)%nat ∧ status (heap s' !!! r) = TO_TERMINATE) T'
    ∧ T' ++ concat (dict_values D') ≡ₚ all_nodes
    ∧ ∀ K, (K ∈ ks →
            Z.of_nat (length (default [] (dict_get D' K)))
            ≤ Z.max 0 (max_workers_of configs K))
           ∧ (K ∉ ks → dict_get D' K = dict_get D K).
Proof.
  induction ks as [|K ks IH]; intros D T s Hndk Hkeys Hnd Hty Hhm HT Hperm.
  - exists D, T, s. split; [done|].
    split_and!; [apply same_env_refl|done..|].
    intros K. split; [by intros ?%elem_of_nil|done].
  - apply NoDup_cons in Hndk as [HKnin Hndk].
    simpl. rewrite bind_unfold. unfold enforce_max_of_type at 1. simpl.
    destruct (dict_get D K) as [l|] eqn:Hget; simpl.
    2:{ exfalso. apply dict_get_None in Hget. apply Hget. apply Hkeys. left. }
    set (mx := match dict_get configs K with
               | Some c => max_worker_nodes c
               | None => 0
               end).
    assert (max_workers_of configs K = mx) as Hmx by done.
    assert (Forall (λ r, (r < length h1)%nat ∧ node_type (h1 !!! r) = K
                         ∧ status (h1 !!! r) ≠ TO_TERMINATE) l) as Hl.
    { by apply (dict_get_Forall _ _ _ _ Hty Hget). }
    case_bool_decide as Hextra.
    + rewrite ret_unfold.
      destruct (IH D T s) as (D' & T' & s' & Hrun & Hrest); [done| |done..|].
      { intros K' HK'. apply Hkeys. by right. }
      exists D', T', s'. split; [done|].
      destruct Hrest as (?&?&?&?&?&?&Hb). split_and!; [done..|].
      intros K'. split.
      * intros [->|HK']%elem_of_cons; [|by apply Hb].
        destruct (Hb K) as [_ Heq]. rewrite Heq by done. rewrite Hget. simpl. lia.
      * intros [? ?]%not_elem_of_cons. by apply Hb.
    + set (k := Z.of_nat (length l) - mx) in *.
      destruct Hhm as [Hlen Hmarks].
      assert (valid (heap s) l) as Hvl.
      { eapply Forall_impl; [exact Hl|]. simpl. intros r (?&_). lia. }
      destruct (select_spec l k MAX_NUM_NODE_PER_TYPE None (Some mx) s Hvl)
        as (s1 & Hsel & Hlen1 & Henv1 & Hrel); [lia|right; left|].
      simpl in Hsel, Hrel.
      set (sorted := sort_for_termination (heap s) l) in *.
      assert (sorted ≡ₚ l) as Hsorted by apply sort_for_termination_perm.
      rewrite bind_unfold, Hsel. cbn beta iota. rewrite ret_unfold. simpl.
      assert (Forall (λ r, (r < length h1)%nat ∧ node_type (h1 !!! r) = K
                           ∧ status (h1 !!! r) ≠ TO_TERMINATE) sorted) as Hs.
      { by rewrite Hsorted. }
      destruct (IH (dict_set D K (drop (Z.to_nat k) sorted))
                  (T ++ take (Z.to_nat k) sorted) s1)
        as (D' & T' & s' & Hrun & Hrest).
      { done. }
      { intros K' HK'. rewrite dict_keys_set_in; apply Hkeys; [by right|left]. }
      { by apply NoDup_dict_set. }
      { apply Forall_dict_set; [done|]. simpl. by apply Forall_drop. }
      { split; [congruence|]. intros r.
        destruct (decide (r ∈ take (Z.to_nat k) sorted)) as [Hin|Hnin].
        - eapply marks_after_selected; [|apply Hmarks|by apply Hrel].
          apply subseteq_take in Hin. eapply Forall_forall in Hs; [|exact Hin].
          tauto.
        - destruct (Hrel r) as [_ Heq]. rewrite Heq by done. apply Hmarks. }
      { apply Forall_app. split.
        - eapply Forall_impl; [exact HT|]. simpl. intros r [Hr Hst]. split; [done|].
          destruct (decide (r ∈ take (Z.to_nat k) sorted)) as [Hin|Hnin].
          + destruct (proj1 (Hrel r) Hin) as [t ->]. done.
          + destruct (Hrel r) as [_ Heq]. by rewrite Heq.
        - apply Forall_forall. intros r Hin. split.
          + apply subseteq_take in Hin. eapply Forall_forall in Hs; [|exact Hin].
            tauto.
          + destruct (proj1 (Hrel r) Hin) as [t ->]. done. }
      { rewrite dict_set_concat. rewrite <-Hperm, (dict_get_concat D K), Hget. simpl.
        rewrite <-Hsorted. rewrite <-(take_drop (Z.to_nat k) sorted) at 3.
        rewrite <-!app_assoc. done. }
      exists D', T', s'. split; [done|].
      destruct Hrest as (Henv & Hk' & ? & ? & ? & ? & Hb).
      split_and!; [by eapply same_env_trans| |done..|].
      * rewrite Hk'. apply dict_keys_set_in. apply Hkeys. left.
      * intros K'. split.
        -- intros [->|HK']%elem_of_cons; [|by apply Hb].
           destruct (Hb K) as [_ Heq]. rewrite Heq by done.
           rewrite dict_get_set_eq. simpl. rewrite length_drop.
           rewrite (Permutation_length Hsorted). lia.
        -- intros [Hne ?]%not_elem_of_cons. destruct (Hb K') as [_ Heq].
           rewrite Heq by done. by rewrite dict_get_set_ne.
Qed.

Lemma count_type_app N l l' :
  count_type N (l ++ l') = (count_type N l + count_type N l')%nat.
Proof. unfold count_type. by rewrite filter_app, length_app. Qed.

Lemma count_type_le_length N l : (count_type N l ≤ length l)%nat.
Proof. unfold count_type. apply length_filter. Qed.

Lemma count_type_none N l :
  Forall (λ n, status n = TO_TERMINATE ∨ node_type n ≠ N) l → count_type N l = 0%nat.
Proof.
  unfold count_type. induction 1 as [|n l Hn _ IH]; [done|].
  rewrite filter_cons, decide_False; [done|]. tauto.
Qed.

Lemma bucket_count (h : list SchedulingNode) N (D : list (NodeType * list nat)) :
  NoDup (dict_keys D) →
  Forall (λ kl, Forall (λ r : nat, node_type (h !!! r) = kl.1) kl.2) D →
  (count_type N (vals h (concat (dict_values D)))
   ≤ length (default [] (dict_get D N)))%nat.
Proof.
  induction D as [|[K l] D IH]; intros Hnd Hty; simpl; [done|].
  apply NoDup_cons in Hnd as [Hnin Hnd]. apply Forall_cons in Hty as [Hl Hty].
  rewrite map_app, count_type_app. specialize (IH Hnd Hty).
  destruct (decide (K = N)) as [->|Hne]; simpl.
  - assert (dict_get D N = None) as Hnone by by apply dict_get_None.
    rewrite Hnone in IH. simpl in IH.
    pose proof (count_type_le_length N (vals h l)) as Hle.
    rewrite length_map in Hle. unfold dict_values in *. lia.
  - rewrite (count_type_none N (vals h l)); [unfold dict_values in *; lia|].
    apply Forall_fmap. eapply Forall_impl; [exact Hl|]. simpl. intros r Hr.
    right. congruence.
Qed.

Lemma enforce_max_per_type_spec ctx s :
  valid (heap s) (_nodes ctx) →
  ∃ nodes' s',
    _enforce_max_workers_per_type ctx s = Ok (updated ctx (heap s') nodes', s')
    ∧ valid (heap s') nodes' ∧ same_env s s'
    ∧ marked_of (vals (heap s) (_nodes ctx)) (vals (heap s') nodes')
    ∧ ∀ N, Z.of_nat (count_type N (vals (heap s') nodes'))
           ≤ Z.max 0 (max_workers_of (_node_type_configs ctx) N).
Proof.
  intros Hv. unfold _enforce_max_workers_per_type, get_nodes.
  destruct (deepcopy_spec _ s Hv) as (all_nodes & ext & Hcopy & Hlen & Hvals & Hfresh).
  rewrite bind_unfold, Hcopy. cbn beta iota. rewrite bind_unfold. cbn beta iota.
  set (s1 := set_heap s (heap s ++ ext)) in *. simpl.
  set (h1 := heap s ++ ext) in *.
  assert (valid h1 all_nodes) as Hv1.
  { unfold valid. eapply Forall_impl; [exact Hfresh|]. simpl. intros; lia. }
  destruct (non_terminating_by_type_spec h1 all_nodes Hv1) as (Hnd0 & Hty0 & Hc0).
  set (D0 := non_terminating_by_type h1 all_nodes) in *.
  set (T0 := terminating_of h1 all_nodes).
  destruct (enforce_max_types_loop (_node_type_configs ctx) h1 all_nodes
              (dict_keys D0) D0 T0 s1)
    as (D' & T' & s2 & Hrun & Henv & Hkeys & Hty & [Hlen2 Hmarks] & HT & Hperm & Hb);
    [done|done|done|done|apply heap_marks_refl| | |].
  { apply Forall_forall. intros r Hin. unfold T0, terminating_of in Hin.
    apply list_elem_of_filter in Hin as [Hst Hin].
    eapply Forall_forall in Hv1; [|exact Hin]. done. }
  { rewrite Hc0. apply partition_by_status_perm. }
  rewrite bind_unfold, Hrun. cbn beta iota. rewrite bind_unfold.
  rewrite bool_decide_eq_true_2.
  2:{ by rewrite Hperm. }
  simpl. rewrite update_run.
  eexists _, s2. split; [done|]. split_and!.
  - eapply valid_perm; [symmetry; exact Hperm|]. unfold valid in *.
    by rewrite Hlen2.
  - eapply same_env_trans; [apply same_env_set_heap|exact Henv].
  - exists (vals (heap s2) all_nodes). split; [by rewrite Hperm|].
    rewrite <-Hvals. apply Forall2_fmap, Forall2_same_length_lookup_2; [done|].
    intros i r r' Hi Hi'. assert (r' = r) as -> by congruence. apply Hmarks.
  - intros N. rewrite map_app, count_type_app.
    rewrite (count_type_none N (vals (heap s2) T')).
    2:{ apply Forall_fmap. eapply Forall_impl; [exact HT|]. simpl. intros r [_ ?].
        by left. }
    pose proof (bucket_count (heap s2) N D') as Hbc.
    destruct (decide (N ∈ dict_keys D0)) as [Hin|Hnin].
    + destruct (Hb N) as [Hle _]. specialize (Hle Hin).
      assert (count_type N (vals (heap s2) (concat (dict_values D')))
              ≤ length (default [] (dict_get D' N)))%nat; [|lia].
      apply Hbc; [by rewrite Hkeys|].
      eapply Forall_impl; [exact Hty|]. simpl. intros kl Hkl.
      eapply Forall_impl; [exact Hkl|]. simpl. intros r (_ & Htype & _).
      rewrite <-Htype. apply marks_type, Hmarks.
    + assert (dict_get D' N = None) as Hnone.
      { apply dict_get_None. by rewrite Hkeys. }
      rewrite Hnone in Hbc. simpl in Hbc.
      assert (count_type N (vals (heap s2) (concat (dict_values D'))) ≤ 0)%nat; [|lia].
      apply Hbc; [by rewrite Hkeys|].
      eapply Forall_impl; [exact Hty|]. simpl. intros kl Hkl.
      eapply Forall_impl; [exact Hkl|]. simpl. intros r (_ & Htype & _).
      rewrite <-Htype. apply marks_type, Hmarks.
Qed.

Lemma max_workers_of_nonneg configs N :
  wf_configs configs → 0 ≤ max_workers_of configs N.
Proof.
  intros [_ Hall]. unfold max_workers_of.
  destruct (dict_get configs N) as [c|] eqn:Hget; [|done].
  apply dict_get_Some_elem in Hget. eapply Forall_forall in Hall; [|exact Hget].
  simpl in Hall. tauto.
Qed.

(** After the enforcement of the per-type maxima every node type is within
    its maximum. *)
Lemma enforce_max_per_type_keeps ctx s ctx' s' :
  _enforce_max_workers_per_type ctx s = Ok (ctx', s') →
  ctx_ok ctx s → wf_configs (_node_type_configs ctx) →
  keeps ctx s ctx' s'
  ∧ bounded (_node_type_configs ctx) (vals (heap s') (_nodes ctx')).
Proof.
  intros Hrun [Hv _] Hwf.
  destruct (enforce_max_per_type_spec ctx s Hv)
    as (nodes' & s1 & Heq & Hv1 & Henv & Hm & Hb).
  rewrite Heq in Hrun. injection Hrun as <- <-. split.
  - by apply marked_of_keeps.
  - intros N. simpl. specialize (Hb N).
    pose proof (max_workers_of_nonneg _ N Hwf). lia.
Qed.

(** *** The minimum of every node type, and the context of a request *)

Lemma extends_alloc (h : list SchedulingNode) n : extends h (h ++ [n]).
Proof.
  split; [rewrite length_app; lia|]. intros r Hr.
  by apply lookup_total_app_l_lt.
Qed.

Lemma min_workers_loop (P : SchedulingNode → Prop) (shape : list (NodeType * Z)) :
  ∀ (cfgs : list (NodeType * NodeTypeConfig)) (new : list nat) s,
    Forall (λ kc, P (from_node_config kc.2 TO_LAUNCH None)) cfgs →
    valid (heap s) new → Forall P (vals (heap s) new) →
    ∃ new' s',
      foldM (λ new_nodes (kc : NodeType * NodeTypeConfig),
               let cur_count := default 0%Z (dict_get shape kc.1) in
               let min_count := min_worker_nodes kc.2 in
               if bool_decide (cur_count < min_count)%Z then
                 r ← alloc (from_node_config kc.2 TO_LAUNCH None);
                 ret (new_nodes ++ replicate (Z.to_nat (min_count - cur_count)) r)
               else ret new_nodes) new cfgs s = Ok (new', s')
      ∧ extends (heap s) (heap s') ∧ same_env s s' ∧ valid (heap s') new'
      ∧ Forall P (vals (heap s') new').
Proof.
  induction cfgs as [|kc cfgs IH]; intros new s Hcfg Hv HP.
  - exists new, s. split_and!; [done|apply extends_refl|apply same_env_refl|done..].
  - apply Forall_cons in Hcfg as [Hkc Hcfg].
    cbn [foldM]. rewrite bind_unfold. cbn beta zeta.
    destruct (bool_decide _).
    + rewrite bind_unfold. unfold alloc at 1. cbn beta iota.
      rewrite ret_unfold. cbn beta iota.
      set (s1 := set_heap s (heap s ++ [from_node_config kc.2 TO_LAUNCH None])).
      destruct (IH (new ++ replicate (Z.to_nat (min_worker_nodes kc.2
                       - default 0 (dict_get shape kc.1))) (length (heap s))) s1)
        as (new' & s' & Hrun & Hext & Henv & Hv' & HP'); [done| | |].
      { apply Forall_app. split.
        - eapply valid_weaken; [|exact Hv]. simpl. rewrite length_app. lia.
        - apply Forall_replicate. simpl. rewrite length_app. simpl. lia. }
      { rewrite map_app. apply Forall_app. split.
        - simpl. rewrite (extends_vals (heap s)); [done|apply extends_app|done].
        - apply Forall_fmap, Forall_replicate. simpl.
          by rewrite lookup_total_app_r, Nat.sub_diag by lia. }
      exists new', s'. split_and!; [done| |done..].
      eapply extends_trans; [apply extends_alloc|exact Hext].
    + rewrite ret_unfold. cbn beta iota. by apply IH.
Qed.

Lemma enforce_min_workers_spec (P : SchedulingNode → Prop) ctx s :
  ctx_ok ctx s →
  Forall (λ kc, P (from_node_config kc.2 TO_LAUNCH None)) (_node_type_configs ctx) →
  Forall P (vals (heap s) (_nodes ctx)) →
  ∃ ctx' s',
    _enforce_min_workers_per_type ctx s = Ok (ctx', s')
    ∧ ctx_ok ctx' s' ∧ same_settings ctx ctx' ∧ same_env s s'
    ∧ (∀ m, m ∈ metas (heap s) (_nodes ctx) → m ∈ metas (heap s') (_nodes ctx'))
    ∧ Forall P (vals (heap s') (_nodes ctx')).
Proof.
  intros [Hv _] Hcfg HP. unfold _enforce_min_workers_per_type, get_cluster_shape.
  rewrite bind_unfold, bind_unfold. unfold load_all at 1. cbn beta iota.
  rewrite ret_unfold. cbn beta iota. rewrite bind_unfold.
  match goal with
  | |- context [foldM ?f [] (_node_type_configs ctx) s] =>
      destruct (min_workers_loop P
                  (foldl (λ d n, if bool_decide (status n = TO_TERMINATE) then d
                                 else dict_add d (node_type n) 1) []
                         (vals (heap s) (_nodes ctx)))
                  (_node_type_configs ctx) [] s)
        as (new & s1 & Hrun & Hext & Henv & Hvn & HPn);
        [done|by apply Forall_nil|by apply Forall_nil|]
  end.
  match goal with
  | |- context [foldM ?f [] ?c s] =>
      replace (foldM f [] c s) with (Ok (new, s1) : result (list nat * state))
        by (symmetry; exact Hrun)
  end.
  cbn beta iota. unfold get_nodes.
  assert (valid (heap s1) (_nodes ctx)) as Hv1 by by eapply extends_valid.
  destruct (deepcopy_spec _ s1 Hv1) as (l' & ext & Hcopy & Hlen & Hvals & Hfresh).
  rewrite bind_unfold, Hcopy. cbn beta iota. rewrite update_run.
  eexists _, _. split; [done|]. simpl. split_and!.
  - apply updated_ok; [done|]. simpl. apply Forall_app. split.
    + by apply valid_app_heap.
    + unfold valid. eapply Forall_impl; [exact Hfresh|]. simpl. intros; lia.
  - apply same_settings_updated.
  - eapply same_env_trans; [exact Henv|apply same_env_set_heap].
  - intros m Hin. rewrite metas_app. apply elem_of_app. right.
    rewrite metas_vals, Hvals, <-metas_vals.
    by rewrite (metas_extends (heap s) (heap s1)).
  - rewrite map_app. apply Forall_app. split.
    + rewrite (extends_vals (heap s1) (heap s1 ++ ext)); [done|apply extends_app|done].
    + rewrite Hvals. by rewrite (extends_vals (heap s) (heap s1)).
Qed.

Lemma node_of_instance_spec configs nodes inst s nodes' s' :
  node_of_instance configs nodes inst s = Ok (nodes', s') →
  valid (heap s) nodes →
  extends (heap s) (heap s') ∧ same_env s s' ∧ valid (heap s') nodes'
  ∧ (∃ extra, nodes' = nodes ++ extra)
  ∧ ∀ rn, ray_node inst = Some rn →
          ∃ id, decode_utf8 (ns_node_id rn) = Ok id
                ∧ running_node_of inst rn id ∈ vals (heap s') nodes'.
Proof.
  intros Hrun Hv. unfold node_of_instance in Hrun.
  assert (∀ n, valid (heap s ++ [n]) (nodes ++ [length (heap s)])) as Hva.
  { intros n. apply Forall_app. split; [by apply valid_app_heap|].
    apply Forall_singleton. rewrite length_app. simpl. lia. }
  destruct (ray_node inst) as [rn|] eqn:Hrn.
  - apply bind_inv in Hrun as (id & s1 & Hid & Hrun).
    apply lift_inv in Hid as [Hid ->]. inversion Hrun; subst nodes' s'. simpl.
    split_and!; [apply extends_app|done|apply Hva|by eexists|].
    intros ? [= <-]. exists id. split; [done|].
    rewrite map_app. apply elem_of_app. right. simpl. apply list_elem_of_singleton.
    by rewrite lookup_total_app_r, Nat.sub_diag by lia.
  - assert (nodes' = nodes ∧ s' = s
            ∨ ∃ n, nodes' = nodes ++ [length (heap s)]
                   ∧ s' = set_heap s (heap s ++ [n])) as Hcases.
    { destruct (im_instance inst) as [im|]; [|left; by inversion Hrun].
      destruct (is_ray_running_reachable _); [|left; by inversion Hrun].
      destruct (dict_get configs _); [|left; by inversion Hrun].
      right. inversion Hrun. by eexists. }
    destruct Hcases as [[-> ->]|(n & -> & ->)].
    + split_and!; [apply extends_refl|apply same_env_refl|done| |done].
      exists []. by rewrite app_nil_r.
    + simpl. split_and!; [apply extends_app|done|apply Hva|by eexists|done].
Qed.

Lemma instances_loop configs insts : ∀ nodes s nodes' s',
  foldM (node_of_instance configs) nodes insts s = Ok (nodes', s') →
  valid (heap s) nodes →
  extends (heap s) (heap s') ∧ same_env s s' ∧ valid (heap s') nodes'
  ∧ (∃ extra, nodes' = nodes ++ extra)
  ∧ ∀ inst rn, inst ∈ insts → ray_node inst = Some rn →
               ∃ id, decode_utf8 (ns_node_id rn) = Ok id
                     ∧ running_node_of inst rn id ∈ vals (heap s') nodes'.
Proof.
  induction insts as [|inst insts IH]; intros nodes s nodes' s' Hrun Hv.
  - inversion Hrun; subst.
    split_and!; [apply extends_refl|apply same_env_refl|done| |].
    + exists []. by rewrite app_nil_r.
    + by intros ?? ?%elem_of_nil.
  - cbn [foldM] in Hrun. apply bind_inv in Hrun as (nodes1 & s1 & Hone & Hrun).
    destruct (node_of_instance_spec _ _ _ _ _ _ Hone Hv)
      as (Hext1 & Henv1 & Hv1 & [extra1 ->] & Hin1).
    destruct (IH _ _ _ _ Hrun Hv1) as (Hext & Henv & Hv' & [extra ->] & Hin).
    split_and!; [by eapply extends_trans|by eapply same_env_trans|done| |].
    + exists (extra1 ++ extra). by rewrite app_assoc.
    + intros i rn [->|Hi]%elem_of_cons Hrn; [|by eapply Hin].
      destruct (Hin1 rn Hrn) as (id & Hid & Hel). exists id. split; [done|].
      rewrite map_app. apply elem_of_app. left.
      by rewrite (extends_vals (heap s1) (heap s')).
Qed.

Lemma from_schedule_request_spec req s ctx s' :
  from_schedule_request req s = Ok (ctx, s') →
  ctx_ok ctx s' ∧ _node_type_configs ctx = node_type_configs req
  ∧ same_env s s'
  ∧ ∀ inst rn, inst ∈ current_instances req → ray_node inst = Some rn →
               ∃ id, decode_utf8 (ns_node_id rn) = Ok id
                     ∧ running_node_of inst rn id ∈ vals (heap s') (_nodes ctx).
Proof.
  intros Hrun. unfold from_schedule_request in Hrun.
  apply bind_inv in Hrun as (nodes & s1 & Hloop & Hrun).
  apply instances_loop in Hloop as (_ & Henv & Hv & _ & Hin); [|by apply Forall_nil].
  inversion Hrun; subst ctx s'. by split_and!.
Qed.


(* --------------------------------------------------------------------- *)
(** ** The bin-packer keeps the nodes of the context *)
(* --------------------------------------------------------------------- *)

(** Whatever the node type configs are, the nodes that [_try_schedule]
    returns hold the nodes of the context. *)

Lemma keeps_carries ctx s ctx' s' : keeps ctx s ctx' s' → carries ctx s ctx' s'.
Proof. intros (? & ? & ? & _ & ?). by split_and!. Qed.

Lemma carries_trans ctx1 s1 ctx2 s2 ctx3 s3 :
  carries ctx1 s1 ctx2 s2 → carries ctx2 s2 ctx3 s3 → carries ctx1 s1 ctx3 s3.
Proof.
  intros (Hok2 & (Hc2 & Hm2 & Hi2) & Henv2 & Ht2)
         (Hok3 & (Hc3 & Hm3 & Hi3) & Henv3 & Ht3).
  split_and!; [done|split_and!; congruence|by eapply same_env_trans|auto].
Qed.

Lemma new_pool_node_valid configs k s r s' :
  new_pool_node configs k s = Ok (r, s') →
  r = length (heap s) ∧ same_env s s' ∧ ∃ n, heap s' = heap s ++ [n].
Proof.
  unfold new_pool_node. destruct (dict_get configs k); [|done].
  unfold alloc. intros [= <- <-]. split_and!; [done|apply same_env_set_heap|].
  by eexists.
Qed.

Lemma valid_snoc_alloc (h : list SchedulingNode) l n :
  valid h l → valid (h ++ [n]) (l ++ [length h]).
Proof.
  intros Hv. apply valid_app. split; [by apply valid_app_heap|].
  apply Forall_singleton. rewrite length_app. simpl. lia.
Qed.

Lemma pool_build_valid configs : ∀ (table : list (NodeType * Z)) pools s pools' s',
  foldM (λ pools (kv : NodeType * Z),
           if bool_decide (0 < kv.2)%Z then
             r ← new_pool_node configs kv.1; mret (pools ++ [r])
           else mret pools) pools table s = Ok (pools', s') →
  valid (heap s) pools →
  extends (heap s) (heap s') ∧ same_env s s' ∧ valid (heap s') pools'.
Proof.
  induction table as [|[k v] table IH]; intros pools s pools' s' Hrun Hv;
    simpl in Hrun.
  - injection Hrun as <- <-. split_and!; [apply extends_refl|apply same_env_refl|done].
  - rewrite bind_unfold in Hrun. case_bool_decide as Hpos; simpl in Hrun.
    + rewrite bind_unfold in Hrun.
      destruct (new_pool_node configs k s) as [[rn s1]|] eqn:Hnew; [|done].
      cbn beta iota in Hrun. rewrite ret_unfold in Hrun.
      destruct (new_pool_node_valid _ _ _ _ _ Hnew) as (-> & Henv1 & n & Hh1).
      destruct (IH _ _ _ _ Hrun) as (Hext & Henv & Hv').
      { rewrite Hh1. by apply valid_snoc_alloc. }
      split_and!; [|by eapply same_env_trans|done].
      eapply extends_trans; [|exact Hext]. rewrite Hh1. apply extends_app.
    + by apply (IH _ _ _ _ Hrun).
Qed.

Lemma sched_new_loop_incl configs mx fuel :
  ∀ rs pools target avail c s target' rs' s',
    sched_new_loop fuel configs mx rs pools target avail c s
    = Ok ((target', rs'), s') →
    valid (heap s) target → valid (heap s) pools →
    extends (heap s) (heap s') ∧ same_env s s' ∧ valid (heap s') target'
    ∧ ∃ extra, target' = target ++ extra.
Proof.
  induction fuel as [|fuel IH];
    intros rs pools target avail c s target' rs' s' Hrun Hv Hvp; simpl in Hrun.
  - destruct (_ && _).
    + destruct (match mx with Some _ => _ | None => _ end); [|done].
      injection Hrun as <- <- <-.
      split_and!; [apply extends_refl|apply same_env_refl|done|].
      exists []. by rewrite app_nil_r.
    + injection Hrun as <- <- <-.
      split_and!; [apply extends_refl|apply same_env_refl|done|].
      exists []. by rewrite app_nil_r.
  - assert (∀ s0, (mret (target, rs) : M _) s0 = Ok ((target', rs'), s') →
            extends (heap s0) (heap s') ∧ same_env s0 s' ∧
            (valid (heap s0) target → valid (heap s') target')
            ∧ ∃ extra, target' = target ++ extra) as Hret.
    { intros s0 [= <- <- <-].
      split_and!; [apply extends_refl|apply same_env_refl|done|].
      exists []. by rewrite app_nil_r. }
    destruct (_ && _).
    2:{ destruct (Hret _ Hrun) as (?&?&Hv'&?). split_and!; auto. }
    destruct (match mx with Some _ => _ | None => _ end).
    { destruct (Hret _ Hrun) as (?&?&Hv'&?). split_and!; auto. }
    clear Hret. rewrite bind_unfold in Hrun.
    destruct (_sched_best_node rs pools c s) as [[[[best rs1] pools1] s1]|] eqn:Hbest;
      [|done].
    cbn beta iota in Hrun.
    destruct (sched_best_node_spec _ _ _ _ _ _ _ _ Hbest Hvp) as (Hext & Henv & Hb).
    destruct best as [b|].
    2:{ destruct Hb as [-> ->]. injection Hrun as <- <- <-.
        split_and!; [done|done|by eapply extends_valid|].
        exists []. by rewrite app_nil_r. }
    destruct Hb as (i & r & Hi & -> & Hbv & _).
    rewrite bind_unfold in Hrun. unfold load at 1 in Hrun. cbn beta iota in Hrun.
    pose proof (list_pop_perm _ _ _ Hi) as Hperm.
    assert (valid (heap s1) (list_pop pools i)) as Hvp1.
    { eapply extends_valid; [exact Hext|].
      eapply valid_perm in Hvp; [|exact Hperm]. by apply Forall_cons in Hvp as [_ ?]. }
    assert (valid (heap s1) (target ++ [b])) as Hvt1.
    { apply valid_app. split; [by eapply extends_valid|by repeat constructor]. }
    rewrite bind_unfold in Hrun.
    case_bool_decide as Hrefill.
    + rewrite bind_unfold in Hrun.
      destruct (new_pool_node configs _ s1) as [[rn s2]|] eqn:Hnew; [|done].
      cbn beta iota in Hrun.
      destruct (new_pool_node_valid _ _ _ _ _ Hnew) as (-> & Henv2 & n & Hh2).
      assert (extends (heap s1) (heap s2)) as Hext2.
      { rewrite Hh2. apply extends_app. }
      destruct (IH _ _ _ _ _ _ _ _ _ Hrun) as (Hext3 & Henv3 & Hv3 & extra & ->).
      { by eapply extends_valid. }
      { rewrite Hh2. by apply valid_snoc_alloc. }
      split_and!.
      * eapply extends_trans; [exact Hext|]. by eapply extends_trans.
      * eapply same_env_trans; [exact Henv|]. by eapply same_env_trans.
      * done.
      * exists (b :: extra). by rewrite <-app_assoc.
    + cbn beta iota in Hrun.
      destruct (IH _ _ _ _ _ _ _ _ _ Hrun) as (Hext3 & Henv3 & Hv3 & extra & ->);
        [done..|].
      split_and!; [by eapply extends_trans|by eapply same_env_trans|done|].
      exists (b :: extra). by rewrite <-app_assoc.
Qed.

Lemma try_schedule_incl ctx rs c s target rs' s' :
  _try_schedule ctx rs c s = Ok ((target, rs'), s') →
  valid (heap s) (_nodes ctx) →
  extends (heap s) (heap s') ∧ same_env s s' ∧ valid (heap s') target
  ∧ ∀ m, m ∈ metas (heap s) (_nodes ctx) → m ∈ metas (heap s') target.
Proof.
  intros Hrun Hv. unfold _try_schedule in Hrun.
  unfold get_nodes in Hrun.
  destruct (deepcopy_spec _ s Hv) as (l' & ext & Hcopy & Hlen & Hvals & Hfresh).
  rewrite bind_unfold, Hcopy in Hrun. cbn beta iota in Hrun.
  set (s1 := set_heap s (heap s ++ ext)) in *.
  assert (valid (heap s1) l') as Hv1.
  { unfold valid. eapply Forall_impl; [exact Hfresh|]. simpl. intros; lia. }
  rewrite bind_unfold in Hrun.
  destruct (sched_existing_loop _ _ l' [] c s1) as [[[[rs1 ex1] tg1] s2]|] eqn:Hloop1;
    [|done].
  cbn beta iota in Hrun.
  destruct (sched_existing_loop_spec _ _ _ _ _ _ _ _ _ _ Hloop1)
    as (Hext2 & Henv2 & Hv2 & Hm2); [done|].
  simpl in Hm2. rewrite bind_unfold in Hrun.
  destruct (foldM _ [] (get_node_type_available ctx) s2) as [[pools s3]|] eqn:Hpools;
    [|done].
  cbn beta iota in Hrun.
  destruct (pool_build_valid _ _ _ _ _ _ Hpools) as (Hext3 & Henv3 & Hvp3);
    [by apply Forall_nil|].
  destruct (sched_new_loop_incl _ _ _ _ _ _ _ _ _ _ _ _ Hrun)
    as (Hext4 & Henv4 & Hv4 & extra & ->); [by eapply extends_valid|done|].
  split_and!.
  - eapply extends_trans; [apply extends_app|].
    eapply extends_trans; [exact Hext2|]. by eapply extends_trans.
  - eapply same_env_trans; [apply same_env_set_heap|].
    eapply same_env_trans; [exact Henv2|]. by eapply same_env_trans.
  - done.
  - intros m Hin. rewrite metas_app. apply elem_of_app. left.
    rewrite (metas_extends (heap s2) (heap s')); [|by eapply extends_trans|done].
    rewrite Hm2, metas_vals. change (heap s1) with (heap s ++ ext).
    rewrite Hvals, <-metas_vals. done.
Qed.

Lemma carries_extends ctx s s' :
  ctx_ok ctx s → extends (heap s) (heap s') → same_env s s' → carries ctx s ctx s'.
Proof. intros. by apply keeps_carries, keeps_extends. Qed.

Lemma carries_packed ctx rs c s target rs' s' :
  _try_schedule ctx rs c s = Ok ((target, rs'), s') → ctx_ok ctx s →
  carries ctx s ctx s' ∧ carries ctx s (updated ctx (heap s') target) s'.
Proof.
  intros Hrun Hok. pose proof Hok as [Hv _].
  destruct (try_schedule_incl _ _ _ _ _ _ _ Hrun Hv) as (Hext & Henv & Hvt & Hin).
  split; [by apply carries_extends|].
  split_and!; [by apply updated_ok|apply same_settings_updated|done|].
  intros m _. apply Hin.
Qed.

Lemma enforce_resource_constraints_carries ctx cs s ctx' inf s' :
  _enforce_resource_constraints ctx cs s = Ok ((ctx', inf), s') →
  ctx_ok ctx s → carries ctx s ctx' s'.
Proof.
  intros Hrun Hok. unfold _enforce_resource_constraints in Hrun.
  rewrite bind_unfold in Hrun.
  destruct (assert _ s) as [[u s0]|] eqn:Hassert; [|done].
  apply assert_inv in Hassert as [_ ->]. cbn beta iota in Hrun.
  destruct cs as [|constraint cs].
  - injection Hrun as <- _ <-.
    apply carries_extends; [done|apply extends_refl|apply same_env_refl].
  - rewrite bind_unfold in Hrun.
    destruct (_try_schedule _ _ _ s) as [[[target rs'] s1]|] eqn:Htry; [|done].
    cbn beta iota in Hrun.
    destruct (carries_packed _ _ _ _ _ _ _ Htry Hok) as [Hsame Hupd].
    destruct rs'.
    + rewrite bind_unfold, update_run in Hrun. injection Hrun as <- _ <-. done.
    + injection Hrun as <- _ <-. done.
Qed.

Lemma sched_resource_requests_carries ctx rbc s ctx' inf s' :
  _sched_resource_requests ctx rbc s = Ok ((ctx', inf), s') →
  ctx_ok ctx s → carries ctx s ctx' s'.
Proof.
  intros Hrun Hok. unfold _sched_resource_requests in Hrun.
  rewrite bind_unfold in Hrun.
  destruct (_try_schedule _ _ _ s) as [[[target rs'] s1]|] eqn:Htry; [|done].
  cbn beta iota in Hrun.
  destruct (carries_packed _ _ _ _ _ _ _ Htry Hok) as [_ Hupd].
  rewrite bind_unfold, update_run in Hrun. by injection Hrun as <- _ <-.
Qed.

Lemma sched_gang_loop_carries gangs : ∀ ctx inf s ctx' inf' s',
  foldM (λ (acc : ScheduleContext * list GangResourceRequest) gang_req,
           let rs := combine_requests_with_affinity (requests gang_req) in
           '(nodes, infeasible) ← _try_schedule acc.1 rs false;
           match infeasible with
           | _ :: _ => mret (acc.1, acc.2 ++ [gang_req])
           | [] => ctx' ← update acc.1 nodes; mret (ctx', acc.2)
           end) (ctx, inf) gangs s = Ok ((ctx', inf'), s') →
  ctx_ok ctx s → carries ctx s ctx' s'.
Proof.
  induction gangs as [|g gangs IH]; intros ctx inf s ctx' inf' s' Hrun Hok;
    simpl in Hrun.
  - injection Hrun as <- _ <-.
    apply carries_extends; [done|apply extends_refl|apply same_env_refl].
  - rewrite bind_unfold in Hrun. rewrite bind_unfold in Hrun.
    destruct (_try_schedule ctx _ false s) as [[[target inf1] s1]|] eqn:Htry; [|done].
    cbn beta iota in Hrun.
    destruct (carries_packed _ _ _ _ _ _ _ Htry Hok) as [Hsame Hupd].
    destruct inf1.
    + rewrite bind_unfold, update_run in Hrun. cbn beta iota in Hrun.
      rewrite ret_unfold in Hrun.
      eapply carries_trans; [exact Hupd|].
      eapply IH; [exact Hrun|]. by destruct Hupd.
    + rewrite ret_unfold in Hrun.
      eapply carries_trans; [exact Hsame|].
      eapply IH; [exact Hrun|]. by destruct Hsame.
Qed.

Lemma sched_gang_resource_requests_carries ctx gangs s ctx' inf s' :
  _sched_gang_resource_requests ctx gangs s = Ok ((ctx', inf), s') →
  ctx_ok ctx s → carries ctx s ctx' s'.
Proof. apply sched_gang_loop_carries. Qed.

Lemma enforce_max_per_type_carries ctx s ctx' s' :
  _enforce_max_workers_per_type ctx s = Ok (ctx', s') →
  ctx_ok ctx s → carries ctx s ctx' s'.
Proof.
  intros Hrun [Hv _].
  destruct (enforce_max_per_type_spec ctx s Hv)
    as (nodes' & s1 & Heq & Hv1 & Henv & Hm & _).
  rewrite Heq in Hrun. injection Hrun as <- <-.
  by apply keeps_carries, marked_of_keeps.
Qed.


(* --------------------------------------------------------------------- *)
(** ** The fuel of the two loops of the bin-packer suffices *)
(* --------------------------------------------------------------------- *)

(** The methods of a node raise Python exceptions only. *)

Lemma util_by_resources_exn totals available e :
  util_by_resources totals available = Err e → e ≠ OutOfFuel.
Proof.
  induction totals as [|[k v] totals IH]; simpl; [done|].
  destruct (bool_decide (v = 0%Qc)); [done|].
  destruct (available !! k); [|done].
  destruct (_ && _); [|by intros [= <-]].
  destruct (util_by_resources totals available); [done|].
  intros [= <-]. by apply IH.
Qed.

Lemma compute_score_exn conserve n e :
  _compute_score conserve n = Err e → e ≠ OutOfFuel.
Proof.
  unfold _compute_score.
  destruct (util_by_resources _ _) eqn:Hu; [done|].
  intros [= <-]. by eapply util_by_resources_exn.
Qed.

Lemma add_label_exn n k v e : _add_label n k v = Err e → e ≠ OutOfFuel.
Proof.
  unfold _add_label. destruct (labels n !! k); [|done].
  destruct (bool_decide _); [done|]. by intros [= <-].
Qed.

Lemma add_constraint_labels_exn cs : ∀ n e,
  add_constraint_labels n cs = Err e → e ≠ OutOfFuel.
Proof.
  induction cs as [|c cs IH]; intros n e; simpl; [done|].
  destruct (affinity c) as [a|].
  - destruct (_add_label n _ _) as [n1|e1] eqn:H1.
    + destruct (anti_affinity c) as [a'|].
      * destruct (_add_label n1 _ _) as [n2|e2] eqn:H2; [apply IH|].
        intros [= <-]. by eapply add_label_exn.
      * apply IH.
    + intros [= <-]. by eapply add_label_exn.
  - destruct (anti_affinity c) as [a'|].
    + destruct (_add_label n _ _) as [n2|e2] eqn:H2; [apply IH|].
      intros [= <-]. by eapply add_label_exn.
    + apply IH.
Qed.

Lemma subtract_bundle_exn items : ∀ pool e,
  subtract_bundle pool items = Err e → e ≠ OutOfFuel.
Proof.
  induction items as [|[k v] items IH]; intros pool e; simpl; [done|].
  destruct (pool !! k); [apply IH|]. by intros [= <-].
Qed.

Lemma try_schedule_one_exn n r c e :
  _try_schedule_one n r c = Err e → e ≠ OutOfFuel.
Proof.
  unfold _try_schedule_one. destruct (anti_affinity_rejects n r); [done|].
  destruct (negb _); [done|].
  destruct (subtract_bundle _ _) as [pool|e1] eqn:Hs.
  - destruct (add_constraint_labels _ _) as [n'|e2] eqn:Hl; [done|].
    intros [= <-]. by eapply add_constraint_labels_exn.
  - intros [= <-]. by eapply subtract_bundle_exn.
Qed.

Lemma try_schedule_loop_exn rs c : ∀ n e,
  try_schedule_loop n rs c = Err e → e ≠ OutOfFuel.
Proof.
  induction rs as [|r rs IH]; intros n e; simpl; [done|].
  destruct (_try_schedule_one n r c) as [[n1 b]|e1] eqn:H1.
  - destruct (try_schedule_loop n1 rs c) as [[n2 u]|e2] eqn:H2; [done|].
    intros [= <-]. by eapply IH.
  - intros [= <-]. by eapply try_schedule_one_exn.
Qed.

Lemma try_schedule_exn conserve n rs c e :
  try_schedule conserve n rs c = Err e → e ≠ OutOfFuel.
Proof.
  unfold try_schedule.
  destruct (try_schedule_loop n rs c) as [[n' u]|e1] eqn:H1.
  - destruct (_compute_score conserve n') eqn:H2; [done|].
    intros [= <-]. by eapply compute_score_exn.
  - intros [= <-]. by eapply try_schedule_loop_exn.
Qed.

Lemma try_nodes_fuel rs c l : ∀ i results s,
  try_nodes i l rs c results s ≠ Err OutOfFuel.
Proof.
  induction l as [|r l IH]; intros i results s; simpl; [done|].
  rewrite bind_unfold. unfold load at 1. cbn beta iota.
  rewrite bind_unfold. unfold get_conserve_gpu_nodes at 1. cbn beta iota.
  rewrite bind_unfold.
  destruct (try_schedule _ _ rs c) as [[[n' rem] sc]|e] eqn:Hts; simpl.
  - rewrite bind_unfold. unfold store at 1. cbn beta iota.
    destruct (bool_decide _); apply IH.
  - intros [= ->]. by eapply try_schedule_exn.
Qed.

Lemma sched_best_node_fuel rs nodes c s :
  _sched_best_node rs nodes c s ≠ Err OutOfFuel.
Proof.
  unfold _sched_best_node. rewrite bind_unfold.
  unfold deepcopy at 1. destruct (deepcopy_loop _ _ _) as [h' out].
  cbn beta iota. rewrite bind_unfold.
  destruct (try_nodes 0 out rs c [] _) as [[results s2]|e] eqn:Htry.
  - cbn beta iota. by destruct (py_sort_reverse _ results).
  - intros [= ->]. by eapply try_nodes_fuel.
Qed.

Lemma length_list_pop {A} (l : list A) i :
  (i < length l)%nat → length l = S (length (list_pop l i)).
Proof.
  intros Hi. unfold list_pop. rewrite length_app, length_take, length_drop. lia.
Qed.

(** The first loop removes a node from the existing ones with every
    iteration. *)
Lemma sched_existing_loop_fuel fuel : ∀ rs existing target c s,
  valid (heap s) existing → (length existing ≤ fuel)%nat →
  sched_existing_loop fuel rs existing target c s ≠ Err OutOfFuel.
Proof.
  induction fuel as [|fuel IH]; intros rs existing target c s Hv Hlen; simpl.
  - destruct existing; [|simpl in Hlen; lia].
    by rewrite andb_false_r.
  - destruct (_ && _); [|done]. rewrite bind_unfold.
    destruct (_sched_best_node rs existing c s)
      as [[[[best rs1] existing1] s1]|e] eqn:Hbest.
    2:{ intros [= ->]. by eapply sched_best_node_fuel. }
    cbn beta iota.
    destruct (sched_best_node_spec _ _ _ _ _ _ _ _ Hbest Hv) as (Hext & Henv & Hb).
    destruct best as [b|]; [|done].
    destruct Hb as (i & r & Hi & -> & _).
    pose proof (list_pop_perm _ _ _ Hi) as Hperm.
    apply IH.
    + eapply extends_valid; [exact Hext|].
      eapply valid_perm in Hv; [|exact Hperm]. by apply Forall_cons in Hv as [_ ?].
    + apply lookup_lt_Some in Hi. pose proof (length_list_pop existing i Hi). lia.
Qed.

Lemma new_pool_node_exn configs k s e :
  new_pool_node configs k s = Err e → e ≠ OutOfFuel.
Proof.
  unfold new_pool_node. destruct (dict_get configs k); [done|]. by intros [= <-].
Qed.

Lemma pool_build_fuel configs : ∀ (table : list (NodeType * Z)) pools s,
  foldM (λ pools (kv : NodeType * Z),
           if bool_decide (0 < kv.2)%Z then
             r ← new_pool_node configs kv.1; mret (pools ++ [r])
           else mret pools) pools table s ≠ Err OutOfFuel.
Proof.
  induction table as [|[k v] table IH]; intros pools s; simpl; [done|].
  rewrite bind_unfold. case_bool_decide; simpl.
  - rewrite bind_unfold.
    destruct (new_pool_node configs k s) as [[rn s1]|e] eqn:Hnew.
    + cbn beta iota. apply IH.
    + intros [= ->]. by eapply new_pool_node_exn.
  - apply IH.
Qed.

Lemma fuel_dict_set (d : list (NodeType * Z)) k v w :
  dict_get d k = Some v →
  (foldr (λ kv acc, Z.to_nat kv.2 + acc) 0 (dict_set d k w) + Z.to_nat v
   = foldr (λ kv acc, Z.to_nat kv.2 + acc) 0 d + Z.to_nat w)%nat.
Proof.
  induction d as [|[k' v'] d IH]; simpl; [done|].
  destruct (decide (k' = k)) as [->|Hne]; simpl.
  - intros [= ->]. lia.
  - intros Hget. specialize (IH Hget). lia.
Qed.

Lemma new_loop_fuel_add avail k (pools : list nat) :
  1 ≤ avail_of avail k →
  (new_loop_fuel (dict_add avail k (-1)) pools + 1 = new_loop_fuel avail pools)%nat.
Proof.
  unfold avail_of, new_loop_fuel, dict_add. intros Hk.
  destruct (dict_get avail k) as [v|] eqn:Hget; simpl in Hk; [|lia].
  pose proof (fuel_dict_set avail k v (v + -1) Hget). simpl. lia.
Qed.

(** The pool without the node that was chosen. *)
Lemma pool_ok_pop avail h h1 pools i r :
  pool_ok avail h pools → pools !! i = Some r → extends h h1 →
  1 ≤ avail_of avail (node_type (h !!! r))
  ∧ meta (h !!! r) = launch_meta (node_type (h !!! r))
  ∧ pool_ok (dict_add avail (node_type (h !!! r)) (-1)) h1 (list_pop pools i)
  ∧ node_type (h !!! r) ∉ map (λ r0, node_type (h1 !!! r0)) (list_pop pools i).
Proof.
  intros [Hnd Hall] Hi Hext. set (kb := node_type (h !!! r)).
  pose proof (list_pop_perm _ _ _ Hi) as Hperm.
  assert (Forall (λ r0, (r0 < length h)%nat
                        ∧ meta (h !!! r0) = launch_meta (node_type (h !!! r0))
                        ∧ 1 ≤ avail_of avail (node_type (h !!! r0)))
                 (r :: list_pop pools i)) as Hall'.
  { by rewrite <-Hperm. }
  apply Forall_cons in Hall' as [(Hrv & Hrm & Hra) Hallp].
  assert (NoDup (map (λ r0, node_type (h !!! r0)) (r :: list_pop pools i)))
    as Hnd'.
  { by rewrite <-Hperm. }
  simpl in Hnd'. apply NoDup_cons in Hnd' as [Hnin Hndp].
  assert (pool_ok (dict_add avail kb (-1)) h (list_pop pools i)) as Hpool.
  { split; [done|]. apply Forall_forall. intros r0 Hin.
    pose proof Hin as Hin'.
    eapply Forall_forall in Hin'; [|exact Hallp]. simpl in Hin'.
    destruct Hin' as (?&?&?). split_and!; [done..|].
    rewrite avail_of_add_ne; [done|].
    intros Heq. apply Hnin.
    change (node_type (h !!! r) = node_type (h !!! r0)) in Heq. rewrite Heq.
    apply list_elem_of_fmap. by exists r0. }
  split_and!; [done|done|by eapply pool_ok_extends|].
  intros Hin. apply Hnin. apply list_elem_of_fmap in Hin as (r0 & Hr0 & Hin0).
  apply list_elem_of_fmap. exists r0. split; [|done].
  eapply Forall_forall in Hallp; [|exact Hin0]. simpl in Hallp.
  destruct Hallp as (Hlt & _). subst kb. rewrite Hr0. by rewrite (proj2 Hext).
Qed.

(** The pool with a new node of a type that it does not hold. *)
Lemma pool_ok_refill avail (h : list SchedulingNode) pools n k :
  pool_ok avail h pools →
  k ∉ map (λ r0, node_type (h !!! r0)) pools →
  meta n = launch_meta k → 1 ≤ avail_of avail k →
  pool_ok avail (h ++ [n]) (pools ++ [length h]).
Proof.
  intros Hpool Hnin Hnm Hk.
  assert (node_type n = k) as Hnk
    by (unfold meta, launch_meta in Hnm; by simplify_eq).
  assert ((h ++ [n]) !!! length h = n) as Hnew.
  { rewrite lookup_total_app_r by lia. by rewrite Nat.sub_diag. }
  pose proof (extends_app h [n]) as Hext.
  assert (∀ r0, r0 ∈ pools → (h ++ [n]) !!! r0 = h !!! r0) as Hold.
  { intros r0 Hin. apply (proj2 Hext). destruct Hpool as [_ Hall].
    eapply Forall_forall in Hall; [|exact Hin]. tauto. }
  apply pool_ok_extends with (h' := h ++ [n]) in Hpool; [|done].
  destruct Hpool as [Hnd1 Hall1]. split.
  - rewrite map_app. simpl. rewrite Hnew, Hnk.
    apply NoDup_app. split_and!; [done| |apply NoDup_singleton].
    intros k' Hk1 Hk2%list_elem_of_singleton. subst k'. apply Hnin.
    apply list_elem_of_fmap in Hk1 as (r0 & Hr0 & Hin0).
    apply list_elem_of_fmap. exists r0. split; [|done].
    by rewrite <-Hold.
  - apply Forall_app. split; [done|]. repeat constructor.
    + rewrite length_app. simpl. lia.
    + by rewrite Hnew, Hnk.
    + by rewrite Hnew, Hnk.
Qed.

(** The second loop uses up a node that may be launched with every
    iteration. *)
Lemma sched_new_loop_fuel configs mx fuel :
  wf_configs configs →
  ∀ rs pools target avail c s,
    pool_ok avail (heap s) pools → (new_loop_fuel avail pools ≤ fuel)%nat →
    sched_new_loop fuel configs mx rs pools target avail c s ≠ Err OutOfFuel.
Proof.
  intros Hwf. induction fuel as [|fuel IH];
    intros rs pools target avail c s Hpool Hfuel; simpl.
  - destruct pools; [|unfold new_loop_fuel in Hfuel; simpl in Hfuel; lia].
    by rewrite andb_false_r.
  - destruct (_ && _); [|done].
    destruct (match mx with Some _ => _ | None => _ end); [done|].
    rewrite bind_unfold.
    destruct (_sched_best_node rs pools c s)
      as [[[[best rs1] pools1] s1]|e] eqn:Hbest.
    2:{ intros [= ->]. by eapply sched_best_node_fuel. }
    cbn beta iota.
    assert (valid (heap s) pools) as Hvp.
    { destruct Hpool as [_ Hall]. eapply Forall_impl; [exact Hall|]. simpl. tauto. }
    destruct (sched_best_node_spec _ _ _ _ _ _ _ _ Hbest Hvp) as (Hext & Henv & Hb).
    destruct best as [b|]; [|done].
    destruct Hb as (i & r & Hi & -> & Hbv & Hbm).
    rewrite bind_unfold. unfold load at 1. cbn beta iota.
    assert (node_type (heap s1 !!! b) = node_type (heap s !!! r)) as Hkb.
    { unfold meta in Hbm. by simplify_eq. }
    rewrite Hkb. set (kb := node_type (heap s !!! r)) in *.
    destruct (pool_ok_pop _ _ _ _ _ _ Hpool Hi Hext) as (Hra & Hrm & Hpool1 & Hnin).
    fold kb in Hra, Hrm, Hpool1, Hnin.
    pose proof (new_loop_fuel_add avail kb (list_pop pools i) Hra) as Hm.
    assert (new_loop_fuel avail pools = S (new_loop_fuel avail (list_pop pools i)))
      as Hlen.
    { unfold new_loop_fuel. apply lookup_lt_Some in Hi.
      pose proof (length_list_pop pools i Hi). lia. }
    rewrite bind_unfold. case_bool_decide as Hrefill.
    + rewrite bind_unfold.
      destruct (new_pool_node configs kb s1) as [[rn s2]|e] eqn:Hnew.
      2:{ intros [= ->]. by eapply new_pool_node_exn. }
      cbn beta iota. rewrite ret_unfold.
      destruct (new_pool_node_spec _ _ _ _ _ Hwf Hnew)
        as (-> & Henv2 & n & Hh2 & Hnm & _).
      apply IH.
      * rewrite Hh2. apply (pool_ok_refill _ _ _ _ kb); [done|done|done|].
        unfold avail_of. lia.
      * unfold new_loop_fuel in *. rewrite length_app. simpl. lia.
    + rewrite ret_unfold. apply IH; [done|]. unfold new_loop_fuel in *. lia.
Qed.

(** The fuel that [_try_schedule] gives its loops suffices: the embedding
    does not run out of fuel. *)
Lemma try_schedule_fuel ctx rs c s :
  ctx_ok ctx s → wf_configs (_node_type_configs ctx) →
  _try_schedule ctx rs c s ≠ Err OutOfFuel.
Proof.
  intros [Hv Hav] Hwf. unfold _try_schedule, get_nodes.
  destruct (deepcopy_spec _ s Hv) as (l' & ext & Hcopy & Hlen & Hvals & Hfresh).
  rewrite bind_unfold, Hcopy. cbn beta iota.
  set (s1 := set_heap s (heap s ++ ext)) in *.
  assert (valid (heap s1) l') as Hv1.
  { unfold valid. eapply Forall_impl; [exact Hfresh|]. simpl. intros; lia. }
  rewrite bind_unfold.
  destruct (sched_existing_loop _ _ l' [] c s1) as [[[[rs1 ex1] tg1] s2]|e] eqn:Hloop1.
  2:{ intros [= ->]. by eapply (sched_existing_loop_fuel (length l')). }
  cbn beta iota. rewrite bind_unfold.
  destruct (foldM _ [] (get_node_type_available ctx) s2) as [[pools s3]|e] eqn:Hpools.
  2:{ intros [= ->]. by eapply pool_build_fuel. }
  cbn beta iota.
  pose proof Hwf as [Hnd Hall].
  assert (dict_keys (_node_type_available ctx) = dict_keys (_node_type_configs ctx))
    as Hkeys.
  { rewrite Hav. by apply compute_available_keys. }
  destruct (pool_build_spec _ (_node_type_available ctx) Hwf _ _ _ _ _ Hpools)
    as (Hext3 & Henv3 & Hpool3).
  { unfold get_node_type_available. fold (dict_keys (_node_type_available ctx)).
    by rewrite Hkeys. }
  { intros [k v] Hin. unfold avail_of, get_node_type_available in *. simpl.
    rewrite (dict_get_NoDup_elem _ k v); [done| |done]. by rewrite Hkeys. }
  { intros r Hin. by apply elem_of_nil in Hin. }
  { split; [constructor|constructor]. }
  by apply sched_new_loop_fuel.
Qed.


(* --------------------------------------------------------------------- *)
(** ** The phases of [schedule] in sequence *)
(* --------------------------------------------------------------------- *)

Lemma launch_requests_run (l : list (NodeType * Z)) : ∀ s,
  ∃ out s', mapM (λ tc, make_launch_request tc.1 tc.2) l s = Ok (out, s')
            ∧ heap s' = heap s ∧ same_env s s'
            ∧ map (λ q, (lr_instance_type q, lr_count q)) out = l.
Proof.
  induction l as [|[k c] l IH]; intros s.
  - exists [], s. split_and!; [done|done|apply same_env_refl|done].
  - cbn [mapM]. rewrite bind_unfold. unfold make_launch_request at 1.
    rewrite bind_unfold. unfold time_ns at 1. cbn beta iota.
    rewrite bind_unfold. unfold time_ns at 1. cbn beta iota.
    unfold ret at 1. cbn beta iota. rewrite bind_unfold.
    match goal with
    | |- context [mapM _ l ?s1] =>
        destruct (IH s1) as (out & s' & -> & Hh & (Hc & Hf & Hr) & Hout)
    end.
    cbn beta iota. rewrite ret_unfold. eexists _, _. split; [done|].
    simpl in *. split_and!; [done| |by rewrite Hout].
    split_and!; [done|done|lia].
Qed.

Lemma get_launch_requests_heap ctx s l s' :
  get_launch_requests ctx s = Ok (l, s') → heap s' = heap s.
Proof.
  unfold get_launch_requests. rewrite bind_unfold. unfold load_all at 1.
  cbn beta iota. intros Hrun.
  match type of Hrun with
  | mapM _ ?d s = _ =>
      destruct (launch_requests_run d s) as (out & s1 & Heq & Hh & _)
  end.
  rewrite Heq in Hrun. by injection Hrun as _ <-.
Qed.

Lemma marked_by_elem test c idle old new n :
  Forall2 (marked_by test c idle) old new → n ∈ old →
  ∃ n', n' ∈ new ∧ marked_by test c idle n n'.
Proof.
  induction 1 as [|x y old new Hxy _ IH]; [by intros ?%elem_of_nil|].
  intros [->|Hin]%elem_of_cons.
  - exists y. split; [left|done].
  - destruct (IH Hin) as (n' & Hin' & Hm). exists n'. split; [by right|done].
Qed.

(** What a call of [schedule] ends with: the reply lists the termination
    requests of the nodes, the node of an instance with an outdated ray node
    carries a request of cause OUTDATED and, with well-formed node type
    configs, every node type is within its maximum. *)
Lemma schedule_ctx_spec req s0 reply ctx s :
  schedule_ctx req s0 = Ok ((reply, ctx), s) →
  (wf_configs (node_type_configs req) →
   bounded (node_type_configs req) (vals (heap s) (_nodes ctx)))
  ∧ to_terminate reply = omap termination_request (vals (heap s) (_nodes ctx))
  ∧ ∀ inst rn, inst ∈ current_instances req → ray_node inst = Some rn →
      ∃ id, decode_utf8 (ns_node_id rn) = Ok id
            ∧ (is_outdated (node_type_configs req) (running_node_of inst rn id) = true →
               ∃ t, meta (set_termination (running_node_of inst rn id)
                            (term_request (running_node_of inst rn id) t OUTDATED
                               None None None))
                    ∈ metas (heap s) (_nodes ctx)).
Proof.
  intros Hrun. unfold schedule_ctx in Hrun.
  apply bind_inv in Hrun as (ctx0 & sa & H0 & Hrun).
  apply bind_inv in Hrun as (ctx1 & sb & H1 & Hrun).
  apply bind_inv in Hrun as (ctx2 & sc & H2 & Hrun).
  apply bind_inv in Hrun as (ctx3 & sd & H3 & Hrun).
  apply bind_inv in Hrun as (ctx4 & se & H4 & Hrun).
  apply bind_inv in Hrun as ([ctx5 inf5] & sf & H5 & Hrun).
  apply bind_inv in Hrun as ([ctx6 inf6] & sg & H6 & Hrun).
  apply bind_inv in Hrun as ([ctx7 inf7] & sh & H7 & Hrun).
  apply bind_inv in Hrun as (ctx8 & si & H8 & Hrun).
  apply bind_inv in Hrun as (launches & sj & H9 & Hrun).
  apply bind_inv in Hrun as (terms & sk & H10 & Hrun).
  rewrite ret_unfold in Hrun. injection Hrun as <- <- <-.
  apply get_launch_requests_heap in H9.
  unfold get_terminate_requests in H10. rewrite bind_unfold in H10.
  unfold load_all at 1 in H10. cbn beta iota in H10. rewrite ret_unfold in H10.
  injection H10 as <- <-.
  apply from_schedule_request_spec in H0 as (Hok0 & Hc0 & _ & Hin0).
  pose proof Hok0 as [Hv0 _].
  destruct (terminate_outdated_spec ctx0 sa Hv0) as (nodes1 & sb' & Heq1 & Hv1 & _ & Hm1).
  rewrite Heq1 in H1. injection H1 as <- <-.
  assert (ctx_ok (updated ctx0 (heap sb') nodes1) sb') as Hok1 by by apply updated_ok.
  destruct (enforce_min_workers_spec (λ _, True) _ _ Hok1)
    as (ctx2' & sc' & Heq2 & Hok2 & (Hc2 & _) & _ & Ht2 & _);
    [by apply Forall_true..|].
  rewrite Heq2 in H2. injection H2 as <- <-. simpl in Hc2.
  pose proof (enforce_max_per_type_carries _ _ _ _ H3 Hok2)
    as (Hok3 & (Hc3 & _) & _ & Ht3).
  pose proof (enforce_max_global_keeps _ _ _ _ H4 Hok3)
    as (Hok4 & (Hc4 & _) & _ & Hb4 & Ht4).
  pose proof (enforce_resource_constraints_carries _ _ _ _ _ _ H5 Hok4)
    as (Hok5 & (Hc5 & _) & _ & Ht5).
  pose proof (sched_gang_resource_requests_carries _ _ _ _ _ _ H6 Hok5)
    as (Hok6 & (Hc6 & _) & _ & Ht6).
  pose proof (sched_resource_requests_carries _ _ _ _ _ _ H7 Hok6)
    as (Hok7 & (Hc7 & _) & _ & Ht7).
  pose proof (enforce_idle_termination_keeps _ _ _ _ H8 Hok7)
    as (Hok8 & (Hc8 & _) & _ & Hb8 & Ht8).
  rewrite H9. split_and!.
  - intros Hwf.
    assert (wf_configs (_node_type_configs ctx2')) as Hwf2 by by rewrite Hc2, Hc0.
    destruct (enforce_max_per_type_keeps _ _ _ _ H3 Hok2 Hwf2) as [_ Hb3].
    assert (wf_configs (_node_type_configs ctx4)) as Hwf4 by by rewrite Hc4, Hc3.
    pose proof (enforce_resource_constraints_keeps _ _ _ _ _ _ H5 Hok4 Hwf4)
      as (_ & _ & _ & Hb5 & _).
    assert (wf_configs (_node_type_configs ctx5)) as Hwf5 by by rewrite Hc5.
    pose proof (sched_gang_resource_requests_keeps _ _ _ _ _ _ H6 Hok5 Hwf5)
      as (_ & _ & _ & Hb6 & _).
    assert (wf_configs (_node_type_configs ctx6)) as Hwf6 by by rewrite Hc6.
    pose proof (sched_resource_requests_keeps _ _ _ _ _ _ H7 Hok6 Hwf6)
      as (_ & _ & _ & Hb7 & _).
    rewrite Hc3, Hc4, Hc5, Hc6, Hc7 in *. rewrite Hc2, Hc0 in *.
    apply Hb8, Hb7, Hb6, Hb5, Hb4, Hb3.
  - done.
  - intros inst rn Hin Hrn. destruct (Hin0 inst rn Hin Hrn) as (id & Hid & Hel).
    exists id. split; [done|]. intros Hout. rewrite <-Hc0 in Hout.
    destruct (marked_by_elem _ _ _ _ _ _ Hm1 Hel) as (n' & Hin' & Hmark).
    unfold marked_by in Hmark. simpl in Hmark. rewrite Hout in Hmark.
    simpl in Hmark. destruct Hmark as [t ->]. exists t.
    apply Ht8, Ht7, Ht6, Ht5, Ht4, Ht3; try done.
    apply Ht2. rewrite metas_vals. simpl. by apply list_elem_of_fmap_2.
Qed.

Lemma wf_configsb_true configs : wf_configsb configs = true → wf_configs configs.
Proof.
  unfold wf_configsb. intros [Hnd Hall]%andb_true_iff. split.
  - by apply bool_decide_eq_true in Hnd.
  - apply Forall_forall. intros kc Hin.
    rewrite forallb_forall in Hall. apply list_elem_of_In, Hall in Hin.
    apply andb_true_iff in Hin as [H1 H2].
    by apply bool_decide_eq_true in H1, H2.
Qed.

(** C1. After a call of [schedule] on a request whose node type configs are
    well-formed (a dict from the names of the node types to their configs,
    with maxima that are not negative), every node type N has at most
    [max_worker_nodes(N)] scheduling nodes that are not marked TO_TERMINATE;
    a node type without a config has none. *)
Theorem schedule_within_max_workers time conserve_gpu_nodes req nodes :
  wf_configs (node_type_configs req) →
  schedule_nodes time conserve_gpu_nodes req = Ok nodes →
  ∀ N, Z.of_nat (count_type N nodes) ≤ max_workers_of (node_type_configs req) N.
Proof.
  intros Hwf Hrun. unfold schedule_nodes in Hrun.
  destruct (schedule_ctx req _) as [[[reply ctx] s]|] eqn:Hctx; [|done].
  injection Hrun as <-.
  apply schedule_ctx_spec in Hctx as (Hb & _). by apply Hb.
Qed.

(** C10. A RUNNING scheduling node, that is the node of an instance with a
    ray node, whose node type has no entry in the node type configs of the
    request is marked TO_TERMINATE by [schedule] with a termination request
    of cause OUTDATED, which the reply lists; so is a node whose launch
    config hash differs from the hash that the config of its type declares. *)
Theorem schedule_terminates_outdated time conserve_gpu_nodes req reply inst rn :
  schedule time conserve_gpu_nodes req = Ok reply →
  inst ∈ current_instances req → ray_node inst = Some rn →
  dict_get (node_type_configs req) (ray_node_type_name rn) = None
  ∨ (∃ c, dict_get (node_type_configs req) (ray_node_type_name rn) = Some c
          ∧ str_truthy (config_launch_config_hash c) = true
          ∧ Some (config_launch_config_hash c)
            ≠ im_launch_config_hash <$> im_instance inst) →
  ∃ id t nodes n,
    decode_utf8 (ns_node_id rn) = Ok id
    ∧ schedule_nodes time conserve_gpu_nodes req = Ok nodes
    ∧ n ∈ nodes
    ∧ node_type n = ray_node_type_name rn ∧ ray_node_id n = Some id
    ∧ status n = TO_TERMINATE
    ∧ termination_request n
      = Some (term_request (running_node_of inst rn id) t OUTDATED None None None)
    ∧ cause (term_request (running_node_of inst rn id) t OUTDATED None None None)
      = OUTDATED
    ∧ term_request (running_node_of inst rn id) t OUTDATED None None None
      ∈ to_terminate reply.
Proof.
  intros Hrun Hin Hrn Hold. unfold schedule, schedule_nodes in *.
  destruct (schedule_ctx req _) as [[[reply' ctx] s]|] eqn:Hctx; [|done].
  injection Hrun as ->.
  apply schedule_ctx_spec in Hctx as (_ & Hterm & Hout).
  destruct (Hout inst rn Hin Hrn) as (id & Hid & Hmark).
  destruct Hmark as [t Hmeta].
  { unfold is_outdated. simpl. destruct Hold as [->|(c & -> & Htruthy & Hne)]; [done|].
    rewrite Htruthy. simpl. by rewrite bool_decide_eq_false_2. }
  unfold metas in Hmeta. apply list_elem_of_fmap in Hmeta as (r & Hmeta & Hr).
  exists id, t, (vals (heap s) (_nodes ctx)), (heap s !!! r).
  unfold meta in Hmeta. simpl in Hmeta.
  injection Hmeta as Hty Hst Htr _ Hray _ _.
  split_and!; [done|done| |done..| ].
  - apply list_elem_of_fmap. by exists r.
  - rewrite Hterm. apply list_elem_of_omap. exists (heap s !!! r). split; [|done].
    apply list_elem_of_fmap. by exists r.
Qed.


(* --------------------------------------------------------------------- *)
(** ** The requests that [schedule] serves *)
(* --------------------------------------------------------------------- *)

(** *** The methods of a node do not raise on sane nodes and requests *)

Lemma util_range (v a : Qc) :
  v ≠ 0%Qc → (0 ≤ a)%Qc → (a ≤ v)%Qc →
  (0 ≤ (v - a) / v)%Qc ∧ ((v - a) / v ≤ 1)%Qc.
Proof.
  intros Hv Ha Hav.
  assert (0 < v)%Qc as Hpos.
  { destruct (Qcle_lt_or_eq 0 v (Qcle_trans _ _ _ Ha Hav)) as [?|Heq]; [done|].
    destruct Hv. by rewrite <-Heq. }
  assert (((v - a) / v) * v = v - a)%Qc as Hdiv.
  { unfold Qcdiv. by rewrite <-Qcmult_assoc, Qcmult_inv_l, Qcmult_1_r. }
  split; apply (Qcmult_lt_0_le_reg_r _ _ v Hpos); rewrite Hdiv.
  - rewrite Qcmult_0_l. unfold Qcminus. by apply (proj1 (Qcle_minus_iff a v)).
  - rewrite Qcmult_1_l. unfold Qcminus.
    rewrite <-(Qcplus_0_r v) at 2. apply Qcplus_le_mono_l.
    by apply (Qcopp_le_compat 0 a).
Qed.

Lemma util_by_resources_ok totals available :
  Forall (λ kv, resource_ok available kv.1 kv.2) totals →
  ∃ us, util_by_resources totals available = Ok us.
Proof.
  induction 1 as [|[k v] totals Hkv _ [us IH]]; simpl; [by eexists|].
  case_bool_decide as Hz; [by eexists|].
  unfold resource_ok in Hkv. simpl in Hkv. specialize (Hkv Hz).
  destruct (available !! k) as [a|]; [|by eexists].
  destruct Hkv as [Ha Hav]. destruct (util_range v a Hz Ha Hav) as [H0 H1].
  rewrite !bool_decide_eq_true_2 by done. simpl. rewrite IH. by eexists.
Qed.

Lemma compute_score_ok conserve n :
  resources_ok (total_resources n) (available_resources n) →
  ∃ sc, _compute_score conserve n = Ok sc.
Proof.
  intros Hok. unfold _compute_score.
  destruct (util_by_resources_ok (map_to_list (total_resources n))
              (available_resources n)) as [us ->]; [|by eexists].
  apply map_Forall_to_list in Hok.
  eapply Forall_impl; [exact Hok|]. by intros [k v].
Qed.

Lemma add_label_ok L n k v :
  node_ok L n → L !! k = Some v →
  ∃ n', _add_label n k v = Ok n' ∧ node_ok L n'.
Proof.
  intros [Hres Hlab] HL. unfold _add_label.
  assert (node_ok L (set_labels n (<[k:=v]> (labels n)))) as Hok.
  { split; [done|]. simpl. apply map_Forall_insert_2; [|done].
    unfold label_ok. by rewrite HL. }
  destruct (labels n !! k) as [w|] eqn:Hk; [|by eexists].
  pose proof (Hlab k w Hk) as Hw. unfold label_ok in Hw. rewrite HL in Hw.
  subst w. rewrite bool_decide_eq_true_2 by done. by eexists.
Qed.

Lemma add_constraint_labels_ok L cs : ∀ n,
  node_ok L n → Forall (constraint_ok L) cs →
  ∃ n', add_constraint_labels n cs = Ok n' ∧ node_ok L n'.
Proof.
  induction cs as [|c cs IH]; intros n Hn Hcs; simpl; [by eexists|].
  apply Forall_cons in Hcs as [[Haff Hanti] Hcs].
  assert (∃ n1, match affinity c with
                | Some a => _add_label n (label_name a) (label_value a)
                | None => Ok n
                end = Ok n1 ∧ node_ok L n1) as (n1 & -> & Hn1).
  { destruct (affinity c) as [a|]; [by apply add_label_ok|by eexists]. }
  assert (∃ n2, match anti_affinity c with
                | Some a => _add_label n1 (label_name a) (label_value a)
                | None => Ok n1
                end = Ok n2 ∧ node_ok L n2) as (n2 & -> & Hn2).
  { destruct (anti_affinity c) as [a|]; [by apply add_label_ok|by eexists]. }
  by apply IH.
Qed.

Lemma subtract_bundle_ok total items : ∀ pool,
  NoDup (map fst items) →
  Forall (λ kv, (0 < kv.2)%Qc ∧ ¬ (default 0%Qc (pool !! kv.1) < kv.2)%Qc) items →
  ∃ pool', subtract_bundle pool items = Ok pool'
           ∧ (resources_ok total pool → resources_ok total pool').
Proof.
  induction items as [|[k v] items IH]; intros pool Hnd Hall; simpl.
  - by eexists.
  - apply NoDup_cons in Hnd as [Hnin Hnd].
    apply Forall_cons in Hall as [[Hpos Hfit] Hall]. simpl in *.
    destruct (pool !! k) as [a|] eqn:Hk; simpl in Hfit.
    2:{ destruct Hfit. done. }
    apply Qcnot_lt_le in Hfit.
    destruct (IH (<[k:=(a - v)%Qc]> pool) Hnd) as (pool' & -> & Hres).
    { apply Forall_forall. intros [k' v'] Hin.
      eapply Forall_forall in Hall; [|exact Hin]. simpl in *.
      rewrite lookup_insert_ne; [done|]. intros ->. apply Hnin.
      apply list_elem_of_fmap. by exists (k', v'). }
    eexists. split; [done|]. intros Hok. apply Hres.
    intros k' t Ht Hne. unfold resource_ok in *.
    destruct (decide (k' = k)) as [->|Hkk].
    + rewrite lookup_insert_eq. specialize (Hok k t Ht Hne). simpl in Hok.
      rewrite Hk in Hok. destruct Hok as [H0 Hat]. split.
      * unfold Qcminus. by apply (proj1 (Qcle_minus_iff v a)).
      * eapply Qcle_trans; [|exact Hat]. unfold Qcminus.
        rewrite <-(Qcplus_0_r a) at 2. apply Qcplus_le_mono_l.
        apply (Qcopp_le_compat 0 v). by apply Qclt_le_weak.
    + rewrite lookup_insert_ne by done. by apply (Hok k' t Ht Hne).
Qed.

Lemma try_schedule_one_ok L n r c :
  node_ok L n → request_ok L r →
  ∃ n' b, _try_schedule_one n r c = Ok (n', b) ∧ node_ok L n'.
Proof.
  intros Hn [Hpos Hcs]. unfold _try_schedule_one.
  destruct (anti_affinity_rejects n r); [by eexists _, _|].
  destruct (resources_fit _ r) eqn:Hfit; simpl; [|by eexists _, _].
  set (pool := if c then available_resources_for_constraints n
               else available_resources n) in *.
  destruct (subtract_bundle_ok (total_resources n)
              (map_to_list (resources_bundle r)) pool)
    as (pool' & -> & Hres).
  { apply NoDup_fst_map_to_list. }
  { apply map_Forall_to_list in Hpos. unfold resources_fit in Hfit.
    rewrite forallb_forall in Hfit. apply Forall_forall. intros [k v] Hin.
    split.
    - eapply Forall_forall in Hpos; [|exact Hin]. done.
    - apply list_elem_of_In, Hfit in Hin. apply negb_true_iff in Hin.
      by apply bool_decide_eq_false in Hin. }
  destruct (add_constraint_labels_ok L (placement_constraints r)
              (commit_request n c pool' r)) as (n' & -> & Hn'); [|done|].
  - destruct Hn as [Hr Hl]. split; [|done]. simpl.
    destruct c; [done|]. by apply Hres.
  - by eexists _, _.
Qed.

Lemma try_schedule_loop_ok L c rs : ∀ n,
  node_ok L n → Forall (request_ok L) rs →
  ∃ n' rem, try_schedule_loop n rs c = Ok (n', rem) ∧ node_ok L n'
            ∧ Forall (request_ok L) rem.
Proof.
  induction rs as [|r rs IH]; intros n Hn Hrs; simpl.
  - by eexists _, _.
  - apply Forall_cons in Hrs as [Hr Hrs].
    destruct (try_schedule_one_ok L n r c Hn Hr) as (n1 & b & -> & Hn1).
    destruct (IH n1 Hn1 Hrs) as (n2 & rem & -> & Hn2 & Hrem).
    eexists _, _. split; [done|]. split; [done|].
    destruct b; [done|]. by constructor.
Qed.

Lemma try_schedule_ok L conserve n rs c :
  node_ok L n → Forall (request_ok L) rs →
  ∃ n' rem sc, try_schedule conserve n rs c = Ok (n', rem, sc) ∧ node_ok L n'
               ∧ Forall (request_ok L) rem.
Proof.
  intros Hn Hrs. unfold try_schedule.
  destruct (try_schedule_loop_ok L c rs n Hn Hrs) as (n' & rem & -> & Hn' & Hrem).
  destruct (compute_score_ok conserve n' (proj1 Hn')) as [sc ->].
  by eexists _, _, _.
Qed.

(** *** The bin-packer does not raise *)

Lemma try_nodes_total L rs c (all : list nat) l : ∀ i results s,
  Forall (request_ok L) rs →
  valid (heap s) l → l ⊆ all → Forall (node_ok L) (vals (heap s) all) →
  Forall (λ x, Forall (request_ok L) (infeasible_requests x)) results →
  ∃ results' s',
    try_nodes i l rs c results s = Ok (results', s')
    ∧ Forall (node_ok L) (vals (heap s') all)
    ∧ Forall (λ x, Forall (request_ok L) (infeasible_requests x)) results'.
Proof.
  induction l as [|r l IH]; intros i results s Hrs Hv Hsub Hok Hres; simpl.
  - by eexists _, _.
  - apply Forall_cons in Hv as [Hr Hl].
    rewrite bind_unfold. unfold load at 1. cbn beta iota.
    rewrite bind_unfold. unfold get_conserve_gpu_nodes at 1. cbn beta iota.
    rewrite bind_unfold.
    assert (node_ok L (heap s !!! r)) as Hn.
    { rewrite Forall_fmap in Hok. eapply Forall_forall in Hok; [exact Hok|].
      apply Hsub. left. }
    destruct (try_schedule_ok L (AUTOSCALER_CONSERVE_GPU_NODES s) _ rs c Hn Hrs)
      as (n' & rem & sc & -> & Hn' & Hrem).
    simpl. rewrite bind_unfold. unfold store at 1. cbn beta iota.
    set (s1 := set_heap s (<[r:=n']> (heap s))).
    assert (Forall (node_ok L) (vals (heap s1) all)) as Hok1.
    { rewrite Forall_fmap in Hok. rewrite Forall_fmap.
      eapply Forall_impl; [exact Hok|]. simpl. intros r' Hr'.
      destruct (decide (r' = r)) as [->|Hne].
      - by rewrite list_lookup_total_insert_eq.
      - by rewrite list_lookup_total_insert_ne. }
    assert (valid (heap s1) l) as Hl1.
    { unfold valid, s1. simpl. by rewrite length_insert. }
    assert (l ⊆ all) as Hsub1.
    { intros x Hx. apply Hsub. by right. }
    case_bool_decide.
    + by apply IH.
    + apply IH; [done..|]. apply Forall_app. split; [done|].
      by repeat constructor.
Qed.

Lemma sched_best_node_total L rs nodes c s :
  valid (heap s) nodes → Forall (node_ok L) (vals (heap s) nodes) →
  Forall (request_ok L) rs →
  ∃ best rs' nodes' s',
    _sched_best_node rs nodes c s = Ok ((best, rs', nodes'), s')
    ∧ Forall (request_ok L) rs'
    ∧ match best with Some b => node_ok L (heap s' !!! b) | None => True end.
Proof.
  intros Hv Hok Hrs. unfold _sched_best_node.
  destruct (deepcopy_spec _ s Hv) as (l' & ext & Hcopy & Hlen & Hvals & Hfresh).
  rewrite bind_unfold, Hcopy. cbn beta iota. rewrite bind_unfold.
  set (s1 := set_heap s (heap s ++ ext)) in *.
  assert (valid (heap s1) l') as Hv1.
  { unfold valid. eapply Forall_impl; [exact Hfresh|]. simpl. intros; lia. }
  destruct (try_nodes_total L rs c l' l' 0%nat [] s1) as (results & s2 & Htry & Hok2 & Hres);
    [done|done|done| |done|].
  { change (heap s1) with (heap s ++ ext). by rewrite Hvals. }
  rewrite Htry. cbn beta iota.
  destruct (try_nodes_spec _ _ _ _ _ _ _ _ Htry Hv1) as (_ & _ & _ & _ & Hidx).
  destruct (py_sort_reverse _ results) as [|best_result rest] eqn:Hsort.
  - rewrite ret_unfold. by eexists _, _, _, _.
  - rewrite ret_unfold. eexists _, _, _, _. split; [done|].
    assert (best_result ∈ results) as Hin.
    { unfold py_sort_reverse in Hsort.
      rewrite <-(py_sort_perm (λ a b, score_ltb (score b) (score a)) results).
      rewrite Hsort. left. }
    split.
    + eapply Forall_forall in Hres; [exact Hres|done].
    + destruct (Hidx _ Hin) as [Hnil|[_ Hlk]]; [by apply elem_of_nil in Hnil|].
      rewrite Forall_fmap in Hok2. eapply Forall_forall in Hok2; [exact Hok2|].
      by eapply list_elem_of_lookup_2.
Qed.

Lemma sched_existing_loop_total L fuel : ∀ rs existing target c s,
  sched_existing_loop fuel rs existing target c s ≠ Err OutOfFuel →
  valid (heap s) (target ++ existing) →
  Forall (node_ok L) (vals (heap s) (target ++ existing)) →
  Forall (request_ok L) rs →
  ∃ rs' existing' target' s',
    sched_existing_loop fuel rs existing target c s
    = Ok ((rs', existing', target'), s')
    ∧ Forall (request_ok L) rs'
    ∧ Forall (node_ok L) (vals (heap s') (target' ++ existing')).
Proof.
  induction fuel as [|fuel IH]; intros rs existing target c s Hfuel Hv Hok Hrs;
    simpl in *.
  - destruct (_ && _); [done|]. by eexists _, _, _, _.
  - destruct (_ && _); [|by eexists _, _, _, _].
    apply valid_app in Hv as [Hvt Hve].
    rewrite map_app in Hok. apply Forall_app in Hok as [Hokt Hoke].
    destruct (sched_best_node_total L rs existing c s Hve Hoke Hrs)
      as (best & rs1 & existing1 & s1 & Hbest & Hrs1 & Hb).
    rewrite bind_unfold, Hbest in Hfuel |- *. cbn beta iota in Hfuel |- *.
    destruct (sched_best_node_spec _ _ _ _ _ _ _ _ Hbest Hve) as (Hext & Henv & Hspec).
    destruct best as [b|].
    + destruct Hspec as (i & r & Hi & -> & Hbv & Hbm).
      pose proof (list_pop_perm _ _ _ Hi) as Hperm.
      assert (valid (heap s) (list_pop existing i)) as Hvp.
      { eapply valid_perm in Hve; [|exact Hperm]. by apply Forall_cons in Hve as [_ ?]. }
      assert (Forall (node_ok L) (vals (heap s) (list_pop existing i))) as Hokp.
      { rewrite Forall_fmap in Hoke |- *. rewrite Hperm in Hoke.
        by apply Forall_cons in Hoke as [_ ?]. }
      apply IH; [done| | |done].
      * apply valid_app. split; [apply valid_app; split|].
        -- by eapply extends_valid.
        -- by repeat constructor.
        -- by eapply extends_valid.
      * rewrite !map_app. simpl. apply Forall_app. split; [apply Forall_app; split|].
        -- by rewrite (extends_vals (heap s) (heap s1)).
        -- by apply Forall_singleton.
        -- by rewrite (extends_vals (heap s) (heap s1)).
    + destruct Hspec as [-> ->]. rewrite ret_unfold. eexists _, _, _, _.
      split; [done|]. split; [done|]. rewrite map_app. apply Forall_app.
      split; by rewrite (extends_vals (heap s) (heap s1)).
Qed.

Lemma from_node_config_ok L c st id :
  config_ok L c → node_ok L (from_node_config c st id).
Proof.
  intros [Hres Hlab]. split; [|done]. simpl. intros k v Hk Hne.
  unfold resource_ok. rewrite Hk. split; [by eapply Hres|done].
Qed.

Lemma new_pool_node_total L configs k s :
  wf_configs configs → Forall (λ kc, config_ok L kc.2) configs →
  is_Some (dict_get configs k) →
  ∃ n, new_pool_node configs k s
       = Ok (length (heap s), set_heap s (heap s ++ [n]))
       ∧ node_ok L n ∧ node_type n = k.
Proof.
  intros Hwf Hcfg [cfg Hget]. unfold new_pool_node. rewrite Hget.
  eexists. split; [done|]. split.
  - apply from_node_config_ok. apply dict_get_Some_elem in Hget.
    eapply Forall_forall in Hcfg; [|exact Hget]. done.
  - simpl. by eapply wf_configs_name.
Qed.

Lemma vals_snoc_alloc (h : list SchedulingNode) (l : list nat) n :
  valid h l → vals (h ++ [n]) (l ++ [length h]) = vals h l ++ [n].
Proof.
  intros Hv. rewrite map_app. simpl.
  rewrite (extends_vals h (h ++ [n])); [|apply extends_app|done].
  by rewrite lookup_total_app_r, Nat.sub_diag by lia.
Qed.

Lemma pool_build_total L configs :
  wf_configs configs → Forall (λ kc, config_ok L kc.2) configs →
  ∀ (table : list (NodeType * Z)) pools s,
    (∀ kv, kv ∈ table → is_Some (dict_get configs kv.1)) →
    valid (heap s) pools →
    Forall (λ n, node_ok L n ∧ is_Some (dict_get configs (node_type n)))
           (vals (heap s) pools) →
    ∃ pools' s',
      foldM (λ pools (kv : NodeType * Z),
               if bool_decide (0 < kv.2)%Z then
                 r ← new_pool_node configs kv.1; mret (pools ++ [r])
               else mret pools) pools table s = Ok (pools', s')
      ∧ Forall (λ n, node_ok L n ∧ is_Some (dict_get configs (node_type n)))
               (vals (heap s') pools').
Proof.
  intros Hwf Hcfg. induction table as [|[k v] table IH];
    intros pools s Hkeys Hv Hok; simpl.
  - by eexists _, _.
  - rewrite bind_unfold. case_bool_decide as Hpos; simpl.
    + rewrite bind_unfold.
      destruct (new_pool_node_total L configs k s Hwf Hcfg) as (n & -> & Hn & Hnk).
      { apply (Hkeys (k, v)). left. }
      cbn beta iota. apply IH.
      * intros kv Hin. apply Hkeys. by right.
      * by apply valid_snoc_alloc.
      * simpl. rewrite vals_snoc_alloc by done. apply Forall_app. split; [done|].
        apply Forall_singleton. split; [done|]. rewrite Hnk.
        apply (Hkeys (k, v)). left.
    + apply IH; [|done..]. intros kv Hin. apply Hkeys. by right.
Qed.

Lemma sched_new_loop_total L configs mx fuel :
  wf_configs configs → Forall (λ kc, config_ok L kc.2) configs →
  ∀ rs pools target avail c s,
    sched_new_loop fuel configs mx rs pools target avail c s ≠ Err OutOfFuel →
    valid (heap s) target → valid (heap s) pools →
    Forall (node_ok L) (vals (heap s) target) →
    Forall (λ n, node_ok L n ∧ is_Some (dict_get configs (node_type n)))
           (vals (heap s) pools) →
    Forall (request_ok L) rs →
    ∃ target' rs' s',
      sched_new_loop fuel configs mx rs pools target avail c s
      = Ok ((target', rs'), s')
      ∧ Forall (node_ok L) (vals (heap s') target').
Proof.
  intros Hwf Hcfg. induction fuel as [|fuel IH];
    intros rs pools target avail c s Hfuel Hvt Hvp Hokt Hokp Hrs; simpl in *.
  - destruct (_ && _); [|by eexists _, _, _].
    destruct (match mx with Some _ => _ | None => _ end); [|done].
    by eexists _, _, _.
  - destruct (_ && _); [|by eexists _, _, _].
    destruct (match mx with Some _ => _ | None => _ end); [by eexists _, _, _|].
    assert (Forall (node_ok L) (vals (heap s) pools)) as Hokp'.
    { eapply Forall_impl; [exact Hokp|]. simpl. tauto. }
    destruct (sched_best_node_total L rs pools c s Hvp Hokp' Hrs)
      as (best & rs1 & pools1 & s1 & Hbest & Hrs1 & Hb).
    rewrite bind_unfold, Hbest in Hfuel |- *. cbn beta iota in Hfuel |- *.
    destruct (sched_best_node_spec _ _ _ _ _ _ _ _ Hbest Hvp) as (Hext & Henv & Hspec).
    destruct best as [b|].
    2:{ rewrite ret_unfold. eexists _, _, _. split; [done|].
        by rewrite (extends_vals (heap s) (heap s1)). }
    destruct Hspec as (i & r & Hi & -> & Hbv & Hbm).
    rewrite bind_unfold in Hfuel |- *. unfold load at 1 in Hfuel.
    unfold load at 1. cbn beta iota in Hfuel |- *.
    pose proof (list_pop_perm _ _ _ Hi) as Hperm.
    assert (valid (heap s1) (list_pop pools i)) as Hvp1.
    { eapply extends_valid; [exact Hext|].
      eapply valid_perm in Hvp; [|exact Hperm]. by apply Forall_cons in Hvp as [_ ?]. }
    assert (Forall (λ n, node_ok L n ∧ is_Some (dict_get configs (node_type n)))
                   (vals (heap s) (r :: list_pop pools i))) as Hokr.
    { rewrite Forall_fmap in Hokp |- *. by rewrite <-Hperm. }
    simpl in Hokr. apply Forall_cons in Hokr as [[_ Hkb] Hokp1].
    assert (node_type (heap s1 !!! b) = node_type (heap s !!! r)) as Hty.
    { unfold meta in Hbm. by simplify_eq. }
    rewrite <-Hty in Hkb.
    assert (Forall (λ n, node_ok L n ∧ is_Some (dict_get configs (node_type n)))
                   (vals (heap s1) (list_pop pools i))) as Hokp2.
    { rewrite (extends_vals (heap s) (heap s1)); [done|done|].
      eapply valid_perm in Hvp; [|exact Hperm]. by apply Forall_cons in Hvp as [_ ?]. }
    assert (valid (heap s1) (target ++ [b])) as Hvt1.
    { apply valid_app. split; [by eapply extends_valid|by apply Forall_singleton]. }
    assert (Forall (node_ok L) (vals (heap s1) (target ++ [b]))) as Hokt1.
    { rewrite map_app. apply Forall_app. split.
      - by rewrite (extends_vals (heap s) (heap s1)).
      - by apply Forall_singleton. }
    rewrite bind_unfold in Hfuel |- *.
    case_bool_decide as Hrefill.
    + rewrite bind_unfold in Hfuel |- *.
      destruct (new_pool_node_total L configs (node_type (heap s1 !!! b)) s1
                  Hwf Hcfg Hkb) as (n & Hnew & Hn & Hnk).
      rewrite Hnew in Hfuel |- *. cbn beta iota in Hfuel |- *.
      rewrite ret_unfold in Hfuel |- *.
      apply IH; [done| | | | |done].
      * simpl. by apply valid_app_heap.
      * simpl. by apply valid_snoc_alloc.
      * simpl. rewrite (extends_vals (heap s1) (heap s1 ++ [n]));
          [done|apply extends_app|done].
      * simpl. rewrite vals_snoc_alloc by done. apply Forall_app. split; [done|].
        apply Forall_singleton. split; [done|]. by rewrite Hnk.
    + rewrite ret_unfold in Hfuel |- *. by apply IH.
Qed.

Lemma dict_get_is_Some {V} (d : list (NodeType * V)) k :
  k ∈ dict_keys d → is_Some (dict_get d k).
Proof.
  intros Hin. destruct (dict_get d k) eqn:Hget; [done|].
  by apply dict_get_None in Hget.
Qed.

Lemma sort_requests_ok L rs :
  Forall (request_ok L) rs → Forall (request_ok L) (sort_requests rs).
Proof.
  intros H. unfold sort_requests, py_sort_reverse. by rewrite py_sort_perm.
Qed.

(** [_try_schedule] returns for sane nodes and requests. *)
Lemma try_schedule_total L ctx rs c s :
  ctx_ok ctx s → wf_configs (_node_type_configs ctx) →
  Forall (λ kc, config_ok L kc.2) (_node_type_configs ctx) →
  Forall (node_ok L) (vals (heap s) (_nodes ctx)) →
  Forall (request_ok L) rs →
  ∃ target rs' s',
    _try_schedule ctx rs c s = Ok ((target, rs'), s')
    ∧ Forall (node_ok L) (vals (heap s') target).
Proof.
  intros Hok Hwf Hcfg Hnodes Hrs.
  pose proof (try_schedule_fuel ctx rs c s Hok Hwf) as Hfuel.
  destruct Hok as [Hv Hav]. unfold _try_schedule, get_nodes in *.
  destruct (deepcopy_spec _ s Hv) as (l' & ext & Hcopy & Hlen & Hvals & Hfresh).
  rewrite bind_unfold, Hcopy in Hfuel |- *. cbn beta iota in Hfuel |- *.
  set (s1 := set_heap s (heap s ++ ext)) in *.
  assert (valid (heap s1) l') as Hv1.
  { unfold valid. eapply Forall_impl; [exact Hfresh|]. simpl. intros; lia. }
  destruct (sched_existing_loop_total L (length l') (sort_requests rs) l' [] c s1)
    as (rs1 & ex1 & tg1 & s2 & Hloop1 & Hrs1 & Hok2).
  { by apply sched_existing_loop_fuel. }
  { done. }
  { simpl. change (heap s1) with (heap s ++ ext). by rewrite Hvals. }
  { by apply sort_requests_ok. }
  rewrite bind_unfold, Hloop1 in Hfuel |- *. cbn beta iota in Hfuel |- *.
  destruct (sched_existing_loop_spec _ _ _ _ _ _ _ _ _ _ Hloop1)
    as (Hext2 & Henv2 & Hv2 & Hm2); [done|].
  pose proof Hwf as [Hnd Hall].
  destruct (pool_build_total L (_node_type_configs ctx) Hwf Hcfg
              (get_node_type_available ctx) [] s2)
    as (pools & s3 & Hpools & Hokp); [|by apply Forall_nil|by apply Forall_nil|].
  { intros [k v] Hin. apply dict_get_is_Some. simpl.
    unfold get_node_type_available in Hin. rewrite Hav in Hin.
    rewrite <-(compute_available_keys (vals (heap s) (_nodes ctx))) by done.
    apply list_elem_of_fmap. by exists (k, v). }
  rewrite bind_unfold in Hfuel |- *.
  match type of Hpools with
  | ?m = _ =>
      match goal with
      | |- context [match ?m' with Ok _ => _ | Err _ => _ end] =>
          change m' with m; change m' with m in Hfuel
      end
  end.
  rewrite Hpools in Hfuel |- *. cbn beta iota in Hfuel |- *.
  destruct (pool_build_valid _ _ _ _ _ _ Hpools) as (Hext3 & Henv3 & Hvp3);
    [by apply Forall_nil|].
  destruct (sched_new_loop_total L _ (_max_num_nodes ctx) _ Hwf Hcfg _ _ _ _ _ _ Hfuel)
    as (target & rs' & s' & Hrun & Hokt); [| | | |done|].
  - by eapply extends_valid.
  - done.
  - by rewrite (extends_vals (heap s2) (heap s3)).
  - done.
  - by eexists _, _, _.
Qed.

(** *** The requests handed to the bin-packer *)

Lemma ungroup_by_count_ok L (l : list ResourceRequestByCount) :
  Forall (λ rc, request_ok L (request rc)) l →
  Forall (request_ok L) (ungroup_by_count l).
Proof.
  unfold ungroup_by_count. induction 1 as [|rc l Hrc _ IH]; simpl; [done|].
  apply Forall_app. split; [|done]. by apply Forall_replicate.
Qed.

Lemma fuse_requests_ok L a b :
  request_ok L a → request_ok L b → request_ok L (fuse_requests a b).
Proof.
  intros [Ha Hca] [Hb Hcb]. split; simpl.
  - intros k v. rewrite lookup_union_with.
    destruct (resources_bundle a !! k) as [x|] eqn:Hx,
             (resources_bundle b !! k) as [y|] eqn:Hy; simpl; intros [= <-].
    + apply Qcplus_pos_pos; [by eapply Ha|by eapply Hb].
    + by eapply Ha.
    + by eapply Hb.
  - by apply Forall_list_union.
Qed.

Lemma combine_requests_with_affinity_ok L rs :
  Forall (request_ok L) rs →
  Forall (request_ok L) (combine_requests_with_affinity rs).
Proof.
  intros Hrs. unfold combine_requests_with_affinity. apply Forall_app. split.
  - apply Forall_forall. intros r [_ Hin]%list_elem_of_filter.
    by eapply Forall_forall in Hrs.
  - unfold dict_values. apply Forall_fmap.
    match goal with
    | |- Forall _ (foldl ?f [] rs) =>
        assert (∀ d, Forall (λ kv, request_ok L kv.2) d →
                     Forall (λ kv, request_ok L kv.2) (foldl f d rs)) as Hfold
    end.
    { induction Hrs as [|r rs Hr _ IH]; intros d Hd; simpl; [done|].
      apply IH. destruct (first_affinity r) as [a|]; [|done].
      apply Forall_dict_set; [done|]. simpl.
      destruct (dict_get d _) as [acc|] eqn:Hget; [|done].
      apply fuse_requests_ok; [|done].
      by apply (dict_get_Forall (λ kv, request_ok L kv.2) _ _ _ Hd Hget). }
    by apply Hfold.
Qed.

(** *** The phases of [schedule] keep the nodes sane *)

Lemma marks_ok L n n' : marks n n' → node_ok L n → node_ok L n'.
Proof. by intros [->|(_ & tr & ->)]. Qed.

Lemma marked_of_ok L old new :
  marked_of old new → Forall (node_ok L) old → Forall (node_ok L) new.
Proof.
  intros (vs & Hperm & Hm) Hok. rewrite Hperm. clear Hperm.
  induction Hm as [|n n' old vs Hmk _ IH]; [done|].
  apply Forall_cons in Hok as [Hn Hok]. constructor; [by eapply marks_ok|auto].
Qed.

Lemma enforce_resource_constraints_total L ctx cs s :
  ctx_ok ctx s → wf_configs (_node_type_configs ctx) →
  Forall (λ kc, config_ok L kc.2) (_node_type_configs ctx) →
  Forall (node_ok L) (vals (heap s) (_nodes ctx)) →
  (length cs ≤ 1)%nat →
  Forall (λ c, Forall (λ rc, request_ok L (request rc)) (min_bundles c)) cs →
  ∃ ctx' inf s',
    _enforce_resource_constraints ctx cs s = Ok ((ctx', inf), s')
    ∧ Forall (node_ok L) (vals (heap s') (_nodes ctx')).
Proof.
  intros Hok Hwf Hcfg Hnodes Hlen Hcs. unfold _enforce_resource_constraints.
  rewrite bind_unfold, bool_decide_eq_true_2 by done. simpl.
  destruct cs as [|constraint cs]; [by eexists _, _, _|].
  apply Forall_cons in Hcs as [Hc _]. rewrite bind_unfold.
  destruct (try_schedule_total L ctx (ungroup_by_count (min_bundles constraint))
              true s Hok Hwf Hcfg Hnodes)
    as (target & rs' & s1 & Htry & Hokt); [by apply ungroup_by_count_ok|].
  rewrite Htry. cbn beta iota.
  destruct (try_schedule_incl _ _ _ _ _ _ _ Htry (proj1 Hok)) as (Hext & _).
  destruct rs'.
  - rewrite bind_unfold, update_run. cbn beta iota. rewrite ret_unfold.
    by eexists _, _, _.
  - rewrite ret_unfold. eexists _, _, _. split; [done|].
    rewrite (extends_vals (heap s) (heap s1)); [done|done|apply Hok].
Qed.

Lemma sched_resource_requests_total L ctx rbc s :
  ctx_ok ctx s → wf_configs (_node_type_configs ctx) →
  Forall (λ kc, config_ok L kc.2) (_node_type_configs ctx) →
  Forall (node_ok L) (vals (heap s) (_nodes ctx)) →
  Forall (λ rc, request_ok L (request rc)) rbc →
  ∃ ctx' inf s',
    _sched_resource_requests ctx rbc s = Ok ((ctx', inf), s')
    ∧ Forall (node_ok L) (vals (heap s') (_nodes ctx')).
Proof.
  intros Hok Hwf Hcfg Hnodes Hrs. unfold _sched_resource_requests.
  rewrite bind_unfold.
  destruct (try_schedule_total L ctx (ungroup_by_count rbc) false s Hok Hwf Hcfg Hnodes)
    as (target & rs' & s1 & Htry & Hokt); [by apply ungroup_by_count_ok|].
  rewrite Htry. cbn beta iota.
  rewrite bind_unfold, update_run. cbn beta iota. rewrite ret_unfold.
  by eexists _, _, _.
Qed.

Lemma sched_gang_loop_total L gangs : ∀ ctx inf s,
  ctx_ok ctx s → wf_configs (_node_type_configs ctx) →
  Forall (λ kc, config_ok L kc.2) (_node_type_configs ctx) →
  Forall (node_ok L) (vals (heap s) (_nodes ctx)) →
  Forall (λ g, Forall (request_ok L) (requests g)) gangs →
  ∃ ctx' inf' s',
    foldM (λ (acc : ScheduleContext * list GangResourceRequest) gang_req,
             let rs := combine_requests_with_affinity (requests gang_req) in
             '(nodes, infeasible) ← _try_schedule acc.1 rs false;
             match infeasible with
             | _ :: _ => mret (acc.1, acc.2 ++ [gang_req])
             | [] => ctx' ← update acc.1 nodes; mret (ctx', acc.2)
             end) (ctx, inf) gangs s = Ok ((ctx', inf'), s')
    ∧ Forall (node_ok L) (vals (heap s') (_nodes ctx')).
Proof.
  induction gangs as [|g gangs IH]; intros ctx inf s Hok Hwf Hcfg Hnodes Hgs; simpl.
  - by eexists _, _, _.
  - apply Forall_cons in Hgs as [Hg Hgs]. rewrite bind_unfold, bind_unfold.
    destruct (try_schedule_total L ctx (combine_requests_with_affinity (requests g))
                false s Hok Hwf Hcfg Hnodes)
      as (target & rs' & s1 & Htry & Hokt);
      [by apply combine_requests_with_affinity_ok|].
    simpl. rewrite Htry. cbn beta iota.
    destruct (carries_packed _ _ _ _ _ _ _ Htry Hok) as [Hsame Hupd].
    destruct (try_schedule_incl _ _ _ _ _ _ _ Htry (proj1 Hok)) as (Hext & _).
    destruct rs'.
    + rewrite bind_unfold, update_run. cbn beta iota. rewrite ret_unfold.
      apply IH; [by destruct Hupd|done..].
    + rewrite ret_unfold. apply IH; [by destruct Hsame|done|done| |done].
      simpl. rewrite (extends_vals (heap s) (heap s1)); [done|done|apply Hok].
Qed.

Lemma running_node_of_ok L inst rn id :
  ray_node inst = Some rn → instance_ok L inst →
  node_ok L (running_node_of inst rn id).
Proof.
  intros Hrn Hok. unfold instance_ok in Hok. rewrite Hrn in Hok.
  destruct Hok as (_ & Hres & Hlab). by split.
Qed.

Lemma node_of_instance_total L configs nodes inst s :
  Forall (λ kc, config_ok L kc.2) configs → instance_ok L inst →
  valid (heap s) nodes → Forall (node_ok L) (vals (heap s) nodes) →
  ∃ nodes' s',
    node_of_instance configs nodes inst s = Ok (nodes', s')
    ∧ valid (heap s') nodes' ∧ Forall (node_ok L) (vals (heap s') nodes').
Proof.
  intros Hcfg Hinst Hv Hok. unfold node_of_instance.
  assert (∀ n, node_ok L n →
            valid (heap s ++ [n]) (nodes ++ [length (heap s)])
            ∧ Forall (node_ok L) (vals (heap s ++ [n]) (nodes ++ [length (heap s)])))
    as Hsnoc.
  { intros n Hn. split; [by apply valid_snoc_alloc|].
    rewrite vals_snoc_alloc by done. apply Forall_app. split; [done|].
    by apply Forall_singleton. }
  destruct (ray_node inst) as [rn|] eqn:Hrn.
  - pose proof Hinst as Hinst'. unfold instance_ok in Hinst'. rewrite Hrn in Hinst'.
    destruct Hinst' as (Hdec & _).
    destruct (decode_utf8 (ns_node_id rn)) as [id|] eqn:Hid; [|done].
    rewrite bind_unfold. simpl. rewrite bind_unfold. unfold alloc at 1.
    cbn beta iota. rewrite ret_unfold. eexists _, _. split; [done|]. simpl.
    apply Hsnoc. by apply running_node_of_ok.
  - destruct (im_instance inst) as [im|]; [|by eexists _, _].
    destruct (is_ray_running_reachable _); [|by eexists _, _].
    destruct (dict_get configs _) as [cfg|] eqn:Hget; [|by eexists _, _].
    rewrite bind_unfold. unfold alloc at 1. cbn beta iota. rewrite ret_unfold.
    eexists _, _. split; [done|]. simpl. apply Hsnoc.
    apply from_node_config_ok. apply dict_get_Some_elem in Hget.
    eapply Forall_forall in Hcfg; [|exact Hget]. done.
Qed.

Lemma instances_loop_total L configs insts : ∀ nodes s,
  Forall (λ kc, config_ok L kc.2) configs → Forall (instance_ok L) insts →
  valid (heap s) nodes → Forall (node_ok L) (vals (heap s) nodes) →
  ∃ nodes' s',
    foldM (node_of_instance configs) nodes insts s = Ok (nodes', s')
    ∧ Forall (node_ok L) (vals (heap s') nodes').
Proof.
  induction insts as [|inst insts IH]; intros nodes s Hcfg Hinsts Hv Hok; simpl.
  - by eexists _, _.
  - apply Forall_cons in Hinsts as [Hinst Hinsts]. rewrite bind_unfold.
    destruct (node_of_instance_total L configs nodes inst s Hcfg Hinst Hv Hok)
      as (nodes1 & s1 & -> & Hv1 & Hok1).
    cbn beta iota. by apply IH.
Qed.

Lemma from_schedule_request_total L req s :
  Forall (λ kc, config_ok L kc.2) (node_type_configs req) →
  Forall (instance_ok L) (current_instances req) →
  ∃ ctx s',
    from_schedule_request req s = Ok (ctx, s')
    ∧ Forall (node_ok L) (vals (heap s') (_nodes ctx)).
Proof.
  intros Hcfg Hinsts. unfold from_schedule_request. rewrite bind_unfold.
  destruct (instances_loop_total L (node_type_configs req) (current_instances req)
              [] s Hcfg Hinsts) as (nodes & s1 & -> & Hok);
    [by apply Forall_nil..|].
  cbn beta iota. unfold new_context. rewrite bind_unfold. unfold load_all at 1.
  cbn beta iota. rewrite ret_unfold. by eexists _, _.
Qed.

Lemma sched_gang_resource_requests_total L ctx gangs s :
  ctx_ok ctx s → wf_configs (_node_type_configs ctx) →
  Forall (λ kc, config_ok L kc.2) (_node_type_configs ctx) →
  Forall (node_ok L) (vals (heap s) (_nodes ctx)) →
  Forall (λ g, Forall (request_ok L) (requests g)) gangs →
  ∃ ctx' inf s',
    _sched_gang_resource_requests ctx gangs s = Ok ((ctx', inf), s')
    ∧ Forall (node_ok L) (vals (heap s') (_nodes ctx')).
Proof.
  intros Hok Hwf Hcfg Hn Hgs. apply sched_gang_loop_total; [done..|].
  unfold py_sort_reverse. by rewrite py_sort_perm.
Qed.

Lemma get_launch_requests_total ctx s :
  ∃ l s', get_launch_requests ctx s = Ok (l, s').
Proof.
  unfold get_launch_requests. rewrite bind_unfold. unfold load_all at 1.
  cbn beta iota.
  match goal with
  | |- context [mapM _ ?d s] =>
      destruct (launch_requests_run d s) as (out & s1 & Heq & _)
  end.
  rewrite Heq. by eexists _, _.
Qed.

(** [schedule] on a request that it serves runs through all its phases. *)
Lemma schedule_ctx_total L req s0 :
  served L req → ∃ reply ctx s, schedule_ctx req s0 = Ok ((reply, ctx), s).
Proof.
  intros (Hwf & Hcfg & Hinsts & Hlen & Hcs & Hgs & Hrs). unfold schedule_ctx.
  destruct (from_schedule_request_total L req s0 Hcfg Hinsts)
    as (ctx0 & sa & H0 & Hn0).
  rewrite bind_unfold, H0. cbn beta iota.
  destruct (from_schedule_request_spec _ _ _ _ H0) as (Hok0 & Hc0 & _ & _).
  destruct (terminate_outdated_spec ctx0 sa (proj1 Hok0))
    as (nodes1 & sb & H1 & Hv1 & _ & Hm1).
  rewrite bind_unfold, H1. cbn beta iota.
  set (ctx1 := updated ctx0 (heap sb) nodes1).
  assert (ctx_ok ctx1 sb) as Hok1 by by apply updated_ok.
  assert (Forall (node_ok L) (vals (heap sb) (_nodes ctx1))) as Hn1.
  { simpl. eapply marked_of_ok; [|exact Hn0]. eapply marked_by_marks; [|exact Hm1].
    intros n [Hst _]%andb_true_iff. apply bool_decide_eq_true in Hst. congruence. }
  assert (_node_type_configs ctx1 = node_type_configs req) as Hc1 by done.
  destruct (enforce_min_workers_spec (node_ok L) ctx1 sb Hok1)
    as (ctx2 & sc & H2 & Hok2 & (Hc2 & _) & _ & _ & Hn2).
  { rewrite Hc1. eapply Forall_impl; [exact Hcfg|]. intros kc Hkc.
    by apply from_node_config_ok. }
  { done. }
  rewrite bind_unfold, H2. cbn beta iota. rewrite Hc1 in Hc2.
  destruct (enforce_max_per_type_spec ctx2 sc (proj1 Hok2))
    as (nodes3 & sd & H3 & Hv3 & _ & Hm3 & _).
  rewrite bind_unfold, H3. cbn beta iota.
  set (ctx3 := updated ctx2 (heap sd) nodes3).
  assert (ctx_ok ctx3 sd) as Hok3 by by apply updated_ok.
  assert (Forall (node_ok L) (vals (heap sd) (_nodes ctx3))) as Hn3.
  { simpl. by eapply marked_of_ok. }
  assert (_node_type_configs ctx3 = node_type_configs req) as Hc3 by done.
  destruct (enforce_max_global_spec ctx3 sd (proj1 Hok3))
    as (ctx4 & se & H4 & _ & Hcase).
  rewrite bind_unfold, H4. cbn beta iota.
  pose proof (enforce_max_global_keeps _ _ _ _ H4 Hok3) as (Hok4 & (Hc4 & _) & _).
  rewrite Hc3 in Hc4.
  assert (Forall (node_ok L) (vals (heap se) (_nodes ctx4))) as Hn4.
  { destruct Hcase as [[-> Hext]|(nodes' & -> & Hv' & Hm)].
    - rewrite (extends_vals (heap sd) (heap se)); [done|done|apply Hok3].
    - simpl. by eapply marked_of_ok. }
  destruct (enforce_resource_constraints_total L ctx4
              (cluster_resource_constraints req) se)
    as (ctx5 & inf5 & sf & H5 & Hn5); [done|by rewrite Hc4..|done|done|done|].
  rewrite bind_unfold, H5. cbn beta iota.
  pose proof (enforce_resource_constraints_carries _ _ _ _ _ _ H5 Hok4)
    as (Hok5 & (Hc5 & _) & _).
  rewrite Hc4 in Hc5.
  destruct (sched_gang_resource_requests_total L ctx5
              (gang_resource_requests req) sf)
    as (ctx6 & inf6 & sg & H6 & Hn6); [done|by rewrite Hc5..|done|done|].
  rewrite bind_unfold, H6. cbn beta iota.
  pose proof (sched_gang_resource_requests_carries _ _ _ _ _ _ H6 Hok5)
    as (Hok6 & (Hc6 & _) & _).
  rewrite Hc5 in Hc6.
  destruct (sched_resource_requests_total L ctx6 (resource_requests req) sg)
    as (ctx7 & inf7 & sh & H7 & Hn7); [done|by rewrite Hc6..|done|done|].
  rewrite bind_unfold, H7. cbn beta iota.
  pose proof (sched_resource_requests_carries _ _ _ _ _ _ H7 Hok6)
    as (Hok7 & _).
  destruct (enforce_idle_termination_spec ctx7 sh (proj1 Hok7))
    as (nodes8 & si & H8 & _).
  rewrite bind_unfold, H8. cbn beta iota.
  destruct (get_launch_requests_total (updated ctx7 (heap si) nodes8) si)
    as (launches & sj & H9).
  rewrite bind_unfold, H9. cbn beta iota.
  unfold get_terminate_requests. rewrite bind_unfold, bind_unfold.
  unfold load_all at 1. cbn beta iota. rewrite !ret_unfold.
  by eexists _, _, _.
Qed.

(** X1. [schedule] returns a reply, and so raises no exception, for
    every request that it serves: the node type configs are well-formed and
    offer no negative quantity, the ids of the ray nodes are valid UTF-8 and
    what is available of a resource of a ray node lies between zero and its
    total, there is at most one cluster resource constraint, every bundle
    asks for positive quantities only, and a label name has one value [L] in
    all placement constraints and on all nodes. *)
Theorem schedule_returns_for_served L time conserve_gpu_nodes req :
  served L req →
  ∃ reply, schedule time conserve_gpu_nodes req = Ok reply.
Proof.
  intros Hserved. unfold schedule.
  destruct (schedule_ctx_total L req (initial_state time conserve_gpu_nodes) Hserved)
    as (reply & ctx & s & ->).
  by exists reply.
Qed.


(* --------------------------------------------------------------------- *)
(** ** Further properties of the scheduler *)
(* --------------------------------------------------------------------- *)

(** *** The exceptions of [schedule] *)

Lemma decode_utf8_err b e : decode_utf8 b = Err e → e = UnicodeDecodeError.
Proof. unfold decode_utf8. destruct (utf8_ok _); [done|]. by intros [= <-]. Qed.

Lemma node_of_instance_runs configs nodes inst s :
  valid (heap s) nodes →
  match ray_node inst with
  | Some rn =>
      if utf8_ok (bytes_of_string (ns_node_id rn)) then
        ∃ nodes' s', node_of_instance configs nodes inst s = Ok (nodes', s')
                     ∧ valid (heap s') nodes'
      else node_of_instance configs nodes inst s = Err UnicodeDecodeError
  | None =>
      ∃ nodes' s', node_of_instance configs nodes inst s = Ok (nodes', s')
                   ∧ valid (heap s') nodes'
  end.
Proof.
  intros Hv. unfold node_of_instance.
  destruct (ray_node inst) as [rn|].
  - unfold decode_utf8. destruct (utf8_ok _); [|done].
    rewrite bind_unfold. simpl. rewrite bind_unfold. unfold alloc at 1.
    cbn beta iota. rewrite ret_unfold. eexists _, _. split; [done|].
    by apply valid_snoc_alloc.
  - destruct (im_instance inst) as [im|]; [|by eexists _, _].
    destruct (is_ray_running_reachable _); [|by eexists _, _].
    destruct (dict_get configs _) as [cfg|]; [|by eexists _, _].
    rewrite bind_unfold. unfold alloc at 1. cbn beta iota. rewrite ret_unfold.
    eexists _, _. split; [done|]. by apply valid_snoc_alloc.
Qed.

Lemma instances_loop_runs configs insts : ∀ nodes s,
  valid (heap s) nodes →
  (∀ inst rn, inst ∈ insts → ray_node inst = Some rn →
              utf8_ok (bytes_of_string (ns_node_id rn)) = true) →
  ∃ nodes' s', foldM (node_of_instance configs) nodes insts s = Ok (nodes', s').
Proof.
  induction insts as [|inst insts IH]; intros nodes s Hv Hids; simpl.
  - by eexists _, _.
  - rewrite bind_unfold.
    pose proof (node_of_instance_runs configs nodes inst s Hv) as Hone.
    destruct (ray_node inst) as [rn|] eqn:Hrn.
    + rewrite (Hids inst rn) in Hone; [|left|done].
      destruct Hone as (nodes1 & s1 & -> & Hv1). cbn beta iota.
      apply IH; [done|]. intros i r Hi. apply Hids. by right.
    + destruct Hone as (nodes1 & s1 & -> & Hv1). cbn beta iota.
      apply IH; [done|]. intros i r Hi. apply Hids. by right.
Qed.

Lemma instances_loop_raises configs insts : ∀ nodes s inst rn,
  valid (heap s) nodes →
  inst ∈ insts → ray_node inst = Some rn →
  utf8_ok (bytes_of_string (ns_node_id rn)) = false →
  foldM (node_of_instance configs) nodes insts s = Err UnicodeDecodeError.
Proof.
  induction insts as [|i insts IH]; intros nodes s inst rn Hv Hin Hrn Hbad.
  - by apply elem_of_nil in Hin.
  - simpl. rewrite bind_unfold.
    pose proof (node_of_instance_runs configs nodes i s Hv) as Hone.
    destruct (ray_node i) as [rn'|] eqn:Hrn'.
    + destruct (utf8_ok (bytes_of_string (ns_node_id rn'))) eqn:Hok'.
      * destruct Hone as (nodes1 & s1 & -> & Hv1). cbn beta iota.
        apply elem_of_cons in Hin as [->|Hin]; [congruence|].
        by eapply IH.
      * by rewrite Hone.
    + destruct Hone as (nodes1 & s1 & -> & Hv1). cbn beta iota.
      apply elem_of_cons in Hin as [->|Hin]; [congruence|].
      by eapply IH.
Qed.

(** The phases of [schedule] before the bin-packer return whenever the ids
    of the ray nodes decode. *)
Lemma schedule_prefix_runs req s0 :
  (∀ inst rn, inst ∈ current_instances req → ray_node inst = Some rn →
              utf8_ok (bytes_of_string (ns_node_id rn)) = true) →
  ∃ ctx s,
    (ctx ← from_schedule_request req;
     ctx ← _terminate_outdated_nodes ctx;
     ctx ← _enforce_min_workers_per_type ctx;
     ctx ← _enforce_max_workers_per_type ctx;
     _enforce_max_workers_global ctx) s0 = Ok (ctx, s)
    ∧ ctx_ok ctx s ∧ _node_type_configs ctx = node_type_configs req.
Proof.
  intros Hids.
  destruct (instances_loop_runs (node_type_configs req) (current_instances req)
              [] s0) as (nodes0 & sa0 & Hloop); [by apply Forall_nil|done|].
  assert (∃ ctx0 sa, from_schedule_request req s0 = Ok (ctx0, sa))
    as (ctx0 & sa & H0).
  { unfold from_schedule_request. rewrite bind_unfold, Hloop. cbn beta iota.
    unfold new_context. rewrite bind_unfold. unfold load_all at 1.
    cbn beta iota. rewrite ret_unfold. by eexists _, _. }
  rewrite bind_unfold, H0. cbn beta iota.
  destruct (from_schedule_request_spec _ _ _ _ H0) as (Hok0 & Hc0 & _ & _).
  destruct (terminate_outdated_spec ctx0 sa (proj1 Hok0))
    as (nodes1 & sb & H1 & Hv1 & _ & _).
  rewrite bind_unfold, H1. cbn beta iota.
  set (ctx1 := updated ctx0 (heap sb) nodes1).
  assert (ctx_ok ctx1 sb) as Hok1 by by apply updated_ok.
  destruct (enforce_min_workers_spec (λ _, True) ctx1 sb Hok1)
    as (ctx2 & sc & H2 & Hok2 & (Hc2 & _) & _); [by apply Forall_true..|].
  rewrite bind_unfold, H2. cbn beta iota.
  destruct (enforce_max_per_type_spec ctx2 sc (proj1 Hok2))
    as (nodes3 & sd & H3 & Hv3 & _).
  rewrite bind_unfold, H3. cbn beta iota.
  set (ctx3 := updated ctx2 (heap sd) nodes3).
  assert (ctx_ok ctx3 sd) as Hok3 by by apply updated_ok.
  destruct (enforce_max_global_spec ctx3 sd (proj1 Hok3))
    as (ctx4 & se & H4 & _).
  pose proof (enforce_max_global_keeps _ _ _ _ H4 Hok3) as (Hok4 & (Hc4 & _) & _).
  exists ctx4, se. split; [done|]. split; [done|].
  rewrite Hc4. simpl. rewrite Hc2. simpl. done.
Qed.

(** X2. [schedule] raises [AssertionError] for every request with more than
    one cluster resource constraint, provided the ids of its ray nodes are
    valid UTF-8 (the phases before the assertion of
    [_enforce_resource_constraints] then return). *)
Theorem schedule_raises_on_many_constraints time conserve_gpu_nodes req :
  (∀ inst rn, inst ∈ current_instances req → ray_node inst = Some rn →
              utf8_ok (bytes_of_string (ns_node_id rn)) = true) →
  (1 < length (cluster_resource_constraints req))%nat →
  schedule time conserve_gpu_nodes req = Err AssertionError.
Proof.
  intros Hids Hlen. unfold schedule, schedule_ctx.
  destruct (schedule_prefix_runs req (initial_state time conserve_gpu_nodes) Hids)
    as (ctx & s & Hrun & _).
  apply bind_inv in Hrun as (ctx0 & sa & H0 & Hrun).
  apply bind_inv in Hrun as (ctx1 & sb & H1 & Hrun).
  apply bind_inv in Hrun as (ctx2 & sc & H2 & Hrun).
  apply bind_inv in Hrun as (ctx3 & sd & H3 & H4).
  rewrite bind_unfold, H0. cbn beta iota. rewrite bind_unfold, H1. cbn beta iota.
  rewrite bind_unfold, H2. cbn beta iota. rewrite bind_unfold, H3. cbn beta iota.
  rewrite bind_unfold, H4. cbn beta iota. rewrite bind_unfold.
  unfold _enforce_resource_constraints at 1. rewrite bind_unfold.
  rewrite bool_decide_eq_false_2 by lia. done.
Qed.

(** X3. [schedule] raises [UnicodeDecodeError] when the id of the ray node
    of one of the current instances is not valid UTF-8. *)
Theorem schedule_raises_on_invalid_node_id time conserve_gpu_nodes req inst rn :
  inst ∈ current_instances req → ray_node inst = Some rn →
  utf8_ok (bytes_of_string (ns_node_id rn)) = false →
  schedule time conserve_gpu_nodes req = Err UnicodeDecodeError.
Proof.
  intros Hin Hrn Hbad. unfold schedule, schedule_ctx.
  rewrite bind_unfold. unfold from_schedule_request at 1. rewrite bind_unfold.
  by rewrite (instances_loop_raises _ _ _ _ inst rn); [|apply Forall_nil|..].
Qed.

(** *** The methods of a node *)

Lemma add_label_shape n k v n' :
  _add_label n k v = Ok n' → n' = set_labels n (<[k:=v]> (labels n)).
Proof.
  unfold _add_label. destruct (labels n !! k); [|by intros [= <-]].
  destruct (bool_decide _); [by intros [= <-]|done].
Qed.

Lemma add_constraint_labels_shape cs : ∀ n n',
  add_constraint_labels n cs = Ok n' → ∃ l, n' = set_labels n l.
Proof.
  induction cs as [|c cs IH]; intros n n'; simpl.
  - intros [= <-]. exists (labels n). by destruct n.
  - destruct (match affinity c with Some _ => _ | None => _ end) as [n1|] eqn:H1;
      [|done].
    destruct (match anti_affinity c with Some _ => _ | None => _ end) as [n2|] eqn:H2;
      [|done].
    intros (l & ->)%IH.
    assert (∃ l1, n1 = set_labels n l1) as [l1 ->].
    { destruct (affinity c); [|injection H1 as <-; exists (labels n); by destruct n].
      apply add_label_shape in H1. by eexists. }
    assert (∃ l2, n2 = set_labels (set_labels n l1) l2) as [l2 ->].
    { destruct (anti_affinity c); [|injection H2 as <-; by eexists].
      apply add_label_shape in H2. by eexists. }
    by eexists.
Qed.

(** What [_try_schedule_one] returns: the node as it was and [False], or the
    node with the request committed, the bundle subtracted from the pool and
    new labels, and [True]. *)
Lemma try_schedule_one_shape n r c n' b :
  _try_schedule_one n r c = Ok (n', b) →
  if b then
    anti_affinity_rejects n r = false
    ∧ resources_fit (if c then available_resources_for_constraints n
                     else available_resources n) r = true
    ∧ ∃ pool' l,
        subtract_bundle (if c then available_resources_for_constraints n
                         else available_resources n)
          (map_to_list (resources_bundle r)) = Ok pool'
        ∧ n' = set_labels (commit_request n c pool' r) l
  else n' = n.
Proof.
  unfold _try_schedule_one. destruct (anti_affinity_rejects n r); [by intros [= <- <-]|].
  destruct (resources_fit _ r) eqn:Hfit; simpl; [|by intros [= <- <-]].
  destruct (subtract_bundle _ _) as [pool'|] eqn:Hsub; [|done].
  destruct (add_constraint_labels _ _) as [n1|] eqn:Hlab; [|done].
  intros [= <- <-]. split; [done|]. split; [done|].
  apply add_constraint_labels_shape in Hlab as [l ->]. by eexists _, _.
Qed.

Lemma subtract_bundle_lookup items : ∀ pool pool',
  subtract_bundle pool items = Ok pool' → NoDup (map fst items) →
  ∀ k, pool' !! k
       = match dict_get items k with
         | Some v => (λ a, a - v)%Qc <$> pool !! k
         | None => pool !! k
         end.
Proof.
  induction items as [|[k0 v0] items IH]; intros pool pool' Hrun Hnd k;
    simpl in *.
  - by injection Hrun as <-.
  - apply NoDup_cons in Hnd as [Hnin Hnd].
    destruct (pool !! k0) as [a|] eqn:Hk0; [|done].
    rewrite (IH _ _ Hrun Hnd k). destruct (decide (k0 = k)) as [->|Hne].
    + assert (dict_get items k = None) as -> by by apply dict_get_None.
      by rewrite lookup_insert_eq, Hk0.
    + by rewrite lookup_insert_ne.
Qed.

Lemma dict_get_map_to_list (m : gmap string Qc) k :
  dict_get (map_to_list m) k = m !! k.
Proof.
  destruct (m !! k) as [v|] eqn:Hk.
  - apply dict_get_NoDup_elem; [apply NoDup_fst_map_to_list|].
    by apply elem_of_map_to_list.
  - apply dict_get_None. intros Hin. apply list_elem_of_fmap in Hin as ([k' v] & -> & Hin).
    apply elem_of_map_to_list in Hin. simpl in *. congruence.
Qed.


Lemma subtract_bundle_missing k v : ∀ items pool,
  pool !! k = None → (k, v) ∈ items →
  subtract_bundle pool items = Err KeyError.
Proof.
  induction items as [|[k0 v0] items IH]; intros pool Hnone Hin;
    [by apply elem_of_nil in Hin|].
  simpl. destruct (pool !! k0) as [a0|] eqn:Hk0; [|done].
  apply elem_of_cons in Hin as [[= -> ->]|Hin]; [congruence|].
  apply IH; [|done]. rewrite lookup_insert_ne; [done|]. congruence.
Qed.

(** X5. [SchedulingNode._try_schedule_one] raises [KeyError] for a request
    that passes the two checks (no anti-affinity label of it is on the node,
    every quantity is available, where a missing resource counts as zero) but
    names a resource that the pool of the node does not hold: the quantity of
    that resource is then zero or negative, and
    [available_resources_dict[k] -= v] has no entry to update. *)
Theorem try_schedule_one_raises_key_error n r (c : bool) k v :
  anti_affinity_rejects n r = false →
  resources_fit (if c then available_resources_for_constraints n
                 else available_resources n) r = true →
  resources_bundle r !! k = Some v →
  (if c then available_resources_for_constraints n
   else available_resources n) !! k = None →
  (v ≤ 0)%Qc ∧ _try_schedule_one n r c = Err KeyError.
Proof.
  intros Hanti Hfit Hk Hnone. split.
  - unfold resources_fit in Hfit. rewrite forallb_forall in Hfit.
    assert (In (k, v) (map_to_list (resources_bundle r))) as Hin.
    { apply list_elem_of_In. by apply elem_of_map_to_list. }
    apply Hfit in Hin. apply negb_true_iff, bool_decide_eq_false in Hin.
    simpl in Hin. rewrite Hnone in Hin. simpl in Hin. by apply Qcnot_lt_le.
  - unfold _try_schedule_one. rewrite Hanti, Hfit. simpl.
    rewrite (subtract_bundle_missing k v); [done|done|].
    by apply elem_of_map_to_list.
Qed.

Lemma try_schedule_loop_accounts c rs : ∀ n n' rem,
  try_schedule_loop n rs c = Ok (n', rem) →
  ∃ taken,
    rem `sublist_of` rs ∧ taken `sublist_of` rs ∧ rs ≡ₚ taken ++ rem
    ∧ sched_constraints n'
      = sched_constraints n ++ (if c then taken else [])
    ∧ sched_requests n' = sched_requests n ++ (if c then [] else taken).
Proof.
  induction rs as [|r rs IH]; intros n n' rem Hrun; simpl in Hrun.
  - injection Hrun as <- <-. exists [].
    split_and!; [done|done|done|destruct c; by rewrite app_nil_r..].
  - destruct (_try_schedule_one n r c) as [[n1 b]|] eqn:Hone; [|done].
    destruct (try_schedule_loop n1 rs c) as [[n2 rem2]|] eqn:Hloop; [|done].
    injection Hrun as <- <-.
    destruct (IH _ _ _ Hloop) as (taken & Hs1 & Hs2 & Hperm & Hc & Hr).
    apply try_schedule_one_shape in Hone. destruct b.
    + destruct Hone as (_ & _ & pool' & l & _ & ->). exists (r :: taken).
      split_and!.
      * by apply sublist_cons.
      * by apply sublist_skip.
      * simpl. by rewrite Hperm.
      * rewrite Hc. simpl. destruct c; [by rewrite <-app_assoc|done].
      * rewrite Hr. simpl. destruct c; [done|by rewrite <-app_assoc].
    + subst n1. exists taken.
      split_and!; [by apply sublist_skip|by apply sublist_cons| |done..].
      rewrite Hperm. by rewrite <-Permutation_middle.
Qed.

(** X6. [SchedulingNode.try_schedule] accounts for every request: the
    requests it returns as unschedulable and the requests it commits are two
    sub-lists of the requests it was given, in their order, that together
    make up all of them; the committed ones are appended to
    [sched_constraints] (for cluster constraints) or to [sched_requests], and
    the other list is not touched. *)
Theorem try_schedule_accounts conserve n rs c n' rem sc :
  try_schedule conserve n rs c = Ok (n', rem, sc) →
  ∃ taken,
    rem `sublist_of` rs ∧ taken `sublist_of` rs ∧ rs ≡ₚ taken ++ rem
    ∧ sched_constraints n'
      = sched_constraints n ++ (if c then taken else [])
    ∧ sched_requests n' = sched_requests n ++ (if c then [] else taken).
Proof.
  unfold try_schedule.
  destruct (try_schedule_loop n rs c) as [[n1 rem1]|] eqn:Hloop; [|done].
  destruct (_compute_score conserve n1); [|done].
  intros [= <- <- _]. by eapply try_schedule_loop_accounts.
Qed.

Lemma try_schedule_loop_total_resources c rs : ∀ n n' rem,
  try_schedule_loop n rs c = Ok (n', rem) →
  total_resources n' = total_resources n
  ∧ (if c then available_resources n' = available_resources n
     else available_resources_for_constraints n'
          = available_resources_for_constraints n).
Proof.
  induction rs as [|r rs IH]; intros n n' rem Hrun; simpl in Hrun.
  - injection Hrun as <- <-. by destruct c.
  - destruct (_try_schedule_one n r c) as [[n1 b]|] eqn:Hone; [|done].
    destruct (try_schedule_loop n1 rs c) as [[n2 rem2]|] eqn:Hloop; [|done].
    injection Hrun as <- <-. destruct (IH _ _ _ Hloop) as [Ht Ho].
    apply try_schedule_one_shape in Hone. destruct b.
    + destruct Hone as (_ & _ & pool' & l & _ & ->). rewrite Ht. split; [done|].
      destruct c; by rewrite Ho.
    + by subst n1.
Qed.

(** X7. [SchedulingNode.try_schedule] leaves the identity of the node
    alone: its type, status, termination request, instance id, ray node id,
    idle duration and launch config hash, and its total resources, are the
    same afterwards; with cluster constraints the actual available resources
    are not touched, and with actual requests the resources available for
    constraints are not.  In particular a node that is marked TO_TERMINATE
    takes requests like any other. *)
Theorem try_schedule_keeps_identity conserve n rs c n' rem sc :
  try_schedule conserve n rs c = Ok (n', rem, sc) →
  meta n' = meta n ∧ total_resources n' = total_resources n
  ∧ (if c then available_resources n' = available_resources n
     else available_resources_for_constraints n'
          = available_resources_for_constraints n).
Proof.
  intros Hrun.
  split; [by eapply try_schedule_meta|].
  unfold try_schedule in Hrun.
  destruct (try_schedule_loop n rs c) as [[n1 rem1]|] eqn:Hloop; [|done].
  destruct (_compute_score conserve n1); [|done].
  injection Hrun as <- _ _. by eapply try_schedule_loop_total_resources.
Qed.

(** *** The bin-packer *)

Lemma try_schedule_sublist conserve n rs c n' rem sc :
  try_schedule conserve n rs c = Ok (n', rem, sc) → rem `sublist_of` rs.
Proof.
  unfold try_schedule.
  destruct (try_schedule_loop n rs c) as [[n1 rem1]|] eqn:Hloop; [|done].
  destruct (_compute_score conserve n1); [|done].
  intros [= <- <- _].
  by destruct (try_schedule_loop_accounts _ _ _ _ _ Hloop) as (? & ? & _).
Qed.

Lemma try_nodes_results rs c l : ∀ i res s res' s',
  try_nodes i l rs c res s = Ok (res', s') →
  Forall (λ x, infeasible_requests x `sublist_of` rs
               ∧ (length (infeasible_requests x) < length rs)%nat) res →
  Forall (λ x, infeasible_requests x `sublist_of` rs
               ∧ (length (infeasible_requests x) < length rs)%nat) res'.
Proof.
  induction l as [|r l IH]; intros i res s res' s' Hrun Hres; simpl in Hrun.
  - by injection Hrun as <- <-.
  - rewrite bind_unfold in Hrun. unfold load at 1 in Hrun. cbn beta iota in Hrun.
    rewrite bind_unfold in Hrun. unfold get_conserve_gpu_nodes at 1 in Hrun.
    cbn beta iota in Hrun. rewrite bind_unfold in Hrun.
    destruct (lift _ s) as [[[[n' rem] sc] s1]|] eqn:Hlift; [|done].
    apply lift_inv in Hlift as [Hts ->].
    apply try_schedule_sublist in Hts.
    cbn beta iota in Hrun. rewrite bind_unfold in Hrun. unfold store at 1 in Hrun.
    cbn beta iota in Hrun. case_bool_decide as Hlen.
    + by eapply IH.
    + eapply IH; [exact Hrun|]. apply Forall_app. split; [done|].
      apply Forall_singleton. simpl. split; [done|].
      apply sublist_length in Hts. lia.
Qed.

Lemma sched_best_node_shrinks rs nodes c s b rs' nodes' s' :
  _sched_best_node rs nodes c s = Ok ((Some b, rs', nodes'), s') →
  rs' `sublist_of` rs ∧ (length rs' < length rs)%nat.
Proof.
  unfold _sched_best_node. rewrite bind_unfold. unfold deepcopy at 1.
  destruct (deepcopy_loop _ _ _) as [h' out]. cbn beta iota. rewrite bind_unfold.
  destruct (try_nodes 0 out rs c [] _) as [[results s2]|] eqn:Htry; [|done].
  cbn beta iota.
  apply try_nodes_results in Htry; [|by apply Forall_nil].
  destruct (py_sort_reverse _ results) as [|best_result rest] eqn:Hsort; [done|].
  intros [= <- <- <- <-].
  assert (best_result ∈ results) as Hin.
  { unfold py_sort_reverse in Hsort.
    rewrite <-(py_sort_perm (λ a b, score_ltb (score b) (score a)) results).
    rewrite Hsort. left. }
  by eapply Forall_forall in Htry.
Qed.

(** X8. [_sched_best_node] makes progress or changes nothing: when it
    returns a node, that node is a new object (a copy of the node at some
    index of the list, with the same type, status and ids), the node at that
    index is removed from the list, and the requests that remain are a
    strictly shorter sub-list of the requests given; when it returns no node,
    the requests and the list of nodes are returned as they were.  In both
    cases the objects that existed before the call are not modified. *)
Theorem sched_best_node_progress rs nodes c s best rs' nodes' s' :
  _sched_best_node rs nodes c s = Ok ((best, rs', nodes'), s') →
  valid (heap s) nodes →
  extends (heap s) (heap s')
  ∧ match best with
    | None => nodes' = nodes ∧ rs' = rs
    | Some b =>
        rs' `sublist_of` rs ∧ (length rs' < length rs)%nat
        ∧ (length (heap s) ≤ b < length (heap s'))%nat
        ∧ ∃ i r, nodes !! i = Some r ∧ nodes' = list_pop nodes i
                 ∧ meta (heap s' !!! b) = meta (heap s !!! r)
    end.
Proof.
  intros Hrun Hv.
  destruct (sched_best_node_spec _ _ _ _ _ _ _ _ Hrun Hv) as (Hext & _ & Hspec).
  split; [done|]. destruct best as [b|]; [|done].
  destruct (sched_best_node_shrinks _ _ _ _ _ _ _ _ Hrun) as [Hsub Hlen].
  destruct Hspec as (i & r & Hi & Hpop & Hbv & Hbm).
  split_and!; [done|done| |done|by eauto].
  unfold _sched_best_node in Hrun.
  destruct (deepcopy_spec _ s Hv) as (l' & ext & Hcopy & Hlen' & Hvals & Hfresh).
  rewrite bind_unfold, Hcopy in Hrun. cbn beta iota in Hrun.
  rewrite bind_unfold in Hrun.
  destruct (try_nodes 0 l' rs c [] _) as [[results s2]|] eqn:Htry; [|done].
  cbn beta iota in Hrun.
  assert (valid (heap s ++ ext) l') as Hv1.
  { unfold valid. eapply Forall_impl; [exact Hfresh|]. simpl. intros; lia. }
  destruct (try_nodes_spec _ _ _ _ _ _ _ _ Htry Hv1) as (_ & _ & _ & _ & Hres).
  destruct (py_sort_reverse _ results) as [|best_result rest] eqn:Hsort; [done|].
  injection Hrun as <- _ _ _.
  assert (best_result ∈ results) as Hin.
  { unfold py_sort_reverse in Hsort.
    rewrite <-(py_sort_perm (λ a b, score_ltb (score b) (score a)) results).
    rewrite Hsort. left. }
  destruct (Hres _ Hin) as [Hnil|[_ Hlk]]; [by apply elem_of_nil in Hnil|].
  eapply Forall_forall in Hfresh; [|by eapply list_elem_of_lookup_2].
  simpl in Hfresh. lia.
Qed.

Lemma sched_existing_loop_requests fuel : ∀ rs existing target c s rs' existing' target' s',
  sched_existing_loop fuel rs existing target c s
  = Ok ((rs', existing', target'), s') →
  rs' `sublist_of` rs.
Proof.
  induction fuel as [|fuel IH]; intros rs existing target c s rs' existing' target' s' Hrun;
    simpl in Hrun.
  - destruct (_ && _); [done|]. by injection Hrun as <- _ _ _.
  - destruct (_ && _); [|by injection Hrun as <- _ _ _].
    rewrite bind_unfold in Hrun.
    destruct (_sched_best_node rs existing c s) as [[[[best rs1] existing1] s1]|] eqn:Hbest;
      [|done].
    cbn beta iota in Hrun. destruct best as [b|].
    + apply sched_best_node_shrinks in Hbest as [Hsub _].
      etrans; [|exact Hsub]. by eapply IH.
    + injection Hrun as <- _ _ _.
      unfold _sched_best_node in Hbest. rewrite bind_unfold in Hbest.
      unfold deepcopy at 1 in Hbest. destruct (deepcopy_loop _ _ _) as [h' out].
      cbn beta iota in Hbest. rewrite bind_unfold in Hbest.
      destruct (try_nodes 0 out rs c [] _) as [[results s2]|]; [|done].
      cbn beta iota in Hbest.
      destruct (py_sort_reverse _ results); [|done]. by injection Hbest as <- _ _.
Qed.

Lemma sched_best_node_none rs nodes c s rs' nodes' s' :
  _sched_best_node rs nodes c s = Ok ((None, rs', nodes'), s') → rs' = rs.
Proof.
  unfold _sched_best_node. rewrite bind_unfold.
  unfold deepcopy at 1. destruct (deepcopy_loop _ _ _) as [h' out].
  cbn beta iota. rewrite bind_unfold.
  destruct (try_nodes 0 out rs c [] _) as [[results s2]|]; [|done].
  cbn beta iota. destruct (py_sort_reverse _ results); [|done].
  by intros [= <- _ _].
Qed.

Lemma sched_new_loop_requests configs mx fuel :
  ∀ rs pools target avail c s target' rs' s',
    sched_new_loop fuel configs mx rs pools target avail c s
    = Ok ((target', rs'), s') →
    rs' `sublist_of` rs
    ∧ match mx with
      | Some m => Z.of_nat (length target') ≤ Z.max (Z.of_nat (length target)) m
      | None => True
      end.
Proof.
  induction fuel as [|fuel IH];
    intros rs pools target avail c s target' rs' s' Hrun; simpl in Hrun.
  - assert (target' = target ∧ rs' = rs) as [-> ->].
    { destruct (_ && _); [|by injection Hrun as <- <-].
      destruct (match mx with Some _ => _ | None => _ end); [|done].
      by injection Hrun as <- <-. }
    split; [done|]. destruct mx; [lia|done].
  - assert (∀ s0, (mret (target, rs) : M _) s0 = Ok ((target', rs'), s') →
            rs' `sublist_of` rs
            ∧ match mx with
              | Some m => Z.of_nat (length target') ≤ Z.max (Z.of_nat (length target)) m
              | None => True
              end) as Hret.
    { intros s0 [= <- <- <-]. split; [done|]. destruct mx; [lia|done]. }
    destruct (_ && _); [|by eapply Hret].
    destruct (match mx with Some _ => _ | None => _ end) eqn:Hmax; [by eapply Hret|].
    clear Hret. rewrite bind_unfold in Hrun.
    destruct (_sched_best_node rs pools c s) as [[[[best rs1] pools1] s1]|] eqn:Hbest;
      [|done].
    cbn beta iota in Hrun. destruct best as [b|].
    2:{ apply sched_best_node_none in Hbest as ->. injection Hrun as <- <- _.
        split; [done|]. destruct mx; [lia|done]. }
    apply sched_best_node_shrinks in Hbest as [Hsub _].
    rewrite bind_unfold in Hrun. unfold load at 1 in Hrun. cbn beta iota in Hrun.
    rewrite bind_unfold in Hrun.
    assert (∀ pools2 s2,
              sched_new_loop fuel configs mx rs1 pools2 (target ++ [b])
                (dict_add avail (node_type (heap s1 !!! b)) (-1)) c s2
              = Ok ((target', rs'), s') →
              rs' `sublist_of` rs
              ∧ match mx with
                | Some m => Z.of_nat (length target') ≤ Z.max (Z.of_nat (length target)) m
                | None => True
                end) as Hrec.
    { intros pools2 s2 Hrec. apply IH in Hrec as [Hs Hl].
      split; [by etrans|]. destruct mx as [m|]; [|done].
      apply bool_decide_eq_false in Hmax. rewrite length_app in Hl. simpl in Hl.
      lia. }
    case_bool_decide.
    + rewrite bind_unfold in Hrun.
      destruct (new_pool_node configs _ s1) as [[rn s2]|]; [|done].
      cbn beta iota in Hrun. rewrite ret_unfold in Hrun. by eapply Hrec.
    + rewrite ret_unfold in Hrun. by eapply Hrec.
Qed.

(** X9. [_try_schedule] neither loses nor invents nodes or requests.  On a
    context with well-formed node type configs, the nodes it returns are,
    as far as type, status, termination request and ids go, the nodes of
    the context (terminating ones included) and new nodes to launch, at most
    as many of a type as the context still allows ([max_worker_nodes] minus
    the nodes of the type, whatever their status); the requests it returns
    as infeasible are among the requests it was given; the objects of the
    context are not modified; and with [max_num_nodes] set, new nodes are
    only added while the returned list is shorter than [max_num_nodes]. *)
Theorem try_schedule_conserves ctx rs c s target rs' s' :
  _try_schedule ctx rs c s = Ok ((target, rs'), s') →
  ctx_ok ctx s → wf_configs (_node_type_configs ctx) →
  extends (heap s) (heap s')
  ∧ rs' ⊆+ rs
  ∧ (∃ added,
       metas (heap s') target
       ≡ₚ metas (heap s) (_nodes ctx) ++ map launch_meta added
       ∧ ∀ k, Z.of_nat (count_key k added)
              ≤ Z.max 0 (max_workers_of (_node_type_configs ctx) k
                         - Z.of_nat (count_all k (vals (heap s) (_nodes ctx)))))
  ∧ match _max_num_nodes ctx with
    | Some m =>
        Z.of_nat (length target) ≤ Z.max (Z.of_nat (length (_nodes ctx))) m
    | None => True
    end.
Proof.
  intros Hrun Hok Hwf.
  destruct (try_schedule_spec _ _ _ _ _ _ _ Hrun Hok Hwf)
    as (Hext & _ & _ & added & Hm & Hc).
  split; [done|]. destruct Hok as [Hv Hav].
  assert (∀ k, Z.of_nat (count_key k added)
               ≤ Z.max 0 (max_workers_of (_node_type_configs ctx) k
                          - Z.of_nat (count_all k (vals (heap s) (_nodes ctx)))))
    as Hbound.
  { intros k. specialize (Hc k). rewrite Hav, compute_available_get in Hc
      by apply Hwf.
    unfold max_workers_of. destruct (dict_get (_node_type_configs ctx) k); lia. }
  unfold _try_schedule, get_nodes in Hrun.
  destruct (deepcopy_spec _ s Hv) as (l' & ext & Hcopy & Hlen & Hvals & Hfresh).
  rewrite bind_unfold, Hcopy in Hrun. cbn beta iota in Hrun.
  rewrite bind_unfold in Hrun.
  destruct (sched_existing_loop _ _ l' [] c _) as [[[[rs1 ex1] tg1] s2]|] eqn:Hloop1;
    [|done].
  cbn beta iota in Hrun.
  assert (valid (heap s ++ ext) l') as Hv1.
  { unfold valid. eapply Forall_impl; [exact Hfresh|]. simpl. intros; lia. }
  destruct (sched_existing_loop_spec _ _ _ _ _ _ _ _ _ _ Hloop1)
    as (_ & _ & _ & Hm2); [done|].
  apply sched_existing_loop_requests in Hloop1.
  rewrite bind_unfold in Hrun.
  destruct (foldM _ [] (get_node_type_available ctx) s2) as [[pools s3]|]; [|done].
  cbn beta iota in Hrun.
  apply sched_new_loop_requests in Hrun as [Hsub Hmax].
  split_and!.
  - apply sublist_submseteq in Hsub, Hloop1.
    etrans; [exact Hsub|]. etrans; [exact Hloop1|].
    unfold sort_requests, py_sort_reverse. by rewrite py_sort_perm.
  - by exists added.
  - destruct (_max_num_nodes ctx) as [m|]; [|done].
    assert (length (tg1 ++ ex1) = length (_nodes ctx)) as Hl.
    { rewrite <-Hlen. apply Permutation_length in Hm2.
      unfold metas in Hm2. by rewrite !length_map in Hm2. }
    by rewrite Hl in Hmax.
Qed.

(** X10. The two [while] loops of [_try_schedule] terminate: on a context
    with well-formed node type configs the first loop runs at most once per
    node of the context and the second at most once per node that may still
    be launched and node of the pool, so the bounds that the embedding puts
    on them are never reached. *)
Theorem try_schedule_loops_terminate ctx rs c s :
  ctx_ok ctx s → wf_configs (_node_type_configs ctx) →
  _try_schedule ctx rs c s ≠ Err OutOfFuel.
Proof. apply try_schedule_fuel. Qed.

(** *** The context and the phases that launch and terminate nodes *)

(** X11. [_compute_available_node_types]: the table has exactly the node
    types of the configs as keys, and a node type may still be launched
    [max_worker_nodes] minus the number of nodes of the type times, where
    the nodes are counted whatever their status: a node that is marked
    TO_TERMINATE still takes a place of its type, and the number can be
    negative. *)
Theorem available_node_types_counts nodes configs :
  NoDup (dict_keys configs) →
  dict_keys (_compute_available_node_types nodes configs) = dict_keys configs
  ∧ ∀ N, dict_get (_compute_available_node_types nodes configs) N
         = (λ c, max_worker_nodes c - Z.of_nat (count_all N nodes))
           <$> dict_get configs N.
Proof.
  intros Hnd. split; [by apply compute_available_keys|]. intros N.
  unfold _compute_available_node_types.
  rewrite (dict_set_fold_get
             (λ kc, max_worker_nodes kc.2
                    - default 0 (dict_get (foldl (λ d n, dict_add d (node_type n) 1) [] nodes) kc.1)))
    by done.
  destruct (dict_get configs N) as [c|]; simpl; [|done]. f_equal.
  pose proof (existing_count_fold N nodes []) as Hc. unfold avail_of in Hc.
  simpl in Hc. rewrite Hc. lia.
Qed.

Lemma cluster_shape_fold N vs : ∀ d0,
  avail_of (foldl (λ d n, if bool_decide (status n = TO_TERMINATE) then d
                          else dict_add d (node_type n) 1) d0 vs) N
  = avail_of d0 N + Z.of_nat (count_type N vs).
Proof.
  induction vs as [|n vs IH]; intros d0; simpl.
  - unfold count_type. simpl. lia.
  - rewrite IH. unfold count_type. rewrite filter_cons.
    case_bool_decide as Hst.
    + rewrite decide_False by tauto. lia.
    + destruct (decide (node_type n = N)) as [<-|Hne].
      * rewrite decide_True by done. rewrite avail_of_add_eq. simpl. lia.
      * rewrite decide_False by tauto. by rewrite avail_of_add_ne.
Qed.

Lemma min_workers_loop_added (shape : list (NodeType * Z)) :
  ∀ (cfgs : list (NodeType * NodeTypeConfig)) (new : list nat) s,
    valid (heap s) new →
    ∃ new' s',
      foldM (λ new_nodes (kc : NodeType * NodeTypeConfig),
               let cur_count := default 0%Z (dict_get shape kc.1) in
               let min_count := min_worker_nodes kc.2 in
               if bool_decide (cur_count < min_count)%Z then
                 r ← alloc (from_node_config kc.2 TO_LAUNCH None);
                 ret (new_nodes ++ replicate (Z.to_nat (min_count - cur_count)) r)
               else ret new_nodes) new cfgs s = Ok (new', s')
      ∧ extends (heap s) (heap s') ∧ valid (heap s') new'
      ∧ metas (heap s') new'
        = metas (heap s) new
          ++ map launch_meta
               (flat_map (λ kc, replicate
                                  (Z.to_nat (min_worker_nodes kc.2
                                             - default 0 (dict_get shape kc.1)))
                                  (name kc.2)) cfgs).
Proof.
  induction cfgs as [|kc cfgs IH]; intros new s Hv.
  - exists new, s. simpl. rewrite app_nil_r.
    split_and!; [done|apply extends_refl|done..].
  - cbn [foldM]. rewrite bind_unfold. cbn beta zeta.
    case_bool_decide as Hlt.
    + rewrite bind_unfold. unfold alloc at 1. cbn beta iota.
      rewrite ret_unfold. cbn beta iota.
      set (k := Z.to_nat (min_worker_nodes kc.2 - default 0 (dict_get shape kc.1))).
      set (s1 := set_heap s (heap s ++ [from_node_config kc.2 TO_LAUNCH None])).
      destruct (IH (new ++ replicate k (length (heap s))) s1)
        as (new' & s' & Hrun & Hext & Hv' & Hm).
      { apply Forall_app. split.
        - eapply valid_weaken; [|exact Hv]. simpl. rewrite length_app. lia.
        - apply Forall_replicate. simpl. rewrite length_app. simpl. lia. }
      exists new', s'. split_and!; [done| |done|].
      * eapply extends_trans; [apply extends_alloc|exact Hext].
      * rewrite Hm. simpl. rewrite metas_app, map_app, <-app_assoc. f_equal.
        { by apply metas_extends; [apply extends_alloc|]. }
        f_equal. unfold metas. rewrite !fmap_replicate. f_equal. simpl.
        by rewrite lookup_total_app_r, Nat.sub_diag by lia.
    + rewrite ret_unfold. cbn beta iota.
      destruct (IH new s Hv) as (new' & s' & Hrun & Hext & Hv' & Hm).
      exists new', s'. split_and!; [done..|].
      rewrite Hm. simpl.
      replace (Z.to_nat (min_worker_nodes kc.2 - default 0 (dict_get shape kc.1)))
        with 0%nat by lia.
      done.
Qed.

Lemma count_key_replicate N k x :
  count_key N (replicate k x) = if decide (x = N) then k else 0%nat.
Proof.
  unfold count_key. induction k as [|k IH]; simpl; [by destruct (decide _)|].
  rewrite filter_cons. destruct (decide (x = N)); simpl; by rewrite IH.
Qed.

Lemma count_key_app N l l' :
  count_key N (l ++ l') = (count_key N l + count_key N l')%nat.
Proof. unfold count_key. by rewrite filter_app, length_app. Qed.

Lemma count_key_min_workers (f : NodeType → Z) configs N :
  wf_configs configs →
  Z.of_nat (count_key N (flat_map (λ kc, replicate
                                           (Z.to_nat (min_worker_nodes kc.2 - f kc.1))
                                           (name kc.2)) configs))
  = match dict_get configs N with
    | Some c => Z.max 0 (min_worker_nodes c - f N)
    | None => 0
    end.
Proof.
  intros [Hnd Hall]. induction configs as [|[k c] configs IH]; simpl; [done|].
  apply NoDup_cons in Hnd as [Hnin Hnd].
  apply Forall_cons in Hall as [[Hname _] Hall]. simpl in *.
  rewrite count_key_app, count_key_replicate, Hname, Nat2Z.inj_add, IH by done.
  destruct (decide (k = N)) as [->|Hne].
  - assert (dict_get configs N = None) as -> by by apply dict_get_None. lia.
  - simpl. lia.
Qed.

(** X12. [_enforce_min_workers_per_type] on a context with well-formed node
    type configs: the nodes of the context are kept as they are, and in
    front of them come new nodes to launch, for every node type exactly as
    many as the non-terminating nodes of the type fall short of
    [min_worker_nodes] (none for a type without a config); afterwards every
    configured node type has at least [min_worker_nodes] non-terminating
    nodes.  The phase never raises. *)
Theorem enforce_min_workers_reaches_min ctx s :
  ctx_ok ctx s → wf_configs (_node_type_configs ctx) →
  ∃ ctx' s' added,
    _enforce_min_workers_per_type ctx s = Ok (ctx', s')
    ∧ metas (heap s') (_nodes ctx')
      = map launch_meta added ++ metas (heap s) (_nodes ctx)
    ∧ (∀ N, Z.of_nat (count_key N added)
            = match dict_get (_node_type_configs ctx) N with
              | Some c =>
                  Z.max 0 (min_worker_nodes c
                           - Z.of_nat (count_type N (vals (heap s) (_nodes ctx))))
              | None => 0
              end)
    ∧ (∀ N c, dict_get (_node_type_configs ctx) N = Some c →
              min_worker_nodes c
              ≤ Z.of_nat (count_type N (vals (heap s') (_nodes ctx')))).
Proof.
  intros [Hv _] Hwf. unfold _enforce_min_workers_per_type, get_cluster_shape.
  rewrite bind_unfold, bind_unfold. unfold load_all at 1. cbn beta iota.
  rewrite ret_unfold. cbn beta iota. rewrite bind_unfold.
  set (shape := foldl (λ d n, if bool_decide (status n = TO_TERMINATE) then d
                              else dict_add d (node_type n) 1) []
                      (vals (heap s) (_nodes ctx))).
  destruct (min_workers_loop_added shape (_node_type_configs ctx) [] s)
    as (new & s1 & Hrun & Hext & Hvn & Hm); [by apply Forall_nil|].
  match goal with
  | |- context [foldM ?f [] ?c s] =>
      replace (foldM f [] c s) with (Ok (new, s1) : result (list nat * state))
        by (symmetry; exact Hrun)
  end.
  cbn beta iota. unfold get_nodes.
  assert (valid (heap s1) (_nodes ctx)) as Hv1 by by eapply extends_valid.
  destruct (deepcopy_spec _ s1 Hv1) as (l' & ext & Hcopy & Hlen & Hvals & Hfresh).
  rewrite bind_unfold, Hcopy. cbn beta iota. rewrite update_run.
  set (added := flat_map (λ kc, replicate
                                  (Z.to_nat (min_worker_nodes kc.2
                                             - default 0 (dict_get shape kc.1)))
                                  (name kc.2)) (_node_type_configs ctx)) in *.
  assert (metas (heap s1 ++ ext) (new ++ l')
          = map launch_meta added ++ metas (heap s) (_nodes ctx)) as Hmetas.
  { rewrite metas_app. f_equal.
    - rewrite (metas_extends (heap s1)); [|apply extends_app|done]. by rewrite Hm.
    - rewrite metas_vals, Hvals, <-metas_vals.
      by rewrite (metas_extends (heap s) (heap s1)). }
  assert (∀ N, Z.of_nat (count_key N added)
               = match dict_get (_node_type_configs ctx) N with
                 | Some c =>
                     Z.max 0 (min_worker_nodes c
                              - Z.of_nat (count_type N (vals (heap s) (_nodes ctx))))
                 | None => 0
                 end) as Hcount.
  { intros N. unfold added.
    rewrite (count_key_min_workers (λ k, default 0 (dict_get shape k))) by done.
    destruct (dict_get (_node_type_configs ctx) N); [|done].
    pose proof (cluster_shape_fold N (vals (heap s) (_nodes ctx)) []) as Hs.
    unfold avail_of in Hs. simpl in Hs. fold shape in Hs. rewrite Hs. lia. }
  eexists _, _, added. split; [done|]. simpl. split_and!; [done|done|].
  intros N c Hget. rewrite count_type_meta, <-metas_vals, Hmetas, count_meta_app.
  rewrite count_meta_launch, metas_vals, <-count_type_meta.
  specialize (Hcount N). rewrite Hget in Hcount. lia.
Qed.

(** X13. [_enforce_max_workers_per_type] never raises (the assertion on the
    number of nodes holds) and only marks nodes: the nodes of the context
    afterwards are the nodes before, in some order, each left as it was or,
    if it was not terminating, marked TO_TERMINATE; and every node type then
    has at most [max_worker_nodes] non-terminating nodes, none if the type
    has no config or a negative maximum. *)
Theorem enforce_max_per_type_bounds ctx s :
  valid (heap s) (_nodes ctx) →
  ∃ ctx' s',
    _enforce_max_workers_per_type ctx s = Ok (ctx', s')
    ∧ marked_of (vals (heap s) (_nodes ctx)) (vals (heap s') (_nodes ctx'))
    ∧ ∀ N, Z.of_nat (count_type N (vals (heap s') (_nodes ctx')))
           ≤ Z.max 0 (max_workers_of (_node_type_configs ctx) N).
Proof.
  intros Hv.
  destruct (enforce_max_per_type_spec ctx s Hv)
    as (nodes' & s' & Hrun & _ & _ & Hm & Hb).
  by eexists _, _.
Qed.

Lemma count_live_refs (h : list SchedulingNode) (l : list nat) :
  count_live (vals h l) = length (non_terminating_of h l).
Proof.
  unfold count_live, non_terminating_of. induction l as [|r l IH]; [done|].
  simpl. rewrite !filter_cons. destruct (decide _); simpl; by rewrite IH.
Qed.

Lemma count_live_app l l' :
  count_live (l ++ l') = (count_live l + count_live l')%nat.
Proof. unfold count_live. by rewrite filter_app, length_app. Qed.

Lemma count_live_none l :
  Forall (λ n, status n = TO_TERMINATE) l → count_live l = 0%nat.
Proof.
  unfold count_live. induction 1 as [|n l Hn _ IH]; [done|].
  rewrite filter_cons, decide_False; [done|]. by intros ?.
Qed.

Lemma count_live_le l : (count_live l ≤ length l)%nat.
Proof. unfold count_live. apply length_filter. Qed.

(** X14. [_enforce_max_workers_global] never raises.  Without
    [max_num_nodes], or with [max_num_nodes = 0], it leaves the context as it
    is (zero means no limit); otherwise the context has at most
    [max_num_nodes] non-terminating nodes afterwards, none for a negative
    value. *)
Theorem enforce_max_global_caps ctx s :
  valid (heap s) (_nodes ctx) →
  ∃ ctx' s',
    _enforce_max_workers_global ctx s = Ok (ctx', s')
    ∧ match _max_num_nodes ctx with
      | None => ctx' = ctx
      | Some m =>
          if decide (m = 0) then ctx' = ctx
          else Z.of_nat (count_live (vals (heap s') (_nodes ctx'))) ≤ Z.max 0 m
      end.
Proof.
  intros Hv. unfold _enforce_max_workers_global, get_nodes.
  destruct (deepcopy_spec _ s Hv) as (all_nodes & ext & Hcopy & Hlen & Hvals & Hfresh).
  rewrite bind_unfold, Hcopy. cbn beta iota. rewrite bind_unfold. cbn beta iota.
  set (s1 := set_heap s (heap s ++ ext)) in *. simpl.
  set (T := terminating_of (heap s ++ ext) all_nodes).
  set (NT := non_terminating_of (heap s ++ ext) all_nodes).
  set (k := match _max_num_nodes ctx with
            | Some m => if bool_decide (m = 0) then 0
                        else Z.max (Z.of_nat (length NT) - m) 0
            | None => 0
            end).
  assert (valid (heap s1) all_nodes) as Hv1.
  { unfold valid. eapply Forall_impl; [exact Hfresh|]. simpl. intros; lia. }
  assert (count_live (vals (heap s ++ ext) (_nodes ctx)) = length NT) as Hlive.
  { rewrite (extends_vals (heap s)); [|apply extends_app|done].
    rewrite <-Hvals. apply count_live_refs. }
  case_bool_decide as Hk.
  { exists ctx, s1. split; [done|]. subst k.
    destruct (_max_num_nodes ctx) as [m|]; [|done].
    destruct (decide (m = 0)) as [->|Hm]; [done|].
    rewrite bool_decide_eq_false_2 in Hk by done. simpl. rewrite Hlive. lia. }
  assert (valid (heap s1) NT) as HvNT.
  { eapply valid_subseteq; [|exact Hv1]. apply list_subseteq_filter. }
  destruct (select_spec NT k MAX_NUM_NODES (_max_num_nodes ctx) None s1 HvNT)
    as (s2 & Hsel & Hlen2 & Henv2 & Hrel); [lia|left|].
  simpl in Hsel, Hrel.
  set (sorted := sort_for_termination (heap s ++ ext) NT) in *.
  rewrite bind_unfold, Hsel. cbn beta iota.
  assert (sorted ≡ₚ NT) as Hsorted by apply sort_for_termination_perm.
  assert ((T ++ take (Z.to_nat k) sorted) ++ drop (Z.to_nat k) sorted ≡ₚ all_nodes)
    as Hperm.
  { rewrite <-app_assoc, take_drop, Hsorted. apply partition_by_status_perm. }
  rewrite bind_unfold. rewrite bool_decide_eq_true_2.
  2:{ by rewrite Hperm. }
  simpl. rewrite update_run.
  eexists _, s2. split; [done|]. simpl. subst k.
  destruct (_max_num_nodes ctx) as [m|]; [|done].
  destruct (decide (m = 0)) as [->|Hm];
    [by rewrite bool_decide_eq_true_2 in Hk|].
  rewrite bool_decide_eq_false_2 in Hk, Hrel |- * by done.
  set (k := Z.max (Z.of_nat (length NT) - m) 0) in *.
  rewrite !map_app, !count_live_app.
  assert (∀ r, status (heap s1 !!! r) = TO_TERMINATE ∨ r ∈ take (Z.to_nat k) sorted →
               status (heap s2 !!! r) = TO_TERMINATE) as Hdead.
  { intros r Hr. destruct (decide (r ∈ take (Z.to_nat k) sorted)) as [Hin|Hnin].
    - destruct (proj1 (Hrel r) Hin) as [t ->]. done.
    - rewrite (proj2 (Hrel r) Hnin). by destruct Hr. }
  rewrite (count_live_none (vals (heap s2) T)).
  2:{ apply Forall_fmap, Forall_forall. intros r Hin. apply Hdead. left.
      unfold T, terminating_of in Hin. by apply list_elem_of_filter in Hin as [? _]. }
  rewrite (count_live_none (vals (heap s2) (take _ _))).
  2:{ apply Forall_fmap, Forall_forall. intros r Hin. apply Hdead. by right. }
  pose proof (count_live_le (vals (heap s2) (drop (Z.to_nat k) sorted))) as Hle.
  rewrite length_map, length_drop in Hle.
  apply Permutation_length in Hsorted. lia.
Qed.

(** X15. [_terminate_outdated_nodes] never raises and marks exactly the
    running nodes that are outdated: node by node, in the order of the
    context, a RUNNING node whose type has no config, or whose config
    declares a launch config hash that is not empty and differs from the
    hash of the node, becomes TO_TERMINATE with a request of cause OUTDATED
    that carries its instance id and ray node id; every other node (not
    RUNNING, or with a config that declares no hash or the hash of the
    node) is left as it is. *)
Theorem terminate_outdated_marks_exactly ctx s :
  valid (heap s) (_nodes ctx) →
  ∃ ctx' s',
    _terminate_outdated_nodes ctx s = Ok (ctx', s')
    ∧ Forall2
        (λ n n',
           let outdated :=
             status n = RUNNING
             ∧ (dict_get (_node_type_configs ctx) (node_type n) = None
                ∨ ∃ cfg, dict_get (_node_type_configs ctx) (node_type n) = Some cfg
                         ∧ config_launch_config_hash cfg ≠ EmptyString
                         ∧ Some (config_launch_config_hash cfg)
                           ≠ launch_config_hash n) in
           (outdated →
            ∃ t, n' = set_termination n
                        {| tr_id := t;
                           tr_instance_id := default EmptyString (im_instance_id n);
                           tr_ray_node_id := default EmptyString (ray_node_id n);
                           cause := OUTDATED; tr_max_num_nodes := None;
                           tr_max_num_nodes_per_type := None;
                           tr_idle_duration_ms := None |})
           ∧ (¬ outdated → n' = n))
        (vals (heap s) (_nodes ctx)) (vals (heap s') (_nodes ctx')).
Proof.
  intros Hv.
  destruct (terminate_outdated_spec ctx s Hv) as (nodes' & s' & Hrun & _ & _ & Hrel).
  eexists _, _. split; [done|]. simpl.
  eapply Forall2_impl; [exact Hrel|]. intros n n' Hm.
  unfold marked_by, is_outdated in Hm.
  assert (∀ x : string, str_truthy x = true ↔ x ≠ EmptyString) as Htruthy.
  { intros x. unfold str_truthy. destruct x; simpl; split; (done || congruence). }
  destruct (bool_decide (status n = RUNNING)) eqn:Hst; simpl in Hm.
  - apply bool_decide_eq_true in Hst.
    destruct (dict_get (_node_type_configs ctx) (node_type n)) as [cfg|] eqn:Hget.
    + destruct (str_truthy (config_launch_config_hash cfg)) eqn:Htr; simpl in Hm.
      * apply Htruthy in Htr. case_bool_decide as Hh; simpl in Hm.
        -- subst n'. split; [|done].
           intros (_ & [?|(cfg' & [= <-] & _ & Hne)]); [done|]. by destruct Hne.
        -- split; [by intros _|]. intros Hno. destruct Hno.
           split; [done|]. right. by exists cfg.
      * subst n'. split; [|done].
        intros (_ & [?|(cfg' & [= <-] & Hne & _)]); [done|].
        apply Htruthy in Hne. congruence.
    + split; [by intros _|]. intros Hno. destruct Hno. split; [done|by left].
  - apply bool_decide_eq_false in Hst. subst n'. split; [|done].
    by intros [? _].
Qed.

(** X16. Without an idle timeout [_enforce_idle_termination] terminates
    nothing: it returns, and the nodes of the context are as they were. *)
Theorem idle_termination_disabled ctx s :
  valid (heap s) (_nodes ctx) → _idle_timeout_s ctx = None →
  ∃ ctx' s',
    _enforce_idle_termination ctx s = Ok (ctx', s')
    ∧ vals (heap s') (_nodes ctx') = vals (heap s) (_nodes ctx).
Proof.
  intros Hv Hnone.
  destruct (enforce_idle_termination_spec ctx s Hv)
    as (nodes' & s' & Hrun & _ & _ & Hrel).
  eexists _, _. split; [done|]. simpl. symmetry.
  apply list_eq_Forall2. eapply Forall2_impl; [exact Hrel|]. intros n n' Hm.
  unfold marked_by, idle_terminated in Hm. rewrite Hnone, andb_false_r in Hm.
  done.
Qed.

(** X17. [_enforce_resource_constraints] is all or nothing: when it reports
    the constraint as infeasible it returns the context it was given, and the
    reported list is the list of constraints it was given.  In every case the
    node objects of the context it was given are left as they were: the
    bin-packing works on copies. *)
Theorem enforce_resource_constraints_all_or_nothing ctx cs s ctx' inf s' :
  valid (heap s) (_nodes ctx) →
  _enforce_resource_constraints ctx cs s = Ok ((ctx', inf), s') →
  (inf = [] ∨ (inf = cs ∧ ctx' = ctx))
  ∧ vals (heap s') (_nodes ctx) = vals (heap s) (_nodes ctx).
Proof.
  intros Hv Hrun. unfold _enforce_resource_constraints in Hrun.
  rewrite bind_unfold in Hrun.
  destruct (assert _ s) as [[u s0]|] eqn:Hassert; [|done].
  apply assert_inv in Hassert as [Hlen ->]. cbn beta iota in Hrun.
  apply bool_decide_eq_true in Hlen.
  destruct cs as [|constraint cs].
  - injection Hrun as <- <- <-. split; [by left|done].
  - destruct cs; [|simpl in Hlen; lia].
    rewrite bind_unfold in Hrun.
    destruct (_try_schedule _ _ _ s) as [[[target rs'] s1]|] eqn:Htry; [|done].
    cbn beta iota in Hrun.
    destruct (try_schedule_incl _ _ _ _ _ _ _ Htry Hv) as (Hext & _).
    destruct rs'.
    + rewrite bind_unfold, update_run in Hrun. injection Hrun as <- <- <-.
      split; [by left|]. by apply extends_vals.
    + injection Hrun as <- <- <-. split; [by right|]. by apply extends_vals.
Qed.

Lemma launch_fold_spec (vs : list SchedulingNode) : ∀ d0,
  NoDup (dict_keys d0) →
  let d := foldl (λ d n, if bool_decide (status n = TO_LAUNCH)
                         then dict_add d (node_type n) 1 else d) d0 vs in
  NoDup (dict_keys d)
  ∧ (∀ N, avail_of d N = avail_of d0 N + Z.of_nat (count_launch N vs))
  ∧ (∀ N, N ∈ dict_keys d → N ∈ dict_keys d0 ∨ (0 < count_launch N vs)%nat).
Proof.
  induction vs as [|n vs IH]; intros d0 Hnd; simpl.
  - split_and!; [done| |by left]. intros N. unfold count_launch. simpl. lia.
  - unfold count_launch. setoid_rewrite filter_cons.
    case_bool_decide as Hst.
    + destruct (IH (dict_add d0 (node_type n) 1)) as (Hnd' & Hav & Hkeys).
      { by apply NoDup_dict_set. }
      split_and!; [done| |].
      * intros N. rewrite Hav. unfold count_launch.
        destruct (decide (node_type n = N)) as [<-|Hne].
        -- rewrite decide_True by done. rewrite avail_of_add_eq. simpl. lia.
        -- rewrite decide_False by tauto. by rewrite avail_of_add_ne.
      * intros N HN. destruct (decide (node_type n = N)) as [<-|Hne].
        -- right. rewrite decide_True by done. simpl. lia.
        -- rewrite decide_False by tauto.
           destruct (Hkeys N HN) as [Hin|Hpos]; [|by right]. left.
           unfold dict_add in Hin. rewrite dict_keys_set in Hin.
           case_bool_decide; [done|].
           apply elem_of_app in Hin as [?|?%list_elem_of_singleton]; [done|].
           by subst.
    + destruct (IH d0 Hnd) as (Hnd' & Hav & Hkeys).
      split_and!; [done| |].
      * intros N. rewrite decide_False by tauto. apply Hav.
      * intros N HN. rewrite decide_False by tauto. by apply Hkeys.
Qed.

Lemma get_launch_requests_spec ctx s :
  ∃ l s',
    get_launch_requests ctx s = Ok (l, s') ∧ heap s' = heap s
    ∧ NoDup (map lr_instance_type l)
    ∧ (∀ q, q ∈ l →
         0 < lr_count q
         ∧ lr_count q = Z.of_nat (count_launch (lr_instance_type q)
                                    (vals (heap s) (_nodes ctx))))
    ∧ (∀ N, (0 < count_launch N (vals (heap s) (_nodes ctx)))%nat →
            N ∈ map lr_instance_type l).
Proof.
  unfold get_launch_requests. rewrite bind_unfold. unfold load_all at 1.
  cbn beta iota. fold (vals (heap s) (_nodes ctx)).
  set (vs := vals (heap s) (_nodes ctx)).
  destruct (launch_fold_spec vs []) as (Hnd & Hav & Hkeys); [constructor|].
  simpl in Hnd, Hav, Hkeys.
  match goal with
  | |- context [mapM _ ?d s] =>
      set (D := d) in *;
      destruct (launch_requests_run D s) as (out & s1 & Heq & Hh & _ & Hout)
  end.
  rewrite Heq. exists out, s1. split; [done|]. split; [done|].
  assert (dict_keys D = map lr_instance_type out) as Hk.
  { unfold dict_keys. rewrite <-Hout, map_map. done. }
  split_and!.
  - by rewrite <-Hk.
  - intros q Hq.
    assert ((lr_instance_type q, lr_count q) ∈ D) as Hin.
    { rewrite <-Hout. apply list_elem_of_fmap. by exists q. }
    assert (avail_of D (lr_instance_type q) = lr_count q) as Hget.
    { unfold avail_of. by rewrite (dict_get_NoDup_elem D _ _ Hnd Hin). }
    rewrite Hav in Hget. unfold avail_of in Hget. simpl in Hget.
    destruct (Hkeys (lr_instance_type q)) as [Hnil|Hpos].
    { rewrite Hk. apply list_elem_of_fmap. by exists q. }
    { by apply elem_of_nil in Hnil. }
    lia.
  - intros N Hpos. rewrite <-Hk.
    destruct (dict_get D N) as [c|] eqn:Hget.
    + apply dict_get_Some_elem in Hget. unfold dict_keys.
      apply list_elem_of_fmap. by exists (N, c).
    + pose proof (Hav N) as HN. unfold avail_of in HN. rewrite Hget in HN.
      simpl in HN. lia.
Qed.

(** X18. [get_launch_requests] never raises, leaves the nodes as they are
    and returns one launch request per node type that has nodes to launch:
    no two requests are for the same type, the count of a request is the
    number of TO_LAUNCH nodes of its type, which is positive, and every type
    with a TO_LAUNCH node has its request. *)
Theorem get_launch_requests_counts ctx s :
  ∃ l s',
    get_launch_requests ctx s = Ok (l, s') ∧ heap s' = heap s
    ∧ NoDup (map lr_instance_type l)
    ∧ (∀ q, q ∈ l →
         0 < lr_count q
         ∧ lr_count q = Z.of_nat (count_launch (lr_instance_type q)
                                    (vals (heap s) (_nodes ctx))))
    ∧ (∀ N, (0 < count_launch N (vals (heap s) (_nodes ctx)))%nat →
            N ∈ map lr_instance_type l).
Proof. apply get_launch_requests_spec. Qed.

Lemma count_launch_le_type N vs : (count_launch N vs ≤ count_type N vs)%nat.
Proof.
  unfold count_launch, count_type. induction vs as [|n vs IH]; [done|].
  rewrite !filter_cons.
  destruct (decide (status n = TO_LAUNCH ∧ node_type n = N)) as [[Hst HN]|Hno].
  - rewrite decide_True; [simpl; lia|]. split; [congruence|done].
  - destruct (decide _); simpl; lia.
Qed.

Lemma schedule_ctx_launches req s0 reply ctx s :
  schedule_ctx req s0 = Ok ((reply, ctx), s) →
  ∃ s1, get_launch_requests ctx s1 = Ok (to_launch reply, s).
Proof.
  intros Hrun. unfold schedule_ctx in Hrun.
  apply bind_inv in Hrun as (ctx0 & sa & H0 & Hrun).
  apply bind_inv in Hrun as (ctx1 & sb & H1 & Hrun).
  apply bind_inv in Hrun as (ctx2 & sc & H2 & Hrun).
  apply bind_inv in Hrun as (ctx3 & sd & H3 & Hrun).
  apply bind_inv in Hrun as (ctx4 & se & H4 & Hrun).
  apply bind_inv in Hrun as ([ctx5 inf5] & sf & H5 & Hrun).
  apply bind_inv in Hrun as ([ctx6 inf6] & sg & H6 & Hrun).
  apply bind_inv in Hrun as ([ctx7 inf7] & sh & H7 & Hrun).
  apply bind_inv in Hrun as (ctx8 & si & H8 & Hrun).
  apply bind_inv in Hrun as (launches & sj & H9 & Hrun).
  apply bind_inv in Hrun as (terms & sk & H10 & Hrun).
  rewrite ret_unfold in Hrun. injection Hrun as <- <- <-.
  unfold get_terminate_requests in H10. rewrite bind_unfold in H10.
  unfold load_all at 1 in H10. cbn beta iota in H10. rewrite ret_unfold in H10.
  injection H10 as <- <-. by exists si.
Qed.

(** X19. The launch requests of a reply of [schedule], for a request with
    well-formed node type configs: no two of them are for the same node type,
    and each asks for at least one node and for at most [max_worker_nodes]
    nodes of its type, which therefore has a config. *)
Theorem schedule_launches_within_max time conserve_gpu_nodes req reply :
  wf_configs (node_type_configs req) →
  schedule time conserve_gpu_nodes req = Ok reply →
  NoDup (map lr_instance_type (to_launch reply))
  ∧ ∀ q, q ∈ to_launch reply →
      1 ≤ lr_count q ≤ max_workers_of (node_type_configs req) (lr_instance_type q)
      ∧ is_Some (dict_get (node_type_configs req) (lr_instance_type q)).
Proof.
  intros Hwf Hrun. unfold schedule in Hrun.
  destruct (schedule_ctx req _) as [[[reply' ctx] s]|] eqn:Hctx; [|done].
  injection Hrun as ->.
  destruct (schedule_ctx_launches _ _ _ _ _ Hctx) as (s1 & Hl).
  apply schedule_ctx_spec in Hctx as (Hb & _). specialize (Hb Hwf).
  destruct (get_launch_requests_spec ctx s1) as (l & s' & Hl' & Hh & Hnd & Hq & _).
  rewrite Hl in Hl'. injection Hl' as <- <-. split; [done|].
  intros q Hin. destruct (Hq q Hin) as [Hpos Hcount].
  rewrite <-Hh in Hcount.
  pose proof (Hb (lr_instance_type q)) as Hmax.
  pose proof (count_launch_le_type (lr_instance_type q) (vals (heap s) (_nodes ctx))).
  split; [lia|].
  unfold max_workers_of in Hmax.
  destruct (dict_get (node_type_configs req) (lr_instance_type q)); [done|lia].
Qed.

(** X20. [get_nodes] hands out copies: the nodes it returns are new objects,
    none of them an object that was there before, with the values of the
    nodes of the context, position by position; the nodes of the context are
    left as they were. *)
Theorem get_nodes_returns_copies ctx s :
  valid (heap s) (_nodes ctx) →
  ∃ l s',
    get_nodes ctx s = Ok (l, s')
    ∧ vals (heap s') l = vals (heap s) (_nodes ctx)
    ∧ vals (heap s') (_nodes ctx) = vals (heap s) (_nodes ctx)
    ∧ Forall (λ r, length (heap s) ≤ r < length (heap s'))%nat l.
Proof.
  intros Hv. unfold get_nodes.
  destruct (deepcopy_spec _ s Hv) as (l & ext & Hcopy & _ & Hvals & Hfresh).
  exists l, (set_heap s (heap s ++ ext)). split; [done|]. simpl.
  split; [done|]. split; [|done].
  apply extends_vals; [apply extends_app|done].
Qed.

(** *** What [schedule] reports as infeasible *)

Lemma try_schedule_requests ctx rs c s target rs' s' :
  _try_schedule ctx rs c s = Ok ((target, rs'), s') → rs' ⊆+ rs.
Proof.
  unfold _try_schedule, get_nodes. rewrite bind_unfold. unfold deepcopy at 1.
  destruct (deepcopy_loop _ _ _) as [h' out]. cbn beta iota. rewrite bind_unfold.
  destruct (sched_existing_loop _ _ out [] c _) as [[[[rs1 ex1] tg1] s2]|] eqn:Hloop1;
    [|done].
  cbn beta iota. apply sched_existing_loop_requests in Hloop1.
  rewrite bind_unfold.
  destruct (foldM _ [] (get_node_type_available ctx) s2) as [[pools s3]|]; [|done].
  cbn beta iota. intros [Hsub _]%sched_new_loop_requests.
  apply sublist_submseteq in Hsub, Hloop1.
  etrans; [exact Hsub|]. etrans; [exact Hloop1|].
  unfold sort_requests, py_sort_reverse. by rewrite py_sort_perm.
Qed.

Lemma enforce_resource_constraints_reports ctx cs s ctx' inf s' :
  _enforce_resource_constraints ctx cs s = Ok ((ctx', inf), s') →
  inf = [] ∨ inf = cs.
Proof.
  unfold _enforce_resource_constraints. rewrite bind_unfold.
  destruct (assert _ s) as [[u s0]|] eqn:Hassert; [|done].
  apply assert_inv in Hassert as [Hlen ->]. cbn beta iota.
  apply bool_decide_eq_true in Hlen.
  destruct cs as [|constraint cs]; [intros [= _ <- _]; by left|].
  destruct cs; [|simpl in Hlen; lia].
  rewrite bind_unfold.
  destruct (_try_schedule _ _ _ s) as [[[target rs'] s1]|]; [|done].
  cbn beta iota. destruct rs'.
  - rewrite bind_unfold, update_run. intros [= _ <- _]. by left.
  - intros [= _ <- _]. by right.
Qed.

Lemma sched_gang_loop_reports gangs : ∀ ctx inf s ctx' inf' s',
  foldM (λ (acc : ScheduleContext * list GangResourceRequest) gang_req,
           let rs := combine_requests_with_affinity (requests gang_req) in
           '(nodes, infeasible) ← _try_schedule acc.1 rs false;
           match infeasible with
           | _ :: _ => mret (acc.1, acc.2 ++ [gang_req])
           | [] => ctx' ← update acc.1 nodes; mret (ctx', acc.2)
           end) (ctx, inf) gangs s = Ok ((ctx', inf'), s') →
  ∃ l, inf' = inf ++ l ∧ l `sublist_of` gangs.
Proof.
  induction gangs as [|g gangs IH]; intros ctx inf s ctx' inf' s' Hrun;
    simpl in Hrun.
  - injection Hrun as _ <- _. exists []. by rewrite app_nil_r.
  - rewrite bind_unfold in Hrun. rewrite bind_unfold in Hrun.
    destruct (_try_schedule _ _ _ s) as [[[target rs'] s1]|]; [|done].
    cbn beta iota in Hrun. destruct rs'.
    + rewrite bind_unfold, update_run in Hrun. cbn beta iota in Hrun.
      rewrite ret_unfold in Hrun. cbn beta iota in Hrun.
      destruct (IH _ _ _ _ _ _ Hrun) as (l & -> & Hl).
      exists l. split; [done|]. by apply sublist_cons.
    + rewrite ret_unfold in Hrun. cbn beta iota in Hrun.
      destruct (IH _ _ _ _ _ _ Hrun) as (l & -> & Hl).
      exists (g :: l). split; [by rewrite <-app_assoc|]. by apply sublist_skip.
Qed.

(** X21. What a reply of [schedule] reports as infeasible was requested: the
    infeasible cluster resource constraints are none or the constraints of
    the request, the infeasible gang requests are among the gang requests of
    the request, each at most as often as it was requested, and the
    infeasible resource requests are the grouping by count of requests that
    are among the ungrouped resource requests of the request. *)
Theorem schedule_reports_requested time conserve_gpu_nodes req reply :
  schedule time conserve_gpu_nodes req = Ok reply →
  (infeasible_cluster_resource_constraints reply = []
   ∨ infeasible_cluster_resource_constraints reply
     = cluster_resource_constraints req)
  ∧ infeasible_gang_resource_requests reply ⊆+ gang_resource_requests req
  ∧ ∃ inf, infeasible_resource_requests reply = group_by_count inf
           ∧ inf ⊆+ ungroup_by_count (resource_requests req).
Proof.
  unfold schedule.
  destruct (schedule_ctx req _) as [[[reply' ctx] s]|] eqn:Hrun; [|done].
  intros [= ->]. unfold schedule_ctx in Hrun.
  apply bind_inv in Hrun as (ctx0 & sa & H0 & Hrun).
  apply bind_inv in Hrun as (ctx1 & sb & H1 & Hrun).
  apply bind_inv in Hrun as (ctx2 & sc & H2 & Hrun).
  apply bind_inv in Hrun as (ctx3 & sd & H3 & Hrun).
  apply bind_inv in Hrun as (ctx4 & se & H4 & Hrun).
  apply bind_inv in Hrun as ([ctx5 inf5] & sf & H5 & Hrun).
  apply bind_inv in Hrun as ([ctx6 inf6] & sg & H6 & Hrun).
  apply bind_inv in Hrun as ([ctx7 inf7] & sh & H7 & Hrun).
  apply bind_inv in Hrun as (ctx8 & si & H8 & Hrun).
  apply bind_inv in Hrun as (launches & sj & H9 & Hrun).
  apply bind_inv in Hrun as (terms & sk & H10 & Hrun).
  rewrite ret_unfold in Hrun. injection Hrun as <- _ _. simpl.
  split_and!.
  - by eapply enforce_resource_constraints_reports.
  - unfold _sched_gang_resource_requests in H6.
    apply sched_gang_loop_reports in H6 as (l & -> & Hl). simpl.
    apply sublist_submseteq in Hl. etrans; [exact Hl|].
    unfold py_sort_reverse. by rewrite py_sort_perm.
  - exists inf7. split; [done|].
    unfold _sched_resource_requests in H7. rewrite bind_unfold in H7.
    destruct (_try_schedule _ _ _ sg) as [[[target rs'] s1]|] eqn:Htry; [|done].
    cbn beta iota in H7. rewrite bind_unfold, update_run in H7.
    injection H7 as _ <- _. by eapply try_schedule_requests.
Qed.

(** *** The reconciler *)

Lemma dict_set_elem {K V} `{EqDecision K} (d : list (K * V)) k v k' v' :
  (k', v') ∈ dict_set d k v → (k' = k ∧ v' = v) ∨ (k', v') ∈ d.
Proof.
  induction d as [|[k0 v0] d IH]; simpl.
  - intros Hin. apply list_elem_of_singleton in Hin as [= -> ->]. by left.
  - destruct (decide (k0 = k)) as [->|Hne].
    + intros [[= -> ->]|Hin]%elem_of_cons; [by left|right; by right].
    + intros [[= -> ->]|Hin]%elem_of_cons; [right; left|].
      destruct (IH Hin) as [?|?]; [by left|right; by right].
Qed.

Lemma dict_keys_set_mono {K V} `{EqDecision K} (d : list (K * V)) k v k0 :
  k0 ∈ dict_keys d → k0 ∈ dict_keys (dict_set d k v).
Proof.
  intros Hin. rewrite dict_keys_set. case_bool_decide; [done|].
  apply elem_of_app. by left.
Qed.

Lemma dict_keys_set_here {K V} `{EqDecision K} (d : list (K * V)) k v :
  k ∈ dict_keys (dict_set d k v).
Proof.
  rewrite dict_keys_set. case_bool_decide; [done|].
  apply elem_of_app. right. by apply list_elem_of_singleton.
Qed.

Section dict_fold.
Context {A K : Type} `{EqDecision K} (c : A → bool) (key : A → K).

Lemma dict_fold_elem (l : list A) : ∀ d0 k v,
  (k, v) ∈ foldl (λ d x, if c x then dict_set d (key x) x else d) d0 l →
  (k, v) ∈ d0 ∨ (v ∈ l ∧ c v = true ∧ key v = k).
Proof.
  induction l as [|x l IH]; intros d0 k v; simpl; [by left|].
  intros Hin. destruct (IH _ _ _ Hin) as [Hd|(? & ? & ?)].
  - destruct (c x) eqn:Hc; [|by left].
    apply dict_set_elem in Hd as [[-> ->]|?]; [|by left].
    right. split_and!; [left|done..].
  - right. split_and!; [by right|done..].
Qed.

Lemma dict_fold_keys_mono (l : list A) : ∀ d0 k,
  k ∈ dict_keys d0 →
  k ∈ dict_keys (foldl (λ d x, if c x then dict_set d (key x) x else d) d0 l).
Proof.
  induction l as [|x l IH]; intros d0 k Hin; simpl; [done|].
  apply IH. destruct (c x); [by apply dict_keys_set_mono|done].
Qed.

Lemma dict_fold_key (l : list A) : ∀ d0 x,
  x ∈ l → c x = true →
  key x ∈ dict_keys (foldl (λ d x, if c x then dict_set d (key x) x else d) d0 l).
Proof.
  induction l as [|y l IH]; intros d0 x Hin Hc; [by apply elem_of_nil in Hin|].
  simpl. apply elem_of_cons in Hin as [<-|Hin]; [|by apply IH].
  apply dict_fold_keys_mono. rewrite Hc. apply dict_keys_set_here.
Qed.

Lemma dict_fold_NoDup (l : list A) : ∀ d0,
  NoDup (dict_keys d0) →
  NoDup (dict_keys (foldl (λ d x, if c x then dict_set d (key x) x else d) d0 l)).
Proof.
  induction l as [|x l IH]; intros d0 Hnd; simpl; [done|].
  apply IH. destruct (c x); [by apply NoDup_dict_set|done].
Qed.
End dict_fold.

Lemma install_failed_loop (errors : list (string * RayInstallError))
    (l : list (string * IMInstance)) : ∀ u0,
  let u :=
    foldl (λ updates (p : string * IMInstance),
             match dict_get errors p.1 with
             | Some install_error =>
                 dict_set updates p.1
                   {| ev_instance_id := p.1;
                      new_instance_status := RAY_INSTALL_FAILED;
                      ev_cloud_instance_id := EmptyString;
                      ev_details := rie_details install_error |}
             | None => updates
             end) u0 l in
  (NoDup (dict_keys u0) → NoDup (dict_keys u))
  ∧ (∀ id ev, (id, ev) ∈ u →
       (id, ev) ∈ u0
       ∨ ∃ i e, (id, i) ∈ l ∧ dict_get errors id = Some e
                ∧ ev = {| ev_instance_id := id;
                          new_instance_status := RAY_INSTALL_FAILED;
                          ev_cloud_instance_id := EmptyString;
                          ev_details := rie_details e |})
  ∧ (∀ k, k ∈ dict_keys u0 → k ∈ dict_keys u)
  ∧ (∀ p, p ∈ l → is_Some (dict_get errors p.1) → p.1 ∈ dict_keys u).
Proof.
  induction l as [|[id0 i0] l IH]; intros u0; simpl.
  - split_and!; [done|by left|done|]. by intros p ?%elem_of_nil.
  - match goal with
    | |- context [foldl _ ?u1 l] => destruct (IH u1) as (Hnd & Hin & Hmono & Hkey)
    end.
    simpl in Hnd, Hin, Hmono, Hkey. split_and!.
    + intros Hnd0. apply Hnd. destruct (dict_get errors id0); [|done].
      by apply NoDup_dict_set.
    + intros id ev Hev. destruct (Hin id ev Hev) as [Hu|(i & e & Hl & He & ->)].
      * destruct (dict_get errors id0) as [e|] eqn:He; [|by left].
        apply dict_set_elem in Hu as [[-> ->]|?]; [|by left].
        right. exists i0, e. split_and!; [left|done..].
      * right. exists i, e. split_and!; [by right|done..].
    + intros k Hk. apply Hmono. destruct (dict_get errors id0); [|done].
      by apply dict_keys_set_mono.
    + intros p [->|Hp]%elem_of_cons Hsome; [|by apply Hkey].
      simpl in *. apply Hmono. destruct Hsome as [e ->]. apply dict_keys_set_here.
Qed.

(** X22. The events of [_handle_ray_install_failed]: there is at most one
    event per instance id; every event moves an instance that is
    RAY_INSTALLING and has an install error to RAY_INSTALL_FAILED, with the
    details of an error reported for it and no cloud instance id; and every
    RAY_INSTALLING instance with an install error gets an event. *)
Theorem install_failed_updates_exact instances errors :
  NoDup (dict_keys (install_failed_updates instances errors))
  ∧ (∀ id ev, (id, ev) ∈ install_failed_updates instances errors →
       ∃ i e, i ∈ instances ∧ instance_id i = id ∧ im_status i = RAY_INSTALLING
              ∧ e ∈ errors ∧ rie_im_instance_id e = id
              ∧ ev = {| ev_instance_id := id;
                        new_instance_status := RAY_INSTALL_FAILED;
                        ev_cloud_instance_id := EmptyString;
                        ev_details := rie_details e |})
  ∧ (∀ i e, i ∈ instances → im_status i = RAY_INSTALLING → e ∈ errors →
            rie_im_instance_id e = instance_id i →
            instance_id i ∈ dict_keys (install_failed_updates instances errors)).
Proof.
  unfold install_failed_updates.
  set (D := foldl (λ d i, if bool_decide (im_status i = RAY_INSTALLING)
                          then dict_set d (instance_id i) i else d) [] instances).
  set (E := foldl (λ d e, dict_set d (rie_im_instance_id e) e) [] errors).
  destruct (install_failed_loop E D []) as (Hnd & Hin & _ & Hkey).
  simpl in Hnd, Hin, Hkey.
  assert (∀ id e, (id, e) ∈ E → e ∈ errors ∧ rie_im_instance_id e = id) as HE.
  { intros id e He.
    apply (dict_fold_elem (λ _, true) rie_im_instance_id errors [] id e) in He
      as [He|(? & _ & ?)]; [by apply elem_of_nil in He|done]. }
  split_and!.
  - apply Hnd. constructor.
  - intros id ev Hev.
    destruct (Hin id ev Hev) as [Hnil|(i & e & Hi & He & ->)];
      [by apply elem_of_nil in Hnil|].
    apply (dict_fold_elem (λ i, bool_decide (im_status i = RAY_INSTALLING))
             instance_id instances [] id i) in Hi
      as [Hi|(Hi & Hst & Hid)]; [by apply elem_of_nil in Hi|].
    apply bool_decide_eq_true in Hst.
    apply dict_get_Some_elem, HE in He as [He Hid'].
    by exists i, e.
  - intros i e Hi Hst He Hid.
    assert (instance_id i ∈ dict_keys D) as HD.
    { apply (dict_fold_key (λ i, bool_decide (im_status i = RAY_INSTALLING))
               instance_id instances [] i Hi).
      by apply bool_decide_eq_true. }
    apply list_elem_of_fmap in HD as ([id' i'] & Hid'' & HD). simpl in Hid''.
    subst id'. apply (Hkey _ HD). simpl.
    apply dict_get_is_Some. rewrite <-Hid.
    by apply (dict_fold_key (λ _, true) rie_im_instance_id errors [] e He).
Qed.

(** X23. [_reconciled_im_status_from_ray_status] reaches a fixed point in
    one step: the status it returns is returned again when it is taken as
    the current status, so reconciling an instance that was just reconciled
    with the same ray status changes nothing. *)
Theorem reconciled_status_fixed ray_status cur_im_status st :
  _reconciled_im_status_from_ray_status ray_status cur_im_status = Some st →
  _reconciled_im_status_from_ray_status ray_status st = Some st.
Proof.
  unfold _reconciled_im_status_from_ray_status. intros Hrec.
  destruct ray_status; cbv beta iota zeta in Hrec |- *; [done|..];
    (destruct (bool_decide (cur_im_status = _) || _) eqn:Hkeep;
     injection Hrec as <-; [by rewrite Hkeep|by rewrite bool_decide_eq_true_2]).
Qed.

Lemma ray_nodes_by_cloud_instance_id_elem ray_nodes : ∀ d nodes cid n,
  ray_nodes_by_cloud_instance_id ray_nodes d = Ok nodes →
  (cid, n) ∈ nodes →
  (cid, n) ∈ d ∨ (n ∈ ray_nodes ∧ ns_instance_id n = cid).
Proof.
  induction ray_nodes as [|x l IH]; intros d nodes cid n; simpl.
  - intros [= <-] ?. by left.
  - destruct (str_truthy (ns_instance_id x)).
    + intros Hrun Hin. destruct (IH _ _ _ _ Hrun Hin) as [Hd|[? ?]].
      * apply dict_set_elem in Hd as [[-> ->]|?]; [|by left].
        right. split; [left|done].
      * right. split; [by right|done].
    + destruct (decode_utf8 (ns_node_id x)); [|done].
      intros Hrun Hin. destruct (IH _ _ _ _ Hrun Hin) as [?|[? ?]]; [by left|].
      right. split; [by right|done].
Qed.

Lemma ray_status_loop_inv (P : string → IMInstanceUpdateEvent → Prop)
    (D : list (CloudInstanceId * IMInstance)) nodes : ∀ updates res,
  ray_status_loop nodes D updates = Ok res →
  (∀ cid n i st node_id,
     (cid, n) ∈ nodes → dict_get D cid = Some i →
     _reconciled_im_status_from_ray_status (ns_status n) (im_status i) = Some st →
     st ≠ im_status i → decode_utf8 (ns_node_id n) = Ok node_id →
     P (instance_id i)
       {| ev_instance_id := instance_id i; new_instance_status := st;
          ev_cloud_instance_id := EmptyString;
          ev_details :=
            ("Reconciled from ray node status "
             ++ NodeStatus_Name (ns_status n)
             ++ " for ray node " ++ node_id)%string |}) →
  NoDup (dict_keys updates) → (∀ id ev, (id, ev) ∈ updates → P id ev) →
  NoDup (dict_keys res) ∧ ∀ id ev, (id, ev) ∈ res → P id ev.
Proof.
  induction nodes as [|[cid n] nodes IH]; intros updates res; simpl.
  - intros [= <-] _ Hnd HP. done.
  - intros Hrun Hstep Hnd HP.
    assert (∀ cid n i st node_id,
              (cid, n) ∈ nodes → dict_get D cid = Some i →
              _reconciled_im_status_from_ray_status (ns_status n) (im_status i)
              = Some st →
              st ≠ im_status i → decode_utf8 (ns_node_id n) = Ok node_id →
              P (instance_id i)
                {| ev_instance_id := instance_id i; new_instance_status := st;
                   ev_cloud_instance_id := EmptyString;
                   ev_details :=
                     ("Reconciled from ray node status "
                      ++ NodeStatus_Name (ns_status n)
                      ++ " for ray node " ++ node_id)%string |}) as Hstep'.
    { intros ? ? ? ? ? Hin. apply Hstep. by right. }
    destruct (dict_get D cid) as [i|] eqn:HD.
    + destruct (_reconciled_im_status_from_ray_status _ _) as [st|] eqn:Hrec;
        [|by eapply IH].
      case_bool_decide as Hst; [by eapply IH|].
      destruct (decode_utf8 (ns_node_id n)) as [node_id|] eqn:Hid; [|done].
      eapply IH; [exact Hrun|exact Hstep'|by apply NoDup_dict_set|].
      intros id ev [[-> ->]|Hin]%dict_set_elem; [|by apply HP].
      eapply Hstep; [left|done..].
    + destruct (decode_utf8 (ns_node_id n)); [|done]. by eapply IH.
Qed.

(** X24. The events that [_handle_ray_status_transition] computes, when it
    raises no exception: there is at most one event per instance id, under
    its own instance id and without a cloud instance id; the event is for an
    instance that is bound to the cloud instance a ray node reports, its new
    status is RAY_RUNNING, RAY_STOPPED or RAY_STOPPING as the status of that
    ray node maps, it differs from the current status of the instance, and
    the current status is not one that is reachable from it: an instance is
    never moved backwards. *)
Theorem ray_status_updates_sound instances ray_nodes updates :
  ray_status_updates instances ray_nodes = Ok updates →
  NoDup (dict_keys updates)
  ∧ ∀ id ev, (id, ev) ∈ updates →
      ev_instance_id ev = id ∧ ev_cloud_instance_id ev = EmptyString
      ∧ ∃ i n, i ∈ instances ∧ n ∈ ray_nodes ∧ instance_id i = id
               ∧ str_truthy (cloud_instance_id i) = true
               ∧ ns_instance_id n = cloud_instance_id i
               ∧ new_instance_status ev
                 = match ns_status n with
                   | NS_DEAD => RAY_STOPPED
                   | NS_DRAINING => RAY_STOPPING
                   | _ => RAY_RUNNING
                   end
               ∧ ns_status n ≠ NS_UNSPECIFIED
               ∧ new_instance_status ev ≠ im_status i
               ∧ im_status i ∉ get_reachable_statuses (new_instance_status ev).
Proof.
  unfold ray_status_updates.
  destruct (ray_nodes_by_cloud_instance_id ray_nodes []) as [nodes|] eqn:Hnodes;
    [|done].
  intros Hloop.
  eapply (ray_status_loop_inv _ _ _ _ _ Hloop); [|constructor|by intros ? ? ?%elem_of_nil].
  intros cid n i st node_id Hn HD Hrec Hne _. simpl.
  split; [done|]. split; [done|]. exists i, n.
  destruct (ray_nodes_by_cloud_instance_id_elem _ _ _ _ _ Hnodes Hn)
    as [Hnil|[Hin Hcid]]; [by apply elem_of_nil in Hnil|].
  apply dict_get_Some_elem in HD.
  apply (dict_fold_elem (λ i, str_truthy (cloud_instance_id i)) cloud_instance_id
           instances [] cid i) in HD
    as [Hnil|(Hi & Htruthy & Hc)]; [by apply elem_of_nil in Hnil|].
  unfold _reconciled_im_status_from_ray_status in Hrec.
  assert (st = match ns_status n with
               | NS_DEAD => RAY_STOPPED
               | NS_DRAINING => RAY_STOPPING
               | _ => RAY_RUNNING
               end
          ∧ ns_status n ≠ NS_UNSPECIFIED
          ∧ im_status i ∉ get_reachable_statuses st) as (Hst & Hns & Hreach).
  { destruct (ns_status n); cbv beta iota zeta in Hrec; [done|..];
      (destruct (bool_decide (im_status i = _) || _) eqn:Hkeep;
       injection Hrec as <-; [done|];
       apply orb_false_iff in Hkeep as [_ Hreach%bool_decide_eq_false];
       split_and!; [done|done|exact Hreach]). }
  split_and!; [done|done|done|done|by rewrite Hc|done..].
Qed.

Lemma allocation_loop_nothing insts : ∀ updates,
  allocation_loop insts [] [] updates = updates.
Proof. induction insts as [|i insts IH]; intros updates; simpl; [done|apply IH]. Qed.

Lemma install_failed_no_errors (l : list (string * IMInstance)) : ∀ u0,
  foldl (λ updates (p : string * IMInstance),
           match dict_get ([] : list (string * RayInstallError)) p.1 with
           | Some install_error =>
               dict_set updates p.1
                 {| ev_instance_id := p.1;
                    new_instance_status := RAY_INSTALL_FAILED;
                    ev_cloud_instance_id := EmptyString;
                    ev_details := rie_details install_error |}
           | None => updates
           end) u0 l = u0.
Proof. induction l as [|p l IH]; intros u0; simpl; [done|apply IH]. Qed.

(** X25. With nothing observed (no ray node, no cloud instance, no error of
    the provider and no install error) [sync_from] changes nothing, whatever
    the instance manager holds: it returns the state it was given, submits
    no event and raises no exception. *)
Theorem sync_from_nothing_observed now st :
  sync_from now st [] [] [] [] = Ok (st, []).
Proof.
  unfold sync_from, _handle_cloud_instance_allocation, _get_im_instances,
    allocation_updates, unassigned_by_type, launch_errors_of,
    _handle_cloud_instance_terminated, _handle_ray_status_transition,
    _handle_ray_install_failed, install_failed_updates, ray_status_updates.
  simpl. rewrite allocation_loop_nothing. simpl.
  by rewrite install_failed_no_errors.
Qed.

(** *** The allocation pass binds a cloud instance at most once *)

Lemma NoDup_submseteq_of {A} (l k : list A) : l ⊆+ k → NoDup k → NoDup l.
Proof.
  intros [k' Hk]%submseteq_Permutation Hnd. rewrite Hk in Hnd.
  by apply NoDup_app in Hnd as [? _].
Qed.

Lemma NoDup_fmap_filter {A B} (f : A → B) (P : A → Prop) `{∀ x, Decision (P x)}
    (l : list A) :
  NoDup (map f l) → NoDup (map f (filter P l)).
Proof.
  induction l as [|x l IH]; [done|]. simpl. intros [Hx Hnd]%NoDup_cons.
  rewrite filter_cons. destruct (decide (P x)); [|by apply IH].
  simpl. apply NoDup_cons. split; [|by apply IH].
  intros Hin. apply Hx. apply list_elem_of_fmap in Hin as (y & -> & Hy).
  apply list_elem_of_filter in Hy as [_ Hy]. apply list_elem_of_fmap. by exists y.
Qed.

Lemma allocated_cloud_ids_cons kv updates :
  allocated_cloud_ids (kv :: updates)
  = allocated_cloud_ids [kv] ++ allocated_cloud_ids updates.
Proof.
  unfold allocated_cloud_ids, dict_values. simpl. rewrite !filter_cons.
  by destruct (decide _).
Qed.

Lemma allocated_cloud_ids_single k ev :
  allocated_cloud_ids [(k, ev)]
  = if decide (new_instance_status ev = ALLOCATED)
    then [ev_cloud_instance_id ev] else [].
Proof.
  unfold allocated_cloud_ids, dict_values.
  change (map snd [(k, ev)]) with [ev].
  rewrite filter_cons, filter_nil. by destruct (decide _).
Qed.

Lemma allocated_cloud_ids_set updates k ev :
  allocated_cloud_ids (dict_set updates k ev)
  ⊆+ allocated_cloud_ids [(k, ev)] ++ allocated_cloud_ids updates.
Proof.
  induction updates as [|[k0 v0] updates IH]; simpl.
  - by rewrite app_nil_r.
  - destruct (decide (k0 = k)) as [->|Hne].
    + rewrite (allocated_cloud_ids_cons (k, ev)), (allocated_cloud_ids_cons (k, v0)).
      apply submseteq_skips_l, submseteq_inserts_l. done.
    + rewrite (allocated_cloud_ids_cons (k0, v0) (dict_set _ _ _)),
        (allocated_cloud_ids_cons (k0, v0) updates).
      etrans; [apply submseteq_skips_l, IH|].
      by rewrite Permutation_app_swap_app.
Qed.

Lemma pool_pop (U : list (NodeType * list CloudInstance)) k b b' :
  dict_get U k = Some b →
  ∃ R, concat (dict_values U) ≡ₚ b ++ R
       ∧ concat (dict_values (dict_set U k b')) ≡ₚ b' ++ R.
Proof.
  induction U as [|[k0 v0] U IH]; simpl; [done|].
  destruct (decide (k0 = k)) as [->|Hne].
  - intros [= ->]. by exists (concat (dict_values U)).
  - intros Hget. destruct (IH Hget) as (R & H1 & H2).
    exists (v0 ++ R). simpl. rewrite H1, H2.
    split; apply Permutation_app_swap_app.
Qed.

Lemma pool_push (U : list (NodeType * list CloudInstance)) k c :
  concat (dict_values (dict_set U k (default [] (dict_get U k) ++ [c])))
  ≡ₚ c :: concat (dict_values U).
Proof.
  induction U as [|[k0 v0] U IH]; simpl; [done|].
  destruct (decide (k0 = k)) as [->|Hne]; simpl.
  - rewrite <-app_assoc. simpl. by rewrite <-Permutation_middle.
  - rewrite IH. by rewrite <-Permutation_middle.
Qed.

Lemma unassigned_fold_perm (assigned : list CloudInstanceId)
    (cloud : list (CloudInstanceId * CloudInstance)) : ∀ d,
  concat (dict_values
            (foldl (λ d (p : CloudInstanceId * CloudInstance),
                      if bool_decide (p.1 ∈ assigned) then d
                      else dict_set d (ci_node_type p.2)
                             (default [] (dict_get d (ci_node_type p.2)) ++ [p.2]))
                   d cloud))
  ≡ₚ concat (dict_values d) ++ map snd (filter (λ p, p.1 ∉ assigned) cloud).
Proof.
  induction cloud as [|[id c] cloud IH]; intros d; simpl.
  - by rewrite app_nil_r.
  - rewrite IH, filter_cons. simpl. case_bool_decide as Hin.
    + by rewrite decide_False by tauto.
    + rewrite decide_True by done. simpl. rewrite pool_push.
      by rewrite <-Permutation_middle.
Qed.

Lemma allocation_loop_once (Q : CloudInstance → Prop) errs insts :
  ∀ pool updates,
    NoDup (map ci_cloud_instance_id (concat (dict_values pool))
           ++ allocated_cloud_ids updates) →
    (∀ c, c ∈ concat (dict_values pool) → Q c) →
    (∀ id ev, (id, ev) ∈ updates → new_instance_status ev = ALLOCATED →
              ∃ c, Q c ∧ ci_cloud_instance_id c = ev_cloud_instance_id ev) →
    NoDup (allocated_cloud_ids (allocation_loop insts pool errs updates))
    ∧ ∀ id ev, (id, ev) ∈ allocation_loop insts pool errs updates →
               new_instance_status ev = ALLOCATED →
               ∃ c, Q c ∧ ci_cloud_instance_id c = ev_cloud_instance_id ev.
Proof.
  induction insts as [|i insts IH]; intros pool updates Hnd Hpool Hup; simpl.
  - split; [|done]. by apply NoDup_app in Hnd as (_ & _ & ?).
  - unfold _try_or_fail_allocation.
    destruct (list_pop_last _) as [[c rest]|] eqn:Hpop.
    + apply list_pop_last_Some in Hpop.
      destruct (dict_get pool (instance_type i)) as [b|] eqn:Hget;
        [|by destruct rest]. simpl in Hpop. subst b.
      destruct (pool_pop pool (instance_type i) _ rest Hget) as (R & H1 & H2).
      apply IH.
      * eapply NoDup_submseteq_of; [|exact Hnd].
        etrans; [apply submseteq_skips_l, allocated_cloud_ids_set|].
        rewrite allocated_cloud_ids_single, decide_True by done.
        rewrite H1, H2, !map_app, <-!app_assoc. simpl.
        apply submseteq_skips_l.
        by rewrite <-Permutation_middle.
      * intros c' Hc'. apply Hpool. rewrite H1. rewrite H2 in Hc'.
        apply elem_of_app in Hc' as [?|?]; apply elem_of_app; [left|by right].
        apply elem_of_app. by left.
      * intros id ev [[-> ->]|Hin]%dict_set_elem Hst; [|by eapply Hup].
        exists c. split; [|done]. apply Hpool. rewrite H1.
        apply elem_of_app. left. apply elem_of_app. right. left.
    + destruct (dict_get errs _) as [e|]; [|by apply IH].
      case_bool_decide; [|by apply IH].
      apply IH; [|done|].
      * eapply NoDup_submseteq_of; [|exact Hnd].
        apply submseteq_skips_l.
        etrans; [apply allocated_cloud_ids_set|].
        by rewrite allocated_cloud_ids_single, decide_False by done.
      * intros id ev [[-> ->]|Hin]%dict_set_elem Hst; [done|by eapply Hup].
Qed.

(** X26. The allocation pass of [sync_from] binds a cloud instance to at
    most one instance: when no two of the reported cloud instances have the
    same cloud instance id, no two of the events that move an instance to
    ALLOCATED name the same cloud instance, and each of them names a
    reported cloud instance that is bound to no instance of the instance
    manager. *)
Theorem allocation_binds_once im_instances non_terminated errors :
  NoDup (map (λ p, ci_cloud_instance_id p.2) non_terminated) →
  NoDup (allocated_cloud_ids (allocation_updates im_instances non_terminated errors))
  ∧ ∀ id ev, (id, ev) ∈ allocation_updates im_instances non_terminated errors →
      new_instance_status ev = ALLOCATED →
      ∃ k c, (k, c) ∈ non_terminated
             ∧ (k ∉ map cloud_instance_id im_instances)
             ∧ ci_cloud_instance_id c = ev_cloud_instance_id ev.
Proof.
  intros Hnd. unfold allocation_updates.
  destruct (allocation_loop_once
              (λ c, ∃ k, (k, c) ∈ non_terminated
                         ∧ (k ∉ map cloud_instance_id im_instances))
              (launch_errors_of errors)
              (instances_with_launch_requests im_instances)
              (unassigned_by_type im_instances non_terminated) [])
    as [Hnd' Hev].
  - unfold allocated_cloud_ids. simpl. rewrite app_nil_r.
    unfold unassigned_by_type. rewrite unassigned_fold_perm. simpl.
    rewrite map_map.
    by apply (NoDup_fmap_filter (λ p, ci_cloud_instance_id p.2)).
  - intros c Hc. unfold unassigned_by_type in Hc.
    rewrite unassigned_fold_perm in Hc. simpl in Hc.
    apply list_elem_of_fmap in Hc as ([k c'] & -> & Hin).
    apply list_elem_of_filter in Hin as [Hk Hin]. by exists k.
  - by intros ? ? ?%elem_of_nil.
  - split; [done|]. intros id ev Hin Hst.
    destruct (Hev id ev Hin Hst) as (c & (k & ? & ?) & ?). by exists k, c.
Qed.

Lemma ray_nodes_by_cloud_instance_id_raises ray_nodes n :
  n ∈ ray_nodes → str_truthy (ns_instance_id n) = false →
  utf8_ok (bytes_of_string (ns_node_id n)) = false →
  ∀ d, ray_nodes_by_cloud_instance_id ray_nodes d = Err UnicodeDecodeError.
Proof.
  intros Hin Hid Hbad.
  induction ray_nodes as [|x l IH]; intros d; [by apply elem_of_nil in Hin|].
  simpl. apply elem_of_cons in Hin as [<-|Hin].
  - rewrite Hid. unfold decode_utf8. by rewrite Hbad.
  - destruct (str_truthy (ns_instance_id x)); [by apply IH|].
    destruct (decode_utf8 (ns_node_id x)) as [?|e] eqn:Hdec; [by apply IH|].
    by apply decode_utf8_err in Hdec as ->.
Qed.

(** X27. [_handle_ray_status_transition] raises [UnicodeDecodeError] when a
    ray node without an instance id has a node id that is not valid UTF-8:
    the warning that is logged for such a node decodes its id.  No event is
    submitted then. *)
Theorem ray_status_raises_on_invalid_node_id now st ray_nodes n :
  n ∈ ray_nodes → str_truthy (ns_instance_id n) = false →
  utf8_ok (bytes_of_string (ns_node_id n)) = false →
  _handle_ray_status_transition now st ray_nodes = Err UnicodeDecodeError.
Proof.
  intros Hin Hid Hbad.
  unfold _handle_ray_status_transition, _get_im_instances, ray_status_updates.
  by rewrite (ray_nodes_by_cloud_instance_id_raises _ _ Hin Hid Hbad).
Qed.


(** ** The scheduler on concrete requests *)

(** C7. Idle termination does not look at [min_worker_nodes]: with a minimum
    of one worker of type t1 and the only node of that type idle for longer
    than the timeout, [schedule] terminates the node with cause IDLE and
    launches nothing, which leaves no non-terminating node of the type. *)
Theorem idle_termination_ignores_min_workers :
  result_map (λ r, (map (λ t, (tr_instance_id t, cause t)) (to_terminate r),
                    map lr_instance_type (to_launch r)))
             (schedule (clock_from 1000) true request_idle_min)
  = Ok ([("i-1"%string, IDLE)], [])
  ∧ result_map (count_type "t1")
               (schedule_nodes (clock_from 1000) true request_idle_min)
    = Ok 0%nat
  ∧ (min_worker_nodes <$> dict_get (node_type_configs request_idle_min) "t1"%string)
    = Some 1.
Proof. split_and!; vm_compute; reflexivity. Qed.

(** C3. Two calls of [schedule] with the same request at different times
    return different replies: the id of a launch request is the time read
    from the clock. *)
Theorem schedule_depends_on_clock :
  result_map (λ r, map (λ l, (lr_instance_type l, lr_count l, lr_id l,
                              request_ts_ms l)) (to_launch r))
             (schedule (clock_from 1000) true request_min_one)
  = Ok [("t1"%string, 1, 1000, 1)]
  ∧ result_map (λ r, map (λ l, (lr_instance_type l, lr_count l, lr_id l,
                                request_ts_ms l)) (to_launch r))
               (schedule (clock_from 5000) true request_min_one)
    = Ok [("t1"%string, 1, 5000, 5)]
  ∧ schedule (clock_from 1000) true request_min_one
    ≠ schedule (clock_from 5000) true request_min_one.
Proof.
  split_and!; [vm_compute; reflexivity..|].
  intros Heq.
  apply (f_equal (result_map (λ r, map lr_id (to_launch r)))) in Heq.
  vm_compute in Heq. discriminate.
Qed.

(** C4. [schedule] raises [AssertionError] for a request with two cluster
    resource constraints. *)
Theorem schedule_raises_on_two_constraints :
  schedule (clock_from 1000) true request_two_constraints = Err AssertionError.
Proof. vm_compute. reflexivity. Qed.

(** [schedule] also raises when a request would change the value of a label
    that an earlier request put on the node. *)
Lemma schedule_raises_on_label_clash :
  schedule (clock_from 1000) true request_label_clash = Err AssertionError.
Proof. vm_compute. reflexivity. Qed.


(** ** The theorems at concrete inputs *)

Lemma sample_valid : valid (heap sample_state) [0; 1; 2]%nat.
Proof. repeat constructor; simpl; lia. Qed.

Lemma idle_termination_iff_witness :
  valid (heap sample_state) (_nodes sample_ctx)
  ∧ _idle_timeout_s sample_ctx = Some 1
  ∧ ∃ ctx' s', _enforce_idle_termination sample_ctx sample_state = Ok (ctx', s').
Proof.
  split; [repeat constructor; simpl; lia|]. split; [reflexivity|].
  destruct (idle_termination_iff sample_ctx sample_state 1) as (ctx' & s' & H & _).
  - repeat constructor; simpl; lia.
  - reflexivity.
  - by exists ctx', s'.
Defined.


Lemma schedule_within_max_workers_witness :
  wf_configs (node_type_configs request_over_max)
  ∧ ∃ nodes,
      schedule_nodes (clock_from 1000) true request_over_max = Ok nodes
      ∧ length nodes = 2%nat
      ∧ Z.of_nat (count_type "t1" nodes)
        ≤ max_workers_of (node_type_configs request_over_max) "t1".
Proof.
  assert (wf_configs (node_type_configs request_over_max)) as Hwf.
  { apply wf_configsb_true. vm_compute. reflexivity. }
  split; [exact Hwf|].
  destruct (schedule_nodes (clock_from 1000) true request_over_max)
    as [nodes|e] eqn:Hrun; [|vm_compute in Hrun; discriminate].
  exists nodes. split; [reflexivity|]. split.
  - apply (f_equal (result_map length)) in Hrun. vm_compute in Hrun.
    injection Hrun as Hlen. done.
  - exact (schedule_within_max_workers (clock_from 1000) true request_over_max
             nodes Hwf Hrun "t1"%string).
Defined.

Lemma schedule_terminates_outdated_witness :
  ∃ reply tr,
    schedule (clock_from 1000) true request_outdated = Ok reply
    ∧ tr ∈ to_terminate reply
    ∧ cause tr = OUTDATED ∧ tr_instance_id tr = "i-1"%string.
Proof.
  destruct (schedule (clock_from 1000) true request_outdated)
    as [reply|e] eqn:Hrun; [|vm_compute in Hrun; discriminate].
  destruct (schedule_terminates_outdated (clock_from 1000) true request_outdated
              reply (running_instance "t1" "i-1" 0 "h1")
              {| ns_node_id := "i-1"; ns_instance_id := "i-1";
                 ray_node_type_name := "t1";
                 ns_total_resources := {[ "CPU"%string := Qc_of_Z 1 ]};
                 ns_available_resources := {[ "CPU"%string := Qc_of_Z 1 ]};
                 dynamic_labels := ∅; ns_idle_duration_ms := 0;
                 ns_status := NS_IDLE |} Hrun)
    as (id & t & nodes & n & _ & _ & _ & _ & _ & _ & _ & Hc & Hin).
  - left.
  - reflexivity.
  - left. reflexivity.
  - exists reply. eexists. split; [reflexivity|]. split; [exact Hin|].
    split; [exact Hc|reflexivity].
Defined.

Lemma schedule_returns_for_served_witness :
  served {[ "zone"%string := "a"%string ]} request_served
  ∧ ∃ reply, schedule (clock_from 1000) true request_served = Ok reply.
Proof.
  assert (served {[ "zone"%string := "a"%string ]} request_served) as Hserved.
  { apply (bool_decide_unpack _). vm_compute. exact I. }
  split; [exact Hserved|].
  exact (schedule_returns_for_served {[ "zone"%string := "a"%string ]}
           (clock_from 1000) true request_served Hserved).
Defined.

Lemma schedule_raises_on_many_constraints_witness :
  (1 < length (cluster_resource_constraints request_two_constraints))%nat
  ∧ schedule (clock_from 1000) true request_two_constraints = Err AssertionError.
Proof.
  split; [simpl; lia|].
  apply schedule_raises_on_many_constraints.
  - intros inst rn Hin. simpl in Hin. by apply elem_of_nil in Hin.
  - simpl. lia.
Defined.

Lemma schedule_raises_on_invalid_node_id_witness :
  schedule (clock_from 1000) true request_bad_id = Err UnicodeDecodeError.
Proof.
  eapply schedule_raises_on_invalid_node_id.
  - left.
  - reflexivity.
  - vm_compute. reflexivity.
Defined.


Lemma try_schedule_one_raises_key_error_witness :
  _try_schedule_one (running_node "t1" "n1" 5000 (Qc_of_Z 1) "h1")
    zero_gpu_request false = Err KeyError.
Proof.
  apply (try_schedule_one_raises_key_error
           (running_node "t1" "n1" 5000 (Qc_of_Z 1) "h1") zero_gpu_request false
           "GPU"%string (Qc_of_Z 0)).
  - vm_compute. reflexivity.
  - vm_compute. reflexivity.
  - vm_compute. reflexivity.
  - vm_compute. reflexivity.
Defined.

Lemma try_schedule_accounts_witness :
  ∃ n' rem sc,
    try_schedule true (running_node "t1" "n1" 5000 (Qc_of_Z 1) "h1")
      [cpu_request []; cpu_request []] false = Ok (n', rem, sc)
    ∧ rem `sublist_of` [cpu_request []; cpu_request []].
Proof.
  destruct (try_schedule true (running_node "t1" "n1" 5000 (Qc_of_Z 1) "h1")
              [cpu_request []; cpu_request []] false)
    as [[[n' rem] sc]|e] eqn:Hrun; [|vm_compute in Hrun; discriminate].
  exists n', rem, sc. split; [reflexivity|].
  destruct (try_schedule_accounts _ _ _ _ _ _ _ Hrun) as (taken & Hrem & _).
  exact Hrem.
Defined.

Lemma try_schedule_keeps_identity_witness :
  ∃ n' rem sc,
    try_schedule true (running_node "t1" "n1" 5000 (Qc_of_Z 1) "h1")
      [cpu_request []] true = Ok (n', rem, sc)
    ∧ meta n' = meta (running_node "t1" "n1" 5000 (Qc_of_Z 1) "h1").
Proof.
  destruct (try_schedule true (running_node "t1" "n1" 5000 (Qc_of_Z 1) "h1")
              [cpu_request []] true)
    as [[[n' rem] sc]|e] eqn:Hrun; [|vm_compute in Hrun; discriminate].
  exists n', rem, sc. split; [reflexivity|].
  exact (proj1 (try_schedule_keeps_identity _ _ _ _ _ _ _ Hrun)).
Defined.

Lemma sched_best_node_progress_witness :
  ∃ best rs' nodes' s',
    _sched_best_node [cpu_request []] [0; 1; 2]%nat false sample_state
    = Ok ((best, rs', nodes'), s')
    ∧ extends (heap sample_state) (heap s').
Proof.
  destruct (_sched_best_node [cpu_request []] [0; 1; 2]%nat false sample_state)
    as [[[[best rs'] nodes'] s']|e] eqn:Hrun; [|vm_compute in Hrun; discriminate].
  exists best, rs', nodes', s'. split; [reflexivity|].
  refine (proj1 (sched_best_node_progress _ _ _ _ _ _ _ _ Hrun _)).
  repeat constructor; simpl; lia.
Defined.

Lemma try_schedule_conserves_witness :
  ∃ target rs' s',
    _try_schedule sample_ctx [cpu_request []; cpu_request []] false sample_state
    = Ok ((target, rs'), s')
    ∧ rs' ⊆+ [cpu_request []; cpu_request []].
Proof.
  destruct (_try_schedule sample_ctx [cpu_request []; cpu_request []] false
              sample_state)
    as [[[target rs'] s']|e] eqn:Hrun; [|vm_compute in Hrun; discriminate].
  exists target, rs', s'. split; [reflexivity|].
  refine (proj1 (proj2 (try_schedule_conserves _ _ _ _ _ _ _ Hrun _ _))).
  - split; [repeat constructor; simpl; lia|reflexivity].
  - apply wf_configsb_true. vm_compute. reflexivity.
Defined.

Lemma try_schedule_loops_terminate_witness :
  _try_schedule sample_ctx [cpu_request []] false sample_state ≠ Err OutOfFuel.
Proof.
  apply try_schedule_loops_terminate.
  - split; [repeat constructor; simpl; lia|reflexivity].
  - apply wf_configsb_true. vm_compute. reflexivity.
Defined.

Lemma available_node_types_counts_witness :
  dict_keys (_compute_available_node_types (heap sample_state)
               [cpu_config "t1" 0 5 "h1"])
  = ["t1"%string].
Proof.
  refine (proj1 (available_node_types_counts (heap sample_state)
                   [cpu_config "t1" 0 5 "h1"] _)).
  apply (bool_decide_unpack _). vm_compute. exact I.
Defined.

Lemma enforce_min_workers_reaches_min_witness :
  ∃ ctx' s', _enforce_min_workers_per_type sample_ctx sample_state = Ok (ctx', s').
Proof.
  destruct (enforce_min_workers_reaches_min sample_ctx sample_state)
    as (ctx' & s' & added & Hrun & _).
  - split; [repeat constructor; simpl; lia|reflexivity].
  - apply wf_configsb_true. vm_compute. reflexivity.
  - by exists ctx', s'.
Defined.

Lemma enforce_max_per_type_bounds_witness :
  ∃ ctx' s',
    _enforce_max_workers_per_type sample_ctx sample_state = Ok (ctx', s')
    ∧ Z.of_nat (count_type "t1" (vals (heap s') (_nodes ctx'))) ≤ 5.
Proof.
  destruct (enforce_max_per_type_bounds sample_ctx sample_state)
    as (ctx' & s' & Hrun & _ & Hb).
  - repeat constructor; simpl; lia.
  - exists ctx', s'. split; [exact Hrun|]. exact (Hb "t1"%string).
Defined.

Lemma enforce_max_global_caps_witness :
  ∃ ctx' s',
    _enforce_max_workers_global
      (updated {| _node_type_configs := [cpu_config "t1" 0 5 "h1"];
                  _max_num_nodes := Some 2; _idle_timeout_s := None;
                  _nodes := []; _node_type_available := [] |}
               (heap sample_state) [0; 1; 2]%nat) sample_state
    = Ok (ctx', s')
    ∧ Z.of_nat (count_live (vals (heap s') (_nodes ctx'))) ≤ 2.
Proof.
  destruct (enforce_max_global_caps
              (updated {| _node_type_configs := [cpu_config "t1" 0 5 "h1"];
                          _max_num_nodes := Some 2; _idle_timeout_s := None;
                          _nodes := []; _node_type_available := [] |}
                       (heap sample_state) [0; 1; 2]%nat) sample_state)
    as (ctx' & s' & Hrun & Hcap).
  - repeat constructor; simpl; lia.
  - exists ctx', s'. split; [exact Hrun|]. exact Hcap.
Defined.

Lemma terminate_outdated_marks_exactly_witness :
  ∃ ctx' s', _terminate_outdated_nodes sample_ctx sample_state = Ok (ctx', s').
Proof.
  destruct (terminate_outdated_marks_exactly sample_ctx sample_state)
    as (ctx' & s' & Hrun & _).
  - repeat constructor; simpl; lia.
  - by exists ctx', s'.
Defined.

Lemma idle_termination_disabled_witness :
  ∃ ctx' s',
    _enforce_idle_termination
      (updated {| _node_type_configs := [cpu_config "t1" 0 5 "h1"];
                  _max_num_nodes := None; _idle_timeout_s := None;
                  _nodes := []; _node_type_available := [] |}
               (heap sample_state) [0; 1; 2]%nat) sample_state
    = Ok (ctx', s')
    ∧ vals (heap s') (_nodes ctx') = heap sample_state.
Proof.
  destruct (idle_termination_disabled
              (updated {| _node_type_configs := [cpu_config "t1" 0 5 "h1"];
                          _max_num_nodes := None; _idle_timeout_s := None;
                          _nodes := []; _node_type_available := [] |}
                       (heap sample_state) [0; 1; 2]%nat) sample_state)
    as (ctx' & s' & Hrun & Hsame).
  - repeat constructor; simpl; lia.
  - reflexivity.
  - exists ctx', s'. split; [exact Hrun|]. exact Hsame.
Defined.

Lemma enforce_resource_constraints_all_or_nothing_witness :
  ∃ ctx' inf s',
    _enforce_resource_constraints sample_ctx [one_cpu_constraint] sample_state
    = Ok ((ctx', inf), s')
    ∧ vals (heap s') (_nodes sample_ctx) = heap sample_state.
Proof.
  destruct (_enforce_resource_constraints sample_ctx [one_cpu_constraint]
              sample_state)
    as [[[ctx' inf] s']|e] eqn:Hrun; [|vm_compute in Hrun; discriminate].
  exists ctx', inf, s'. split; [reflexivity|].
  refine (proj2 (enforce_resource_constraints_all_or_nothing _ _ _ _ _ _ _ Hrun)).
  repeat constructor; simpl; lia.
Defined.

Lemma schedule_launches_within_max_witness :
  wf_configs (node_type_configs request_served)
  ∧ ∃ reply,
      schedule (clock_from 1000) true request_served = Ok reply
      ∧ NoDup (map lr_instance_type (to_launch reply)).
Proof.
  assert (wf_configs (node_type_configs request_served)) as Hwf.
  { apply wf_configsb_true. vm_compute. reflexivity. }
  split; [exact Hwf|].
  destruct (schedule (clock_from 1000) true request_served)
    as [reply|e] eqn:Hrun; [|vm_compute in Hrun; discriminate].
  exists reply. split; [reflexivity|].
  exact (proj1 (schedule_launches_within_max (clock_from 1000) true
                  request_served reply Hwf Hrun)).
Defined.

Lemma get_nodes_returns_copies_witness :
  ∃ l s',
    get_nodes sample_ctx sample_state = Ok (l, s')
    ∧ vals (heap s') l = heap sample_state.
Proof.
  destruct (get_nodes_returns_copies sample_ctx sample_state)
    as (l & s' & Hrun & Hvals & _).
  - repeat constructor; simpl; lia.
  - exists l, s'. split; [exact Hrun|]. exact Hvals.
Defined.

Lemma schedule_reports_requested_witness :
  ∃ reply,
    schedule (clock_from 1000) true request_served = Ok reply
    ∧ infeasible_gang_resource_requests reply
      ⊆+ gang_resource_requests request_served.
Proof.
  destruct (schedule (clock_from 1000) true request_served)
    as [reply|e] eqn:Hrun; [|vm_compute in Hrun; discriminate].
  exists reply. split; [reflexivity|].
  exact (proj1 (proj2 (schedule_reports_requested (clock_from 1000) true
                         request_served reply Hrun))).
Defined.

Lemma reconciled_status_fixed_witness :
  _reconciled_im_status_from_ray_status NS_RUNNING ALLOCATED = Some RAY_RUNNING
  ∧ _reconciled_im_status_from_ray_status NS_RUNNING RAY_RUNNING = Some RAY_RUNNING.
Proof.
  assert (_reconciled_im_status_from_ray_status NS_RUNNING ALLOCATED
          = Some RAY_RUNNING) as Hrec by (vm_compute; reflexivity).
  split; [exact Hrec|].
  exact (reconciled_status_fixed NS_RUNNING ALLOCATED RAY_RUNNING Hrec).
Defined.

Lemma ray_status_updates_sound_witness :
  ∃ updates,
    ray_status_updates
      [mk_instance "i-1" "t1" RAY_INSTALLING "c-1" "r-1" []]
      [mk_ray_node "n-1" "c-1" NS_RUNNING] = Ok updates
    ∧ NoDup (dict_keys updates).
Proof.
  destruct (ray_status_updates
              [mk_instance "i-1" "t1" RAY_INSTALLING "c-1" "r-1" []]
              [mk_ray_node "n-1" "c-1" NS_RUNNING])
    as [updates|e] eqn:Hrun; [|vm_compute in Hrun; discriminate].
  exists updates. split; [reflexivity|].
  exact (proj1 (ray_status_updates_sound _ _ _ Hrun)).
Defined.

Lemma allocation_binds_once_witness :
  NoDup (map (λ p : CloudInstanceId * CloudInstance, ci_cloud_instance_id p.2)
           cloud_two)
  ∧ NoDup (allocated_cloud_ids
             (allocation_updates (im_instances im_requested) cloud_two [])).
Proof.
  assert (NoDup (map (λ p : CloudInstanceId * CloudInstance,
                        ci_cloud_instance_id p.2) cloud_two)) as Hnd.
  { apply (bool_decide_unpack _). vm_compute. exact I. }
  split; [exact Hnd|].
  exact (proj1 (allocation_binds_once (im_instances im_requested) cloud_two []
                  Hnd)).
Defined.

Lemma ray_status_raises_on_invalid_node_id_witness :
  _handle_ray_status_transition 100 im_requested
    [mk_ray_node (String (ascii_of_nat 255) EmptyString) EmptyString NS_RUNNING]
  = Err UnicodeDecodeError.
Proof.
  eapply ray_status_raises_on_invalid_node_id.
  - left.
  - reflexivity.
  - vm_compute. reflexivity.
Defined.

